(** * Coupled harmonic oscillator: analytic core

    A shallow embedding of the numeric core of the repository
    (src/fraction.js, fractions.js, the expression builder of latex.js,
    the CoupledOscillator class and the solver of physics.js) together
    with the properties stated about it.

    Numbers are modelled in ideal arithmetic: a finite JavaScript number
    is a rational (modules [Fraction], [Fractions]) or a real (modules
    [Oscillator], [Physics]); the rounding of IEEE doubles is not
    modelled.  The non-finite values of JavaScript appear where the code
    tests for them.

    A property that rounding can break is therefore stated within a
    tolerance, and for arguments in a range where the rounding of
    binary64 stays below that tolerance: the moderate configurations of
    the oscillator, the rounding slack of the rational approximators,
    steps that are not absorbed by the time they are added to.  The
    lemmas marked as holding over the reals or over the rationals are
    facts of the ideal arithmetic, from which these properties follow. *)

From Stdlib Require Import ZArith QArith Qabs Qround Reals Lra Lia Psatz.
From Stdlib Require Import String Ascii Bool Znumtheory.
From Stdlib Require Import Decimal DecimalString DecimalZ DecimalPos.

(* ================================================================== *)
(** * Loops

    [for] and [while] loops are run by iterating their body.  A body
    either moves to the next state, or leaves the loop with a result
    ([break], [return], or a false loop condition); [None] stands for a
    callee that did not return.  [run] gives [None] when the fuel is
    exhausted before the loop is left. *)

Inductive step (St Res : Type) : Type :=
| Next (s : St)
| Return (r : Res).

Arguments Next {St Res} s.
Arguments Return {St Res} r.

Fixpoint run {St Res : Type} (body : St -> option (step St Res))
         (fuel : nat) (s : St) : option Res :=
  match fuel with
  | O => None
  | S fuel' =>
      match body s with
      | None => None
      | Some (Return r) => Some r
      | Some (Next s') => run body fuel' s'
      end
  end.

Definition bind {A B : Type} (x : option A) (f : A -> option B) : option B :=
  match x with
  | Some a => f a
  | None => None
  end.

Notation "x <- c ;; k" := (bind c (fun x => k))
  (at level 61, c at next level, right associativity).

(** A JavaScript number: a finite value or one of the three non-finite
    ones. *)
Inductive number : Type :=
| Finite (q : Q)
| Infinity
| NegInfinity
| NaN.

Definition Qltb (a b : Q) : bool := negb (Qle_bool b a).

(** [v === 0], [v < 0], [v > 0] and [Math.abs(v)]. *)
Definition number_is_zero (v : number) : bool :=
  match v with
  | Finite q => Qeq_bool q 0
  | _ => false
  end.

Definition number_lt_zero (v : number) : bool :=
  match v with
  | Finite q => Qltb q 0
  | NegInfinity => true
  | _ => false
  end.

Definition number_gt_zero (v : number) : bool :=
  match v with
  | Finite q => Qltb 0 q
  | Infinity => true
  | _ => false
  end.

Definition number_abs (v : number) : number :=
  match v with
  | Finite q => Finite (Qabs q)
  | Infinity | NegInfinity => Infinity
  | NaN => NaN
  end.

(* ================================================================== *)
(** * Numbers as strings

    [Number::toString] writes an integer of at most 2^53 in magnitude
    with its decimal digits, and a negative number with a minus sign
    before the string of its magnitude.  The strings of the other finite
    numbers (the larger ones are written with the shortest digits that
    round to them, padded with zeros, or with an exponent), and those of
    [Number.prototype.toFixed], are not computed by this model: they are
    the fields [other] and [toFixed] of a [printer], which every
    function that writes numbers takes as an argument. *)

Record printer : Type := mkPrinter {
  other : Q -> string;
  toFixed : Q -> Z -> string
}.

(** The string of a finite number [q >= 0]. *)
Definition digits (pr : printer) (q : Q) : string :=
  if Qeq_bool q (inject_Z (Qfloor q)) && (Qfloor q <=? 2 ^ 53)%Z
  then NilZero.string_of_int (Z.to_int (Qfloor q))
  else other pr q.

(** [String(v)], [`${v}`] and ['' + v]. *)
Definition toString (pr : printer) (v : number) : string :=
  match v with
  | Finite q =>
      if Qltb q 0 then ("-" ++ digits pr (- q))%string else digits pr q
  | Infinity => "Infinity"
  | NegInfinity => "-Infinity"
  | NaN => "NaN"
  end.

(** [Math.abs(v).toFixed(4)]. *)
Definition abs_toFixed4 (pr : printer) (v : number) : string :=
  match v with
  | Finite q => toFixed pr (Qabs q) 4
  | Infinity | NegInfinity => "Infinity"
  | NaN => "NaN"
  end.

(* ================================================================== *)
(** * src/fraction.js *)

Module Fraction.

Local Open Scope Z_scope.

(** [{num, den}]; [num] is an integer or a signed infinity. *)
Record fraction : Type := mkFraction { num : number; den : Z }.

(** [while (b) { t = b; b = a % b; a = t; }] on the state [(a, b)]. *)
Definition gcd_body (s : Z * Z) : option (step (Z * Z) Z) :=
  let '(a, b) := s in
  if b =? 0 then Some (Return a)
  else Some (Next (b, a mod b)).

(** [gcd(a, b)]: the arguments are integers at every call of the
    repository, so [Math.round] is the identity on them.  The loop is
    given [|b| + 1] iterations, which [gcd_loop_returns] shows to be
    enough. *)
Definition gcd (a b : Z) : option Z :=
  let a := Z.abs a in
  let b := Z.abs b in
  a <- run gcd_body (S (Z.to_nat b)) (a, b) ;;
  Some (if a =? 0 then 1 else a).

(** [reduceFraction(num, den)] on integers.  The quotients [absNum / g]
    and [absDen / g] are exact, [g] dividing both. *)
Definition reduceFraction (num den : Z) : option fraction :=
  if den =? 0 then
    Some (mkFraction (if 0 <=? num then Infinity else NegInfinity) 1)
  else if num =? 0 then Some (mkFraction (Finite 0) 1)
  else
    let sign := if xorb (num <? 0) (den <? 0) then -1 else 1 in
    let absNum := Z.abs num in
    let absDen := Z.abs den in
    g <- gcd absNum absDen ;;
    Some (mkFraction (Finite (inject_Z (sign * (absNum / g)))) (absDen / g)).

(** The variables of the mediant loop of [decimalToFraction]. *)
Record search : Type := mkSearch {
  iter : Z;
  lo_n : Z; lo_d : Z;
  hi_n : Z; hi_d : Z;
  best_n : Z; best_d : Z;
  bestErr : Q
}.

(** How the loop was left: by [med_d > maxDen], by [err < tol], or by
    the loop condition [iter < 200]. *)
Inductive loop_exit : Type := DenExceeded | WithinTol | CapReached.

Definition search_body (x : Q) (maxDen : Z) (tol : Q) (s : search)
  : option (step search (loop_exit * search)) :=
  if iter s <? 200 then
    let med_n := lo_n s + hi_n s in
    let med_d := lo_d s + hi_d s in
    if med_d >? maxDen then Some (Return (DenExceeded, s))
    else
      let medVal := (inject_Z med_n / inject_Z med_d)%Q in
      let err := Qabs (x - medVal) in
      let s1 :=
        if Qltb err (bestErr s)
        then mkSearch (iter s) (lo_n s) (lo_d s) (hi_n s) (hi_d s)
                      med_n med_d err
        else s in
      if Qltb err tol then Some (Return (WithinTol, s1))
      else if Qltb medVal x
      then Some (Next (mkSearch (iter s + 1) med_n med_d (hi_n s1) (hi_d s1)
                                (best_n s1) (best_d s1) (bestErr s1)))
      else Some (Next (mkSearch (iter s + 1) (lo_n s1) (lo_d s1) med_n med_d
                                (best_n s1) (best_d s1) (bestErr s1)))
  else Some (Return (CapReached, s)).

(** [Math.round] on a number [x >= 0]. *)
Definition round (x : Q) : Z := Qfloor (x + (1 # 2)).

Definition search_init (x : Q) : search :=
  let best_n := round x in
  mkSearch 0 0 1 1 0 best_n 1 (Qabs (x - inject_Z best_n)).

(** The loop of [decimalToFraction] on [x = Math.abs(x)]. *)
Definition mediant_search (x : Q) (maxDen : Z) (tol : Q)
  : option (loop_exit * search) :=
  run (search_body x maxDen tol) 201 (search_init x).

Definition decimalToFraction (x : number) (maxDen : Z) (tol : Q)
  : option fraction :=
  match x with
  | Infinity => Some (mkFraction Infinity 1)
  | NegInfinity | NaN => Some (mkFraction NegInfinity 1)
  | Finite x =>
      if Qltb (Qabs x) tol then Some (mkFraction (Finite 0) 1)
      else
        let sign := if Qltb x 0 then -1 else 1 in
        let x := Qabs x in
        r <- mediant_search x maxDen tol ;;
        reduceFraction (sign * best_n (snd r)) (best_d (snd r))
  end.

(** The default arguments [maxDen = 10000], [tol = 1e-9]. *)
Definition default_maxDen : Z := 10000.
Definition default_tol : Q := 1 # 1000000000.

(** [fracToLatex(num, den, {showPlus, skipOne})]; both options are
    [false] by default.  With [den] a non-zero integer, [num / den] is
    finite when [num] is. *)
Definition fracToLatex (pr : printer) (num : number) (den : Z)
           (showPlus skipOne : bool) : string :=
  match num with
  | Finite q =>
      if den =? 0 then "\infty"%string
      else if Qeq_bool q 0 then "0"%string
      else
        let sign :=
          (if Qltb q 0 then "-" else if showPlus then "+" else "")%string in
        let absNum := Qabs q in
        let absDen := Z.abs den in
        let magnitude :=
          if absDen =? 1 then
            if Qeq_bool absNum 1 && skipOne then ""%string
            else toString pr (Finite absNum)
          else
            ("\frac{" ++ toString pr (Finite absNum) ++ "}{"
             ++ toString pr (Finite (inject_Z absDen)) ++ "}")%string in
        (sign ++ magnitude)%string
  | _ => "\infty"%string
  end.

(** [decimalToLatex(x, {maxDen, showPlus, skipOne})]. *)
Definition decimalToLatex (pr : printer) (x : number) (maxDen : option Z)
           (showPlus skipOne : bool) : option string :=
  f <- decimalToFraction x
         (match maxDen with Some m => m | None => default_maxDen end)
         default_tol ;;
  Some (fracToLatex pr (num f) (den f) showPlus skipOne).

End Fraction.

(* ================================================================== *)
(** * src/latex.js: the expression builder

    [generateLatex] applies [buildExpression] to the coefficients of a
    [CoupledOscillator]. *)

Module Latex.

Local Open Scope list_scope.

(** [coeffLatex(value, isFirst, skipOne)]: [(latex, isZero)]. *)
Definition coeffLatex (pr : printer) (value : number)
           (isFirst skipOne : bool) : option (string * bool) :=
  f <- Fraction.decimalToFraction value Fraction.default_maxDen
         Fraction.default_tol ;;
  if number_is_zero (Fraction.num f) then Some (""%string, true)
  else Some (Fraction.fracToLatex pr (Fraction.num f) (Fraction.den f)
               (negb isFirst) skipOne, false).

(** [{ coeff, trigFn, omegaLabel }] *)
Record term : Type := mkTerm {
  coeff : number;
  trigFn : string;
  omegaLabel : string
}.

(** The variables [parts] and [firstWritten] of [buildExpression]. *)
Record builder : Type := mkBuilder {
  parts : list string;
  firstWritten : bool
}.

(** The local [trig] of the loop of [buildExpression]. *)
Definition trig (t : term) : string :=
  (trigFn t ++ "\!\left(" ++ omegaLabel t ++ "\, t\right)")%string.

(** The body of the loop of [buildExpression]. *)
Definition build_body (pr : printer) (s : builder) (t : term)
  : option builder :=
  c <- coeffLatex pr (coeff t) (negb (firstWritten s)) true ;;
  let '(cLat, isZero) := c in
  if isZero then Some s
  else
    let trig := trig t in
    f <- Fraction.decimalToFraction (coeff t) Fraction.default_maxDen
           Fraction.default_tol ;;
    let cn := Fraction.num f in
    let cd := Fraction.den f in
    let magIsOne :=
      match number_abs cn with
      | Finite q => Qeq_bool q (inject_Z (Z.abs cd))
      | _ => false
      end in
    if magIsOne && negb (number_is_zero cn) then
      let sign :=
        (if number_lt_zero (coeff t) then "-"
         else if negb (firstWritten s) then "" else "+")%string in
      Some (mkBuilder (parts s ++ (sign ++ trig)%string :: nil) true)
    else
      Some (mkBuilder (parts s ++ (cLat ++ trig)%string :: nil) true).

Fixpoint build_loop (pr : printer) (terms : list term) (s : builder)
  : option builder :=
  match terms with
  | nil => Some s
  | t :: terms' => s' <- build_body pr s t ;; build_loop pr terms' s'
  end.

(** [buildExpression(terms)] *)
Definition buildExpression (pr : printer) (terms : list term)
  : option string :=
  s <- build_loop pr terms (mkBuilder nil false) ;;
  Some (match parts s with
        | nil => "0"%string
        | _ => String.concat " " (parts s)
        end).

End Latex.

(* ================================================================== *)
(** * fractions.js ([window.Fractions]) *)

Module Fractions.

Local Open Scope Z_scope.

(** [{n, d}] *)
Record frac : Type := mkFrac { n : Z; d : Z }.

(** [gcd(a, b)]: the same loop as in fraction.js, returning [a] as it
    is. *)
Definition gcd (a b : Z) : option Z :=
  let a := Z.abs a in
  let b := Z.abs b in
  run Fraction.gcd_body (S (Z.to_nat b)) (a, b).

Definition reduce (f : frac) : option frac :=
  if d f =? 0 then Some (mkFrac (n f) 0)
  else
    g <- gcd (Z.abs (n f)) (Z.abs (d f)) ;;
    let rn := n f / g in
    let rd := d f / g in
    if rd <? 0 then Some (mkFrac (- rn) (- rd)) else Some (mkFrac rn rd).

Record search : Type := mkSearch {
  iter : Z;
  lo_n : Z; lo_d : Z;
  hi_n : Z; hi_d : Z;
  best_n : Z; best_d : Z;
  best_err : Q
}.

(** How the loop was left: by [med_d > maxDen], by the exact hit, or by
    the loop condition [iter < 10000]. *)
Inductive loop_exit : Type := DenExceeded | ExactHit | CapReached.

Definition search_body (ax : Q) (maxDen : Z) (s : search)
  : option (step search (loop_exit * search)) :=
  if iter s <? 10000 then
    let med_n := lo_n s + hi_n s in
    let med_d := lo_d s + hi_d s in
    if med_d >? maxDen then Some (Return (DenExceeded, s))
    else
      let val := (inject_Z med_n / inject_Z med_d)%Q in
      let err := Qabs (ax - val) in
      let s1 :=
        if Qltb err (best_err s)
        then mkSearch (iter s) (lo_n s) (lo_d s) (hi_n s) (hi_d s)
                      med_n med_d err
        else s in
      if Qltb val ax
      then Some (Next (mkSearch (iter s + 1) med_n med_d (hi_n s1) (hi_d s1)
                                (best_n s1) (best_d s1) (best_err s1)))
      else if Qltb ax val
      then Some (Next (mkSearch (iter s + 1) (lo_n s1) (lo_d s1) med_n med_d
                                (best_n s1) (best_d s1) (best_err s1)))
      else Some (Return (ExactHit, s1))
  else Some (Return (CapReached, s)).

Definition search_init (ax : Q) : search :=
  let intPart := Qfloor ax in
  let lo_n := intPart in
  let hi_n := intPart + 1 in
  let best_err := Qabs (ax - inject_Z lo_n) in
  if Qltb (Qabs (ax - inject_Z hi_n)) best_err
  then mkSearch 0 lo_n 1 hi_n 1 hi_n 1 (Qabs (ax - inject_Z hi_n))
  else mkSearch 0 lo_n 1 hi_n 1 lo_n 1 best_err.

Definition mediant_search (ax : Q) (maxDen : Z)
  : option (loop_exit * search) :=
  run (search_body ax maxDen) (Z.to_nat 10001) (search_init ax).

(** [toFraction(x, maxDen)]; the outer [option] is the return of the
    call, the inner one is [null]. *)
Definition toFraction (x : number) (maxDen : Z) : option (option frac) :=
  match x with
  | Infinity | NegInfinity | NaN => Some None
  | Finite x =>
      if Qeq_bool x 0 then Some (Some (mkFrac 0 1))
      else if Qltb (10000000000 # 1) (Qabs x) then Some None
      else
        let negative := Qltb x 0 in
        let ax := Qabs x in
        if Qeq_bool ax (inject_Z (Qfloor ax))
        then Some (Some (mkFrac (if negative then - Qfloor (ax + (1 # 2))
                                 else Qfloor (ax + (1 # 2))) 1))
        else
          r <- mediant_search ax maxDen ;;
          f <- reduce (mkFrac (if negative then - best_n (snd r)
                               else best_n (snd r)) (best_d (snd r))) ;;
          Some (Some f)
  end.

Definition default_maxDen : Z := 1000.

(** [fracToLatex(frac)] *)
Definition fracToLatex (pr : printer) (f : frac) : string :=
  if d f =? 1 then toString pr (Finite (inject_Z (n f)))
  else if n f <? 0 then
    ("-\frac{" ++ toString pr (Finite (inject_Z (- n f))) ++ "}{"
     ++ toString pr (Finite (inject_Z (d f))) ++ "}")%string
  else
    ("\frac{" ++ toString pr (Finite (inject_Z (n f))) ++ "}{"
     ++ toString pr (Finite (inject_Z (d f))) ++ "}")%string.

(** [coeffToLatex(x, maxDen, forceSign)]; [maxDen] may be left
    [undefined], and [forceSign] is [false] by default. *)
Definition coeffToLatex (pr : printer) (x : number) (maxDen : option Z)
           (forceSign : bool) : option string :=
  if match x with
     | Finite q => Qltb (Qabs q) (1 # 1000000000000)
     | _ => false
     end
  then Some "0"%string
  else
    frac <- toFraction x
              (match maxDen with Some m => m | None => default_maxDen end) ;;
    match frac with
    | None =>
        let sign0 :=
          (if number_gt_zero x then (if forceSign then "+" else "")
           else "-")%string in
        Some (sign0 ++ abs_toFixed4 pr x)%string
    | Some frac =>
        if n frac =? 0 then Some "0"%string
        else
          let positive := 0 <? n frac in
          let sign :=
            (if positive then (if forceSign then "+" else "")
             else "-")%string in
          let absN := Z.abs (n frac) in
          if d frac =? 1
          then Some (sign ++ toString pr (Finite (inject_Z absN)))%string
          else Some (sign ++ "\frac{"
                     ++ toString pr (Finite (inject_Z absN)) ++ "}{"
                     ++ toString pr (Finite (inject_Z (d frac))) ++ "}")%string
    end.

End Fractions.

(* ================================================================== *)
(** * src/oscillator.js ([CoupledOscillator])

    Numbers are reals.  The model agrees with the ideal arithmetic of the
    code wherever the code divides by a non-zero number and takes the
    square root of a non-negative one; every division of [_compute] other
    than those by the masses is guarded by the code itself. *)

Definition Rltb (a b : R) : bool := if Rlt_dec a b then true else false.
Definition Rleb (a b : R) : bool := if Rle_dec a b then true else false.
Definition Reqb (a b : R) : bool := if Req_dec_T a b then true else false.

Module Oscillator.

Local Open Scope R_scope.

Record params : Type := mkParams {
  m1 : R; m2 : R;
  k1 : R; k2 : R; k3 : R;
  x10 : R; x20 : R;
  v10 : R; v20 : R
}.

Record coeffs : Type := mkCoeffs { cw1 : R; sw1 : R; cw2 : R; sw2 : R }.

(** The fields of a [CoupledOscillator] object. *)
Record oscillator : Type := mkOscillator {
  config : params;
  omega1 : R; omega2 : R;
  r1 : R; r2 : R;
  A1 : R; A2 : R;
  B1 : R; B2 : R;
  coeffs1 : coeffs; coeffs2 : coeffs
}.

(** The locals [a], [b], [c2], [disc], [lam1] and [lam2] of
    [_compute]. *)
Definition a (p : params) : R := (k1 p + k2 p) / m1 p.
Definition b (p : params) : R := (k2 p + k3 p) / m2 p.
Definition c2 (p : params) : R := (k2 p * k2 p) / (m1 p * m2 p).
Definition disc (p : params) : R := sqrt ((a p - b p) ^ 2 + 4 * c2 p).
Definition lam1 (p : params) : R := ((a p + b p) - disc p) / 2.
Definition lam2 (p : params) : R := ((a p + b p) + disc p) / 2.

Definition _compute (p : params) : oscillator :=
  let lam1 := lam1 p in
  let lam2 := lam2 p in
  let w1 := sqrt (Rmax 0 lam1) in
  let w2 := sqrt (Rmax 0 lam2) in
  if Rltb (Rabs (k2 p)) 1e-14 then
    let w1u := sqrt (Rmax 0 (k1 p / m1 p)) in
    let w2u := sqrt (Rmax 0 (k3 p / m2 p)) in
    let B1 := if Rltb 1e-14 w1u then v10 p / w1u else 0 in
    mkOscillator p w1u w2u 0 0 (x10 p) 0 B1 0
      (mkCoeffs (x10 p) B1 0 0)
      (mkCoeffs 0 0 (x20 p) (if Rltb 1e-14 w2u then v20 p / w2u else 0))
  else
    let r1 := (k1 p + k2 p - lam1 * m1 p) / k2 p in
    let r2 := (k1 p + k2 p - lam2 * m1 p) / k2 p in
    let denom := r1 - r2 in
    let A1 :=
      if Rltb (Rabs denom) 1e-14 then x10 p
      else (x20 p - r2 * x10 p) / denom in
    let A2 :=
      if Rltb (Rabs denom) 1e-14 then 0
      else x10 p - A1 in
    let B1 :=
      if Rltb (Rabs denom) 1e-14 || Rltb (Rabs w1) 1e-14
      then (if Rltb 1e-14 w1 then v10 p / w1 else 0)
      else (v20 p - r2 * v10 p) / (w1 * denom) in
    let B2 :=
      if Rltb (Rabs denom) 1e-14 || Rltb (Rabs w1) 1e-14
      then 0
      else (if Rltb 1e-14 w2 then (v10 p - w1 * B1) / w2 else 0) in
    mkOscillator p w1 w2 r1 r2 A1 A2 B1 B2
      (mkCoeffs A1 B1 A2 B2)
      (mkCoeffs (r1 * A1) (r1 * B1) (r2 * A2) (r2 * B2)).

(** What [new CoupledOscillator(params)] does: it returns the object, or
    raises.  [ConfigError] is the error that the specification names for a
    non-positive mass; the constructor stores the parameters and calls
    [_compute], and has no [throw].  For a zero mass the fields of the
    object are infinite or [NaN] in JavaScript, which the reals of this
    model do not show. *)
Inductive construction : Type :=
| Constructed (o : oscillator)
| ConfigError.

Definition construct (p : params) : construction :=
  Constructed (_compute p).

(** [mass === 1 ? this.coeffs1 : this.coeffs2] *)
Definition coeffs_of (o : oscillator) (mass : Z) : coeffs :=
  if (mass =? 1)%Z then coeffs1 o else coeffs2 o.

Definition position (o : oscillator) (mass : Z) (t : R) : R :=
  let c := coeffs_of o mass in
  let w1 := omega1 o in
  let w2 := omega2 o in
  cw1 c * cos (w1 * t) +
  sw1 c * sin (w1 * t) +
  cw2 c * cos (w2 * t) +
  sw2 c * sin (w2 * t).

Definition velocity (o : oscillator) (mass : Z) (t : R) : R :=
  let c := coeffs_of o mass in
  let w1 := omega1 o in
  let w2 := omega2 o in
  - cw1 c * w1 * sin (w1 * t) +
    sw1 c * w1 * cos (w1 * t) +
  - cw2 c * w2 * sin (w2 * t) +
    sw2 c * w2 * cos (w2 * t).

Definition acceleration (o : oscillator) (mass : Z) (t : R) : R :=
  let c := coeffs_of o mass in
  let w1 := omega1 o in
  let w2 := omega2 o in
  - cw1 c * w1 * w1 * cos (w1 * t) -
    sw1 c * w1 * w1 * sin (w1 * t) +
  - cw2 c * w2 * w2 * cos (w2 * t) -
    sw2 c * w2 * w2 * sin (w2 * t).

(** The [opts] argument of [firstTimeTo]; an absent field takes its
    default. *)
Record options : Type := mkOptions {
  tMin : option R;
  tMax : option R;
  dt : option R;
  tolerance : option R
}.

Definition or_default (d : R) (o : option R) : R :=
  match o with
  | Some v => v
  | None => d
  end.

(** The result of [firstTimeTo]: a time, or [null]. *)
Inductive found : Type :=
| Time (t : R)
| Null.

Definition quantity_fn (o : oscillator) (mass : Z) (quantity : string)
  : R -> R :=
  if String.eqb quantity "x" then position o mass
  else if String.eqb quantity "v" then velocity o mass
  else acceleration o mass.

(** The variables of the bisection loop. *)
Record bisection : Type := mkBisection {
  bi : Z;
  lo : R; hi : R;
  bPrevF : R
}.

Definition bisect_body (fn : R -> R) (target tol : R) (s : bisection)
  : option (step bisection R) :=
  if (bi s <? 60)%Z then
    let mid := (lo s + hi s) / 2 in
    let mf := fn mid - target in
    if Rltb (Rabs mf) tol then Some (Return mid)
    else if Rleb (bPrevF s * mf) 0
    then Some (Next (mkBisection (bi s + 1) (lo s) mid (bPrevF s)))
    else Some (Next (mkBisection (bi s + 1) mid (hi s) mf))
  else Some (Return ((lo s + hi s) / 2)).

(** The variables of the scan loop. *)
Record scan : Type := mkScan {
  st : R;
  prevT : R;
  prevF : R
}.

Definition scan_body (fn : R -> R) (target tMax dt tol : R) (s : scan)
  : option (step scan found) :=
  if Rleb (st s) (tMax + dt * 0.5) then
    let curT := Rmin (st s) tMax in
    let curF := fn curT - target in
    if Rltb (Rabs curF) tol then Some (Return (Time curT))
    else if Rltb (prevF s * curF) 0 then
      r <- run (bisect_body fn target tol) 61
               (mkBisection 0 (prevT s) curT (prevF s)) ;;
      Some (Return (Time r))
    else if Rleb tMax curT then Some (Return Null)
    else Some (Next (mkScan (st s + dt) curT curF))
  else Some (Return Null).

(** [firstTimeTo(mass, quantity, target, opts)], the scan loop being
    given [fuel] iterations. *)
Definition firstTimeTo (fuel : nat) (o : oscillator) (mass : Z)
           (quantity : string) (target : R) (opts : options)
  : option found :=
  let tMin := or_default 0 (tMin opts) in
  let tMax := or_default 100 (tMax opts) in
  let dt := or_default 0.01 (dt opts) in
  let tol := or_default 1e-9 (tolerance opts) in
  let fn := quantity_fn o mass quantity in
  let prevF := fn tMin - target in
  if Rltb (Rabs prevF) tol then Some (Time tMin)
  else run (scan_body fn target tMax dt tol) fuel
           (mkScan (tMin + dt) tMin prevF).

(** [{ x1, v1, a1, x2, v2, a2 }] *)
Record values : Type := mkValues {
  x1 : R; v1 : R; a1 : R;
  x2 : R; v2 : R; a2 : R
}.

Definition valueAtTime (o : oscillator) (t : R) : values :=
  mkValues (position o 1 t) (velocity o 1 t) (acceleration o 1 t)
           (position o 2 t) (velocity o 2 t) (acceleration o 2 t).

End Oscillator.

(* ================================================================== *)
(** * physics.js ([window.Physics]) *)

Module Physics.

Local Open Scope R_scope.

Record params : Type := mkParams {
  config : string;
  m1 : R; m2 : R;
  k1 : R; k2 : R; k3 : R;
  x10 : R; x20 : R;
  v10 : R; v20 : R
}.

(** The stiffness matrix [K00, K01, K10, K11] of [solve]. *)
Definition stiffness (p : params) : R * R * R * R :=
  if String.eqb (config p) "three-spring"
  then (k1 p + k2 p, - k2 p, - k2 p, k2 p + k3 p)
  else (k1 p + k2 p, - k2 p, - k2 p, k2 p).

(** [solve] up to its eigenvalues and frequencies:
    [(lam1, lam2, omega1, omega2)]. *)
Definition eigenvalues (p : params) : R * R * R * R :=
  let '(K00, K01, K10, K11) := stiffness p in
  let a11 := K00 / m1 p in
  let a12 := K01 / m1 p in
  let a21 := K10 / m2 p in
  let a22 := K11 / m2 p in
  let tr := a11 + a22 in
  let det := a11 * a22 - a12 * a21 in
  let disc := tr * tr - 4 * det in
  let sqD := sqrt (Rmax 0 disc) in
  let lam1 := Rmax 0 ((tr - sqD) / 2) in
  let lam2 := Rmax 0 ((tr + sqD) / 2) in
  let omega1 := sqrt lam1 in
  let omega2 := sqrt lam2 in
  (lam1, lam2, omega1, omega2).

(** [eigenvector(a11, a12, a21, a22, lambda)]; a 2-vector is a pair. *)
Definition eigenvector (a11 a12 a21 a22 lambda : R) : R * R :=
  if Rltb 1e-12 (Rabs a12) then (a12, lambda - a11)
  else if Rltb 1e-12 (Rabs a21) then (lambda - a22, a21)
  else if Rleb (Rabs (lambda - a11)) (Rabs (lambda - a22)) then (1, 0)
  else (0, 1).

(** [parallel(u, v)] *)
Definition parallel (u v : R * R) : bool :=
  let cross := fst u * snd v - snd u * fst v in
  let scale := (Rabs (fst u) + Rabs (snd u)) * (Rabs (fst v) + Rabs (snd v)) in
  Rltb scale 1e-24 || Rltb (Rabs cross) (1e-10 * scale).

(** [u[0] === 0 && u[1] === 0] *)
Definition is_zero (u : R * R) : bool := Reqb (fst u) 0 && Reqb (snd u) 0.

(** [{ c1, s1, c2, s2 }]: the coefficients of [cos(w1 t)], [sin(w1 t)],
    [cos(w2 t)] and [sin(w2 t)]. *)
Record amplitudes : Type := mkAmplitudes { c1 : R; s1 : R; c2 : R; s2 : R }.

(** The [coeffs] object of a solution. *)
Module Coeffs.
Record table : Type := mkTable {
  x1 : amplitudes; x2 : amplitudes;
  v1 : amplitudes; v2 : amplitudes;
  a1 : amplitudes; a2 : amplitudes
}.
End Coeffs.

(** The object returned by [solve]. *)
Record solution : Type := mkSolution {
  omega1 : R; omega2 : R;
  phi1 : R * R; phi2 : R * R;
  A1 : R; B1 : R; A2 : R; B2 : R;
  x1 : R -> R; x2 : R -> R;
  v1 : R -> R; v2 : R -> R;
  a1 : R -> R; a2 : R -> R;
  coeffs : Coeffs.table
}.

(** [make(cc1, cs1, cc2, cs2)], a closure over [w1] and [w2]. *)
Definition make (w1 w2 cc1 cs1 cc2 cs2 : R) : R -> R :=
  fun t => cc1 * cos (w1 * t) + cs1 * sin (w1 * t) +
           cc2 * cos (w2 * t) + cs2 * sin (w2 * t).

(** The eigenvectors of [solve], after its two corrections: a zero
    vector is replaced by a basis vector, and a [phi2] parallel to
    [phi1] by the perpendicular of [phi1]. *)
Definition eigenvectors (a11 a12 a21 a22 lam1 lam2 : R)
  : (R * R) * (R * R) :=
  let phi1 := eigenvector a11 a12 a21 a22 lam1 in
  let phi2 := eigenvector a11 a12 a21 a22 lam2 in
  let phi1 := if is_zero phi1 then (1, 0) else phi1 in
  let phi2 := if is_zero phi2 then (0, 1) else phi2 in
  let phi2 :=
    if parallel phi1 phi2 then
      let phi2 := (- snd phi1, fst phi1) in
      if is_zero phi2 then (0, 1) else phi2
    else phi2 in
  (phi1, phi2).

Definition solve (p : params) : solution :=
  let '(K00, K01, K10, K11) := stiffness p in
  let a11 := K00 / m1 p in
  let a12 := K01 / m1 p in
  let a21 := K10 / m2 p in
  let a22 := K11 / m2 p in
  let tr := a11 + a22 in
  let det := a11 * a22 - a12 * a21 in
  let disc := tr * tr - 4 * det in
  let sqD := sqrt (Rmax 0 disc) in
  let lam1 := Rmax 0 ((tr - sqD) / 2) in
  let lam2 := Rmax 0 ((tr + sqD) / 2) in
  let omega1 := sqrt lam1 in
  let omega2 := sqrt lam2 in
  let '(phi1, phi2) := eigenvectors a11 a12 a21 a22 lam1 lam2 in
  let norm1 := fst phi1 * fst phi1 * m1 p + snd phi1 * snd phi1 * m2 p in
  let norm2 := fst phi2 * fst phi2 * m1 p + snd phi2 * snd phi2 * m2 p in
  let A1 := (fst phi1 * m1 p * x10 p + snd phi1 * m2 p * x20 p) / norm1 in
  let B1 :=
    if Rltb 1e-12 omega1
    then (fst phi1 * m1 p * v10 p + snd phi1 * m2 p * v20 p)
         / (omega1 * norm1)
    else 0 in
  let A2 := (fst phi2 * m1 p * x10 p + snd phi2 * m2 p * x20 p) / norm2 in
  let B2 :=
    if Rltb 1e-12 omega2
    then (fst phi2 * m1 p * v10 p + snd phi2 * m2 p * v20 p)
         / (omega2 * norm2)
    else 0 in
  let x1c1 := A1 * fst phi1 in
  let x1s1 := B1 * fst phi1 in
  let x1c2 := A2 * fst phi2 in
  let x1s2 := B2 * fst phi2 in
  let x2c1 := A1 * snd phi1 in
  let x2s1 := B1 * snd phi1 in
  let x2c2 := A2 * snd phi2 in
  let x2s2 := B2 * snd phi2 in
  let v1c1 := B1 * fst phi1 * omega1 in
  let v1s1 := - A1 * fst phi1 * omega1 in
  let v1c2 := B2 * fst phi2 * omega2 in
  let v1s2 := - A2 * fst phi2 * omega2 in
  let v2c1 := B1 * snd phi1 * omega1 in
  let v2s1 := - A1 * snd phi1 * omega1 in
  let v2c2 := B2 * snd phi2 * omega2 in
  let v2s2 := - A2 * snd phi2 * omega2 in
  let w1sq := omega1 * omega1 in
  let w2sq := omega2 * omega2 in
  let a1c1 := - A1 * fst phi1 * w1sq in
  let a1s1 := - B1 * fst phi1 * w1sq in
  let a1c2 := - A2 * fst phi2 * w2sq in
  let a1s2 := - B2 * fst phi2 * w2sq in
  let a2c1 := - A1 * snd phi1 * w1sq in
  let a2s1 := - B1 * snd phi1 * w1sq in
  let a2c2 := - A2 * snd phi2 * w2sq in
  let a2s2 := - B2 * snd phi2 * w2sq in
  let make := make omega1 omega2 in
  mkSolution omega1 omega2 phi1 phi2 A1 B1 A2 B2
    (make x1c1 x1s1 x1c2 x1s2) (make x2c1 x2s1 x2c2 x2s2)
    (make v1c1 v1s1 v1c2 v1s2) (make v2c1 v2s1 v2c2 v2s2)
    (make a1c1 a1s1 a1c2 a1s2) (make a2c1 a2s1 a2c2 a2s2)
    (Coeffs.mkTable
       (mkAmplitudes x1c1 x1s1 x1c2 x1s2) (mkAmplitudes x2c1 x2s1 x2c2 x2s2)
       (mkAmplitudes v1c1 v1s1 v1c2 v1s2) (mkAmplitudes v2c1 v2s1 v2c2 v2s2)
       (mkAmplitudes a1c1 a1s1 a1c2 a1s2) (mkAmplitudes a2c1 a2s1 a2c2 a2s2)).

(** [{ x1, x2, v1, v2, a1, a2 }], the object returned by
    [valuesAtTime]. *)
Module Values.
Record values : Type := mkValues {
  x1 : R; x2 : R; v1 : R; v2 : R; a1 : R; a2 : R
}.
End Values.

Definition valuesAtTime (solveResult : solution) (t : R) : Values.values :=
  Values.mkValues (x1 solveResult t) (x2 solveResult t)
                  (v1 solveResult t) (v2 solveResult t)
                  (a1 solveResult t) (a2 solveResult t).

(** [quantity + mass]: [mass] is what [parseInt] returned, an integer
    ([Some]) or [NaN] ([None]).  The integer is written in decimal, as
    [String] writes it up to 2^53 in magnitude; a larger one is no key
    of a solution either way. *)
Definition key (quantity : string) (mass : option Z) : string :=
  (quantity ++ match mass with
               | Some z => NilZero.string_of_int (Z.to_int z)
               | None => "NaN"
               end)%string.

(** [solveResult[k]] when [typeof] of it is ['function'], for a key [k]
    that ends in a digit or in [NaN]: the six solution functions.  (The
    other properties of a solution are numbers, arrays and an object;
    the methods inherited from [Object.prototype] have no such name.) *)
Definition function_at (solveResult : solution) (k : string)
  : option (R -> R) :=
  if String.eqb k "x1" then Some (x1 solveResult)
  else if String.eqb k "x2" then Some (x2 solveResult)
  else if String.eqb k "v1" then Some (v1 solveResult)
  else if String.eqb k "v2" then Some (v2 solveResult)
  else if String.eqb k "a1" then Some (a1 solveResult)
  else if String.eqb k "a2" then Some (a2 solveResult)
  else None.

(** [{ found, t }]; [t] is a time or [null]. *)
Record outcome : Type := mkOutcome { found : bool; t : option R }.

(** The variables of the bisection loop of [findFirstTime]. *)
Record bisection : Type := mkBisection {
  j : Z;
  lo : R; flo : R;
  hi : R; fhi : R
}.

Definition bisect_body (fn : R -> R) (target tolerance : R) (s : bisection)
  : option (step bisection outcome) :=
  if (j s <? 60)%Z then
    let mid := (lo s + hi s) / 2 in
    let fmid := fn mid - target in
    if Rleb (Rabs fmid) tolerance || Rltb (hi s - lo s) (tolerance * 0.5)
    then Some (Return (mkOutcome true (Some mid)))
    else if Rltb (flo s * fmid) 0
    then Some (Next (mkBisection (j s + 1) (lo s) (flo s) mid fmid))
    else Some (Next (mkBisection (j s + 1) mid fmid (hi s) (fhi s)))
  else Some (Return (mkOutcome true (Some ((lo s + hi s) / 2)))).

(** The variables of the scan loop of [findFirstTime]. *)
Record scan : Type := mkScan {
  i : Z;
  t_a : R;
  f_a : R
}.

Definition scan_body (fn : R -> R) (target tolerance dt : R) (s : scan)
  : option (step scan outcome) :=
  if (i s <=? 2000)%Z then
    let t_b := IZR (i s) * dt in
    let f_b := fn t_b - target in
    if Rleb (Rabs f_b) tolerance then Some (Return (mkOutcome true (Some t_b)))
    else if Rltb (f_a s * f_b) 0 then
      r <- run (bisect_body fn target tolerance) 61
               (mkBisection 0 (t_a s) (f_a s) t_b f_b) ;;
      Some (Return r)
    else Some (Next (mkScan (i s + 1) t_b f_b))
  else Some (Return (mkOutcome false None)).

(** [findFirstTime(solveResult, mass, quantity, target, tMaxSearch,
    tolerance)]; an absent ([undefined] or [null]) bound or tolerance
    takes its default. *)
Definition findFirstTime (solveResult : solution) (mass : option Z)
           (quantity : string) (target : R)
           (tMaxSearch tolerance : option R) : option outcome :=
  let tMaxSearch := match tMaxSearch with Some v => v | None => 100 end in
  let tolerance := match tolerance with Some v => v | None => 1e-8 end in
  match function_at solveResult (key quantity mass) with
  | None => Some (mkOutcome false None)
  | Some fn =>
      let N := 2000 in
      let dt := tMaxSearch / N in
      let f_a := fn 0 - target in
      if Rleb (Rabs f_a) tolerance then Some (mkOutcome true (Some 0))
      else run (scan_body fn target tolerance dt) 2001 (mkScan 1 0 f_a)
  end.

End Physics.

(* ================================================================== *)
(** * Predicates of the specification *)

Section Specification.

Local Open Scope Q_scope.

(** The invariant of a fraction with an integer numerator [z]: positive
  denominator, lowest terms, and zero as [0/1]. *)
Definition reduced (z den : Z) : Prop :=
(0 < den)%Z /\ Z.gcd (Z.abs z) den = 1%Z /\ (z = 0%Z -> den = 1%Z).

Definition fraction_invariant (f : Fraction.fraction) : Prop :=
exists z, Fraction.num f = Finite (inject_Z z)
          /\ reduced z (Fraction.den f).

Definition frac_invariant (f : Fractions.frac) : Prop :=
reduced (Fractions.n f) (Fractions.d f).

(** The value of a fraction. *)
Definition fraction_value (f : Fraction.fraction) : Q :=
match Fraction.num f with
| Finite q => q / inject_Z (Fraction.den f)
| _ => 0
end.

Definition frac_value (f : Fractions.frac) : Q :=
inject_Z (Fractions.n f) / inject_Z (Fractions.d f).

(** How the mediant search of [decimalToFraction], resp. of [toFraction],
    is left on [x]. *)
Definition decimalToFraction_exit (x : Q) (maxDen : Z) (tol : Q)
  : option Fraction.loop_exit :=
  option_map fst (Fraction.mediant_search (Qabs x) maxDen tol).

Definition toFraction_exit (x : Q) (maxDen : Z)
  : option Fractions.loop_exit :=
  option_map fst (Fractions.mediant_search (Qabs x) maxDen).

(** The absolute error of [n/d] as an approximation of [x]. *)
Definition err (x : Q) (n d : Z) : Q := Qabs (x - inject_Z n / inject_Z d).

(** [v] is nearest to [x] among the fractions of denominator at most
  [maxDen], up to the tolerance: it is within [tol] of [x], or no such
  fraction is closer. *)
Definition nearest (x : Q) (maxDen : Z) (tol : Q) (v : Q) : Prop :=
forall p q : Z, (1 <= q <= maxDen)%Z ->
                Qabs (x - v) <= err x p q \/ Qabs (x - v) < tol.

(** The invariant of the mediant search: [ln/ld <= x <= hn/hd] are
  neighbours in the Stern-Brocot tree ([hn/hd] may be [1/0]), and [be] is
  the error of [bn/bd], no larger than that of either bound. *)
Definition bracket (x : Q) (ln ld hn hd bn bd : Z) (be : Q) : Prop :=
(1 <= ld)%Z /\ (0 <= hd)%Z /\ (hn * ld - ln * hd = 1)%Z /\ (1 <= bd)%Z
/\ inject_Z ln <= x * inject_Z ld
/\ x * inject_Z hd <= inject_Z hn
/\ be == err x bn bd
/\ be * inject_Z ld <= x * inject_Z ld - inject_Z ln
/\ be * inject_Z hd <= inject_Z hn - x * inject_Z hd.

Definition search_bracket (x : Q) (s : Fraction.search) : Prop :=
bracket x (Fraction.lo_n s) (Fraction.lo_d s)
        (Fraction.hi_n s) (Fraction.hi_d s)
        (Fraction.best_n s) (Fraction.best_d s) (Fraction.bestErr s).

(** The mediant search of [decimalToFraction] as long as its mediants
    are the unit fractions [1/1, 1/2, ...] and none of them is closer to
    [x] than zero: the bounds are [0/1] and [1/iter], and the best
    candidate is [0/1]. *)
Definition unit_phase (x : Q) (s : Fraction.search) : Prop :=
Fraction.lo_n s = 0%Z /\ Fraction.lo_d s = 1%Z
/\ Fraction.hi_n s = 1%Z /\ Fraction.hi_d s = Fraction.iter s
/\ (0 <= Fraction.iter s <= 200)%Z
/\ Fraction.best_n s = 0%Z /\ Fraction.bestErr s == x
/\ 2 * x * inject_Z (Fraction.iter s) <= 1.

Definition toFraction_bracket (x : Q) (s : Fractions.search) : Prop :=
bracket x (Fractions.lo_n s) (Fractions.lo_d s)
        (Fractions.hi_n s) (Fractions.hi_d s)
        (Fractions.best_n s) (Fractions.best_d s) (Fractions.best_err s).

(** JavaScript's unary minus. *)
Definition negate (v : number) : number :=
match v with
| Finite q => Finite (- q)
| Infinity => NegInfinity
| NegInfinity => Infinity
| NaN => NaN
end.

End Specification.

(** The system of [p] started from other initial conditions. *)
Definition with_initial (p : Oscillator.params) (x10 x20 v10 v20 : R)
  : Oscillator.params :=
  Oscillator.mkParams (Oscillator.m1 p) (Oscillator.m2 p)
                      (Oscillator.k1 p) (Oscillator.k2 p) (Oscillator.k3 p)
                      x10 x20 v10 v20.

(** The mechanical energy of the system of [p] in the state [s]: the
    kinetic energy of the two masses and the potential energy of the
    three springs. *)
Definition energy (p : Oscillator.params) (s : Oscillator.values) : R :=
  (Oscillator.m1 p * Oscillator.v1 s ^ 2 / 2
   + Oscillator.m2 p * Oscillator.v2 s ^ 2 / 2
   + Oscillator.k1 p * Oscillator.x1 s ^ 2 / 2
   + Oscillator.k2 p * (Oscillator.x2 s - Oscillator.x1 s) ^ 2 / 2
   + Oscillator.k3 p * Oscillator.x2 s ^ 2 / 2)%R.

(** The samples of the scan of [firstTimeTo]: [tMin], then
    [min (tMin + n * dt, tMax)] as long as the loop runs. *)
Section Samples.

Local Open Scope R_scope.
Variables (fn : R -> R) (target tMin tMax dt tol : R).

Definition sample (n : nat) : R := Rmin (tMin + INR n * dt) tMax.

(** The scan reaches its [n]-th sample: the loop condition holds of
    [tMin + n * dt], and the sample before it was below [tMax]. *)
Definition scanned (n : nat) : Prop :=
  n = O
  \/ (tMin + INR n * dt <= tMax + dt * 0.5
      /\ tMin + INR (pred n) * dt < tMax).

(** Nothing is found at the [n]-th sample: the quantity is not within
    the tolerance of the target there, and its difference to the target
    does not change sign from the sample before. *)
Definition calm (n : nat) : Prop :=
  tol <= Rabs (fn (sample n) - target)
  /\ 0 <= (fn (sample (pred n)) - target) * (fn (sample n) - target).

(** The [n]-th step from [tMin] does not pass [tMax]. *)
Definition within_window (n : nat) : Prop := tMin + INR n * dt <= tMax.

(** The sample before the [n]-th one is below [tMax]: the [n]-th sample
    is taken if the last step of the scan, which is cut at [tMax], is
    not left out for being shorter than half a step. *)
Definition reachable (n : nat) : Prop :=
  n = O \/ tMin + INR (pred n) * dt < tMax.

End Samples.


(** The equation [A phi = lambda phi] for the matrix
    [A = [[a11, a12], [a21, a22]]]. *)
Definition eigen (a11 a12 a21 a22 lambda : R) (phi : R * R) : Prop :=
  (a11 * fst phi + a12 * snd phi = lambda * fst phi
   /\ a21 * fst phi + a22 * snd phi = lambda * snd phi)%R.

(** The samples of the scan of [Physics.findFirstTime]: [n * dt] for
    [dt = tMaxSearch / 2000]. *)
Definition grid (tMaxSearch : R) (n : Z) : R :=
  (IZR n * (tMaxSearch / 2000))%R.

(** Nothing is found at the [n]-th sample of that scan: the quantity is
    not within the tolerance of the target there, and its difference to
    the target does not change sign from the sample before. *)
Definition quiet (fn : R -> R) (target tMaxSearch tolerance : R) (n : Z)
  : Prop :=
  (tolerance < Rabs (fn (grid tMaxSearch n) - target)
   /\ 0 <= (fn (grid tMaxSearch (n - 1)) - target)
           * (fn (grid tMaxSearch n) - target))%R.

(** The parameters of a [CoupledOscillator] as the parameters of
    [Physics.solve], with the configuration ['three-spring']. *)
Definition three_spring (p : Oscillator.params) : Physics.params :=
  Physics.mkParams "three-spring"
    (Oscillator.m1 p) (Oscillator.m2 p)
    (Oscillator.k1 p) (Oscillator.k2 p) (Oscillator.k3 p)
    (Oscillator.x10 p) (Oscillator.x20 p)
    (Oscillator.v10 p) (Oscillator.v20 p).

(** The mechanical energy of the system of [p] in the state [s] that
    [Physics.valuesAtTime] returns: the kinetic energy of the two masses
    and the potential energy of the springs, the third of which is there
    with the configuration ['three-spring'] only. *)
Definition physics_energy (p : Physics.params) (s : Physics.Values.values)
  : R :=
  (Physics.m1 p * Physics.Values.v1 s ^ 2 / 2
   + Physics.m2 p * Physics.Values.v2 s ^ 2 / 2
   + Physics.k1 p * Physics.Values.x1 s ^ 2 / 2
   + Physics.k2 p * (Physics.Values.x2 s - Physics.Values.x1 s) ^ 2 / 2
   + (if String.eqb (Physics.config p) "three-spring"
      then Physics.k3 p else 0) * Physics.Values.x2 s ^ 2 / 2)%R.

(** A coefficient that [decimalToFraction] takes for zero under its
    default arguments: a finite number up to 1/400 in magnitude. *)
Definition negligible (v : number) : Prop :=
  exists q, v = Finite q /\ (Qabs q <= 1 # 400)%Q.

(** All the coefficients of the terms are negligible. *)
Fixpoint all_negligible (terms : list Latex.term) : Prop :=
  match terms with
  | nil => True
  | cons t terms' => negligible (Latex.coeff t) /\ all_negligible terms'
  end.

(** A coefficient that [decimalToFraction] does not take for zero under
    its default arguments, whatever the rounding: a number that is not
    finite, or one of at least [1/400 + 1e-15] in magnitude. *)
Definition substantial (v : number) : Prop :=
  match v with
  | Finite q => ((1 # 400) + (1 # 1000000000000000) <= Qabs q)%Q
  | _ => True
  end.

(** One of the coefficients of the terms is substantial. *)
Fixpoint some_substantial (terms : list Latex.term) : Prop :=
  match terms with
  | nil => False
  | cons t terms' => substantial (Latex.coeff t) \/ some_substantial terms'
  end.

(** A moderate system: masses and spring constants between 0.1 and 10;
    the coupling [k2] may also be zero. *)
Definition moderate_system (p : Oscillator.params) : Prop :=
  (0.1 <= Oscillator.m1 p <= 10 /\ 0.1 <= Oscillator.m2 p <= 10
   /\ 0.1 <= Oscillator.k1 p <= 10
   /\ (Oscillator.k2 p = 0 \/ 0.1 <= Oscillator.k2 p <= 10)
   /\ 0.1 <= Oscillator.k3 p <= 10)%R.

(** A moderate configuration: a moderate system started with
    displacements and velocities of at most 10 in magnitude. *)
Definition moderate (p : Oscillator.params) : Prop :=
  (moderate_system p
   /\ Rabs (Oscillator.x10 p) <= 10 /\ Rabs (Oscillator.x20 p) <= 10
   /\ Rabs (Oscillator.v10 p) <= 10 /\ Rabs (Oscillator.v20 p) <= 10)%R.

(** The same for the parameters of [Physics.solve], with a coupling that
    is not zero. *)
Definition physics_moderate (p : Physics.params) : Prop :=
  (0.1 <= Physics.m1 p <= 10 /\ 0.1 <= Physics.m2 p <= 10
   /\ 0.1 <= Physics.k1 p <= 10 /\ 0.1 <= Physics.k2 p <= 10
   /\ 0.1 <= Physics.k3 p <= 10
   /\ Rabs (Physics.x10 p) <= 10 /\ Rabs (Physics.x20 p) <= 10
   /\ Rabs (Physics.v10 p) <= 10 /\ Rabs (Physics.v20 p) <= 10)%R.

(** The rounding noise of a comparison of two errors of approximations
    of [x] in binary64: [2^-49 * (|x| + 1)]. *)
Definition rounding_slack (x : Q) : Q :=
  ((Qabs x + 1) * (1 # 562949953421312))%Q.

(** [v] is nearest to [x] among the fractions of denominator at most
    [maxDen], up to the tolerance and up to [slack]. *)
Definition nearest_within (x : Q) (maxDen : Z) (tol slack v : Q) : Prop :=
  forall p q : Z, (1 <= q <= maxDen)%Z ->
                  (Qabs (x - v) <= err x p q + slack
                   \/ Qabs (x - v) < tol + slack)%Q.
(* ================================================================== *)
(** * Facts about loops *)

Section LoopFacts.

Context {St Res : Type}.
Variable body : St -> option (step St Res).

(** More fuel does not change a result. *)
Lemma run_more (fuel fuel' : nat) (s : St) (r : Res) :
  run body fuel s = Some r -> (fuel <= fuel')%nat ->
  run body fuel' s = Some r.
Proof.
  revert fuel' s.
  induction fuel as [|fuel IH]; intros fuel' s Hrun Hle; [discriminate|].
  destruct fuel' as [|fuel']; [lia|].
  simpl in *.
  destruct (body s) as [[s'|r']|]; try assumption.
  apply IH; [assumption | lia].
Qed.

(** Partial correctness: an invariant of the body holds of the state the
    loop is left from. *)
Lemma run_invariant (I : St -> Prop) (P : Res -> Prop) :
  (forall s s', I s -> body s = Some (Next s') -> I s') ->
  (forall s r, I s -> body s = Some (Return r) -> P r) ->
  forall fuel s r, I s -> run body fuel s = Some r -> P r.
Proof.
  intros Hnext Hret.
  induction fuel as [|fuel IH]; intros s r Hs Hrun; [discriminate|].
  simpl in Hrun.
  destruct (body s) as [[s'|r']|] eqn:Hb; try discriminate.
  - eapply IH; [eapply Hnext; eassumption | exact Hrun].
  - injection Hrun as <-. eapply Hret; eassumption.
Qed.

(** Termination: a measure that decreases at every iteration bounds the
    number of iterations. *)
Lemma run_terminates (I : St -> Prop) (mu : St -> nat) :
  (forall s, I s -> body s <> None) ->
  (forall s s', I s -> body s = Some (Next s') ->
                I s' /\ (mu s' < mu s)%nat) ->
  forall fuel s, I s -> (mu s < fuel)%nat ->
                 exists r, run body fuel s = Some r.
Proof.
  intros Hsome Hnext.
  induction fuel as [|fuel IH]; intros s Hs Hmu; [lia|].
  simpl.
  destruct (body s) as [[s'|r']|] eqn:Hb.
  - destruct (Hnext s s' Hs Hb) as [Hs' Hlt].
    apply IH; [assumption | lia].
  - eauto.
  - exfalso. eapply Hsome; eassumption.
Qed.

End LoopFacts.

(** * Facts about the comparisons *)

Lemma Rltb_true (a b : R) : (a < b)%R -> Rltb a b = true.
Proof. intros H. unfold Rltb. destruct (Rlt_dec a b); [reflexivity | contradiction]. Qed.

Lemma Rltb_false (a b : R) : (b <= a)%R -> Rltb a b = false.
Proof. intros H. unfold Rltb. destruct (Rlt_dec a b); [lra | reflexivity]. Qed.

Lemma Rleb_true (a b : R) : (a <= b)%R -> Rleb a b = true.
Proof. intros H. unfold Rleb. destruct (Rle_dec a b); [reflexivity | contradiction]. Qed.

Lemma Rleb_false (a b : R) : (b < a)%R -> Rleb a b = false.
Proof. intros H. unfold Rleb. destruct (Rle_dec a b); [lra | reflexivity]. Qed.

Lemma Rltb_spec (a b : R) : reflect (a < b)%R (Rltb a b).
Proof.
  unfold Rltb. destruct (Rlt_dec a b); constructor; assumption.
Qed.

Lemma Rleb_spec (a b : R) : reflect (a <= b)%R (Rleb a b).
Proof.
  unfold Rleb. destruct (Rle_dec a b); constructor; assumption.
Qed.

Lemma Qltb_spec (a b : Q) : reflect (a < b)%Q (Qltb a b).
Proof.
  unfold Qltb.
  destruct (Qle_bool b a) eqn:H; constructor.
  - apply Qle_bool_iff in H. apply Qle_not_lt. exact H.
  - apply Qnot_le_lt. intros Hle. apply Qle_bool_iff in Hle. congruence.
Qed.

(* ================================================================== *)
(** * The reduce operations *)

Section Reduce.

Import Fraction.
Local Open Scope Z_scope.

(** Euclid's loop returns the greatest common divisor, within [b + 1]
    iterations. *)
Lemma gcd_loop_returns (fuel : nat) :
  forall a b, 0 <= a -> 0 <= b -> b < Z.of_nat fuel ->
              run gcd_body fuel (a, b) = Some (Z.gcd a b).
Proof.
  induction fuel as [|fuel IH]; intros a b Ha Hb Hfuel; [lia|].
  simpl. destruct (Z.eqb_spec b 0) as [->|Hb0].
  - rewrite Z.gcd_0_r, Z.abs_eq by assumption. reflexivity.
  - pose proof (Z.mod_pos_bound a b ltac:(lia)) as Hmod.
    rewrite IH by lia.
    rewrite Z.gcd_comm, Z.gcd_mod by assumption.
    rewrite Z.gcd_comm. reflexivity.
Qed.

Lemma gcd_returns (a b : Z) :
  gcd a b = Some (if Z.gcd a b =? 0 then 1 else Z.gcd a b).
Proof.
  unfold gcd.
  rewrite gcd_loop_returns by lia.
  rewrite Z.gcd_abs_l, Z.gcd_abs_r. reflexivity.
Qed.

Lemma Fractions_gcd_returns (a b : Z) :
  Fractions.gcd a b = Some (Z.gcd a b).
Proof.
  unfold Fractions.gcd.
  rewrite gcd_loop_returns by lia.
  rewrite Z.gcd_abs_l, Z.gcd_abs_r. reflexivity.
Qed.

Lemma reduceFraction_value (num den : Z) :
  den <> 0 ->
  exists f z, reduceFraction num den = Some f
              /\ Fraction.num f = Finite (inject_Z z)
              /\ reduced z (Fraction.den f)
              /\ z * den = num * Fraction.den f.
Proof.
  intros Hden. unfold reduceFraction.
  destruct (Z.eqb_spec den 0) as [|_]; [contradiction|].
  destruct (Z.eqb_spec num 0) as [->|Hnum].
  - eexists. exists 0. split; [reflexivity|]. split; [reflexivity|].
    cbn [Fraction.den]. split; [|ring]. unfold reduced. repeat apply conj; try lia. reflexivity.
  - rewrite gcd_returns. cbn [bind].
    rewrite Z.gcd_abs_l, Z.gcd_abs_r.
    pose proof (Z.gcd_nonneg num den) as Hnn.
    assert (Hg0 : Z.gcd num den <> 0).
    { intros E. apply Z.gcd_eq_0_r in E. contradiction. }
    destruct (Z.eqb_spec (Z.gcd num den) 0) as [E|_]; [contradiction|].
    destruct (Z.gcd_divide_l num den) as [qn Eqn].
    destruct (Z.gcd_divide_r num den) as [qd Eqd].
    set (g := Z.gcd num den) in *.
    assert (Hcop : Z.gcd qn qd = 1).
    { assert (E : Z.gcd (qn * g) (qd * g) = g)
        by (rewrite <- Eqn, <- Eqd; reflexivity).
      rewrite Z.gcd_mul_mono_r, (Z.abs_eq g) in E by lia.
      pose proof (Z.gcd_nonneg qn qd). nia. }
    assert (En : Z.abs num / g = Z.abs qn).
    { rewrite Eqn, Z.abs_mul, (Z.abs_eq g) by lia. apply Z.div_mul; lia. }
    assert (Ed : Z.abs den / g = Z.abs qd).
    { rewrite Eqd, Z.abs_mul, (Z.abs_eq g) by lia. apply Z.div_mul; lia. }
    rewrite En, Ed.
    assert (Hqn : qn <> 0) by nia.
    assert (Hqd : qd <> 0) by nia.
    eexists. eexists. split; [reflexivity|]. split; [reflexivity|].
    cbn [Fraction.den].
    assert (Hsign : (if xorb (num <? 0) (den <? 0) then -1 else 1) * Z.abs qn * Z.abs qd = qn * qd).
    { destruct (Z.ltb_spec num 0), (Z.ltb_spec den 0); cbn [xorb]; nia. }
    split.
    + unfold reduced. repeat apply conj.
      * lia.
      * rewrite Z.gcd_abs_l.
        destruct (xorb (num <? 0) (den <? 0)).
        -- replace (-1 * Z.abs qn) with (- Z.abs qn) by ring.
           rewrite Z.gcd_opp_l, Z.gcd_abs_l, Z.gcd_abs_r. assumption.
        -- rewrite Z.mul_1_l, Z.gcd_abs_l, Z.gcd_abs_r. assumption.
      * destruct (xorb (num <? 0) (den <? 0)); lia.
    + set (sg := if xorb (num <? 0) (den <? 0) then -1 else 1) in *.
      assert (E : sg * Z.abs qn * qd = qn * Z.abs qd).
      { destruct (Z.abs_spec qd) as [[? E]|[? E]]; rewrite E in *; nia. }
      rewrite Eqd at 1. rewrite Eqn at 1.
      transitivity (sg * Z.abs qn * qd * g); [ring|]. rewrite E. ring.
Qed.
Lemma reduce_returns (n d : Z) :
  d <> 0 ->
  exists f, Fractions.reduce (Fractions.mkFrac n d) = Some f
            /\ frac_invariant f
            /\ Fractions.n f * d = n * Fractions.d f.
Proof.
  intros Hd. unfold Fractions.reduce. cbn [Fractions.n Fractions.d].
  destruct (Z.eqb_spec d 0) as [|_]; [contradiction|].
  rewrite Fractions_gcd_returns. cbn [bind].
  rewrite Z.gcd_abs_l, Z.gcd_abs_r.
  pose proof (Z.gcd_nonneg n d) as Hnn.
  assert (Hg0 : Z.gcd n d <> 0).
  { intros E. apply Z.gcd_eq_0_r in E. contradiction. }
  destruct (Z.gcd_divide_l n d) as [qn Eqn].
  destruct (Z.gcd_divide_r n d) as [qd Eqd].
  set (g := Z.gcd n d) in *.
  assert (Hcop : Z.gcd qn qd = 1).
  { assert (E : Z.gcd (qn * g) (qd * g) = g)
      by (rewrite <- Eqn, <- Eqd; reflexivity).
    rewrite Z.gcd_mul_mono_r, (Z.abs_eq g) in E by lia.
    pose proof (Z.gcd_nonneg qn qd). nia. }
  assert (En : n / g = qn) by (rewrite Eqn; apply Z.div_mul; lia).
  assert (Ed : d / g = qd) by (rewrite Eqd; apply Z.div_mul; lia).
  rewrite En, Ed.
  assert (Hqd : qd <> 0) by nia.
  destruct (Z.ltb_spec qd 0) as [Hneg|Hpos];
    (eexists; split; [reflexivity|]);
    unfold frac_invariant, reduced; cbn [Fractions.n Fractions.d].
  - repeat apply conj.
    + lia.
    + rewrite Z.gcd_abs_l, Z.gcd_opp_l, Z.gcd_opp_r. assumption.
    + intros E. assert (E0 : qn = 0) by lia.
      rewrite E0, Z.gcd_0_l in Hcop. lia.
    + rewrite Eqd at 1. rewrite Eqn at 1. ring.
  - repeat apply conj.
    + lia.
    + rewrite Z.gcd_abs_l. assumption.
    + intros E. rewrite E, Z.gcd_0_l in Hcop. lia.
    + rewrite Eqd at 1. rewrite Eqn at 1. ring.
Qed.

End Reduce.

(* ================================================================== *)
(** * The mediant search *)

Section Mediant.

Local Open Scope Q_scope.
Variable x : Q.

Lemma inject_Z_pos (d : Z) : (1 <= d)%Z -> 1 <= inject_Z d.
Proof. intros H. rewrite Zle_Qle in H. exact H. Qed.

Lemma quotient_mult (n d : Z) :
  (1 <= d)%Z -> inject_Z n / inject_Z d * inject_Z d == inject_Z n.
Proof. intros Hd. pose proof (inject_Z_pos d Hd). field. lra. Qed.

Lemma err_nonneg (n d : Z) : 0 <= err x n d.
Proof. apply Qabs_nonneg. Qed.

(** The error of a fraction below [x], and of one above. *)
Lemma err_below (n d : Z) :
  (1 <= d)%Z -> inject_Z n <= x * inject_Z d ->
  err x n d * inject_Z d == x * inject_Z d - inject_Z n.
Proof.
  intros Hd H. pose proof (inject_Z_pos d Hd) as Hq.
  pose proof (quotient_mult n d Hd) as Hm. unfold err.
  set (m := inject_Z n / inject_Z d) in *.
  rewrite Qabs_pos by nra. nra.
Qed.

Lemma err_above (n d : Z) :
  (1 <= d)%Z -> x * inject_Z d <= inject_Z n ->
  err x n d * inject_Z d == inject_Z n - x * inject_Z d.
Proof.
  intros Hd H. pose proof (inject_Z_pos d Hd) as Hq.
  pose proof (quotient_mult n d Hd) as Hm. unfold err.
  set (m := inject_Z n / inject_Z d) in *.
  rewrite Qabs_neg by nra. nra.
Qed.

Lemma below_iff (n d : Z) :
  (1 <= d)%Z ->
  (inject_Z n / inject_Z d < x <-> inject_Z n < x * inject_Z d).
Proof.
  intros Hd. pose proof (inject_Z_pos d Hd) as Hq.
  pose proof (quotient_mult n d Hd) as Hm.
  set (m := inject_Z n / inject_Z d) in *.
  split; intros H; nra.
Qed.

Lemma bracket_best ln ld hn hd bn bd be mn md :
  bracket x ln ld hn hd bn bd be -> (1 <= md)%Z -> err x mn md < be ->
  bracket x ln ld hn hd mn md (err x mn md).
Proof.
  intros (Hld & Hhd & Hdet & Hbd & Hlo & Hhi & Hbe & Hbl & Hbh) Hmd Hlt.
  pose proof (inject_Z_pos ld Hld).
  assert (0 <= inject_Z hd) by (rewrite Zle_Qle in Hhd; exact Hhd).
  unfold bracket. repeat split; try assumption; try reflexivity; nra.
Qed.

Lemma bracket_lo ln ld hn hd bn bd be :
  bracket x ln ld hn hd bn bd be ->
  be <= err x (ln + hn) (ld + hd) ->
  inject_Z (ln + hn) / inject_Z (ld + hd) < x ->
  bracket x (ln + hn) (ld + hd) hn hd bn bd be.
Proof.
  intros (Hld & Hhd & Hdet & Hbd & Hlo & Hhi & Hbe & Hbl & Hbh) Hle Hlt.
  assert (Hmd : (1 <= ld + hd)%Z) by lia.
  apply below_iff in Hlt; [|assumption].
  pose proof (err_below _ _ Hmd (Qlt_le_weak _ _ Hlt)) as He.
  pose proof (inject_Z_pos _ Hmd).
  unfold bracket. repeat split; try assumption; try lia; nra.
Qed.

Lemma bracket_hi ln ld hn hd bn bd be :
  bracket x ln ld hn hd bn bd be ->
  be <= err x (ln + hn) (ld + hd) ->
  ~ inject_Z (ln + hn) / inject_Z (ld + hd) < x ->
  bracket x ln ld (ln + hn) (ld + hd) bn bd be.
Proof.
  intros (Hld & Hhd & Hdet & Hbd & Hlo & Hhi & Hbe & Hbl & Hbh) Hle Hlt.
  assert (Hmd : (1 <= ld + hd)%Z) by lia.
  rewrite below_iff in Hlt by assumption.
  apply Qnot_lt_le in Hlt.
  pose proof (err_above _ _ Hmd Hlt) as He.
  pose proof (inject_Z_pos _ Hmd).
  unfold bracket. repeat split; try assumption; try lia; nra.
Qed.

(** Between two neighbours of the Stern-Brocot tree there is no fraction
    of a smaller denominator than their mediant. *)
Lemma between_neighbours (ln ld hn hd p q : Z) :
  (1 <= ld)%Z -> (0 <= hd)%Z -> (hn * ld - ln * hd = 1)%Z ->
  (1 <= q)%Z -> (q < ld + hd)%Z ->
  (p * ld <= ln * q)%Z \/ (hn * q <= p * hd)%Z.
Proof.
  intros Hld Hhd Hdet Hq Hlt.
  destruct (Z_le_gt_dec (p * ld) (ln * q)) as [|Hlo]; [left; assumption|].
  destruct (Z_le_gt_dec (hn * q) (p * hd)) as [|Hhi]; [right; assumption|].
  exfalso.
  assert (E : (q = ld * (hn * q - p * hd) + hd * (p * ld - ln * q))%Z).
  { transitivity (q * (hn * ld - ln * hd))%Z; [rewrite Hdet; ring | ring]. }
  nia.
Qed.

Lemma bracket_nearest ln ld hn hd bn bd be (N p q : Z) :
  bracket x ln ld hn hd bn bd be -> (N < ld + hd)%Z ->
  (1 <= q <= N)%Z ->
  err x bn bd <= err x p q.
Proof.
  intros (Hld & Hhd & Hdet & Hbd & Hlo & Hhi & Hbe & Hbl & Hbh) HN Hq.
  rewrite <- Hbe.
  assert (Hq1 : (1 <= q)%Z) by lia.
  pose proof (inject_Z_pos q Hq1) as HqQ.
  pose proof (inject_Z_pos ld Hld) as HldQ.
  assert (HhdQ : 0 <= inject_Z hd) by (rewrite Zle_Qle in Hhd; exact Hhd).
  assert (Hbe0 : 0 <= be) by (rewrite Hbe; apply err_nonneg).
  destruct (between_neighbours ln ld hn hd p q) as [H|H]; try lia.
  - rewrite Zle_Qle, !inject_Z_mult in H.
    assert (Hp : inject_Z p <= x * inject_Z q) by nra.
    pose proof (err_below p q Hq1 Hp) as He.
    assert (be * inject_Z q * inject_Z ld
            <= err x p q * inject_Z q * inject_Z ld) by nra.
    destruct (Qlt_le_dec (err x p q) be) as [Hc|]; [exfalso|assumption].
    assert (0 < (be - err x p q) * inject_Z q) by nra.
    assert (0 < (be - err x p q) * inject_Z q * inject_Z ld) by nra.
    nra.
  - assert (Hhd1 : (1 <= hd)%Z).
    { destruct (Z.eq_dec hd 0) as [E|]; [exfalso|lia].
      rewrite E in *. nia. }
    rewrite Zle_Qle, !inject_Z_mult in H.
    pose proof (inject_Z_pos hd Hhd1) as HhdQ1.
    assert (Hp : x * inject_Z q <= inject_Z p) by nra.
    pose proof (err_above p q Hq1 Hp) as He.
    assert (be * inject_Z q * inject_Z hd
            <= err x p q * inject_Z q * inject_Z hd) by nra.
    destruct (Qlt_le_dec (err x p q) be) as [Hc|]; [exfalso|assumption].
    assert (0 < (be - err x p q) * inject_Z q) by nra.
    assert (0 < (be - err x p q) * inject_Z q * inject_Z hd) by nra.
    nra.
Qed.

End Mediant.

Section Search.

Import Fraction.
Local Open Scope Q_scope.

Lemma search_init_bracket (x : Q) : 0 <= x -> search_bracket x (search_init x).
Proof.
  intros Hx. unfold search_bracket, search_init, bracket, err, round.
  cbn [lo_n lo_d hi_n hi_d best_n best_d bestErr].
  pose proof (Qfloor_le (x + (1 # 2))) as Hfl.
  pose proof (Qlt_floor (x + (1 # 2))) as Hfu.
  assert (H0 : (0 <= Qfloor (x + (1 # 2)))%Z).
  { change 0%Z with (Qfloor 0). apply Qfloor_resp_le. lra. }
  set (r := Qfloor (x + (1 # 2))) in *.
  rewrite inject_Z_plus in Hfu.
  assert (Hr : inject_Z r == 0 \/ 1 <= inject_Z r).
  { destruct (Z.eq_dec r 0) as [->|Hne]; [left; reflexivity|right].
    apply inject_Z_pos. lia. }
  change (inject_Z 0) with 0. change (inject_Z 1) with 1.
  repeat apply conj; try lia; try lra.
  - apply Qabs_wd. field.
  - change (inject_Z 1) with 1 in Hfu.
    assert (Qabs (x - inject_Z r) <= x); [|lra].
    apply Qabs_Qle_condition. destruct Hr as [Hr|Hr]; split; lra.
Qed.

Lemma search_body_next x maxDen tol s s' :
  search_bracket x s ->
  search_body x maxDen tol s = Some (Next s') ->
  search_bracket x s' /\ iter s' = (iter s + 1)%Z /\ (iter s < 200)%Z
  /\ (lo_d s + hi_d s <= maxDen)%Z
  /\ ((lo_n s' = lo_n s + hi_n s /\ lo_d s' = lo_d s + hi_d s
       /\ hi_n s' = hi_n s /\ hi_d s' = hi_d s)%Z
      \/ (lo_n s' = lo_n s /\ lo_d s' = lo_d s
          /\ hi_n s' = lo_n s + hi_n s /\ hi_d s' = lo_d s + hi_d s)%Z).
Proof.
  intros Hs. unfold search_body.
  destruct (Z.ltb_spec (iter s) 200) as [Hit|]; [|discriminate].
  destruct (Z.gtb_spec (lo_d s + hi_d s) maxDen) as [|Hden]; [discriminate|].
  assert (Hmd : (1 <= lo_d s + hi_d s)%Z).
  { destruct Hs as (? & ? & _). lia. }
  fold (err x (lo_n s + hi_n s) (lo_d s + hi_d s)).
  set (e := err x (lo_n s + hi_n s) (lo_d s + hi_d s)).
  assert (Hs1 : exists s1, (if Qltb e (bestErr s)
          then mkSearch (iter s) (lo_n s) (lo_d s) (hi_n s) (hi_d s)
                        (lo_n s + hi_n s) (lo_d s + hi_d s) e
          else s) = s1 /\ search_bracket x s1 /\ bestErr s1 <= e
          /\ lo_n s1 = lo_n s /\ lo_d s1 = lo_d s
          /\ hi_n s1 = hi_n s /\ hi_d s1 = hi_d s).
  { destruct (Qltb_spec e (bestErr s)) as [Hlt|Hge].
    - eexists. split; [reflexivity|].
      unfold search_bracket. cbn [lo_n lo_d hi_n hi_d best_n best_d bestErr].
      split; [exact (bracket_best x _ _ _ _ _ _ _ _ _ Hs Hmd Hlt)|].
      split; [lra|]. repeat apply conj; reflexivity.
    - exists s. split; [reflexivity|]. split; [assumption|].
      split; [apply Qnot_lt_le; assumption|]. repeat apply conj; reflexivity. }
  destruct Hs1 as (s1 & -> & Hb1 & Hle & E1 & E2 & E3 & E4).
  destruct (Qltb e tol); [discriminate|].
  unfold search_bracket in Hb1. rewrite E1, E2, E3, E4 in Hb1.
  destruct (Qltb_spec (inject_Z (lo_n s + hi_n s) / inject_Z (lo_d s + hi_d s)) x)
    as [Hlt|Hge]; intros [= <-]; cbn [iter lo_n lo_d hi_n hi_d];
    (split; [unfold search_bracket;
             cbn [lo_n lo_d hi_n hi_d best_n best_d bestErr]|
             split; [reflexivity|split; [assumption|split; [assumption|]]]]).
  - rewrite E3, E4. apply bracket_lo; assumption.
  - left. rewrite E3, E4. repeat apply conj; reflexivity.
  - rewrite E1, E2. apply bracket_hi; assumption.
  - right. rewrite E1, E2. repeat apply conj; reflexivity.
Qed.

Lemma search_body_return x maxDen tol s e s' :
  search_bracket x s ->
  search_body x maxDen tol s = Some (Return (e, s')) ->
  search_bracket x s'
  /\ (e = DenExceeded -> (maxDen < lo_d s' + hi_d s')%Z)
  /\ (e = WithinTol -> bestErr s' < tol).
Proof.
  intros Hs. unfold search_body.
  destruct (Z.ltb_spec (iter s) 200) as [Hit|].
  2:{ intros [= <- <-]. split; [assumption|]. split; discriminate. }
  destruct (Z.gtb_spec (lo_d s + hi_d s) maxDen) as [Hden|Hden].
  { intros [= <- <-]. split; [assumption|]. split; [lia|discriminate]. }
  assert (Hmd : (1 <= lo_d s + hi_d s)%Z).
  { destruct Hs as (? & ? & _). lia. }
  fold (err x (lo_n s + hi_n s) (lo_d s + hi_d s)).
  set (e0 := err x (lo_n s + hi_n s) (lo_d s + hi_d s)).
  destruct (Qltb_spec e0 tol) as [Htol|].
  2:{ destruct (Qltb _ x); discriminate. }
  intros [= <- <-].
  destruct (Qltb_spec e0 (bestErr s)) as [Hlt|Hge].
  - split; [exact (bracket_best x _ _ _ _ _ _ _ _ _ Hs Hmd Hlt)|].
    split; [discriminate|]. intros _. exact Htol.
  - split; [assumption|]. split; [discriminate|].
    intros _. apply Qnot_lt_le in Hge. lra.
Qed.

(** The loop of [decimalToFraction] is left within its 200 iterations. *)
Lemma mediant_search_returns (x : Q) (maxDen : Z) (tol : Q) :
  exists r, mediant_search x maxDen tol = Some r.
Proof.
  unfold mediant_search.
  apply (run_terminates (search_body x maxDen tol)
           (fun s => (0 <= iter s)%Z) (fun s => Z.to_nat (200 - iter s))).
  - intros s _. unfold search_body.
    repeat match goal with |- context [if ?c then _ else _] => destruct c end;
      discriminate.
  - intros s s' Hs. unfold search_body.
    destruct (Z.ltb_spec (iter s) 200) as [Hit|]; [|discriminate].
    repeat match goal with |- context [if ?c then _ else _] => destruct c end;
      try discriminate; intros [= <-]; cbn [iter]; split; lia.
  - cbn [search_init iter]. lia.
  - cbn [search_init iter]. lia.
Qed.

Lemma mediant_search_bracket (x : Q) (maxDen : Z) (tol : Q) e s :
  0 <= x ->
  mediant_search x maxDen tol = Some (e, s) ->
  search_bracket x s
  /\ (e = DenExceeded -> (maxDen < lo_d s + hi_d s)%Z)
  /\ (e = WithinTol -> bestErr s < tol).
Proof.
  intros Hx Hrun. unfold mediant_search in Hrun.
  refine (run_invariant (search_body x maxDen tol) (search_bracket x)
            (fun r => search_bracket x (snd r)
                      /\ (fst r = DenExceeded -> (maxDen < lo_d (snd r) + hi_d (snd r))%Z)
                      /\ (fst r = WithinTol -> bestErr (snd r) < tol))
            _ _ _ _ (e, s) (search_init_bracket x Hx) Hrun).
  - intros s0 s1 H0 Hb. eapply search_body_next; eassumption.
  - intros s0 [e1 s1] H0 Hb. eapply search_body_return; eassumption.
Qed.
End Search.

(** The same for the loop of [toFraction]. *)

Section ToFractionSearch.

Import Fractions.
Local Open Scope Q_scope.

Lemma err_integer (x : Q) (z : Z) : err x z 1 == Qabs (x - inject_Z z).
Proof. unfold err. apply Qabs_wd. change (inject_Z 1) with 1. field. Qed.

Lemma toFraction_init_bracket (x : Q) : toFraction_bracket x (search_init x).
Proof.
  pose proof (Qfloor_le x) as Hfl.
  pose proof (Qlt_floor x) as Hfu.
  rewrite inject_Z_plus in Hfu. change (inject_Z 1) with 1 in Hfu.
  unfold toFraction_bracket, search_init.
  set (f := Qfloor x) in *.
  assert (Elo : Qabs (x - inject_Z f) == x - inject_Z f)
    by (apply Qabs_pos; lra).
  assert (Ehi : Qabs (x - inject_Z (f + 1)) == inject_Z f + 1 - x).
  { rewrite inject_Z_plus. change (inject_Z 1) with 1.
    rewrite Qabs_neg by lra. ring. }
  destruct (Qltb_spec (Qabs (x - inject_Z (f + 1))) (Qabs (x - inject_Z f)))
    as [Hlt|Hge];
    cbn [lo_n lo_d hi_n hi_d best_n best_d best_err];
    unfold bracket; rewrite err_integer;
    rewrite ?inject_Z_plus; change (inject_Z 1) with 1;
    rewrite ?inject_Z_plus in Ehi; change (inject_Z 1) with 1 in Ehi;
    repeat apply conj; try lia; try lra; try reflexivity.
  - rewrite inject_Z_plus in Hlt. change (inject_Z 1) with 1 in Hlt. lra.
  - apply Qnot_lt_le in Hge.
    rewrite inject_Z_plus in Hge. change (inject_Z 1) with 1 in Hge. lra.
Qed.

Lemma toFraction_body_next x maxDen s s' :
  toFraction_bracket x s ->
  search_body x maxDen s = Some (Next s') ->
  toFraction_bracket x s' /\ iter s' = (iter s + 1)%Z /\ (iter s < 10000)%Z
  /\ (lo_d s + hi_d s <= maxDen)%Z
  /\ ((lo_d s' = lo_d s + hi_d s /\ hi_d s' = hi_d s)%Z
      \/ (lo_d s' = lo_d s /\ hi_d s' = lo_d s + hi_d s)%Z).
Proof.
  intros Hs. unfold search_body.
  destruct (Z.ltb_spec (iter s) 10000) as [Hit|]; [|discriminate].
  destruct (Z.gtb_spec (lo_d s + hi_d s) maxDen) as [|Hden]; [discriminate|].
  assert (Hmd : (1 <= lo_d s + hi_d s)%Z).
  { destruct Hs as (? & ? & _). lia. }
  fold (err x (lo_n s + hi_n s) (lo_d s + hi_d s)).
  set (e := err x (lo_n s + hi_n s) (lo_d s + hi_d s)).
  assert (Hs1 : exists s1, (if Qltb e (best_err s)
          then mkSearch (iter s) (lo_n s) (lo_d s) (hi_n s) (hi_d s)
                        (lo_n s + hi_n s) (lo_d s + hi_d s) e
          else s) = s1 /\ toFraction_bracket x s1 /\ best_err s1 <= e
          /\ lo_n s1 = lo_n s /\ lo_d s1 = lo_d s
          /\ hi_n s1 = hi_n s /\ hi_d s1 = hi_d s).
  { destruct (Qltb_spec e (best_err s)) as [Hlt|Hge].
    - eexists. split; [reflexivity|].
      unfold toFraction_bracket. cbn [lo_n lo_d hi_n hi_d best_n best_d best_err].
      split; [exact (bracket_best x _ _ _ _ _ _ _ _ _ Hs Hmd Hlt)|].
      split; [lra|]. repeat apply conj; reflexivity.
    - exists s. split; [reflexivity|]. split; [assumption|].
      split; [apply Qnot_lt_le; assumption|]. repeat apply conj; reflexivity. }
  destruct Hs1 as (s1 & -> & Hb1 & Hle & E1 & E2 & E3 & E4).
  unfold toFraction_bracket in Hb1. rewrite E1, E2, E3, E4 in Hb1.
  destruct (Qltb_spec (inject_Z (lo_n s + hi_n s) / inject_Z (lo_d s + hi_d s)) x)
    as [Hlt|Hge].
  - intros [= <-]; cbn [iter lo_d hi_d].
    split; [|split; [reflexivity|split; [assumption|split; [assumption|]]]].
    + unfold toFraction_bracket;
        cbn [lo_n lo_d hi_n hi_d best_n best_d best_err].
      rewrite E3, E4. apply bracket_lo; assumption.
    + left. rewrite E4. split; reflexivity.
  - destruct (Qltb x _); [|discriminate].
    intros [= <-]; cbn [iter lo_d hi_d].
    split; [|split; [reflexivity|split; [assumption|split; [assumption|]]]].
    + unfold toFraction_bracket;
        cbn [lo_n lo_d hi_n hi_d best_n best_d best_err].
      rewrite E1, E2. apply bracket_hi; assumption.
    + right. rewrite E2. split; reflexivity.
Qed.

Lemma toFraction_body_return x maxDen s e s' :
  toFraction_bracket x s ->
  search_body x maxDen s = Some (Return (e, s')) ->
  toFraction_bracket x s'
  /\ (e = DenExceeded -> (maxDen < lo_d s' + hi_d s')%Z)
  /\ (e = ExactHit -> best_err s' <= 0).
Proof.
  intros Hs. unfold search_body.
  destruct (Z.ltb_spec (iter s) 10000) as [Hit|].
  2:{ intros [= <- <-]. split; [assumption|]. split; discriminate. }
  destruct (Z.gtb_spec (lo_d s + hi_d s) maxDen) as [Hden|Hden].
  { intros [= <- <-]. split; [assumption|]. split; [lia|discriminate]. }
  assert (Hmd : (1 <= lo_d s + hi_d s)%Z).
  { destruct Hs as (? & ? & _). lia. }
  fold (err x (lo_n s + hi_n s) (lo_d s + hi_d s)).
  set (e0 := err x (lo_n s + hi_n s) (lo_d s + hi_d s)).
  assert (He0 : e0 = Qabs (x - inject_Z (lo_n s + hi_n s) / inject_Z (lo_d s + hi_d s)))
    by reflexivity.
  destruct (Qltb_spec (inject_Z (lo_n s + hi_n s) / inject_Z (lo_d s + hi_d s)) x)
    as [|Hn1]; [discriminate|].
  destruct (Qltb_spec x (inject_Z (lo_n s + hi_n s) / inject_Z (lo_d s + hi_d s)))
    as [|Hn2]; [discriminate|].
  intros [= <- <-].
  apply Qnot_lt_le in Hn1, Hn2.
  assert (Hz : e0 == 0).
  { rewrite He0. rewrite Qabs_pos by lra. lra. }
  destruct (Qltb_spec e0 (best_err s)) as [Hlt|Hge].
  - split; [exact (bracket_best x _ _ _ _ _ _ _ _ _ Hs Hmd Hlt)|].
    split; [discriminate|]. intros _. cbn [best_err]. lra.
  - split; [assumption|]. split; [discriminate|].
    intros _. apply Qnot_lt_le in Hge. lra.
Qed.

(** The loop of [toFraction] is left within its 10000 iterations. *)
Lemma toFraction_search_returns (x : Q) (maxDen : Z) :
  exists r, mediant_search x maxDen = Some r.
Proof.
  unfold mediant_search.
  apply (run_terminates (search_body x maxDen)
           (fun s => (0 <= iter s)%Z) (fun s => Z.to_nat (10000 - iter s))).
  - intros s _. unfold search_body.
    repeat match goal with |- context [if ?c then _ else _] => destruct c end;
      discriminate.
  - intros s s' Hs. unfold search_body.
    destruct (Z.ltb_spec (iter s) 10000) as [Hit|]; [|discriminate].
    repeat match goal with |- context [if ?c then _ else _] => destruct c end;
      try discriminate; intros [= <-]; cbn [iter]; split; lia.
  - unfold search_init. destruct (Qltb _ _); cbn [iter]; lia.
  - unfold search_init. destruct (Qltb _ _); cbn [iter]; lia.
Qed.

Lemma toFraction_search_bracket (x : Q) (maxDen : Z) e s :
  mediant_search x maxDen = Some (e, s) ->
  toFraction_bracket x s
  /\ (e = DenExceeded -> (maxDen < lo_d s + hi_d s)%Z)
  /\ (e = ExactHit -> best_err s <= 0).
Proof.
  intros Hrun. unfold mediant_search in Hrun.
  refine (run_invariant (search_body x maxDen) (toFraction_bracket x)
            (fun r => toFraction_bracket x (snd r)
                      /\ (fst r = DenExceeded -> (maxDen < lo_d (snd r) + hi_d (snd r))%Z)
                      /\ (fst r = ExactHit -> best_err (snd r) <= 0))
            _ _ _ _ (e, s) (toFraction_init_bracket x) Hrun).
  - intros s0 s1 H0 Hb. eapply toFraction_body_next; eassumption.
  - intros s0 [e1 s1] H0 Hb. eapply toFraction_body_return; eassumption.
Qed.

End ToFractionSearch.

(* ================================================================== *)
(** * The rational approximators *)

Section Approximators.

Local Open Scope Q_scope.

Lemma value_transfer (z den n d : Z) :
  (1 <= den)%Z -> (1 <= d)%Z -> (z * d = n * den)%Z ->
  inject_Z z / inject_Z den == inject_Z n / inject_Z d.
Proof.
  intros Hden Hd E.
  pose proof (inject_Z_pos den Hden). pose proof (inject_Z_pos d Hd).
  assert (EQ : inject_Z z * inject_Z d == inject_Z n * inject_Z den).
  { rewrite <- !inject_Z_mult, E. reflexivity. }
  apply (Qmult_inj_r _ _ (inject_Z den * inject_Z d)); [nra|].
  transitivity (inject_Z z * inject_Z d); [field; lra|].
  rewrite EQ. field. lra.
Qed.

Lemma err_opp (x : Q) (n d : Z) : err (- x) (- n) d == err x n d.
Proof.
  unfold err. rewrite inject_Z_opp.
  rewrite <- (Qabs_opp (x - inject_Z n / inject_Z d)).
  apply Qabs_wd. unfold Qdiv. ring.
Qed.

(** The error of [n/d] for [x] is that of [sign * n / d] for [|x|],
    [sign] being the sign of [x]. *)
Lemma err_abs (x : Q) (n d : Z) :
  err x n d == err (Qabs x) ((if Qltb x 0 then -1 else 1) * n) d.
Proof.
  destruct (Qltb_spec x 0) as [Hneg|Hpos].
  - replace (-1 * n)%Z with (- n)%Z by ring.
    rewrite <- (err_opp x n d).
    unfold err. rewrite (Qabs_neg x) by lra. reflexivity.
  - rewrite Z.mul_1_l. unfold err.
    apply Qnot_lt_le in Hpos. rewrite (Qabs_pos x) by lra. reflexivity.
Qed.

Lemma sign_involutive (x : Q) (n : Z) :
  ((if Qltb x 0 then -1 else 1) * ((if Qltb x 0 then -1 else 1) * n) = n)%Z.
Proof. destruct (Qltb x 0); ring. Qed.


Import Fraction.

(** What [decimalToFraction] returns on a finite number. *)
Lemma decimalToFraction_finite (x : Q) (maxDen : Z) (tol : Q) :
  exists f z,
    decimalToFraction (Finite x) maxDen tol = Some f
    /\ num f = Finite (inject_Z z)
    /\ reduced z (den f)
    /\ ((Qabs x < tol /\ z = 0%Z /\ den f = 1%Z)
        \/ exists e s,
             mediant_search (Qabs x) maxDen tol = Some (e, s)
             /\ search_bracket (Qabs x) s
             /\ (e = DenExceeded -> (maxDen < lo_d s + hi_d s)%Z)
             /\ (e = WithinTol -> bestErr s < tol)
             /\ err x z (den f) == bestErr s).
Proof.
  unfold decimalToFraction.
  destruct (Qltb_spec (Qabs x) tol) as [Hsmall|Hbig].
  - exists (mkFraction (Finite 0) 1), 0%Z.
    split; [reflexivity|]. split; [reflexivity|].
    split; [unfold reduced; cbn [den]; repeat apply conj; try lia; reflexivity|].
    left. repeat apply conj; try reflexivity. assumption.
  - destruct (mediant_search_returns (Qabs x) maxDen tol) as [[e s] Hrun].
    rewrite Hrun. cbn [bind snd].
    destruct (mediant_search_bracket (Qabs x) maxDen tol e s (Qabs_nonneg x) Hrun)
      as (Hbr & Hden & Htol).
    assert (Hbd : (1 <= best_d s)%Z) by (destruct Hbr as (_ & _ & _ & H & _); exact H).
    destruct (reduceFraction_value
                ((if Qltb x 0 then -1 else 1) * best_n s) (best_d s))
      as (f & z & Hf & Hnum & Hred & Hval); [lia|].
    exists f, z. repeat (split; [assumption|]).
    right. exists e, s.
    split; [reflexivity|]. repeat (split; [assumption|]).
    assert (Hdf : (1 <= den f)%Z) by (destruct Hred; lia).
    rewrite err_abs.
    destruct Hbr as (_ & _ & _ & _ & _ & _ & Hbe & _). rewrite Hbe.
    unfold err.
    assert (EV : inject_Z ((if Qltb x 0 then -1 else 1) * z) / inject_Z (den f)
                 == inject_Z (best_n s) / inject_Z (best_d s)).
    { apply value_transfer; [assumption|assumption|].
      rewrite <- Z.mul_assoc, Hval, !Z.mul_assoc.
      rewrite <- (Z.mul_assoc _ _ (best_n s)), sign_involutive. reflexivity. }
    rewrite EV. reflexivity.
Qed.

Lemma fraction_value_err (x : Q) (f : fraction) (z : Z) :
  num f = Finite (inject_Z z) ->
  Qabs (x - fraction_value f) = err x z (den f).
Proof. intros H. unfold fraction_value, err. rewrite H. reflexivity. Qed.

(** Unless its loop ran into the cap of 200 iterations,
    [decimalToFraction] returns a nearest fraction. *)
Lemma decimalToFraction_nearest (x : Q) (maxDen : Z) (tol : Q) :
  decimalToFraction_exit x maxDen tol <> Some Fraction.CapReached ->
  exists f, decimalToFraction (Finite x) maxDen tol = Some f
            /\ nearest x maxDen tol (fraction_value f).
Proof.
  intros Hcap.
  destruct (decimalToFraction_finite x maxDen tol)
    as (f & z & Hf & Hnum & Hred & Hcases).
  exists f. split; [assumption|].
  intros p q Hq. rewrite (fraction_value_err x f z Hnum).
  destruct Hcases as [(Hsmall & -> & Hd)|(e & s & Hrun & Hbr & Hden & Htol & Herr)].
  - right. rewrite Hd. unfold err.
    setoid_replace (x - inject_Z 0 / inject_Z 1) with x; [assumption|].
    change (inject_Z 0) with 0. change (inject_Z 1) with 1. field.
  - unfold decimalToFraction_exit, toFraction_exit in Hcap.
    rewrite Hrun in Hcap. cbn [option_map fst] in Hcap. rewrite Herr.
    destruct e.
    + left.
      destruct Hbr as (H1 & H2 & H3 & H4 & H5 & H6 & Hbe & H8 & H9).
      rewrite Hbe, (err_abs x p q).
      apply (bracket_nearest (Qabs x) (lo_n s) (lo_d s) (hi_n s) (hi_d s)
               (best_n s) (best_d s) (bestErr s) maxDen); auto.
      repeat apply conj; assumption.
    + right. auto.
    + congruence.
Qed.

End Approximators.

Section ToFraction.

Import Fractions.
Local Open Scope Q_scope.

Lemma Qfloor_half (k : Z) : Qfloor (inject_Z k + (1 # 2)) = k.
Proof.
  pose proof (Qfloor_le (inject_Z k + (1 # 2))) as Hl.
  pose proof (Qlt_floor (inject_Z k + (1 # 2))) as Hu.
  set (r := Qfloor (inject_Z k + (1 # 2))) in *.
  assert (H1 : inject_Z r < inject_Z (k + 1)).
  { rewrite inject_Z_plus. change (inject_Z 1) with 1. lra. }
  assert (H2 : inject_Z k < inject_Z (r + 1)) by lra.
  rewrite <- Zlt_Qlt in H1, H2. lia.
Qed.

Lemma sign_abs (x : Q) (k : Z) :
  Qabs x == inject_Z k ->
  x == inject_Z (if Qltb x 0 then - k else k).
Proof.
  intros H. destruct (Qltb_spec x 0) as [Hneg|Hpos].
  - rewrite inject_Z_opp, <- H, Qabs_neg by lra. ring.
  - apply Qnot_lt_le in Hpos. rewrite <- H, Qabs_pos by lra. reflexivity.
Qed.

Lemma frac_value_err (x : Q) (f : frac) :
  Qabs (x - frac_value f) = err x (n f) (d f).
Proof. reflexivity. Qed.

(** What [toFraction] returns on a finite number. *)
Lemma toFraction_finite (x : Q) (maxDen : Z) :
  exists r, toFraction (Finite x) maxDen = Some r
    /\ match r with
       | None => 10000000000 # 1 < Qabs x
       | Some f =>
           Qabs x <= 10000000000 # 1
           /\ frac_invariant f
           /\ (x == frac_value f
               \/ exists e s,
                    mediant_search (Qabs x) maxDen = Some (e, s)
                    /\ toFraction_bracket (Qabs x) s
                    /\ (e = DenExceeded -> (maxDen < lo_d s + hi_d s)%Z)
                    /\ (e = ExactHit -> best_err s <= 0)
                    /\ err x (n f) (d f) == best_err s)
       end.
Proof.
  unfold toFraction.
  destruct (Qeq_bool x 0) eqn:Hz.
  { apply Qeq_bool_iff in Hz.
    exists (Some (mkFrac 0 1)). split; [reflexivity|].
    split; [rewrite Hz; discriminate|].
    split; [unfold frac_invariant, reduced; cbn [n d];
            repeat apply conj; try lia; reflexivity|].
    left. unfold frac_value. cbn [n d]. rewrite Hz.
    change (inject_Z 0) with 0. change (inject_Z 1) with 1. field. }
  destruct (Qltb_spec (10000000000 # 1) (Qabs x)) as [Hbig|Hok].
  { exists None. split; [reflexivity|assumption]. }
  apply Qnot_lt_le in Hok.
  destruct (Qeq_bool (Qabs x) (inject_Z (Qfloor (Qabs x)))) eqn:Hint.
  { apply Qeq_bool_iff in Hint.
    eexists. split; [reflexivity|].
    split; [assumption|].
    assert (E : Qfloor (Qabs x + (1 # 2)) = Qfloor (Qabs x)).
    { rewrite (Qfloor_comp _ _ (Qplus_comp _ _ Hint _ _ (Qeq_refl (1 # 2)))).
      apply Qfloor_half. }
    rewrite E. set (k := Qfloor (Qabs x)) in *.
    split.
    - unfold frac_invariant, reduced. cbn [n d].
      repeat apply conj; try lia. apply Z.gcd_1_r.
    - left. unfold frac_value. cbn [n d].
      rewrite (sign_abs x k Hint) at 1.
      change (inject_Z 1) with 1. field. }
  destruct (toFraction_search_returns (Qabs x) maxDen) as [[e s] Hrun].
  rewrite Hrun. cbn [bind snd].
  destruct (toFraction_search_bracket (Qabs x) maxDen e s Hrun)
    as (Hbr & Hden & Hhit).
  assert (Hbd : (1 <= best_d s)%Z) by (destruct Hbr as (_ & _ & _ & H & _); exact H).
  destruct (reduce_returns (if Qltb x 0 then (- best_n s)%Z else best_n s)
              (best_d s)) as (f & Hf & Hinv & Hval); [lia|].
  rewrite Hf. cbn [bind].
  exists (Some f). split; [reflexivity|].
  split; [assumption|]. split; [assumption|].
  right. exists e, s. split; [reflexivity|]. repeat (split; [assumption|]).
  assert (Hdf : (1 <= d f)%Z) by (destruct Hinv; lia).
  rewrite err_abs.
  destruct Hbr as (_ & _ & _ & _ & _ & _ & Hbe & _). rewrite Hbe.
  unfold err.
  assert (EV : inject_Z ((if Qltb x 0 then (-1)%Z else 1%Z) * n f) / inject_Z (d f)
               == inject_Z (best_n s) / inject_Z (best_d s)).
  { apply value_transfer; [assumption|assumption|].
    rewrite <- Z.mul_assoc, Hval. destruct (Qltb x 0); ring. }
  rewrite EV. reflexivity.
Qed.

(** Unless its loop ran into the cap of 10000 iterations, [toFraction]
    returns [null] or a nearest fraction. *)
Lemma toFraction_nearest (x : Q) (maxDen : Z) :
  toFraction_exit x maxDen <> Some Fractions.CapReached ->
  Qabs x <= 10000000000 # 1 ->
  exists f, toFraction (Finite x) maxDen = Some (Some f)
            /\ nearest x maxDen 0 (frac_value f).
Proof.
  intros Hcap Hsize.
  destruct (toFraction_finite x maxDen) as ([f|] & Hr & Hspec); [|lra].
  exists f. split; [assumption|].
  destruct Hspec as (_ & Hinv & Hcases).
  intros p q Hq. left. rewrite frac_value_err.
  destruct Hcases as [Hexact|(e & s & Hrun & Hbr & Hden & Hhit & Herr)].
  - unfold err at 1. fold (frac_value f). 
    setoid_replace (x - frac_value f) with 0 by lra.
    apply Qabs_nonneg.
  - unfold decimalToFraction_exit, toFraction_exit in Hcap.
    rewrite Hrun in Hcap. cbn [option_map fst] in Hcap. rewrite Herr.
    destruct e.
    + destruct Hbr as (H1 & H2 & H3 & H4 & H5 & H6 & Hbe & H8 & H9).
      rewrite Hbe, (err_abs x p q).
      apply (bracket_nearest (Qabs x) (lo_n s) (lo_d s) (hi_n s) (hi_d s)
               (best_n s) (best_d s) (best_err s) maxDen); auto.
      repeat apply conj; assumption.
    + pose proof (err_nonneg x p q). specialize (Hhit eq_refl). lra.
    + congruence.
Qed.

End ToFraction.

(** * The iteration caps *)

Section Caps.

Local Open Scope Q_scope.

(** The denominator of the mediant grows at every iteration of
    [toFraction]: the cap of 10000 iterations is out of reach of a bound
    [maxDen <= 10000]. *)
Lemma toFraction_never_capped (x : Q) (maxDen : Z) :
  (maxDen <= 10000)%Z ->
  toFraction_exit x maxDen <> Some Fractions.CapReached.
Proof.
  intros Hmax. unfold toFraction_exit.
  destruct (Fractions.mediant_search (Qabs x) maxDen) as [[e s]|] eqn:Hrun;
    [|discriminate].
  cbn [option_map fst]. intros [= ->].
  unfold Fractions.mediant_search in Hrun.
  refine (run_invariant (Fractions.search_body (Qabs x) maxDen)
            (fun s => toFraction_bracket (Qabs x) s
                      /\ (1 <= Fractions.hi_d s)%Z
                      /\ (Fractions.iter s + 2
                          <= Fractions.lo_d s + Fractions.hi_d s)%Z
                      /\ (Fractions.iter s = 0
                          \/ Fractions.iter s + 1 <= maxDen)%Z)
            (fun r => fst r <> Fractions.CapReached)
            _ _ _ _ (Fractions.CapReached, s) _ Hrun eq_refl).
  - intros s0 s1 (Hb & Hh & Hsum & Hit) Hbody.
    destruct (toFraction_body_next _ _ _ _ Hb Hbody)
      as (Hb1 & Ei & Hlt & Hden & Hshape).
    assert (Hl : (1 <= Fractions.lo_d s0)%Z) by (destruct Hb; assumption).
    split; [assumption|].
    destruct Hshape as [[E1 E2]|[E1 E2]]; rewrite Ei, E1, E2;
      repeat apply conj; lia.
  - intros s0 [e1 s1] (Hb & Hh & Hsum & Hit). unfold Fractions.search_body.
    destruct (Z.ltb_spec (Fractions.iter s0) 10000) as [Hlt|Hge].
    + destruct (_ >? _)%Z; [intros [= <- <-]; discriminate|].
      destruct (Qltb _ _); [discriminate|].
      destruct (Qltb _ _); [discriminate|].
      intros [= <- <-]. discriminate.
    + intros _. lia.
  - split; [apply toFraction_init_bracket|].
    unfold Fractions.search_init.
    destruct (Qltb _ _);
      cbn [Fractions.iter Fractions.lo_d Fractions.hi_d];
      repeat apply conj; try lia; left; reflexivity.
Qed.

(** The numerator and the denominator of the mediant of
    [decimalToFraction] grow together by at least 1 at every iteration,
    and the mediant stays below [x + 1]: the cap of 200 iterations is out
    of reach when [(|x| + 1) * maxDen < 200]. *)
Lemma decimalToFraction_not_capped (x : Q) (maxDen : Z) (tol : Q) :
  (Qabs x + 1) * inject_Z maxDen < 200 ->
  decimalToFraction_exit x maxDen tol <> Some Fraction.CapReached.
Proof.
  intros Hsmall. unfold decimalToFraction_exit.
  pose proof (Qabs_nonneg x) as Hx. set (ax := Qabs x) in *.
  destruct (Fraction.mediant_search ax maxDen tol) as [[e s]|] eqn:Hrun;
    [|discriminate].
  cbn [option_map fst]. intros [= ->].
  unfold Fraction.mediant_search in Hrun.
  refine (run_invariant (Fraction.search_body ax maxDen tol)
            (fun s => search_bracket ax s
                      /\ (0 <= Fraction.lo_n s)%Z
                      /\ (1 <= Fraction.hi_n s)%Z
                      /\ (Fraction.iter s + 2
                          <= Fraction.lo_n s + Fraction.lo_d s
                             + Fraction.hi_n s + Fraction.hi_d s)%Z
                      /\ (Fraction.iter s = 0%Z
                          \/ inject_Z (Fraction.iter s)
                             <= (ax + 1) * inject_Z maxDen))
            (fun r => fst r <> Fraction.CapReached)
            _ _ _ _ (Fraction.CapReached, s) _ Hrun eq_refl).
  - intros s0 s1 (Hb & Hln & Hhn & Hsum & Hit) Hbody.
    destruct (search_body_next _ _ _ _ _ Hb Hbody)
      as (Hb1 & Ei & Hlt & Hden & Hshape).
    split; [assumption|].
    destruct Hb as (Hld & Hhd & Hdet & _ & Hlo & _).
    assert (Hgrow : inject_Z (Fraction.iter s0 + 1)
                    <= (ax + 1) * inject_Z maxDen).
    { (* the mediant is at most [x + 1] *)
      assert (Hl : 1 <= inject_Z (Fraction.lo_d s0)) by (apply inject_Z_pos; assumption).
      assert (Hh : 0 <= inject_Z (Fraction.hi_d s0)).
      { rewrite Zle_Qle in Hhd. exact Hhd. }
      assert (Hd : inject_Z (Fraction.hi_n s0) * inject_Z (Fraction.lo_d s0)
                   == 1 + inject_Z (Fraction.lo_n s0) * inject_Z (Fraction.hi_d s0)).
      { rewrite <- !inject_Z_mult. change 1 with (inject_Z 1).
        rewrite <- inject_Z_plus. apply inject_Z_injective. lia. }
      assert (Hhi : inject_Z (Fraction.hi_n s0)
                    <= 1 + ax * inject_Z (Fraction.hi_d s0)).
      { destruct (Qlt_le_dec (1 + ax * inject_Z (Fraction.hi_d s0))
                             (inject_Z (Fraction.hi_n s0))) as [Hc|]; [|assumption].
        exfalso. nra. }
      assert (Hsum' : inject_Z (Fraction.iter s0 + 2)
                      <= inject_Z (Fraction.lo_n s0) + inject_Z (Fraction.lo_d s0)
                         + inject_Z (Fraction.hi_n s0) + inject_Z (Fraction.hi_d s0)).
      { rewrite <- !inject_Z_plus, <- Zle_Qle. assumption. }
      assert (Hm : inject_Z (Fraction.lo_d s0) + inject_Z (Fraction.hi_d s0)
                   <= inject_Z maxDen).
      { rewrite <- inject_Z_plus, <- Zle_Qle. assumption. }
      rewrite inject_Z_plus in *. change (inject_Z 1) with 1.
      change (inject_Z 2) with 2 in Hsum'. nra. }
    destruct Hshape as [(E1 & E2 & E3 & E4)|(E1 & E2 & E3 & E4)];
      rewrite Ei, E1, E2, E3, E4;
      repeat apply conj; try lia; right; assumption.
  - intros s0 [e1 s1] (Hb & Hln & Hhn & Hsum & Hit). unfold Fraction.search_body.
    destruct (Z.ltb_spec (Fraction.iter s0) 200) as [Hlt|Hge].
    + destruct (_ >? _)%Z; [intros [= <- <-]; discriminate|].
      destruct (Qltb _ tol); [intros [= <- <-]; discriminate|].
      destruct (Qltb _ _); discriminate.
    + intros _. exfalso.
      destruct Hit as [E|Hit]; [lia|].
      rewrite Zle_Qle in Hge. change (inject_Z 200) with 200 in Hge. lra.
  - split; [apply search_init_bracket; assumption|].
    unfold Fraction.search_init, Fraction.round.
    cbn [Fraction.iter Fraction.lo_n Fraction.lo_d Fraction.hi_n Fraction.hi_d].
    repeat apply conj; lia.
Qed.

End Caps.

(* ================================================================== *)
(** * The oscillator *)

Section OscillatorFacts.

Import Oscillator.
Local Open Scope R_scope.

Variable p : params.
Hypothesis Hm1 : 0 < m1 p.
Hypothesis Hm2 : 0 < m2 p.

Lemma c2_nonneg : 0 <= c2 p.
Proof.
  unfold c2. apply Rmult_le_pos; [nra|].
  apply Rlt_le, Rinv_0_lt_compat. nra.
Qed.

Lemma disc_nonneg : 0 <= disc p.
Proof. apply sqrt_pos. Qed.

Lemma disc_sqr : disc p * disc p = (a p - b p) ^ 2 + 4 * c2 p.
Proof.
  unfold disc. apply sqrt_sqrt.
  pose proof c2_nonneg. pose proof (pow2_ge_0 (a p - b p)). lra.
Qed.

Lemma lam1_le_lam2 : lam1 p <= lam2 p.
Proof. unfold lam1, lam2. pose proof disc_nonneg. lra. Qed.

(** Both eigenvalues are roots of the characteristic polynomial. *)
Lemma lam1_root : (a p - lam1 p) * (b p - lam1 p) = c2 p.
Proof. pose proof disc_sqr. unfold lam1. nra. Qed.

Lemma lam2_root : (a p - lam2 p) * (b p - lam2 p) = c2 p.
Proof. pose proof disc_sqr. unfold lam2. nra. Qed.

Lemma lam1_nonneg :
  0 <= k1 p -> 0 <= k2 p -> 0 <= k3 p -> 0 <= lam1 p.
Proof.
  intros H1 H2 H3.
  pose proof disc_sqr as Hd. pose proof disc_nonneg as Hd0.
  assert (Ha : 0 <= a p) by (unfold a; apply Rmult_le_pos; [lra|apply Rlt_le, Rinv_0_lt_compat; lra]).
  assert (Hb : 0 <= b p) by (unfold b; apply Rmult_le_pos; [lra|apply Rlt_le, Rinv_0_lt_compat; lra]).
  assert (Hab : c2 p <= a p * b p).
  { unfold a, b, c2.
    replace ((k1 p + k2 p) / m1 p * ((k2 p + k3 p) / m2 p))
      with ((k1 p + k2 p) * (k2 p + k3 p) / (m1 p * m2 p)) by (field; lra).
    apply Rmult_le_compat_r; [apply Rlt_le, Rinv_0_lt_compat; nra|nra]. }
  unfold lam1.
  assert (disc p <= a p + b p); [|lra].
  apply Rnot_lt_le. intros Hlt. nra.
Qed.


(** The shape of the object in the coupled branch, whatever amplitudes
    the initial conditions give. *)
Lemma compute_coupled :
  1e-14 <= Rabs (k2 p) ->
  exists A1 B1 A2 B2,
    let r1 := (k1 p + k2 p - lam1 p * m1 p) / k2 p in
    let r2 := (k1 p + k2 p - lam2 p * m1 p) / k2 p in
    coeffs1 (_compute p) = mkCoeffs A1 B1 A2 B2
    /\ coeffs2 (_compute p) = mkCoeffs (r1 * A1) (r1 * B1) (r2 * A2) (r2 * B2)
    /\ omega1 (_compute p) = sqrt (Rmax 0 (lam1 p))
    /\ omega2 (_compute p) = sqrt (Rmax 0 (lam2 p)).
Proof.
  intros Hk. unfold _compute. rewrite (Rltb_false _ _ Hk).
  cbn [coeffs1 coeffs2 omega1 omega2].
  do 4 eexists. repeat apply conj; reflexivity.
Qed.

Lemma compute_uncoupled :
  Rabs (k2 p) < 1e-14 ->
  let w1u := sqrt (Rmax 0 (k1 p / m1 p)) in
  let w2u := sqrt (Rmax 0 (k3 p / m2 p)) in
  coeffs1 (_compute p)
  = mkCoeffs (x10 p) (if Rltb 1e-14 w1u then v10 p / w1u else 0) 0 0
  /\ coeffs2 (_compute p)
     = mkCoeffs 0 0 (x20 p) (if Rltb 1e-14 w2u then v20 p / w2u else 0)
  /\ omega1 (_compute p) = w1u
  /\ omega2 (_compute p) = w2u.
Proof.
  intros Hk. unfold _compute. rewrite (Rltb_true _ _ Hk).
  cbn [coeffs1 coeffs2 omega1 omega2].
  repeat apply conj; reflexivity.
Qed.

Lemma sqrt_max_sqr (x : R) : 0 <= x -> sqrt (Rmax 0 x) * sqrt (Rmax 0 x) = x.
Proof. intros H. rewrite Rmax_right by assumption. apply sqrt_sqrt. assumption. Qed.

(** The equations of motion in the coupled branch. *)
Lemma coupled_motion (t : R) :
  0 <= k1 p -> 0 <= k2 p -> 0 <= k3 p -> 1e-14 <= Rabs (k2 p) ->
  let o := _compute p in
  m1 p * acceleration o 1 t
  = - (k1 p + k2 p) * position o 1 t + k2 p * position o 2 t
  /\ m2 p * acceleration o 2 t
     = k2 p * position o 1 t - (k2 p + k3 p) * position o 2 t.
Proof.
  intros H1 H2 H3 Hk o.
  destruct (compute_coupled Hk) as (A1 & B1 & A2 & B2 & Hc1 & Hc2 & Hw1 & Hw2).
  fold o in Hc1, Hc2, Hw1, Hw2.
  assert (Hk2 : k2 p <> 0).
  { intros E. rewrite E, Rabs_R0 in Hk. lra. }
  pose proof (lam1_nonneg H1 H2 H3) as Hl1.
  pose proof lam1_le_lam2 as Hl12.
  pose proof (sqrt_max_sqr (lam1 p) Hl1) as Hs1.
  pose proof (sqrt_max_sqr (lam2 p) ltac:(lra)) as Hs2.
  rewrite <- Hw1 in Hs1. rewrite <- Hw2 in Hs2.
  pose proof lam1_root as Hr1. pose proof lam2_root as Hr2.
  unfold a, b, c2 in Hr1, Hr2.
  unfold acceleration, position, coeffs_of. cbn [Z.eqb Pos.eqb].
  rewrite Hc1, Hc2. cbn [cw1 sw1 cw2 sw2].
  set (w1 := omega1 o) in *. set (w2 := omega2 o) in *.
  set (C1 := cos (w1 * t)). set (S1 := sin (w1 * t)).
  set (C2 := cos (w2 * t)). set (S2 := sin (w2 * t)).
  set (l1 := lam1 p) in *. set (l2 := lam2 p) in *.
  assert (E1 : m2 p * l1 * (k1 p + k2 p - l1 * m1 p)
               = (k2 p + k3 p) * (k1 p + k2 p - l1 * m1 p) - k2 p * k2 p).
  { apply (Rmult_eq_compat_r (m1 p * m2 p)) in Hr1.
    field_simplify in Hr1; [|lra|lra]. nra. }
  assert (E2 : m2 p * l2 * (k1 p + k2 p - l2 * m1 p)
               = (k2 p + k3 p) * (k1 p + k2 p - l2 * m1 p) - k2 p * k2 p).
  { apply (Rmult_eq_compat_r (m1 p * m2 p)) in Hr2.
    field_simplify in Hr2; [|lra|lra]. nra. }
  split.
  - replace (- A1 * w1 * w1 * C1 - B1 * w1 * w1 * S1 + - A2 * w2 * w2 * C2 - B2 * w2 * w2 * S2)
      with (- (w1 * w1) * (A1 * C1 + B1 * S1) - (w2 * w2) * (A2 * C2 + B2 * S2)) by ring.
    rewrite Hs1, Hs2. field. assumption.
  - replace (- (((k1 p + k2 p - l1 * m1 p) / k2 p) * A1) * w1 * w1 * C1
             - ((k1 p + k2 p - l1 * m1 p) / k2 p) * B1 * w1 * w1 * S1
             + - (((k1 p + k2 p - l2 * m1 p) / k2 p) * A2) * w2 * w2 * C2
             - ((k1 p + k2 p - l2 * m1 p) / k2 p) * B2 * w2 * w2 * S2)
      with (- (w1 * w1) * ((k1 p + k2 p - l1 * m1 p) / k2 p) * (A1 * C1 + B1 * S1)
            - (w2 * w2) * ((k1 p + k2 p - l2 * m1 p) / k2 p) * (A2 * C2 + B2 * S2)) by ring.
    rewrite Hs1, Hs2.
    apply (Rmult_eq_reg_r (k2 p)); [|assumption].
    transitivity (- (m2 p * l1 * (k1 p + k2 p - l1 * m1 p)) * (A1 * C1 + B1 * S1)
                  - (m2 p * l2 * (k1 p + k2 p - l2 * m1 p)) * (A2 * C2 + B2 * S2)).
    { field. assumption. }
    rewrite E1, E2. field. assumption.
Qed.


(** In the zero-coupling branch each mass obeys its own equation. *)
Lemma uncoupled_motion (t : R) :
  0 <= k1 p -> 0 <= k3 p -> Rabs (k2 p) < 1e-14 ->
  let o := _compute p in
  m1 p * acceleration o 1 t = - k1 p * position o 1 t
  /\ m2 p * acceleration o 2 t = - k3 p * position o 2 t.
Proof.
  intros H1 H3 Hk o.
  destruct (compute_uncoupled Hk) as (Hc1 & Hc2 & Hw1 & Hw2).
  fold o in Hc1, Hc2, Hw1, Hw2.
  assert (Hq1 : 0 <= k1 p / m1 p).
  { apply Rmult_le_pos; [lra|apply Rlt_le, Rinv_0_lt_compat; lra]. }
  assert (Hq3 : 0 <= k3 p / m2 p).
  { apply Rmult_le_pos; [lra|apply Rlt_le, Rinv_0_lt_compat; lra]. }
  pose proof (sqrt_max_sqr _ Hq1) as Hs1.
  pose proof (sqrt_max_sqr _ Hq3) as Hs2.
  rewrite <- Hw1 in Hs1. rewrite <- Hw2 in Hs2.
  unfold acceleration, position, coeffs_of. cbn [Z.eqb Pos.eqb].
  rewrite Hc1, Hc2. cbn [cw1 sw1 cw2 sw2].
  set (w1 := omega1 o) in *. set (w2 := omega2 o) in *.
  clearbody w1 w2.
  set (C1 := cos (w1 * t)). set (S1 := sin (w1 * t)).
  set (C2 := cos (w2 * t)). set (S2 := sin (w2 * t)).
  split.
  - match goal with |- context [if ?c then ?u else ?v] =>
      set (B := if c then u else v) end.
    transitivity (- (m1 p * (w1 * w1)) * (x10 p * C1 + B * S1)); [ring|].
    rewrite Hs1. field. lra.
  - match goal with |- context [if ?c then ?u else ?v] =>
      set (B := if c then u else v) end.
    transitivity (- (m2 p * (w2 * w2)) * (x20 p * C2 + B * S2)); [ring|].
    rewrite Hs2. field. lra.
Qed.


Lemma disc_pos : k2 p <> 0 -> 0 < disc p.
Proof.
  intros Hk. pose proof disc_sqr as Hd. pose proof disc_nonneg as Hd0.
  assert (0 < c2 p).
  { unfold c2. apply Rmult_lt_0_compat; [nra|apply Rinv_0_lt_compat; nra]. }
  pose proof (pow2_ge_0 (a p - b p)). nra.
Qed.

(** The initial state in the zero-coupling branch. *)
Lemma initial_uncoupled :
  Rabs (k2 p) < 1e-14 ->
  let o := _compute p in
  position o 1 0 = x10 p
  /\ position o 2 0 = x20 p
  /\ velocity o 1 0 = (if Rltb 1e-14 (omega1 o) then v10 p else 0)
  /\ velocity o 2 0 = (if Rltb 1e-14 (omega2 o) then v20 p else 0).
Proof.
  intros Hk o.
  destruct (compute_uncoupled Hk) as (Hc1 & Hc2 & Hw1 & Hw2).
  fold o in Hc1, Hc2, Hw1, Hw2.
  unfold position, velocity, coeffs_of. cbn [Z.eqb Pos.eqb].
  rewrite Hc1, Hc2, Hw1, Hw2. cbn [cw1 sw1 cw2 sw2].
  rewrite !Rmult_0_r, cos_0, sin_0.
  repeat apply conj; try ring.
  - destruct (Rltb_spec 1e-14 (sqrt (Rmax 0 (k1 p / m1 p)))); [field; lra|ring].
  - destruct (Rltb_spec 1e-14 (sqrt (Rmax 0 (k3 p / m2 p)))); [field; lra|ring].
Qed.

(** The initial state in the coupled branch. *)
Lemma initial_coupled :
  1e-14 <= Rabs (k2 p) ->
  let o := _compute p in
  position o 1 0 = x10 p
  /\ (1e-14 <= Rabs (r1 o - r2 o) -> position o 2 0 = x20 p)
  /\ (1e-14 <= Rabs (r1 o - r2 o) -> 1e-14 <= omega1 o ->
      velocity o 1 0 = v10 p /\ velocity o 2 0 = v20 p)
  /\ (omega1 o < 1e-14 -> velocity o 1 0 = 0 /\ velocity o 2 0 = 0).
Proof.
  intros Hk o.
  assert (Hk2 : k2 p <> 0).
  { intros E. rewrite E, Rabs_R0 in Hk. lra. }
  assert (Hw12 : 1e-14 <= omega1 o -> 1e-14 < omega2 o).
  { unfold o, _compute. rewrite (Rltb_false _ _ Hk). cbn [omega1 omega2].
    intros Hw.
    assert (Hl1 : 0 < lam1 p).
    { destruct (Rle_or_lt (lam1 p) 0) as [Hle|]; [|assumption].
      rewrite Rmax_left, sqrt_0 in Hw by assumption. lra. }
    pose proof (disc_pos Hk2) as Hd.
    assert (Hl12 : lam1 p < lam2 p) by (unfold lam1, lam2; lra).
    rewrite Rmax_right in Hw by lra. rewrite Rmax_right by lra.
    pose proof (sqrt_lt_1_alt (lam1 p) (lam2 p) ltac:(lra)). lra. }
  revert Hw12.
  unfold position, velocity, coeffs_of. cbn [Z.eqb Pos.eqb].
  unfold o, _compute. rewrite (Rltb_false _ _ Hk).
  cbn [coeffs1 coeffs2 omega1 omega2 r1 r2 cw1 sw1 cw2 sw2].
  set (w1 := sqrt (Rmax 0 (lam1 p))). set (w2 := sqrt (Rmax 0 (lam2 p))).
  set (R1 := (k1 p + k2 p - lam1 p * m1 p) / k2 p).
  set (R2 := (k1 p + k2 p - lam2 p * m1 p) / k2 p).
  assert (Hw1 : 0 <= w1) by apply sqrt_pos.
  intros Hw12.
  rewrite !Rmult_0_r, cos_0, sin_0.
  destruct (Rltb_spec (Rabs (R1 - R2)) 1e-14) as [Hden|Hden];
    destruct (Rltb_spec (Rabs w1) 1e-14) as [Hsmall|Hsmall];
    cbn [orb];
    rewrite (Rabs_pos_eq w1 Hw1) in Hsmall.
  - repeat apply conj; intros; try lra; try ring.
    rewrite (Rltb_false 1e-14 w1) by lra. split; ring.
  - repeat apply conj; intros; try lra; ring.
  - assert (Hd0 : R1 - R2 <> 0) by (intros E; rewrite E, Rabs_R0 in Hden; lra).
    repeat apply conj; intros; try lra; try (field; assumption).
    rewrite (Rltb_false 1e-14 w1) by lra. split; ring.
  - assert (Hd0 : R1 - R2 <> 0) by (intros E; rewrite E, Rabs_R0 in Hden; lra).
    apply Rnot_lt_le in Hsmall.
    rewrite (Rltb_true 1e-14 w2) by (apply Hw12; lra).
    assert (Hw2 : w2 <> 0) by (specialize (Hw12 Hsmall); lra).
    assert (Hw1' : w1 <> 0) by lra.
    repeat apply conj; intros; try lra;
      try (field; repeat split; assumption).
    split; field; repeat split; assumption.
Qed.

End OscillatorFacts.

(* ================================================================== *)
(** * Moderate systems *)

(** Checks that a concrete configuration is moderate. *)
Ltac moderate_config :=
  cbv zeta;
  repeat match goal with
         | x := _ : Oscillator.params |- _ => progress unfold x
         end;
  unfold moderate, moderate_system, with_initial;
  cbn [Oscillator.m1 Oscillator.m2 Oscillator.k1 Oscillator.k2
       Oscillator.k3 Oscillator.x10 Oscillator.x20 Oscillator.v10
       Oscillator.v20];
  repeat split; try lra; apply Rabs_le; lra.

Section ModerateFacts.

Import Oscillator.
Local Open Scope R_scope.

Variable p : params.
Hypothesis Hm1 : 0 < m1 p.
Hypothesis Hm2 : 0 < m2 p.

(** The mode ratios of the oscillator differ by at least 1e-14, the
    threshold of the degenerate branch, when [m2] is at most [1e18 * m1]
    and the coupling at least 1e-14. *)
Lemma ratios_apart :
  m2 p <= 1e18 * m1 p -> 1e-14 <= k2 p ->
  1e-14 <= Rabs (r1 (_compute p) - r2 (_compute p)).
Proof.
  intros Hr Hk2.
  assert (Hk : 1e-14 <= Rabs (k2 p)) by (rewrite Rabs_pos_eq; lra).
  unfold _compute. rewrite (Rltb_false _ _ Hk). cbn [r1 r2].
  pose proof (disc_sqr p Hm1 Hm2) as Hd.
  pose proof (disc_nonneg p) as Hd0.
  replace ((k1 p + k2 p - lam1 p * m1 p) / k2 p
           - (k1 p + k2 p - lam2 p * m1 p) / k2 p)
    with (disc p * m1 p / k2 p)
    by (unfold lam1, lam2; field; lra).
  set (D := disc p) in *.
  assert (Hc : c2 p * (m1 p * m2 p) = k2 p * k2 p)
    by (unfold c2; field; split; lra).
  pose proof (pow2_ge_0 (a p - b p)) as Hsq.
  assert (H4 : 4 * (k2 p * k2 p) <= D * D * (m1 p * m2 p)).
  { rewrite Hd. assert (0 < m1 p * m2 p) by nra. nra. }
  assert (H5 : 4e-18 * (k2 p * k2 p) <= (D * m1 p) * (D * m1 p)).
  { assert (D * D * (m1 p * m2 p) <= D * D * (m1 p * (1e18 * m1 p))).
    { apply Rmult_le_compat_l; [nra|].
      apply Rmult_le_compat_l; lra. }
    lra. }
  assert (Hq : 0 <= D * m1 p / k2 p).
  { apply Rmult_le_pos; [nra|]. apply Rlt_le, Rinv_0_lt_compat. lra. }
  rewrite Rabs_pos_eq by assumption.
  destruct (Rle_or_lt 1e-14 (D * m1 p / k2 p)) as [|Hlt]; [assumption|].
  exfalso.
  assert (Hlt' : D * m1 p < 1e-14 * k2 p).
  { apply (Rmult_lt_reg_r (/ k2 p)); [apply Rinv_0_lt_compat; lra|].
    replace (1e-14 * k2 p * / k2 p) with 1e-14 by (field; lra).
    exact Hlt. }
  assert (0 <= D * m1 p) by nra.
  assert ((D * m1 p) * (D * m1 p) <= (1e-14 * k2 p) * (1e-14 * k2 p))
    by nra.
  nra.
Qed.

(** The product of the eigenvalues. *)
Lemma lam_product :
  lam1 p * lam2 p = a p * b p - c2 p.
Proof.
  pose proof (disc_sqr p Hm1 Hm2) as Hd.
  unfold lam1, lam2.
  transitivity (((a p + b p) * (a p + b p) - disc p * disc p) / 4);
    [field|].
  rewrite Hd. field.
Qed.

End ModerateFacts.

Section ModerateSystem.

Import Oscillator.
Local Open Scope R_scope.

Variable p : params.
Hypothesis Hsys : moderate_system p.

Lemma moderate_masses : 0 < m1 p /\ 0 < m2 p.
Proof. destruct Hsys as (H1 & H2 & _). lra. Qed.

Lemma moderate_springs : 0 <= k1 p /\ 0 <= k2 p /\ 0 <= k3 p.
Proof. destruct Hsys as (_ & _ & H1 & [H2|H2] & H3); lra. Qed.

(** The lower eigenvalue of a moderate system is at least 1e-7. *)
Lemma moderate_lam1 : 1e-7 <= lam1 p.
Proof.
  destruct moderate_masses as [Hm1 Hm2].
  destruct moderate_springs as (Hk1 & Hk2 & Hk3).
  destruct Hsys as (M1 & M2 & K1 & _ & K3).
  pose proof (lam_product p Hm1 Hm2) as Hprod.
  pose proof (lam1_le_lam2 p) as Hle.
  pose proof (disc_nonneg p) as Hd.
  assert (Ha : a p * m1 p = k1 p + k2 p) by (unfold a; field; lra).
  assert (Hb : b p * m2 p = k2 p + k3 p) by (unfold b; field; lra).
  assert (Hc : c2 p * (m1 p * m2 p) = k2 p * k2 p)
    by (unfold c2; field; split; lra).
  assert (Hdet : (a p * b p - c2 p) * (m1 p * m2 p)
                 = k1 p * k2 p + k1 p * k3 p + k2 p * k3 p).
  { transitivity ((a p * m1 p) * (b p * m2 p) - c2 p * (m1 p * m2 p));
      [ring|].
    rewrite Ha, Hb, Hc. ring. }
  assert (Hmm : 0 < m1 p * m2 p <= 100) by nra.
  assert (Hdet' : 1e-4 <= a p * b p - c2 p).
  { assert (0.01 <= (a p * b p - c2 p) * (m1 p * m2 p)) by nra.
    destruct (Rle_or_lt 1e-4 (a p * b p - c2 p)) as [|Hlt]; [assumption|].
    exfalso. nra. }
  assert (Hk2' : k2 p <= 10)
    by (destruct Hsys as (_ & _ & _ & [E|E] & _); lra).
  assert (Ha' : 0 <= a p <= 200).
  { split.
    - unfold a. apply Rmult_le_pos; [lra|apply Rlt_le, Rinv_0_lt_compat; lra].
    - destruct (Rle_or_lt (a p) 200) as [|Hlt]; [assumption|].
      exfalso. nra. }
  assert (Hb' : 0 <= b p <= 200).
  { split.
    - unfold b. apply Rmult_le_pos; [lra|apply Rlt_le, Rinv_0_lt_compat; lra].
    - destruct (Rle_or_lt (b p) 200) as [|Hlt]; [assumption|].
      exfalso. nra. }
  assert (Hl2 : lam2 p <= 400).
  { pose proof (disc_sqr p Hm1 Hm2) as Hsq.
    assert (0 <= c2 p) by (apply c2_nonneg; assumption).
    assert (disc p <= a p + b p).
    { destruct (Rle_or_lt (disc p) (a p + b p)) as [|Hlt]; [assumption|].
      exfalso. nra. }
    unfold lam2. lra. }
  rewrite <- Hprod in Hdet'.
  destruct (Rle_or_lt 1e-7 (lam1 p)) as [|Hlt]; [assumption|].
  exfalso.
  assert (0 <= lam2 p).
  { unfold lam2. lra. }
  destruct (Rle_or_lt 0 (lam1 p)) as [Hp|Hn]; nra.
Qed.

(** Its lower frequency is well above the threshold 1e-14. *)
Lemma moderate_omega1 :
  0.1 <= k2 p -> 1e-14 <= omega1 (_compute p).
Proof.
  intros Hk2.
  assert (Hk : 1e-14 <= Rabs (k2 p)) by (rewrite Rabs_pos_eq; lra).
  unfold _compute. rewrite (Rltb_false _ _ Hk). cbn [omega1].
  pose proof moderate_lam1 as Hl.
  rewrite Rmax_right by lra.
  replace 1e-14 with (sqrt (1e-14 * 1e-14)) by (apply sqrt_square; lra).
  apply sqrt_le_1_alt. lra.
Qed.

Lemma moderate_omega1_above :
  0.1 <= k2 p -> 1e-4 <= omega1 (_compute p).
Proof.
  intros Hk2.
  assert (Hk : 1e-14 <= Rabs (k2 p)) by (rewrite Rabs_pos_eq; lra).
  unfold _compute. rewrite (Rltb_false _ _ Hk). cbn [omega1].
  pose proof moderate_lam1 as Hl.
  rewrite Rmax_right by lra.
  replace 1e-4 with (sqrt (1e-4 * 1e-4)) by (apply sqrt_square; lra).
  apply sqrt_le_1_alt. lra.
Qed.

(** A moderate system starts from its initial conditions. *)
Lemma moderate_initial :
  let o := _compute p in
  position o 1 0 = x10 p /\ position o 2 0 = x20 p
  /\ velocity o 1 0 = v10 p /\ velocity o 2 0 = v20 p.
Proof.
  intros o.
  destruct moderate_masses as [Hm1 Hm2].
  destruct Hsys as (M1 & M2 & K1 & [K2|K2] & K3).
  - assert (Hk : Rabs (k2 p) < 1e-14) by (rewrite K2, Rabs_R0; lra).
    destruct (initial_uncoupled p Hk) as (P1 & P2 & V1 & V2).
    destruct (compute_uncoupled p Hk) as (_ & _ & W1 & W2).
    fold o in P1, P2, V1, V2, W1, W2.
    assert (Hw : forall k m, 0.1 <= k -> 0 < m <= 10 ->
                             1e-14 < sqrt (Rmax 0 (k / m))).
    { intros k m Hk' Hm.
      assert (0.01 <= k / m).
      { apply (Rmult_le_reg_r m); [lra|].
        replace (k / m * m) with k by (field; lra). nra. }
      rewrite Rmax_right by lra.
      replace 1e-14 with (sqrt (1e-14 * 1e-14)) by (apply sqrt_square; lra).
      apply sqrt_lt_1_alt. lra. }
    rewrite V1, V2, W1, W2.
    rewrite !Rltb_true by (apply Hw; lra).
    repeat apply conj; first [assumption | reflexivity].
  - assert (Hk : 1e-14 <= Rabs (k2 p)) by (rewrite Rabs_pos_eq; lra).
    destruct (initial_coupled p Hm1 Hm2 Hk) as (P1 & P2 & V & _).
    cbv zeta in P1, P2, V. fold o in P1, P2, V.
    assert (Hden : 1e-14 <= Rabs (r1 o - r2 o)).
    { apply ratios_apart; lra. }
    destruct (V Hden) as [V1 V2].
    { apply moderate_omega1. lra. }
    repeat apply conj; try assumption. apply P2. exact Hden.
Qed.

(** It obeys the equations of motion. *)
Lemma moderate_motion (t : R) :
  let o := _compute p in
  m1 p * acceleration o 1 t
  = - (k1 p + k2 p) * position o 1 t + k2 p * position o 2 t
  /\ m2 p * acceleration o 2 t
     = k2 p * position o 1 t - (k2 p + k3 p) * position o 2 t.
Proof.
  intros o.
  destruct moderate_masses as [Hm1 Hm2].
  destruct moderate_springs as (Hk1 & Hk2 & Hk3).
  destruct Hsys as (_ & _ & _ & [K2|K2] & _).
  - destruct (uncoupled_motion p Hm1 Hm2 t Hk1 Hk3) as [E1 E2].
    { rewrite K2, Rabs_R0. lra. }
    fold o in E1, E2. rewrite E1, E2, K2. split; ring.
  - apply (coupled_motion p Hm1 Hm2 t Hk1 Hk2 Hk3).
    rewrite Rabs_pos_eq; lra.
Qed.

End ModerateSystem.
(* ================================================================== *)
(** * The scan of [firstTimeTo] *)

Section Scan.

Import Oscillator.
Local Open Scope R_scope.

Variables (fn : R -> R) (target tMin tMax dt tol : R).

(** The bisection is left within its 60 iterations. *)
Lemma bisect_returns (l h pf : R) :
  exists r, run (bisect_body fn target tol) 61 (mkBisection 0 l h pf)
            = Some r.
Proof.
  apply (run_terminates (bisect_body fn target tol)
           (fun s => (0 <= bi s)%Z) (fun s => Z.to_nat (60 - bi s))).
  - intros s _. unfold bisect_body.
    repeat match goal with |- context [if ?c then _ else _] => destruct c end;
      discriminate.
  - intros s s' Hs. unfold bisect_body.
    destruct (Z.ltb_spec (bi s) 60) as [Hit|]; [|discriminate].
    repeat match goal with |- context [if ?c then _ else _] => destruct c end;
      try discriminate; intros [= <-]; cbn [bi]; split; lia.
  - cbn [bi]. lia.
  - cbn [bi]. lia.
Qed.

(** Its result lies between the two samples it starts from. *)
Lemma bisect_between (fuel : nat) (l h pf r : R) :
  l <= h ->
  run (bisect_body fn target tol) fuel (mkBisection 0 l h pf) = Some r ->
  l <= r <= h.
Proof.
  intros Hlh Hrun.
  refine (run_invariant (bisect_body fn target tol)
            (fun s => l <= lo s /\ lo s <= hi s /\ hi s <= h)
            (fun r => l <= r <= h) _ _ fuel _ r _ Hrun).
  - intros s s' (H1 & H2 & H3). unfold bisect_body.
    destruct (bi s <? 60)%Z; [|discriminate].
    destruct (Rltb _ tol); [discriminate|].
    destruct (Rleb _ 0); intros [= <-]; cbn [lo hi]; lra.
  - intros s r0 (H1 & H2 & H3). unfold bisect_body.
    destruct (bi s <? 60)%Z.
    + destruct (Rltb _ tol).
      * intros [= <-]. lra.
      * destruct (Rleb _ 0); discriminate.
    + intros [= <-]. lra.
  - cbn [lo hi]. lra.
Qed.

Hypothesis Hdt : 0 < dt.

Abbreviation body := (scan_body fn target tMax dt tol).

(** The scan returns once [tMin + n * dt] has passed [tMax + dt / 2]. *)
Lemma scan_returns (fuel : nat) :
  forall s : scan,
    tMax + dt * 0.5 < st s + INR fuel * dt ->
    exists r, run body (S fuel) s = Some r.
Proof.
  induction fuel as [|fuel IH]; intros s Hfuel.
  - cbn [INR] in Hfuel. cbn [run]. unfold scan_body at 1.
    rewrite Rleb_false by lra. eauto.
  - cbn [run]. unfold scan_body at 1.
    destruct (Rleb (st s) (tMax + dt * 0.5)); [|eauto].
    destruct (Rltb _ tol); [eauto|].
    destruct (Rltb _ 0).
    { destruct (bisect_returns (prevT s) (Rmin (st s) tMax) (prevF s))
        as [r0 ->]. cbn [bind]. eauto. }
    destruct (Rleb tMax _); [eauto|].
    apply IH. cbn [st]. rewrite S_INR in Hfuel. lra.
Qed.

Lemma steps_exist (x : R) : exists n : nat, x < INR n * dt.
Proof.
  destruct (archimed (x / dt)) as [Hup _].
  exists (Z.to_nat (up (x / dt))).
  assert (H : IZR (up (x / dt)) <= INR (Z.to_nat (up (x / dt)))).
  { destruct (Z_le_gt_dec 0 (up (x / dt))) as [Hz|Hz].
    - rewrite INR_IZR_INZ, Z2Nat.id by assumption. lra.
    - apply Rle_trans with 0; [apply IZR_le; lia|apply pos_INR]. }
  assert (x / dt < INR (Z.to_nat (up (x / dt)))) by lra.
  apply (Rmult_lt_compat_r dt) in H0; [|assumption].
  unfold Rdiv in H0. rewrite Rmult_assoc, Rinv_l, Rmult_1_r in H0 by lra.
  assumption.
Qed.

Hypothesis Hwin : tMin <= tMax.

Abbreviation sample_at := (sample tMin tMax dt).
Abbreviation is_scanned := (scanned tMin tMax dt).
Abbreviation is_calm := (calm fn target tMin tMax dt tol).

Lemma sample_0 : sample_at 0 = tMin.
Proof.
  unfold sample. cbn [INR]. rewrite Rmult_0_l, Rplus_0_r.
  apply Rmin_left. assumption.
Qed.

Lemma sample_bounds (n : nat) : tMin <= sample_at n <= tMax.
Proof.
  unfold sample. pose proof (pos_INR n).
  split; [apply Rmin_glb; nra | apply Rmin_r].
Qed.

Lemma sample_mono (n : nat) : sample_at n <= sample_at (S n).
Proof.
  unfold sample. rewrite S_INR.
  apply Rle_min_compat_r. nra.
Qed.

(** The scan from its [k]-th sample on. *)
Lemma scan_from (fuel : nat) :
  forall (k : nat) (s : scan) (r : found),
    st s = tMin + INR (S k) * dt ->
    prevT s = sample_at k ->
    prevF s = fn (sample_at k) - target ->
    k = O \/ tMin + INR k * dt < tMax ->
    run body fuel s = Some r ->
    (r = Null <-> forall n, (k < n)%nat -> is_scanned n -> is_calm n)
    /\ (forall t, r = Time t -> tMin <= t <= tMax).
Proof.
  induction fuel as [|fuel IH]; intros k s r Hst HpT HpF Hk Hrun;
    [discriminate|].
  cbn [run] in Hrun. unfold scan_body at 1 in Hrun.
  assert (Hfar : forall n, (k < n)%nat -> st s <= tMin + INR n * dt).
  { intros n Hn. rewrite Hst. apply le_INR in Hn. nra. }
  destruct (Rleb_spec (st s) (tMax + dt * 0.5)) as [Hcond|Hcond].
  2:{ injection Hrun as <-. split; [|discriminate].
      split; [|reflexivity]. intros _ n Hn [->|[Hv _]]; [lia|].
      specialize (Hfar n Hn). lra. }
  assert (HcurT : Rmin (st s) tMax = sample_at (S k)).
  { unfold sample. rewrite Hst. reflexivity. }
  rewrite HcurT in Hrun.
  assert (Hsc : is_scanned (S k)).
  { right. cbn [pred]. rewrite <- Hst. split; [assumption|].
    destruct Hk as [->|Hk]; [|assumption].
    rewrite Hst in Hcond. cbn [INR] in *. lra. }
  pose proof (sample_bounds (S k)) as Hb.
  destruct (Rltb_spec (Rabs (fn (sample_at (S k)) - target)) tol) as [Hhit|Hmiss].
  { injection Hrun as <-. split.
    - split; [discriminate|]. intros H.
      destruct (H (S k) ltac:(lia) Hsc) as [Hc _]. lra.
    - intros t [= <-]. assumption. }
  destruct (Rltb_spec (prevF s * (fn (sample_at (S k)) - target)) 0) as [Hsign|Hsame].
  { destruct (run (bisect_body fn target tol) 61 _) as [r0|] eqn:Hbis;
      [|discriminate].
    cbn [bind] in Hrun. injection Hrun as <-. split.
    - split; [discriminate|]. intros H.
      destruct (H (S k) ltac:(lia) Hsc) as [_ Hc]. cbn [pred] in Hc.
      rewrite HpF in Hsign. lra.
    - intros t [= <-].
      apply bisect_between in Hbis.
      + pose proof (sample_bounds k). rewrite HpT in Hbis. lra.
      + rewrite HpT. apply sample_mono. }
  assert (Hcalm : is_calm (S k)).
  { split; [apply Rnot_lt_le; assumption|]. cbn [pred].
    rewrite <- HpF. apply Rnot_lt_le. assumption. }
  destruct (Rleb_spec tMax (sample_at (S k))) as [Hend|Hgo].
  { injection Hrun as <-. split; [|discriminate].
    split; [|reflexivity]. intros _ n Hn Hn'.
    destruct (Nat.eq_dec n (S k)) as [->|Hne]; [assumption|].
    exfalso. destruct Hn' as [->|[_ Hv]]; [lia|].
    assert (Hp : (k < pred n)%nat) by lia.
    specialize (Hfar _ Hp).
    assert (tMax <= st s); [|lra].
    rewrite <- HcurT in Hend. pose proof (Rmin_l (st s) tMax). lra. }
  assert (Hlt : st s < tMax).
  { apply Rnot_le_lt in Hgo. rewrite <- HcurT in Hgo.
    unfold Rmin in Hgo. destruct (Rle_dec (st s) tMax); lra. }
  assert (Hnext : (r = Null <-> forall n, (S k < n)%nat -> is_scanned n -> is_calm n)
                  /\ (forall t, r = Time t -> tMin <= t <= tMax)).
  { apply (IH (S k) _ r) with (5 := Hrun); cbn [st prevT prevF].
    - rewrite Hst, !S_INR. ring.
    - reflexivity.
    - reflexivity.
    - right. rewrite <- Hst. assumption. }
  destruct Hnext as [Hnull Hrange].
  split; [|assumption].
  rewrite Hnull. split.
  - intros H n Hn Hn'.
    destruct (Nat.eq_dec n (S k)) as [->|Hne]; [assumption|].
    apply H; [lia|assumption].
  - intros H n Hn Hn'. apply H; [lia|assumption].
Qed.

End Scan.

(* ================================================================== *)
(** * The cases of the test suites *)

Section Tests.

Local Open Scope Z_scope.

Example gcd_12_8 : Fraction.gcd 12 8 = Some 4.
Proof. reflexivity. Qed.

Example gcd_0_5 : Fraction.gcd 0 5 = Some 5.
Proof. reflexivity. Qed.

Example gcd_5_0 : Fraction.gcd 5 0 = Some 5.
Proof. reflexivity. Qed.

Example gcd_negative : Fraction.gcd (-4) 6 = Some 2.
Proof. reflexivity. Qed.

Example reduceFraction_6_9 :
  Fraction.reduceFraction 6 9
  = Some (Fraction.mkFraction (Finite (inject_Z 2)) 3).
Proof. reflexivity. Qed.

Example reduceFraction_0_7 :
  Fraction.reduceFraction 0 7 = Some (Fraction.mkFraction (Finite 0) 1).
Proof. reflexivity. Qed.

Example reduceFraction_3_m6 :
  Fraction.reduceFraction 3 (-6)
  = Some (Fraction.mkFraction (Finite (inject_Z (-1))) 2).
Proof. reflexivity. Qed.

Example reduceFraction_m3_m6 :
  Fraction.reduceFraction (-3) (-6)
  = Some (Fraction.mkFraction (Finite (inject_Z 1)) 2).
Proof. reflexivity. Qed.

Example decimalToFraction_zero :
  Fraction.decimalToFraction (Finite 0) Fraction.default_maxDen
                             Fraction.default_tol
  = Some (Fraction.mkFraction (Finite 0) 1).
Proof. reflexivity. Qed.

Example decimalToFraction_half :
  Fraction.decimalToFraction (Finite (1 # 2)) Fraction.default_maxDen
                             Fraction.default_tol
  = Some (Fraction.mkFraction (Finite (inject_Z 1)) 2).
Proof. vm_compute. reflexivity. Qed.

Example decimalToFraction_three_quarters :
  Fraction.decimalToFraction (Finite (3 # 4)) Fraction.default_maxDen
                             Fraction.default_tol
  = Some (Fraction.mkFraction (Finite (inject_Z 3)) 4).
Proof. vm_compute. reflexivity. Qed.

Example decimalToFraction_minus_half :
  Fraction.decimalToFraction (Finite (- 1 # 2)) Fraction.default_maxDen
                             Fraction.default_tol
  = Some (Fraction.mkFraction (Finite (inject_Z (-1))) 2).
Proof. vm_compute. reflexivity. Qed.

Example decimalToFraction_three_halves :
  Fraction.decimalToFraction (Finite (3 # 2)) Fraction.default_maxDen
                             Fraction.default_tol
  = Some (Fraction.mkFraction (Finite (inject_Z 3)) 2).
Proof. vm_compute. reflexivity. Qed.

Example decimalToFraction_three :
  Fraction.decimalToFraction (Finite 3) Fraction.default_maxDen
                             Fraction.default_tol
  = Some (Fraction.mkFraction (Finite (inject_Z 3)) 1).
Proof. vm_compute. reflexivity. Qed.

Example decimalToFraction_third :
  Fraction.decimalToFraction (Finite (1 # 3)) Fraction.default_maxDen
                             Fraction.default_tol
  = Some (Fraction.mkFraction (Finite (inject_Z 1)) 3).
Proof. vm_compute. reflexivity. Qed.

Example toFraction_third :
  Fractions.toFraction (Finite (1 # 3)) Fractions.default_maxDen
  = Some (Some (Fractions.mkFrac 1 3)).
Proof. vm_compute. reflexivity. Qed.

Example toFraction_minus_seven_thirds :
  Fractions.toFraction (Finite (- 7 # 3)) Fractions.default_maxDen
  = Some (Some (Fractions.mkFrac (-7) 3)).
Proof. vm_compute. reflexivity. Qed.

End Tests.

(* ================================================================== *)
(** * The rational approximator: claims *)

Section ApproximatorClaims.

Local Open Scope Q_scope.

(** With the denominator bound 300 and the default tolerance,
    [decimalToFraction] maps [1/300] to [1/200]: the loop is cut by its
    cap of 200 iterations. *)
Lemma decimalToFraction_capped :
  exists f,
    Fraction.decimalToFraction (Finite (1 # 300)) 300 Fraction.default_tol
    = Some f
    /\ fraction_value f == 1 # 200
    /\ ~ nearest (1 # 300) 300 Fraction.default_tol (fraction_value f).
Proof.
  eexists. split; [vm_compute; reflexivity|].
  split; [vm_compute; reflexivity|].
  intros H.
  destruct (H 1%Z 300%Z ltac:(lia)) as [Hle|Hlt].
  - vm_compute in Hle. apply Hle. reflexivity.
  - vm_compute in Hlt. discriminate.
Qed.

(** C6, as stated, fails: [toFraction] returns [null], and no fraction,
    for the finite number 2e10; and [decimalToFraction] returns [1/200]
    for [1/300] under the denominator bound 300, although [1/300] itself
    is within the bound. *)
Lemma approximators_not_nearest :
  Fractions.toFraction (Finite (20000000000 # 1)) Fractions.default_maxDen
  = Some None
  /\ exists f,
       Fraction.decimalToFraction (Finite (1 # 300)) 300
                                  Fraction.default_tol = Some f
       /\ ~ nearest (1 # 300) 300 Fraction.default_tol (fraction_value f).
Proof.
  split; [vm_compute; reflexivity|].
  destruct decimalToFraction_capped as (f & Hf & _ & Hn).
  exists f. split; assumption.
Qed.

(** C7: every fraction returned by [decimalToFraction] and by
    [toFraction] on a finite number, and by [reduceFraction] and [reduce]
    on a non-zero denominator, has a positive denominator, is in lowest
    terms, and is [0/1] when it is zero; the calls return. *)
Theorem returned_fractions_reduced :
  (forall (x : Q) (maxDen : Z) (tol : Q),
      exists f, Fraction.decimalToFraction (Finite x) maxDen tol = Some f
                /\ fraction_invariant f)
  /\ (forall num den : Z,
         den <> 0%Z ->
         exists f, Fraction.reduceFraction num den = Some f
                   /\ fraction_invariant f)
  /\ (forall (x : number) (maxDen : Z),
         exists r, Fractions.toFraction x maxDen = Some r
                   /\ forall f, r = Some f -> frac_invariant f)
  /\ (forall n d : Z,
         d <> 0%Z ->
         exists f, Fractions.reduce (Fractions.mkFrac n d) = Some f
                   /\ frac_invariant f).
Proof.
  repeat apply conj.
  - intros x maxDen tol.
    destruct (decimalToFraction_finite x maxDen tol)
      as (f & z & Hf & Hnum & Hred & _).
    exists f. split; [assumption|]. exists z. split; assumption.
  - intros num den Hden.
    destruct (reduceFraction_value num den Hden) as (f & z & Hf & Hnum & Hred & _).
    exists f. split; [assumption|]. exists z. split; assumption.
  - intros [x| | |] maxDen.
    + destruct (toFraction_finite x maxDen) as (r & Hr & Hspec).
      exists r. split; [assumption|].
      intros f ->. destruct Hspec as (_ & Hinv & _). assumption.
    + exists None. split; [reflexivity|discriminate].
    + exists None. split; [reflexivity|discriminate].
    + exists None. split; [reflexivity|discriminate].
  - intros n d Hd.
    destruct (reduce_returns n d Hd) as (f & Hf & Hinv & _).
    exists f. split; assumption.
Qed.

Lemma returned_fractions_reduced_witness :
  (exists f, Fraction.reduceFraction (-6) 9 = Some f /\ fraction_invariant f)
  /\ (exists f, Fractions.reduce (Fractions.mkFrac 6 (-9)) = Some f
                /\ frac_invariant f).
Proof.
  split.
  - apply (proj1 (proj2 returned_fractions_reduced)). lia.
  - apply (proj2 (proj2 (proj2 returned_fractions_reduced))). lia.
Defined.

(** C8, as stated, fails: [toFraction] of fractions.js returns [null]
    for an infinite argument. *)
Lemma toFraction_infinity_null :
  Fractions.toFraction Infinity Fractions.default_maxDen = Some None.
Proof. reflexivity. Qed.

(** C8, amended: [decimalToFraction] returns the sentinel
    [{num: Infinity, den: 1}] for [Infinity] and
    [{num: -Infinity, den: 1}] for [-Infinity] and for [NaN];
    [toFraction] returns [null] for each of the three. *)
Theorem non_finite_arguments :
  forall (maxDen : Z) (tol : Q),
    Fraction.decimalToFraction Infinity maxDen tol
    = Some (Fraction.mkFraction Infinity 1)
    /\ Fraction.decimalToFraction NegInfinity maxDen tol
       = Some (Fraction.mkFraction NegInfinity 1)
    /\ Fraction.decimalToFraction NaN maxDen tol
       = Some (Fraction.mkFraction NegInfinity 1)
    /\ Fractions.toFraction Infinity maxDen = Some None
    /\ Fractions.toFraction NegInfinity maxDen = Some None
    /\ Fractions.toFraction NaN maxDen = Some None.
Proof. intros maxDen tol. repeat apply conj; reflexivity. Qed.

End ApproximatorClaims.

(* ================================================================== *)
(** * The oscillator: claims *)

Local Open Scope R_scope.

Lemma PI_gt_3 : 3 < PI.
Proof. pose proof PI2_3_2. lra. Qed.

(** [cos 7 > 1/2]: 7 is within 1 of [2 * PI]. *)
Lemma cos_7_bound : 1 / 2 <= cos 7.
Proof.
  pose proof PI_gt_3 as H3. pose proof PI_4 as H4.
  replace 7 with (7 - 2 * PI + 2 * INR 1 * PI) by (cbn [INR]; ring).
  rewrite cos_period.
  set (x := 7 - 2 * PI).
  assert (Hx : -1 <= x < 1) by (unfold x; lra).
  destruct (cos_bound x 0) as [Hlow _]; [lra|lra|].
  unfold cos_approx, cos_term in Hlow.
  cbn [Nat.mul Nat.add sum_f_R0 pow fact INR] in Hlow.
  assert (x * x <= 1) by nra.
  lra.
Qed.

Section OscillatorClaims.

Import Oscillator.
Local Open Scope string_scope.

(** Reads the fields of a concrete configuration or options value. *)
Ltac fields :=
  repeat match goal with
         | x := _ : params |- _ => progress unfold x
         | x := _ : options |- _ => progress unfold x
         end;
  cbn [m1 m2 k1 k2 k3 x10 x20 v10 v20 tMin tMax dt tolerance or_default].

(** A unit mass on a unit spring, uncoupled, released from [x10 = 1]:
    its position is [cos t]. *)
Lemma unit_position (t : R) :
  position (_compute (mkParams 1 1 1 0 1 1 0 0 0)) 1 t = cos t.
Proof.
  unfold position, coeffs_of, _compute.
  cbn [Z.eqb Pos.eqb m1 m2 k1 k2 k3 x10 x20 v10 v20].
  rewrite (Rltb_true (Rabs 0)) by (rewrite Rabs_R0; lra).
  cbn [coeffs1 omega1 omega2 cw1 sw1 cw2 sw2].
  replace (1 / 1) with 1 by field.
  rewrite Rmax_right, sqrt_1 by lra.
  rewrite (Rltb_true 1e-14 1) by lra.
  rewrite !Rmult_1_l. unfold Rdiv. ring.
Qed.

(** The symmetric system of the tests: [m1 = m2 = 1], [k1 = k3 = 1],
    [k2 = 0.5]. *)
Lemma symmetric_eigenvalues (x10 x20 v10 v20 : R) :
  let p := mkParams 1 1 1 0.5 1 x10 x20 v10 v20 in
  disc p = 1 /\ lam1 p = 1 /\ lam2 p = 2.
Proof.
  intros p.
  assert (Hd : disc p = 1).
  { unfold disc, a, b, c2. cbn [m1 m2 k1 k2 k3 p].
    replace (((1 + 0.5) / 1 - (0.5 + 1) / 1) ^ 2 + 4 * (0.5 * 0.5 / (1 * 1)))
      with 1 by lra.
    apply sqrt_1. }
  unfold lam1, lam2. rewrite Hd. unfold a, b. cbn [m1 m2 k1 k2 k3 p].
  repeat apply conj; lra.
Qed.

(** Its frequencies are 1 and [sqrt 2]. *)
Example symmetric_frequencies :
  let o := _compute (mkParams 1 1 1 0.5 1 1 0 0 0) in
  omega1 o = 1 /\ omega2 o = sqrt 2.
Proof.
  intros o.
  destruct (symmetric_eigenvalues 1 0 0 0) as (_ & L1 & L2).
  unfold o, _compute.
  rewrite Rltb_false by (fields; rewrite Rabs_pos_eq; lra).
  cbn [omega1 omega2]. rewrite L1, L2, !Rmax_right by lra.
  split; [apply sqrt_1|reflexivity].
Qed.

(** A free mass ([k1 = 0], [k2 = 0]) loses its initial velocity. *)
Lemma initial_velocity_lost :
  let p := mkParams 1 1 0 0 1 0 0 1 0 in
  let o := _compute p in
  0 < m1 p /\ 0 < m2 p /\ 1e-9 < Rabs (velocity o 1 0 - v10 p).
Proof.
  intros p o.
  assert (Hm1 : 0 < m1 p) by (fields; lra).
  assert (Hm2 : 0 < m2 p) by (fields; lra).
  assert (Hk : Rabs (k2 p) < 1e-14).
  { cbn [k2 p]. rewrite Rabs_R0; lra. }
  split; [assumption|]. split; [assumption|].
  destruct (initial_uncoupled p Hk) as (_ & _ & V1 & _).
  destruct (compute_uncoupled p Hk) as (_ & _ & W1 & _).
  fold o in V1, W1. rewrite V1, W1.
  cbn [k1 m1 v10 p].
  replace (0 / 1) with 0 by field.
  rewrite Rmax_left, sqrt_0 by lra.
  rewrite (Rltb_false 1e-14 0) by lra.
  rewrite Rabs_left; lra.
Qed.

(** Two free masses joined by a spring: the lower eigenvalue is 0. *)
Lemma translation_mode_velocity_lost :
  let p := mkParams 1 1 0 1 0 0 0 1 1 in
  let o := _compute p in
  1e-14 <= Rabs (k2 p) /\ velocity o 1 0 = 0 /\ velocity o 2 0 = 0.
Proof.
  intros p o.
  assert (Hk : 1e-14 <= Rabs (k2 p)).
  { cbn [k2 p]. rewrite Rabs_pos_eq; lra. }
  assert (Hd : disc p = 2).
  { unfold disc, a, b, c2. cbn [m1 m2 k1 k2 k3 p].
    replace (((0 + 1) / 1 - (1 + 0) / 1) ^ 2 + 4 * (1 * 1 / (1 * 1)))
      with (2 * 2) by lra.
    apply sqrt_square. lra. }
  assert (Hw : omega1 o = 0).
  { destruct (compute_coupled p Hk) as (? & ? & ? & ? & _ & _ & W1 & _).
    fold o in W1. rewrite W1. unfold lam1. rewrite Hd.
    unfold a, b. cbn [m1 m2 k1 k2 k3 p].
    replace (((0 + 1) / 1 + (1 + 0) / 1 - 2) / 2) with 0 by lra.
    rewrite Rmax_left by lra. apply sqrt_0. }
  split; [assumption|].
  destruct (initial_coupled p ltac:(fields; lra) ltac:(fields; lra) Hk)
    as (_ & _ & _ & V0).
  apply V0. fold o. rewrite Hw. lra.
Qed.

(** A light mass coupled to a heavy one on a stiff spring: the
    eigenvector ratios differ by 2e-15 only, and the degenerate branch
    is taken. *)
Lemma degenerate_position_lost :
  let p := mkParams 1 1e30 0 1 (1e30 - 1) 0 1 0 0 in
  let o := _compute p in
  1e-14 <= Rabs (k2 p) /\ Rabs (r1 o - r2 o) < 1e-14 /\ position o 2 0 = 0.
Proof.
  intros p o.
  assert (Hk : 1e-14 <= Rabs (k2 p)).
  { cbn [k2 p]. rewrite Rabs_pos_eq; lra. }
  assert (Hd : disc p = 2e-15).
  { unfold disc, a, b, c2. cbn [m1 m2 k1 k2 k3 p].
    replace (((0 + 1) / 1 - (1 + (1e30 - 1)) / 1e30) ^ 2
             + 4 * (1 * 1 / (1 * 1e30)))
      with (2e-15 * 2e-15) by lra.
    apply sqrt_square. lra. }
  assert (Hl1 : lam1 p = 1 - 1e-15).
  { unfold lam1. rewrite Hd. unfold a, b. cbn [m1 m2 k1 k2 k3 p]. lra. }
  assert (Hl2 : lam2 p = 1 + 1e-15).
  { unfold lam2. rewrite Hd. unfold a, b. cbn [m1 m2 k1 k2 k3 p]. lra. }
  assert (Hr : r1 o - r2 o = 2e-15).
  { unfold o, _compute. rewrite (Rltb_false _ _ Hk). cbn [r1 r2].
    rewrite Hl1, Hl2. cbn [m1 k1 k2 p]. lra. }
  split; [assumption|].
  split; [rewrite Hr, Rabs_pos_eq; lra|].
  unfold position, coeffs_of. cbn [Z.eqb Pos.eqb].
  unfold o, _compute. rewrite (Rltb_false _ _ Hk).
  cbn [coeffs2 omega1 omega2 cw1 sw1 cw2 sw2].
  rewrite Hl1, Hl2. cbn [m1 k1 k2 x10 x20 v10 v20 p].
  rewrite (Rltb_true (Rabs _) 1e-14).
  2:{ replace ((0 + 1 - (1 - 1e-15) * 1) / 1 - (0 + 1 - (1 + 1e-15) * 1) / 1)
        with 2e-15 by lra.
      rewrite Rabs_pos_eq; lra. }
  cbn [orb]. rewrite !Rmult_0_r, cos_0, sin_0.
  match goal with |- context [if ?c then ?u else ?v] =>
                    set (B := if c then u else v) end.
  lra.
Qed.

(** An oscillator at rest stays at 0. *)
Lemma rest_position (t : R) :
  position (_compute (mkParams 1 1 1 0 1 0 0 0 0)) 1 t = 0.
Proof.
  unfold position, coeffs_of, _compute.
  cbn [Z.eqb Pos.eqb m1 m2 k1 k2 k3 x10 x20 v10 v20].
  rewrite (Rltb_true (Rabs 0)) by (rewrite Rabs_R0; lra).
  cbn [coeffs1 omega1 omega2 cw1 sw1 cw2 sw2].
  match goal with |- context [if ?c then ?u else ?v] =>
                    replace (if c then u else v) with 0
                    by (destruct c; unfold Rdiv; ring) end.
  ring.
Qed.

(** With a step [dt <= 0] the scan never passes [tMax]. *)
Lemma scan_stuck (d : R) (fuel : nat) :
  d <= 0 ->
  forall s : scan,
    st s <= d -> prevF s = -1 ->
    run (scan_body (position (_compute (mkParams 1 1 1 0 1 0 0 0 0)) 1)
                   1 1 d 1e-9) fuel s = None.
Proof.
  intros Hd.
  induction fuel as [|fuel IH]; intros s Hst HpF; [reflexivity|].
  cbn [run]. unfold scan_body at 1. rewrite HpF.
  rewrite Rleb_true by lra.
  rewrite (Rmin_left (st s) 1) by lra.
  rewrite rest_position.
  rewrite (Rltb_false (Rabs (0 - 1))) by (rewrite Rabs_left; lra).
  rewrite (Rltb_false (-1 * (0 - 1))) by lra.
  rewrite (Rleb_false 1 (st s)) by lra.
  apply IH; cbn [st prevF]; lra.
Qed.

Lemma firstTimeTo_stuck (d : R) (fuel : nat) :
  d <= 0 ->
  firstTimeTo fuel (_compute (mkParams 1 1 1 0 1 0 0 0 0)) 1 "x" 1
              (mkOptions (Some 0) (Some 1) (Some d) (Some 1e-9)) = None.
Proof.
  intros Hd.
  unfold firstTimeTo, quantity_fn.
  cbn [String.eqb Ascii.eqb Bool.eqb tMin tMax dt tolerance or_default].
  rewrite rest_position.
  rewrite (Rltb_false (Rabs (0 - 1))) by (rewrite Rabs_left; lra).
  apply scan_stuck; cbn [st prevF]; lra.
Qed.








(** Over the reals, for [dt > 0] and [tMin <= tMax], [firstTimeTo]
    returns.  It returns [tMin] when the quantity is within the
    tolerance of the target there; a time it returns lies in
    [[tMin, tMax]]; and it reports not-found exactly when the quantity
    is within the tolerance of the target at none of the samples [tMin],
    [min (tMin + n * dt, tMax)] of the scan, and its difference to the
    target changes sign between no two consecutive samples. *)
Lemma firstTimeTo_scan :
  forall (o : oscillator) (mass : Z) (quantity : string) (target : R)
         (opts : options),
    let tMin := or_default 0 (tMin opts) in
    let tMax := or_default 100 (tMax opts) in
    let dt := or_default 0.01 (dt opts) in
    let tol := or_default 1e-9 (tolerance opts) in
    let fn := quantity_fn o mass quantity in
    0 < dt -> tMin <= tMax ->
    exists (r : found) (N : nat),
      (forall fuel, (N <= fuel)%nat ->
                    firstTimeTo fuel o mass quantity target opts = Some r)
      /\ (Rabs (fn tMin - target) < tol -> r = Time tMin)
      /\ (forall t, r = Time t -> tMin <= t <= tMax)
      /\ (r = Null <->
          forall n, scanned tMin tMax dt n ->
                    calm fn target tMin tMax dt tol n).
Proof.
  intros o mass quantity target opts tMin tMax dt tol fn Hdt Hwin.
  unfold firstTimeTo. fold tMin tMax dt tol fn.
  pose proof (sample_0 tMin tMax dt Hwin) as Hs0.
  destruct (Rltb_spec (Rabs (fn tMin - target)) tol) as [Hhit|Hmiss].
  - exists (Time tMin), O. repeat apply conj.
    + reflexivity.
    + reflexivity.
    + intros t [= <-]. lra.
    + discriminate.
    + intros H. destruct (H O (or_introl eq_refl)) as [Hc _].
      rewrite Hs0 in Hc. lra.
  - destruct (steps_exist dt Hdt (tMax + dt * 0.5 - (tMin + dt))) as [n Hn].
    destruct (scan_returns fn target tMax dt tol n
                (mkScan (tMin + dt) tMin (fn tMin - target))) as [r Hr].
    { cbn [st]. lra. }
    assert (Hscan : (r = Null <-> forall k, (0 < k)%nat ->
                       scanned tMin tMax dt k -> calm fn target tMin tMax dt tol k)
                    /\ (forall t, r = Time t -> tMin <= t <= tMax)).
    { apply (scan_from fn target tMin tMax dt tol Hdt Hwin (S n) O
               (mkScan (tMin + dt) tMin (fn tMin - target)) r);
        cbn [st prevT prevF].
      - cbn [INR]. ring.
      - symmetry. assumption.
      - rewrite Hs0. reflexivity.
      - left. reflexivity.
      - assumption. }
    destruct Hscan as [Hnull Hrange].
    exists r, (S n). repeat apply conj.
    + intros fuel Hfuel. eapply run_more; eassumption.
    + intros H. contradiction.
    + assumption.
    + intros Hr0 k Hk. destruct k as [|k].
      * split; [rewrite Hs0; apply Rnot_lt_le; assumption|].
        cbn [pred]. apply Rle_0_sqr.
      * apply Hnull; [assumption|lia|assumption].
    + intros H. apply Hnull. intros k Hk. apply H.
Qed.



(** C4, as stated, fails: the constructor raises nothing for a zero
    mass. *)
Lemma zero_mass_constructed :
  let p := mkParams 0 1 1 1 1 0 0 0 0 in
  m1 p <= 0 /\ construct p <> ConfigError.
Proof. intros p. split; [fields; lra|discriminate]. Qed.

(** C4, amended: construction succeeds for every configuration, the
    ones of masses [m1, m2 > 0] included; no configuration is rejected
    with a [ConfigError]. *)
Theorem construct_succeeds :
  forall p : params,
    construct p = Constructed (_compute p) /\ construct p <> ConfigError.
Proof. intros p. split; [reflexivity|discriminate]. Qed.








(** C10: a quantity other than ['x'] and ['v'] selects the
    acceleration, as ['a'] does; [firstTimeTo] has no other outcome than
    a time or [null]. *)
Theorem firstTimeTo_other_quantity :
  forall (fuel : nat) (o : oscillator) (mass : Z) (quantity : string)
         (target : R) (opts : options),
    quantity <> "x" -> quantity <> "v" ->
    firstTimeTo fuel o mass quantity target opts
    = firstTimeTo fuel o mass "a" target opts.
Proof.
  intros fuel o mass quantity target opts Hx Hv.
  unfold firstTimeTo, quantity_fn.
  apply String.eqb_neq in Hx, Hv. rewrite Hx, Hv. reflexivity.
Qed.

Lemma firstTimeTo_other_quantity_witness :
  let o := _compute (mkParams 1 1 1 0.5 1 1 1 0 0) in
  let opts := mkOptions (Some 0.1) (Some 10) (Some 0.01) None in
  firstTimeTo 2000 o 1 "position" 0 opts = firstTimeTo 2000 o 1 "a" 0 opts.
Proof.
  intros o opts.
  apply firstTimeTo_other_quantity; discriminate.
Defined.

End OscillatorClaims.

(* ================================================================== *)
(** * Fractions: further facts and properties *)

Section ReduceMore.

Local Open Scope Z_scope.

(** A fraction in lowest terms is determined by its value. *)
Lemma reduced_unique (z1 d1 z2 d2 : Z) :
  reduced z1 d1 -> reduced z2 d2 -> z1 * d2 = z2 * d1 ->
  z1 = z2 /\ d1 = d2.
Proof.
  intros (Hd1 & Hg1 & _) (Hd2 & Hg2 & _) E.
  rewrite Z.gcd_abs_l in Hg1, Hg2.
  assert (H12 : (d1 | d2)).
  { apply (Z.gauss d1 z1 d2).
    - exists z2. lia.
    - rewrite Z.gcd_comm. assumption. }
  assert (H21 : (d2 | d1)).
  { apply (Z.gauss d2 z2 d1).
    - exists z1. lia.
    - rewrite Z.gcd_comm. assumption. }
  assert (Ed : d1 = d2).
  { apply Z.divide_antisym_nonneg; try lia; assumption. }
  split; [|assumption]. subst d2. nia.
Qed.

Lemma reduceFraction_reduced (z d : Z) :
  reduced z d ->
  Fraction.reduceFraction z d
  = Some (Fraction.mkFraction (Finite (inject_Z z)) d).
Proof.
  intros Hred.
  destruct (reduceFraction_value z d) as (f & z' & Hf & Hnum & Hred' & E).
  { destruct Hred. lia. }
  destruct (reduced_unique z' (Fraction.den f) z d Hred' Hred) as [-> Ed];
    [lia|].
  rewrite Hf. destruct f as [fn fd]. cbn in *. subst. reflexivity.
Qed.

Lemma reduce_reduced (f : Fractions.frac) :
  frac_invariant f -> Fractions.reduce f = Some f.
Proof.
  destruct f as [n d]. intros Hred.
  destruct (reduce_returns n d) as (f & Hf & Hred' & E).
  { destruct Hred. cbn in *. lia. }
  destruct f as [n' d'].
  destruct (reduced_unique n' d' n d Hred' Hred) as [-> ->].
  { cbn in E. lia. }
  assumption.
Qed.

End ReduceMore.

Section BestInvariants.

Local Open Scope Q_scope.

(** A property of the best candidate that every improving mediant has
    is kept by the loop of [decimalToFraction]. *)
Lemma search_best (P : Z -> Z -> Q -> Prop) (x : Q) (maxDen : Z) (tol : Q) :
  (forall s : Fraction.search,
      P (Fraction.best_n s) (Fraction.best_d s) (Fraction.bestErr s) ->
      (Fraction.lo_d s + Fraction.hi_d s <= maxDen)%Z ->
      err x (Fraction.lo_n s + Fraction.hi_n s)
            (Fraction.lo_d s + Fraction.hi_d s) < Fraction.bestErr s ->
      P (Fraction.lo_n s + Fraction.hi_n s)%Z
        (Fraction.lo_d s + Fraction.hi_d s)%Z
        (err x (Fraction.lo_n s + Fraction.hi_n s)
             (Fraction.lo_d s + Fraction.hi_d s))) ->
  forall (fuel : nat) (s0 : Fraction.search) e s,
    P (Fraction.best_n s0) (Fraction.best_d s0) (Fraction.bestErr s0) ->
    run (Fraction.search_body x maxDen tol) fuel s0 = Some (e, s) ->
    P (Fraction.best_n s) (Fraction.best_d s) (Fraction.bestErr s).
Proof.
  intros Hstep fuel s0 e s H0 Hrun.
  refine (run_invariant (Fraction.search_body x maxDen tol)
            (fun s => P (Fraction.best_n s) (Fraction.best_d s)
                        (Fraction.bestErr s))
            (fun r => P (Fraction.best_n (snd r)) (Fraction.best_d (snd r))
                        (Fraction.bestErr (snd r)))
            _ _ fuel s0 (e, s) H0 Hrun).
  - intros s1 s2 H1. unfold Fraction.search_body.
    destruct (Fraction.iter s1 <? 200)%Z; [|discriminate].
    destruct (Z.gtb_spec (Fraction.lo_d s1 + Fraction.hi_d s1) maxDen)
      as [|Hden]; [discriminate|].
    fold (err x (Fraction.lo_n s1 + Fraction.hi_n s1)
              (Fraction.lo_d s1 + Fraction.hi_d s1)).
    destruct (Qltb_spec (err x (Fraction.lo_n s1 + Fraction.hi_n s1)
                             (Fraction.lo_d s1 + Fraction.hi_d s1))
                        (Fraction.bestErr s1)) as [Hlt|Hge];
      repeat match goal with
             | |- context [if ?c then _ else _] => destruct c
             end;
      try discriminate; intros [= <-];
      cbn [Fraction.best_n Fraction.best_d Fraction.bestErr];
      auto.
  - intros s1 [e' s2] H1. unfold Fraction.search_body.
    destruct (Fraction.iter s1 <? 200)%Z;
      [|intros [= <- <-]; exact H1].
    destruct (Z.gtb_spec (Fraction.lo_d s1 + Fraction.hi_d s1) maxDen)
      as [|Hden]; [intros [= <- <-]; exact H1|].
    fold (err x (Fraction.lo_n s1 + Fraction.hi_n s1)
              (Fraction.lo_d s1 + Fraction.hi_d s1)).
    destruct (Qltb_spec (err x (Fraction.lo_n s1 + Fraction.hi_n s1)
                             (Fraction.lo_d s1 + Fraction.hi_d s1))
                        (Fraction.bestErr s1)) as [Hlt|Hge];
      repeat match goal with
             | |- context [if ?c then _ else _] => destruct c
             end;
      try discriminate; intros [= <- <-];
      cbn [snd Fraction.best_n Fraction.best_d Fraction.bestErr];
      auto.
Qed.

(** The same for the loop of [toFraction]. *)
Lemma toFraction_best (P : Z -> Z -> Q -> Prop) (x : Q) (maxDen : Z) :
  (forall s : Fractions.search,
      P (Fractions.best_n s) (Fractions.best_d s) (Fractions.best_err s) ->
      (Fractions.lo_d s + Fractions.hi_d s <= maxDen)%Z ->
      err x (Fractions.lo_n s + Fractions.hi_n s)
            (Fractions.lo_d s + Fractions.hi_d s) < Fractions.best_err s ->
      P (Fractions.lo_n s + Fractions.hi_n s)%Z
        (Fractions.lo_d s + Fractions.hi_d s)%Z
        (err x (Fractions.lo_n s + Fractions.hi_n s)
             (Fractions.lo_d s + Fractions.hi_d s))) ->
  forall (fuel : nat) (s0 : Fractions.search) e s,
    P (Fractions.best_n s0) (Fractions.best_d s0) (Fractions.best_err s0) ->
    run (Fractions.search_body x maxDen) fuel s0 = Some (e, s) ->
    P (Fractions.best_n s) (Fractions.best_d s) (Fractions.best_err s).
Proof.
  intros Hstep fuel s0 e s H0 Hrun.
  refine (run_invariant (Fractions.search_body x maxDen)
            (fun s => P (Fractions.best_n s) (Fractions.best_d s)
                        (Fractions.best_err s))
            (fun r => P (Fractions.best_n (snd r)) (Fractions.best_d (snd r))
                        (Fractions.best_err (snd r)))
            _ _ fuel s0 (e, s) H0 Hrun).
  - intros s1 s2 H1. unfold Fractions.search_body.
    destruct (Fractions.iter s1 <? 10000)%Z; [|discriminate].
    destruct (Z.gtb_spec (Fractions.lo_d s1 + Fractions.hi_d s1) maxDen)
      as [|Hden]; [discriminate|].
    fold (err x (Fractions.lo_n s1 + Fractions.hi_n s1)
              (Fractions.lo_d s1 + Fractions.hi_d s1)).
    destruct (Qltb_spec (err x (Fractions.lo_n s1 + Fractions.hi_n s1)
                             (Fractions.lo_d s1 + Fractions.hi_d s1))
                        (Fractions.best_err s1)) as [Hlt|Hge];
      repeat match goal with
             | |- context [if ?c then _ else _] => destruct c
             end;
      try discriminate; intros [= <-];
      cbn [Fractions.best_n Fractions.best_d Fractions.best_err];
      auto.
  - intros s1 [e' s2] H1. unfold Fractions.search_body.
    destruct (Fractions.iter s1 <? 10000)%Z;
      [|intros [= <- <-]; exact H1].
    destruct (Z.gtb_spec (Fractions.lo_d s1 + Fractions.hi_d s1) maxDen)
      as [|Hden]; [intros [= <- <-]; exact H1|].
    fold (err x (Fractions.lo_n s1 + Fractions.hi_n s1)
              (Fractions.lo_d s1 + Fractions.hi_d s1)).
    destruct (Qltb_spec (err x (Fractions.lo_n s1 + Fractions.hi_n s1)
                             (Fractions.lo_d s1 + Fractions.hi_d s1))
                        (Fractions.best_err s1)) as [Hlt|Hge];
      repeat match goal with
             | |- context [if ?c then _ else _] => destruct c
             end;
      try discriminate; intros [= <- <-];
      cbn [snd Fractions.best_n Fractions.best_d Fractions.best_err];
      auto.
Qed.

End BestInvariants.

Section Exactness.

Local Open Scope Q_scope.

Lemma Qabs_integer (x : Q) (z : Z) :
  x == inject_Z z -> Qabs x == inject_Z (Z.abs z).
Proof.
  intros H. rewrite H. unfold Qabs, inject_Z. reflexivity.
Qed.

Lemma sign_abs_Z (x : Q) (z : Z) :
  x == inject_Z z ->
  ((if Qltb x 0 then -1 else 1) * Z.abs z = z)%Z.
Proof.
  intros H. destruct (Qltb_spec x 0) as [Hneg|Hpos].
  - rewrite H in Hneg. change 0 with (inject_Z 0) in Hneg.
    rewrite <- Zlt_Qlt in Hneg. lia.
  - apply Qnot_lt_le in Hpos. rewrite H in Hpos.
    change 0 with (inject_Z 0) in Hpos.
    rewrite <- Zle_Qle in Hpos. lia.
Qed.

(** The denominator of a fraction in lowest terms is the least one of
    its value. *)
Lemma reduced_den_le (z df n bd : Z) :
  reduced z df -> (1 <= bd)%Z -> (z * bd = n * df)%Z -> (df <= bd)%Z.
Proof.
  intros (Hd & Hg & _) Hbd E.
  rewrite Z.gcd_abs_l in Hg.
  apply Z.divide_pos_le; [lia|].
  apply (Z.gauss df z bd).
  - exists n. lia.
  - rewrite Z.gcd_comm. assumption.
Qed.

(** On an integer the loop of [decimalToFraction] keeps its first
    candidate, the integer itself. *)
Lemma decimalToFraction_integer (x : Q) (z : Z) (maxDen : Z) (tol : Q) :
  x == inject_Z z -> ~ Qabs x < tol ->
  Fraction.decimalToFraction (Finite x) maxDen tol
  = Some (Fraction.mkFraction (Finite (inject_Z z)) 1).
Proof.
  intros Hx Hbig. unfold Fraction.decimalToFraction.
  destruct (Qltb_spec (Qabs x) tol) as [|_]; [contradiction|].
  destruct (mediant_search_returns (Qabs x) maxDen tol) as [[e s] Hrun].
  rewrite Hrun. cbn [bind snd].
  pose proof (Qabs_integer x z Hx) as Habs.
  assert (Hround : Fraction.round (Qabs x) = Z.abs z).
  { unfold Fraction.round.
    rewrite (Qfloor_comp _ _ (Qplus_comp _ _ Habs _ _ (Qeq_refl (1 # 2)))).
    apply Qfloor_half. }
  assert (Hbest : Fraction.best_n s = Z.abs z /\ Fraction.best_d s = 1%Z
                  /\ Fraction.bestErr s == 0).
  { unfold Fraction.mediant_search in Hrun.
    refine (search_best
              (fun bn bd be => bn = Z.abs z /\ bd = 1%Z /\ be == 0)
              (Qabs x) maxDen tol _ _ _ e s _ Hrun).
    - intros s1 (_ & _ & H0) _ Hlt. exfalso.
      pose proof (err_nonneg (Qabs x)
                    (Fraction.lo_n s1 + Fraction.hi_n s1)
                    (Fraction.lo_d s1 + Fraction.hi_d s1)).
      lra.
    - unfold Fraction.search_init.
      cbn [Fraction.best_n Fraction.best_d Fraction.bestErr].
      rewrite Hround. repeat apply conj; try reflexivity.
      rewrite Habs.
      setoid_replace (inject_Z (Z.abs z) - inject_Z (Z.abs z)) with 0 by ring.
      reflexivity. }
  destruct Hbest as (-> & -> & _).
  rewrite (sign_abs_Z x z Hx).
  apply reduceFraction_reduced.
  unfold reduced. repeat apply conj; try lia. apply Z.gcd_1_r.
Qed.

(** [toFraction] takes its integer shortcut. *)
Lemma toFraction_integer (x : Q) (z : Z) (maxDen : Z) :
  x == inject_Z z -> (Z.abs z <= 10000000000)%Z ->
  Fractions.toFraction (Finite x) maxDen
  = Some (Some (Fractions.mkFrac z 1)).
Proof.
  intros Hx Hsize. unfold Fractions.toFraction.
  destruct (Qeq_bool x 0) eqn:Hz.
  { apply Qeq_bool_iff in Hz. rewrite Hx in Hz.
    change 0 with (inject_Z 0) in Hz.
    rewrite inject_Z_injective in Hz.
    subst z. reflexivity. }
  pose proof (Qabs_integer x z Hx) as Habs.
  destruct (Qltb_spec (10000000000 # 1) (Qabs x)) as [Hbig|_].
  { exfalso. rewrite Habs in Hbig.
    change (10000000000 # 1) with (inject_Z 10000000000) in Hbig.
    rewrite <- Zlt_Qlt in Hbig. lia. }
  assert (Hfloor : Qfloor (Qabs x) = Z.abs z).
  { rewrite (Qfloor_comp _ _ Habs). apply Qfloor_Z. }
  assert (Hint : Qeq_bool (Qabs x) (inject_Z (Qfloor (Qabs x))) = true).
  { apply Qeq_bool_iff. rewrite Hfloor. assumption. }
  rewrite Hint.
  assert (Hround : Qfloor (Qabs x + (1 # 2)) = Z.abs z).
  { rewrite (Qfloor_comp _ _ (Qplus_comp _ _ Habs _ _ (Qeq_refl (1 # 2)))).
    apply Qfloor_half. }
  rewrite Hround.
  pose proof (sign_abs_Z x z Hx) as Hs.
  destruct (Qltb x 0); do 3 f_equal; lia.
Qed.

End Exactness.

Section Searched.

Local Open Scope Q_scope.

(** What [decimalToFraction] returns past its test of the tolerance:
    the best candidate of the search, reduced. *)
Lemma decimalToFraction_searched (x : Q) (maxDen : Z) (tol : Q) :
  ~ Qabs x < tol ->
  exists e s f z,
    Fraction.mediant_search (Qabs x) maxDen tol = Some (e, s)
    /\ Fraction.decimalToFraction (Finite x) maxDen tol = Some f
    /\ Fraction.num f = Finite (inject_Z z)
    /\ reduced z (Fraction.den f)
    /\ (1 <= Fraction.best_d s)%Z
    /\ (z * Fraction.best_d s
        = (if Qltb x 0 then -1 else 1) * Fraction.best_n s * Fraction.den f)%Z
    /\ err x z (Fraction.den f) == Fraction.bestErr s.
Proof.
  intros Hbig. unfold Fraction.decimalToFraction.
  destruct (Qltb_spec (Qabs x) tol) as [|_]; [contradiction|].
  destruct (mediant_search_returns (Qabs x) maxDen tol) as [[e s] Hrun].
  rewrite Hrun. cbn [bind snd].
  destruct (mediant_search_bracket (Qabs x) maxDen tol e s (Qabs_nonneg x) Hrun)
    as (Hbr & _).
  destruct Hbr as (_ & _ & _ & Hbd & _ & _ & Hbe & _).
  destruct (reduceFraction_value
              ((if Qltb x 0 then -1 else 1) * Fraction.best_n s)
              (Fraction.best_d s))
    as (f & z & Hf & Hnum & Hred & Hval); [lia|].
  exists e, s, f, z.
  split; [reflexivity|]. repeat (split; [assumption|]).
  assert (Hdf : (1 <= Fraction.den f)%Z) by (destruct Hred; lia).
  rewrite err_abs, Hbe. unfold err.
  assert (EV : inject_Z ((if Qltb x 0 then -1 else 1) * z)
               / inject_Z (Fraction.den f)
               == inject_Z (Fraction.best_n s) / inject_Z (Fraction.best_d s)).
  { apply value_transfer; [assumption|assumption|].
    rewrite <- Z.mul_assoc, Hval, !Z.mul_assoc.
    rewrite <- (Z.mul_assoc _ _ (Fraction.best_n s)), sign_involutive.
    reflexivity. }
  rewrite EV. reflexivity.
Qed.

(** What [toFraction] returns on a number that is no integer. *)
Lemma toFraction_searched (x : Q) (maxDen : Z) :
  ~ Qabs x == inject_Z (Qfloor (Qabs x)) ->
  Qabs x <= 10000000000 # 1 ->
  exists e s f,
    Fractions.mediant_search (Qabs x) maxDen = Some (e, s)
    /\ Fractions.toFraction (Finite x) maxDen = Some (Some f)
    /\ frac_invariant f
    /\ (1 <= Fractions.best_d s)%Z
    /\ (Fractions.n f * Fractions.best_d s
        = (if Qltb x 0 then -1 else 1) * Fractions.best_n s
          * Fractions.d f)%Z
    /\ err x (Fractions.n f) (Fractions.d f) == Fractions.best_err s.
Proof.
  intros Hfrac Hsize. unfold Fractions.toFraction.
  destruct (Qeq_bool x 0) eqn:Hz.
  { exfalso. apply Hfrac. apply Qeq_bool_iff in Hz.
    rewrite Hz. reflexivity. }
  destruct (Qltb_spec (10000000000 # 1) (Qabs x)) as [Hbig|_]; [lra|].
  destruct (Qeq_bool (Qabs x) (inject_Z (Qfloor (Qabs x)))) eqn:Hint.
  { exfalso. apply Hfrac. apply Qeq_bool_iff. assumption. }
  destruct (toFraction_search_returns (Qabs x) maxDen) as [[e s] Hrun].
  rewrite Hrun. cbn [bind snd].
  destruct (toFraction_search_bracket (Qabs x) maxDen e s Hrun) as (Hbr & _).
  destruct Hbr as (_ & _ & _ & Hbd & _ & _ & Hbe & _).
  destruct (reduce_returns
              (if Qltb x 0 then (- Fractions.best_n s)%Z
               else Fractions.best_n s)
              (Fractions.best_d s)) as (f & Hf & Hinv & Hval); [lia|].
  rewrite Hf. cbn [bind].
  exists e, s, f. split; [reflexivity|]. split; [reflexivity|].
  split; [assumption|]. split; [assumption|].
  assert (Hval' : (Fractions.n f * Fractions.best_d s
                   = (if Qltb x 0 then -1 else 1) * Fractions.best_n s
                     * Fractions.d f)%Z).
  { rewrite Hval. destruct (Qltb x 0); ring. }
  split; [assumption|].
  assert (Hdf : (1 <= Fractions.d f)%Z) by (destruct Hinv; lia).
  rewrite err_abs, Hbe. unfold err.
  assert (EV : inject_Z ((if Qltb x 0 then (-1)%Z else 1%Z) * Fractions.n f)
               / inject_Z (Fractions.d f)
               == inject_Z (Fractions.best_n s)
                  / inject_Z (Fractions.best_d s)).
  { apply value_transfer; [assumption|assumption|].
    rewrite <- Z.mul_assoc, Hval'. destruct (Qltb x 0); ring. }
  rewrite EV. reflexivity.
Qed.

(** Rounding to the nearest integer is off by at most one half. *)
Lemma round_error (x : Q) :
  Qabs (x - inject_Z (Fraction.round x)) <= 1 # 2.
Proof.
  unfold Fraction.round.
  pose proof (Qfloor_le (x + (1 # 2))) as Hl.
  pose proof (Qlt_floor (x + (1 # 2))) as Hu.
  rewrite inject_Z_plus in Hu. change (inject_Z 1) with 1 in Hu.
  apply Qabs_Qle_condition. split; lra.
Qed.

(** The best candidate of [decimalToFraction] has a denominator within
    the bound, or is the first one, and is within one half of [x]. *)
Lemma search_bounds (x : Q) (maxDen : Z) (tol : Q) e s :
  Fraction.mediant_search x maxDen tol = Some (e, s) ->
  (Fraction.best_d s = 1 \/ Fraction.best_d s <= maxDen)%Z
  /\ Fraction.bestErr s <= 1 # 2.
Proof.
  intros Hrun. unfold Fraction.mediant_search in Hrun.
  refine (search_best
            (fun bn bd be => (bd = 1 \/ bd <= maxDen)%Z /\ be <= 1 # 2)
            x maxDen tol _ _ _ e s _ Hrun).
  - intros s1 (_ & H0) Hden Hlt. split; [right; assumption|lra].
  - unfold Fraction.search_init.
    cbn [Fraction.best_n Fraction.best_d Fraction.bestErr].
    split; [left; reflexivity|apply round_error].
Qed.

Lemma toFraction_search_bounds (x : Q) (maxDen : Z) e s :
  Fractions.mediant_search x maxDen = Some (e, s) ->
  (Fractions.best_d s = 1 \/ Fractions.best_d s <= maxDen)%Z
  /\ Fractions.best_err s <= 1 # 2.
Proof.
  intros Hrun. unfold Fractions.mediant_search in Hrun.
  refine (toFraction_best
            (fun bn bd be => (bd = 1 \/ bd <= maxDen)%Z /\ be <= 1 # 2)
            x maxDen _ _ _ e s _ Hrun).
  - intros s1 (_ & H0) Hden Hlt. split; [right; assumption|lra].
  - unfold Fractions.search_init.
    pose proof (Qfloor_le x) as Hl.
    pose proof (Qlt_floor x) as Hu.
    rewrite inject_Z_plus in Hu. change (inject_Z 1) with 1 in Hu.
    destruct (Qltb_spec (Qabs (x - inject_Z (Qfloor x + 1)))
                        (Qabs (x - inject_Z (Qfloor x)))) as [Hlt|Hge];
      cbn [Fractions.best_n Fractions.best_d Fractions.best_err];
      (split; [left; reflexivity|]).
    + rewrite inject_Z_plus in *. change (inject_Z 1) with 1 in *.
      rewrite (Qabs_neg (x - (inject_Z (Qfloor x) + 1))) in * by lra.
      rewrite (Qabs_pos (x - inject_Z (Qfloor x))) in Hlt by lra.
      lra.
    + apply Qnot_lt_le in Hge.
      rewrite inject_Z_plus in *. change (inject_Z 1) with 1 in *.
      rewrite (Qabs_neg (x - (inject_Z (Qfloor x) + 1))) in Hge by lra.
      rewrite (Qabs_pos (x - inject_Z (Qfloor x))) in * by lra.
      lra.
Qed.

End Searched.

Section ApproximatorProperties.

Local Open Scope Q_scope.

(** Both [gcd] functions return the greatest common divisor of the
    absolute values of their arguments, within [|b| + 1] iterations of
    Euclid's loop; they differ on [(0, 0)] only, where the one of
    fraction.js returns 1 and the one of fractions.js returns 0. *)
Theorem gcd_is_greatest_common_divisor :
  forall a b : Z,
    Fraction.gcd a b
    = Some (if ((a =? 0) && (b =? 0))%Z then 1%Z else Z.gcd a b)
    /\ Fractions.gcd a b = Some (Z.gcd a b).
Proof.
  intros a b. split; [|apply Fractions_gcd_returns].
  rewrite gcd_returns. f_equal.
  destruct (Z.eqb_spec (Z.gcd a b) 0) as [E|Hg].
  - rewrite (Z.gcd_eq_0_l _ _ E), (Z.gcd_eq_0_r _ _ E). reflexivity.
  - destruct (Z.eqb_spec a 0) as [Ha|Ha], (Z.eqb_spec b 0) as [Hb|Hb];
      cbn [andb]; try reflexivity.
    subst. contradiction.
Qed.

(** [reduceFraction] and [reduce] keep the value of a fraction of
    non-zero denominator. *)
Theorem reduce_preserves_value :
  (forall num den : Z,
      den <> 0%Z ->
      exists f, Fraction.reduceFraction num den = Some f
                /\ fraction_value f == inject_Z num / inject_Z den)
  /\ (forall n d : Z,
         d <> 0%Z ->
         exists f, Fractions.reduce (Fractions.mkFrac n d) = Some f
                   /\ frac_value f == inject_Z n / inject_Z d).
Proof.
  assert (Hv : forall z df n d : Z,
             (0 < df)%Z -> d <> 0%Z -> (z * d = n * df)%Z ->
             inject_Z z / inject_Z df == inject_Z n / inject_Z d).
  { intros z df n d Hdf Hd E.
    assert (Hdf' : ~ inject_Z df == 0).
    { change 0 with (inject_Z 0). rewrite inject_Z_injective. lia. }
    assert (Hd' : ~ inject_Z d == 0).
    { change 0 with (inject_Z 0). rewrite inject_Z_injective. lia. }
    assert (EQ : inject_Z z * inject_Z d == inject_Z n * inject_Z df).
    { rewrite <- !inject_Z_mult, E. reflexivity. }
    apply (Qmult_inj_r _ _ (inject_Z df * inject_Z d)).
    - intros H. apply Qmult_integral in H. tauto.
    - transitivity (inject_Z z * inject_Z d); [field; assumption|].
      rewrite EQ. field. assumption. }
  split.
  - intros num den Hden.
    destruct (reduceFraction_value num den Hden)
      as (f & z & Hf & Hnum & Hred & E).
    exists f. split; [assumption|].
    unfold fraction_value. rewrite Hnum.
    apply Hv; [destruct Hred; lia|assumption|assumption].
  - intros n d Hd.
    destruct (reduce_returns n d Hd) as (f & Hf & Hred & E).
    exists f. split; [assumption|].
    unfold frac_value.
    apply Hv; [destruct Hred; lia|assumption|assumption].
Qed.

Lemma reduce_preserves_value_witness :
  (exists f, Fraction.reduceFraction 6 (-9) = Some f
             /\ fraction_value f == inject_Z 6 / inject_Z (-9))
  /\ (exists f, Fractions.reduce (Fractions.mkFrac (-6) 4) = Some f
                /\ frac_value f == inject_Z (-6) / inject_Z 4).
Proof.
  split.
  - apply (proj1 reduce_preserves_value). lia.
  - apply (proj2 reduce_preserves_value). lia.
Defined.

(** A fraction in lowest terms with a positive denominator is returned
    as it is by [reduceFraction] and by [reduce]; so reducing twice is
    reducing once. *)
Theorem reduced_fraction_unchanged :
  (forall z d : Z,
      reduced z d ->
      Fraction.reduceFraction z d
      = Some (Fraction.mkFraction (Finite (inject_Z z)) d))
  /\ (forall f : Fractions.frac,
         frac_invariant f -> Fractions.reduce f = Some f)
  /\ (forall (n d : Z) (f : Fractions.frac),
         d <> 0%Z ->
         Fractions.reduce (Fractions.mkFrac n d) = Some f ->
         Fractions.reduce f = Some f).
Proof.
  repeat apply conj.
  - exact reduceFraction_reduced.
  - exact reduce_reduced.
  - intros n d f Hd Hf.
    destruct (reduce_returns n d Hd) as (f' & Hf' & Hinv & _).
    rewrite Hf in Hf'. injection Hf' as <-.
    apply reduce_reduced. assumption.
Qed.

Lemma reduced_fraction_unchanged_witness :
  Fraction.reduceFraction (-2) 3
  = Some (Fraction.mkFraction (Finite (inject_Z (-2))) 3)
  /\ Fractions.reduce (Fractions.mkFrac (-2) 3)
     = Some (Fractions.mkFrac (-2) 3)
  /\ (forall f, Fractions.reduce (Fractions.mkFrac 6 (-9)) = Some f ->
                Fractions.reduce f = Some f).
Proof.
  assert (H : reduced (-2) 3).
  { unfold reduced. repeat apply conj; [lia|reflexivity|lia]. }
  repeat apply conj.
  - apply (proj1 reduced_fraction_unchanged). exact H.
  - apply (proj1 (proj2 reduced_fraction_unchanged)). exact H.
  - intros f. apply (proj2 (proj2 reduced_fraction_unchanged)). lia.
Defined.

(** An integer is returned as itself over 1 for every denominator bound:
    by [decimalToFraction] unless it is below the tolerance, by
    [toFraction] unless it exceeds 1e10. *)
Theorem integers_exact :
  (forall (z maxDen : Z) (tol : Q),
      ~ inject_Z (Z.abs z) < tol ->
      Fraction.decimalToFraction (Finite (inject_Z z)) maxDen tol
      = Some (Fraction.mkFraction (Finite (inject_Z z)) 1))
  /\ (forall z maxDen : Z,
         (Z.abs z <= 10000000000)%Z ->
         Fractions.toFraction (Finite (inject_Z z)) maxDen
         = Some (Some (Fractions.mkFrac z 1))).
Proof.
  split.
  - intros z maxDen tol Hbig.
    apply decimalToFraction_integer; [reflexivity|].
    exact Hbig.
  - intros z maxDen Hsize.
    apply toFraction_integer; [reflexivity|assumption].
Qed.

Lemma integers_exact_witness :
  Fraction.decimalToFraction (Finite (inject_Z (-3))) 0 Fraction.default_tol
  = Some (Fraction.mkFraction (Finite (inject_Z (-3))) 1)
  /\ Fractions.toFraction (Finite (inject_Z 7)) (-1)
     = Some (Some (Fractions.mkFrac 7 1)).
Proof.
  split.
  - apply (proj1 integers_exact). vm_compute. discriminate.
  - apply (proj2 integers_exact). vm_compute. discriminate.
Defined.

End ApproximatorProperties.

Section ApproximatorProperties2.

Local Open Scope Q_scope.

(** The fraction returned for a finite [x] has a denominator of at most
    [maxDen] (of 1 for a bound below 1), and it is within one half of
    [x]: it is never worse than rounding [x] to an integer.  In
    [decimalToFraction] an [x] below the tolerance is returned as
    [0/1]. *)
Theorem approximation_bounds :
  (forall (x : Q) (maxDen : Z) (tol : Q),
      exists f,
        Fraction.decimalToFraction (Finite x) maxDen tol = Some f
        /\ (Fraction.den f <= Z.max 1 maxDen)%Z
        /\ ((Qabs x < tol /\ fraction_value f == 0)
            \/ Qabs (x - fraction_value f) <= 1 # 2))
  /\ (forall (x : Q) (maxDen : Z),
         Qabs x <= 10000000000 # 1 ->
         exists f,
           Fractions.toFraction (Finite x) maxDen = Some (Some f)
           /\ (Fractions.d f <= Z.max 1 maxDen)%Z
           /\ Qabs (x - frac_value f) <= 1 # 2).
Proof.
  split.
  - intros x maxDen tol.
    destruct (Qlt_le_dec (Qabs x) tol) as [Hsmall|Hbig].
    + exists (Fraction.mkFraction (Finite 0) 1).
      unfold Fraction.decimalToFraction.
      destruct (Qltb_spec (Qabs x) tol) as [_|]; [|contradiction].
      split; [reflexivity|]. split; [cbn [Fraction.den]; lia|].
      left. split; [assumption|reflexivity].
    + destruct (decimalToFraction_searched x maxDen tol)
        as (e & s & f & z & Hrun & Hf & Hnum & Hred & Hbd & Hval & Herr);
        [lra|].
      destruct (search_bounds _ _ _ _ _ Hrun) as (Hden & Hhalf).
      exists f. split; [assumption|]. split.
      * pose proof (reduced_den_le _ _ _ _ Hred Hbd Hval). lia.
      * right. rewrite (fraction_value_err x f z Hnum), Herr. assumption.
  - intros x maxDen Hsize.
    destruct (Qeq_dec (Qabs x) (inject_Z (Qfloor (Qabs x)))) as [Hint|Hfrac].
    + destruct (Qltb_spec x 0) as [Hneg|Hpos].
      * assert (Hx : x == inject_Z (- Qfloor (Qabs x))).
        { rewrite inject_Z_opp, <- Hint, Qabs_neg by lra. ring. }
        exists (Fractions.mkFrac (- Qfloor (Qabs x)) 1).
        split; [|split].
        -- apply toFraction_integer; [assumption|].
           rewrite Z.abs_opp.
           assert (H : inject_Z (Z.abs (Qfloor (Qabs x)))
                       <= inject_Z 10000000000).
           { rewrite <- (Qabs_integer (Qabs x) _ Hint).
             rewrite Qabs_pos by apply Qabs_nonneg. assumption. }
           rewrite <- Zle_Qle in H. assumption.
        -- cbn [Fractions.d]. lia.
        -- unfold frac_value. cbn [Fractions.n Fractions.d].
           setoid_replace (x - inject_Z (- Qfloor (Qabs x)) / inject_Z 1)
             with 0; [discriminate|].
           rewrite <- Hx. change (inject_Z 1) with 1. field.
      * apply Qnot_lt_le in Hpos.
        assert (Hx : x == inject_Z (Qfloor (Qabs x))).
        { rewrite <- Hint, Qabs_pos by lra. reflexivity. }
        exists (Fractions.mkFrac (Qfloor (Qabs x)) 1).
        split; [|split].
        -- apply toFraction_integer; [assumption|].
           assert (H : inject_Z (Z.abs (Qfloor (Qabs x)))
                       <= inject_Z 10000000000).
           { rewrite <- (Qabs_integer (Qabs x) _ Hint).
             rewrite Qabs_pos by apply Qabs_nonneg. assumption. }
           rewrite <- Zle_Qle in H. assumption.
        -- cbn [Fractions.d]. lia.
        -- unfold frac_value. cbn [Fractions.n Fractions.d].
           setoid_replace (x - inject_Z (Qfloor (Qabs x)) / inject_Z 1)
             with 0; [discriminate|].
           rewrite <- Hx. change (inject_Z 1) with 1. field.
    + destruct (toFraction_searched x maxDen Hfrac Hsize)
        as (e & s & f & Hrun & Hf & Hinv & Hbd & Hval & Herr).
      destruct (toFraction_search_bounds _ _ _ _ Hrun) as (Hden & Hhalf).
      exists f. split; [assumption|]. split.
      * pose proof (reduced_den_le _ _ _ _ Hinv Hbd Hval). lia.
      * rewrite frac_value_err, Herr. assumption.
Qed.

Lemma approximation_bounds_witness :
  exists f,
    Fractions.toFraction (Finite (355 # 113)) 100 = Some (Some f)
    /\ (Fractions.d f <= Z.max 1 100)%Z
    /\ Qabs ((355 # 113) - frac_value f) <= 1 # 2.
Proof.
  apply (proj2 approximation_bounds). vm_compute. discriminate.
Defined.

(** Over the rationals, [toFraction] returns a fraction in lowest
    terms [n/d] itself from its value, when [d] is within a bound of at
    most 10000 and the value within 1e10. *)
Lemma toFraction_recovers (n d maxDen : Z) :
  reduced n d -> (d <= maxDen)%Z -> (maxDen <= 10000)%Z ->
  (Z.abs n <= 10000000000 * d)%Z ->
  Fractions.toFraction (Finite (inject_Z n / inject_Z d)) maxDen
  = Some (Some (Fractions.mkFrac n d)).
Proof.
  intros Hred Hd Hmax Hsize.
  set (x := inject_Z n / inject_Z d).
  assert (Hdpos : (1 <= d)%Z) by (destruct Hred; lia).
  pose proof (inject_Z_pos d Hdpos) as Hdq.
  assert (Hx : Qabs x <= 10000000000 # 1).
  { unfold x. unfold Qdiv. rewrite Qabs_Qmult.
    rewrite (Qabs_pos (/ inject_Z d))
      by (apply Qlt_le_weak, Qinv_lt_0_compat; lra).
    apply Qle_shift_div_r; [lra|].
    change (Qabs (inject_Z n)) with (inject_Z (Z.abs n)).
    change (10000000000 # 1) with (inject_Z 10000000000).
    rewrite <- inject_Z_mult, <- Zle_Qle. assumption. }
  destruct (toFraction_nearest x maxDen
              (toFraction_never_capped x maxDen Hmax) Hx)
    as (f & Hf & Hnear).
  destruct (toFraction_finite x maxDen) as (r & Hr & Hspec).
  rewrite Hf in Hr. injection Hr as <-.
  destruct Hspec as (_ & Hinv & _).
  rewrite Hf. do 2 f_equal.
  destruct (Hnear n d ltac:(lia)) as [Hle|Hlt].
  - assert (E0 : err x n d == 0).
    { unfold err. fold x.
      setoid_replace (x - x) with 0 by ring. reflexivity. }
    rewrite E0 in Hle.
    assert (Ev : frac_value f == x).
    { pose proof (Qabs_nonneg (x - frac_value f)) as Hnn.
      assert (E : Qabs (x - frac_value f) == 0) by lra.
      destruct (Qabs_Qle_condition (x - frac_value f) 0) as [H _].
      specialize (H ltac:(lra)). lra. }
    destruct f as [fn fd]. unfold frac_invariant in Hinv.
    cbn [Fractions.n Fractions.d] in *.
    assert (Hfd : (1 <= fd)%Z) by (destruct Hinv; lia).
    pose proof (inject_Z_pos fd Hfd) as Hfq.
    assert (Ecross : (fn * d = n * fd)%Z).
    { unfold frac_value, x in Ev. cbn [Fractions.n Fractions.d] in Ev.
      assert (EQ : inject_Z fn * inject_Z d == inject_Z n * inject_Z fd).
      { setoid_replace (inject_Z fn * inject_Z d)
          with ((inject_Z fn / inject_Z fd) * (inject_Z fd * inject_Z d))
          by (field; lra).
        rewrite Ev. field. lra. }
      rewrite <- !inject_Z_mult, inject_Z_injective in EQ. exact EQ. }
    destruct (reduced_unique fn fd n d Hinv Hred Ecross) as [-> ->].
    reflexivity.
  - pose proof (Qabs_nonneg (x - frac_value f)). lra.
Qed.

(** Decimal value to fraction and back: [toFraction] returns a fraction
    in lowest terms [n/d] itself from its value, when [d] is within a
    bound of at most 10000 and the value is at most 1e6 in magnitude (so
    that the rounding of the value stays below the distance of two such
    fractions). *)
Theorem toFraction_round_trip :
  forall n d maxDen : Z,
    reduced n d -> (d <= maxDen)%Z -> (maxDen <= 10000)%Z ->
    (Z.abs n <= 1000000 * d)%Z ->
    Fractions.toFraction (Finite (inject_Z n / inject_Z d)) maxDen
    = Some (Some (Fractions.mkFrac n d)).
Proof.
  intros n d maxDen Hred Hd Hmax Hsize.
  apply toFraction_recovers; try assumption.
  destruct Hred as (Hpos & _). lia.
Qed.

Lemma toFraction_round_trip_witness :
  Fractions.toFraction (Finite (inject_Z (-22) / inject_Z 7)) 1000
  = Some (Some (Fractions.mkFrac (-22) 7)).
Proof.
  apply toFraction_round_trip.
  - unfold reduced. repeat apply conj; [lia|reflexivity|lia].
  - lia.
  - lia.
  - lia.
Defined.

End ApproximatorProperties2.

Section ApproximatorProperties3.

Local Open Scope Q_scope.

(** Over the rationals, unless the search runs into its cap of 200
    iterations, [decimalToFraction] returns a fraction in lowest terms
    [n/d] itself from its value, when [d] is within the bound, the value
    is not below the tolerance, and the tolerance is at most
    [1 / maxDen^2]. *)
Lemma decimalToFraction_recovers (n d maxDen : Z) (tol : Q) :
  reduced n d -> (d <= maxDen)%Z ->
  tol * inject_Z maxDen * inject_Z maxDen <= 1 ->
  ~ Qabs (inject_Z n / inject_Z d) < tol ->
  decimalToFraction_exit (inject_Z n / inject_Z d) maxDen tol
  <> Some Fraction.CapReached ->
  Fraction.decimalToFraction (Finite (inject_Z n / inject_Z d)) maxDen tol
  = Some (Fraction.mkFraction (Finite (inject_Z n)) d).
Proof.
  intros Hred Hd Htol Hbig Hcap.
  set (x := inject_Z n / inject_Z d) in *.
  assert (Hdpos : (1 <= d)%Z) by (destruct Hred; lia).
  pose proof (inject_Z_pos d Hdpos) as Hdq.
  destruct (decimalToFraction_searched x maxDen tol Hbig)
    as (e & s & f & z & Hrun & Hf & Hnum & Hred' & Hbd & Hval & Herr).
  destruct (search_bounds _ _ _ _ _ Hrun) as (Hden & _).
  pose proof (reduced_den_le _ _ _ _ Hred' Hbd Hval) as Hle.
  assert (Hdf : (1 <= Fraction.den f <= maxDen)%Z)
    by (destruct Hred'; lia).
  destruct (decimalToFraction_nearest x maxDen tol Hcap) as (f' & Hf' & Hnear).
  rewrite Hf in Hf'. injection Hf' as <-.
  rewrite Hf.
  assert (Ecross : (z * d = n * Fraction.den f)%Z).
  { destruct (Z.eq_dec (z * d) (n * Fraction.den f)) as [E|Hne];
      [assumption|exfalso].
    pose proof (inject_Z_pos (Fraction.den f) ltac:(lia)) as Hfq.
    assert (Hm : inject_Z (Fraction.den f) <= inject_Z maxDen)
      by (rewrite <- Zle_Qle; lia).
    assert (Hm' : inject_Z d <= inject_Z maxDen)
      by (rewrite <- Zle_Qle; lia).
    assert (Hgap : 1 <= Qabs (x - fraction_value f)
                        * (inject_Z d * inject_Z (Fraction.den f))).
    { unfold fraction_value. rewrite Hnum. unfold x.
      setoid_replace (inject_Z n / inject_Z d
                      - inject_Z z / inject_Z (Fraction.den f))
        with (inject_Z (n * Fraction.den f - z * d)
              / (inject_Z d * inject_Z (Fraction.den f)))
        by (unfold Zminus; rewrite inject_Z_plus, inject_Z_opp,
              !inject_Z_mult; field; split; lra).
      unfold Qdiv. rewrite Qabs_Qmult.
      rewrite (Qabs_pos (/ _))
        by (apply Qlt_le_weak, Qinv_lt_0_compat; nra).
      rewrite <- Qmult_assoc, (Qmult_comm (/ _)), Qmult_inv_r, Qmult_1_r
        by nra.
      change (Qabs (inject_Z (n * Fraction.den f - z * d)))
        with (inject_Z (Z.abs (n * Fraction.den f - z * d))).
      change 1 with (inject_Z 1). rewrite <- Zle_Qle. lia. }
    pose proof (Qabs_nonneg (x - fraction_value f)) as Hnn.
    destruct (Hnear n d ltac:(lia)) as [H0|Hlt].
    - assert (E0 : err x n d == 0).
      { unfold err. fold x.
        setoid_replace (x - x) with 0 by ring. reflexivity. }
      rewrite E0 in H0.
      assert (E : Qabs (x - fraction_value f) == 0) by lra.
      rewrite E, Qmult_0_l in Hgap. lra.
    - set (a := Qabs (x - fraction_value f)) in *.
      set (qd := inject_Z d) in *.
      set (qf := inject_Z (Fraction.den f)) in *.
      set (qm := inject_Z maxDen) in *.
      assert (Htp : 0 < tol) by lra.
      assert (Hp : 0 < qd * qf) by nra.
      assert (H1 : qd * qf <= qm * qm) by nra.
      assert (H2 : a * (qd * qf) < tol * (qd * qf)) by nra.
      assert (H3 : tol * (qd * qf) <= tol * (qm * qm)) by nra.
      lra. }
  destruct (reduced_unique z (Fraction.den f) n d Hred' Hred Ecross)
    as [-> Ed].
  destruct f as [fn fd]. cbn [Fraction.num Fraction.den] in *.
  subst. reflexivity.
Qed.

(** Decimal value to fraction and back: unless the search runs into its
    cap of 200 iterations, [decimalToFraction] returns a fraction in
    lowest terms [n/d] itself from its value, when [d] is within a bound
    of at most 10000, the value is at most 1e6 in magnitude and not below
    the tolerance, and the tolerance is at most [1 / (2 * maxDen^2)] (as
    it is for the defaults 10000 and 1e-9). *)
Theorem decimalToFraction_round_trip :
  forall (n d maxDen : Z) (tol : Q),
    reduced n d -> (d <= maxDen)%Z -> (maxDen <= 10000)%Z ->
    (Z.abs n <= 1000000 * d)%Z ->
    2 * tol * inject_Z maxDen * inject_Z maxDen <= 1 ->
    ~ Qabs (inject_Z n / inject_Z d) < tol ->
    decimalToFraction_exit (inject_Z n / inject_Z d) maxDen tol
    <> Some Fraction.CapReached ->
    Fraction.decimalToFraction (Finite (inject_Z n / inject_Z d)) maxDen tol
    = Some (Fraction.mkFraction (Finite (inject_Z n)) d).
Proof.
  intros n d maxDen tol Hred Hd _ _ Htol Hbig Hcap.
  apply decimalToFraction_recovers; try assumption.
  assert (Hm : 0 <= inject_Z maxDen * inject_Z maxDen).
  { destruct (Qlt_le_dec (inject_Z maxDen) 0) as [Hn|Hp]; nra. }
  destruct (Qlt_le_dec tol 0) as [Hn|Hp]; nra.
Qed.

Lemma decimalToFraction_round_trip_witness :
  Fraction.decimalToFraction (Finite (inject_Z (-22) / inject_Z 7))
                             Fraction.default_maxDen Fraction.default_tol
  = Some (Fraction.mkFraction (Finite (inject_Z (-22))) 7).
Proof.
  apply decimalToFraction_round_trip.
  - unfold reduced. repeat apply conj; [lia|reflexivity|lia].
  - vm_compute. discriminate.
  - vm_compute. discriminate.
  - lia.
  - vm_compute. discriminate.
  - vm_compute. discriminate.
  - vm_compute. discriminate.
Defined.

End ApproximatorProperties3.

Section Symmetry.

Local Open Scope Q_scope.

Lemma Qabs_opp_eq (x : Q) : Qabs (- x) = Qabs x.
Proof. destruct x as [a b]. unfold Qabs, Qopp. cbn. rewrite Z.abs_opp. reflexivity. Qed.

Lemma Qltb_opp (x : Q) :
  ~ x == 0 -> Qltb (- x) 0 = negb (Qltb x 0).
Proof.
  intros Hx.
  destruct (Qltb_spec x 0), (Qltb_spec (- x) 0); cbn [negb];
    try reflexivity; exfalso; lra.
Qed.

Lemma reduceFraction_opp (n d : Z) (f : Fraction.fraction) :
  d <> 0%Z ->
  Fraction.reduceFraction n d = Some f ->
  Fraction.reduceFraction (- n) d
  = Some (Fraction.mkFraction (negate (Fraction.num f)) (Fraction.den f)).
Proof.
  intros Hd. unfold Fraction.reduceFraction.
  destruct (Z.eqb_spec d 0) as [|_]; [contradiction|].
  destruct (Z.eqb_spec n 0) as [->|Hn].
  - intros [= <-]. reflexivity.
  - destruct (Z.eqb_spec (- n) 0) as [|_]; [lia|].
    rewrite Z.abs_opp.
    destruct (Fraction.gcd (Z.abs n) (Z.abs d)) as [g|]; [|discriminate].
    cbn [bind]. intros [= <-].
    cbn [Fraction.num Fraction.den negate].
    do 2 f_equal. unfold Qopp, inject_Z. cbn [Qnum Qden]. f_equal.
    destruct (Z.ltb_spec n 0), (Z.ltb_spec (- n) 0); try lia;
      destruct (d <? 0)%Z; cbn [xorb]; f_equal; lia.
Qed.

Lemma reduce_opp (n d : Z) (f : Fractions.frac) :
  Fractions.reduce (Fractions.mkFrac n d) = Some f ->
  Fractions.reduce (Fractions.mkFrac (- n) d)
  = Some (Fractions.mkFrac (- Fractions.n f) (Fractions.d f)).
Proof.
  unfold Fractions.reduce. cbn [Fractions.n Fractions.d].
  destruct (Z.eqb_spec d 0) as [->|Hd].
  - intros [= <-]. reflexivity.
  - rewrite Z.abs_opp, !Fractions_gcd_returns. cbn [bind].
    rewrite Z.gcd_abs_l, Z.gcd_abs_r.
    assert (Hg : Z.gcd n d <> 0%Z).
    { intros E. apply Z.gcd_eq_0_r in E. contradiction. }
    assert (E : (- n / Z.gcd n d = - (n / Z.gcd n d))%Z).
    { apply Z.div_opp_l_z; [assumption|].
      apply Z.mod_divide; [assumption|apply Z.gcd_divide_l]. }
    rewrite E.
    destruct (d / Z.gcd n d <? 0)%Z; intros [= <-]; reflexivity.
Qed.

(** Both approximators are odd: the fraction returned for [-x] is the
    one returned for [x] with the numerator negated; [toFraction]
    returns [null] for both or for none. *)
Theorem approximators_odd :
  (forall (x : Q) (maxDen : Z) (tol : Q),
      exists f,
        Fraction.decimalToFraction (Finite x) maxDen tol = Some f
        /\ Fraction.decimalToFraction (Finite (- x)) maxDen tol
           = Some (Fraction.mkFraction (negate (Fraction.num f))
                                       (Fraction.den f)))
  /\ (forall (x : Q) (maxDen : Z),
         exists r,
           Fractions.toFraction (Finite x) maxDen = Some r
           /\ Fractions.toFraction (Finite (- x)) maxDen
              = Some (option_map
                        (fun f => Fractions.mkFrac (- Fractions.n f)
                                                   (Fractions.d f)) r)).
Proof.
  split.
  - intros x maxDen tol.
    destruct (Qeq_dec x 0) as [Hz|Hnz].
    + assert (E : - x = x).
      { destruct x as [a b]. unfold Qeq in Hz. cbn in Hz.
        assert (a = 0%Z) by lia. subst a. reflexivity. }
      rewrite E.
      destruct (Qlt_le_dec (Qabs x) tol) as [Hsmall|Hbig].
      * exists (Fraction.mkFraction (Finite 0) 1).
        unfold Fraction.decimalToFraction.
        destruct (Qltb_spec (Qabs x) tol) as [_|]; [|contradiction].
        split; reflexivity.
      * exists (Fraction.mkFraction (Finite (inject_Z 0)) 1).
        rewrite (decimalToFraction_integer x 0 maxDen tol Hz) by lra.
        split; reflexivity.
    + destruct (decimalToFraction_finite x maxDen tol)
        as (f & z & Hf & _).
      exists f. split; [assumption|].
      revert Hf. unfold Fraction.decimalToFraction.
      rewrite Qabs_opp_eq.
      destruct (Qltb (Qabs x) tol); [intros [= <-]; reflexivity|].
      destruct (Fraction.mediant_search (Qabs x) maxDen tol)
        as [[e s]|] eqn:Hrun; [|discriminate].
      cbn [bind snd]. intros Hf.
      destruct (mediant_search_bracket (Qabs x) maxDen tol e s
                  (Qabs_nonneg x) Hrun) as (Hbr & _).
      destruct Hbr as (_ & _ & _ & Hbd & _).
      rewrite (Qltb_opp x Hnz).
      replace ((if negb (Qltb x 0) then -1 else 1) * Fraction.best_n s)%Z
        with (- ((if Qltb x 0 then -1 else 1) * Fraction.best_n s))%Z
        by (destruct (Qltb x 0); cbn [negb]; lia).
      apply reduceFraction_opp; [lia|assumption].
  - intros x maxDen.
    destruct (toFraction_finite x maxDen) as (r & Hr & _).
    exists r. split; [assumption|].
    revert Hr. unfold Fractions.toFraction.
    rewrite Qabs_opp_eq.
    destruct (Qeq_bool x 0) eqn:Hz.
    { assert (Hz' : Qeq_bool (- x) 0 = true).
      { apply Qeq_bool_iff. apply Qeq_bool_iff in Hz. rewrite Hz.
        reflexivity. }
      rewrite Hz'. intros [= <-]. reflexivity. }
    assert (Hnz : ~ x == 0).
    { intros H. apply Qeq_bool_iff in H. congruence. }
    assert (Hz' : Qeq_bool (- x) 0 = false).
    { destruct (Qeq_bool (- x) 0) eqn:H; [|reflexivity].
      apply Qeq_bool_iff in H. exfalso. apply Hnz. lra. }
    rewrite Hz'.
    destruct (Qltb (10000000000 # 1) (Qabs x)); [intros [= <-]; reflexivity|].
    rewrite (Qltb_opp x Hnz).
    destruct (Qeq_bool (Qabs x) (inject_Z (Qfloor (Qabs x)))).
    { intros [= <-]. cbn [option_map Fractions.n Fractions.d].
      destruct (Qltb x 0); cbn [negb]; rewrite ?Z.opp_involutive;
        reflexivity. }
    destruct (Fractions.mediant_search (Qabs x) maxDen)
      as [[e s]|]; [|discriminate].
    cbn [bind snd].
    destruct (Fractions.reduce
                (Fractions.mkFrac
                   (if Qltb x 0 then (- Fractions.best_n s)%Z
                    else Fractions.best_n s) (Fractions.best_d s)))
      as [f|] eqn:Hf; [|discriminate].
    cbn [bind]. intros [= <-]. cbn [option_map].
    replace (if negb (Qltb x 0) then (- Fractions.best_n s)%Z
             else Fractions.best_n s)
      with (- (if Qltb x 0 then (- Fractions.best_n s)%Z
               else Fractions.best_n s))%Z
      by (destruct (Qltb x 0); cbn [negb]; lia).
    rewrite (reduce_opp _ _ f Hf). reflexivity.
Qed.

End Symmetry.

Section NearestWithin.

Local Open Scope Q_scope.

Lemma rounding_slack_nonneg (x : Q) : 0 <= rounding_slack x.
Proof.
  unfold rounding_slack. pose proof (Qabs_nonneg x) as H.
  apply Qmult_le_0_compat; [lra|discriminate].
Qed.

(** The nearest fraction is nearest up to every slack. *)
Lemma nearest_nearest_within (x : Q) (maxDen : Z) (tol v : Q) :
  nearest x maxDen tol v ->
  nearest_within x maxDen tol (rounding_slack x) v.
Proof.
  intros H p q Hq. pose proof (rounding_slack_nonneg x) as Hs.
  destruct (H p q Hq) as [Hle|Hlt]; [left|right]; lra.
Qed.

(** The denominator that [decimalToFraction] returns. *)
Lemma decimalToFraction_den_le (x : Q) (maxDen : Z) (tol : Q)
      (f : Fraction.fraction) :
  Fraction.decimalToFraction (Finite x) maxDen tol = Some f ->
  (1 <= Fraction.den f <= Z.max 1 maxDen)%Z.
Proof.
  intros Hf.
  destruct (Qlt_le_dec (Qabs x) tol) as [Hsmall|Hbig].
  - unfold Fraction.decimalToFraction in Hf.
    destruct (Qltb_spec (Qabs x) tol) as [_|]; [|contradiction].
    injection Hf as <-. cbn [Fraction.den]. lia.
  - destruct (decimalToFraction_searched x maxDen tol)
      as (e & s & f' & z & Hrun & Hf' & Hnum & Hred & Hbd & Hval & Herr);
      [lra|].
    rewrite Hf in Hf'. injection Hf' as <-.
    destruct (search_bounds _ _ _ _ _ Hrun) as (Hden & _).
    pose proof (reduced_den_le _ _ _ _ Hred Hbd Hval).
    destruct Hred as (Hpos & _). lia.
Qed.

(** The denominator that [toFraction] returns. *)
Lemma toFraction_den_le (x : Q) (maxDen : Z) (f : Fractions.frac) :
  Fractions.toFraction (Finite x) maxDen = Some (Some f) ->
  (1 <= Fractions.d f <= Z.max 1 maxDen)%Z.
Proof.
  intros Hf.
  destruct (toFraction_finite x maxDen) as (r & Hr & Hspec).
  rewrite Hf in Hr. injection Hr as <-.
  destruct Hspec as (Hsize & Hinv & _).
  split; [destruct Hinv; lia|].
  destruct (Qeq_dec (Qabs x) (inject_Z (Qfloor (Qabs x)))) as [Hint|Hfrac].
  - assert (Hz : (Z.abs (Qfloor (Qabs x)) <= 10000000000)%Z).
    { assert (H : inject_Z (Z.abs (Qfloor (Qabs x)))
                  <= inject_Z 10000000000).
      { rewrite <- (Qabs_integer (Qabs x) _ Hint).
        rewrite Qabs_pos by apply Qabs_nonneg. assumption. }
      rewrite <- Zle_Qle in H. assumption. }
    destruct (Qltb_spec x 0) as [Hneg|Hpos].
    + assert (Hx : x == inject_Z (- Qfloor (Qabs x))).
      { rewrite inject_Z_opp, <- Hint, Qabs_neg by lra. ring. }
      rewrite (toFraction_integer x _ maxDen Hx) in Hf;
        [|rewrite Z.abs_opp; assumption].
      injection Hf as <-. cbn [Fractions.d]. lia.
    + apply Qnot_lt_le in Hpos.
      assert (Hx : x == inject_Z (Qfloor (Qabs x))).
      { rewrite <- Hint, Qabs_pos by lra. reflexivity. }
      rewrite (toFraction_integer x _ maxDen Hx) in Hf; [|assumption].
      injection Hf as <-. cbn [Fractions.d]. lia.
  - destruct (toFraction_searched x maxDen Hfrac Hsize)
      as (e & s & f' & Hrun & Hf' & Hinv' & Hbd & Hval & Herr).
    rewrite Hf in Hf'. injection Hf' as <-.
    destruct (toFraction_search_bounds _ _ _ _ Hrun) as (Hden & _).
    pose proof (reduced_den_le _ _ _ _ Hinv' Hbd Hval). lia.
Qed.

(** What [decimalToFraction] returns when its search is not cut by the
    cap. *)
Lemma decimalToFraction_nearest_within (x : Q) (maxDen : Z) (tol : Q) :
  decimalToFraction_exit x maxDen tol <> Some Fraction.CapReached ->
  exists f, Fraction.decimalToFraction (Finite x) maxDen tol = Some f
            /\ (1 <= Fraction.den f <= Z.max 1 maxDen)%Z
            /\ nearest_within x maxDen tol (rounding_slack x)
                              (fraction_value f).
Proof.
  intros Hcap.
  destruct (decimalToFraction_nearest x maxDen tol Hcap) as (f & Hf & Hn).
  exists f. split; [assumption|]. split.
  - apply (decimalToFraction_den_le x maxDen tol). assumption.
  - apply nearest_nearest_within. assumption.
Qed.

(** What [toFraction] returns when its search is not cut by the cap. *)
Lemma toFraction_nearest_within (x : Q) (maxDen : Z) :
  toFraction_exit x maxDen <> Some Fractions.CapReached ->
  Qabs x <= 10000000000 # 1 ->
  exists f, Fractions.toFraction (Finite x) maxDen = Some (Some f)
            /\ (1 <= Fractions.d f <= Z.max 1 maxDen)%Z
            /\ nearest_within x maxDen 0 (rounding_slack x) (frac_value f).
Proof.
  intros Hcap Hsize.
  destruct (toFraction_nearest x maxDen Hcap Hsize) as (f & Hf & Hn).
  exists f. split; [assumption|]. split.
  - apply (toFraction_den_le x maxDen). assumption.
  - apply nearest_nearest_within. assumption.
Qed.

(** C6, amended: whenever the mediant search is left because the next
    denominator would exceed the bound, or because the error fell under
    the tolerance (or, in [toFraction], because of an exact hit), and not
    because of the iteration cap, the returned fraction has a
    denominator between 1 and the bound [maxDen] (1 for a bound below
    1), and it is nearest to [x] among the fractions of denominator at
    most [maxDen] up to the rounding slack [2^-49 * (|x| + 1)]: beyond
    that slack, it is within the tolerance of [x], or no such fraction
    is closer.  [toFraction] does so for [|x| <= 1e10], with no
    tolerance.  The cap is not reached by [decimalToFraction] when
    [(|x| + 1) * maxDen < 200], and never by [toFraction] when
    [maxDen <= 10000]. *)
Theorem approximators_nearest_unless_capped :
  (forall (x : Q) (maxDen : Z) (tol : Q),
      decimalToFraction_exit x maxDen tol <> Some Fraction.CapReached ->
      exists f, Fraction.decimalToFraction (Finite x) maxDen tol = Some f
                /\ (1 <= Fraction.den f <= Z.max 1 maxDen)%Z
                /\ nearest_within x maxDen tol (rounding_slack x)
                                  (fraction_value f))
  /\ (forall (x : Q) (maxDen : Z),
         toFraction_exit x maxDen <> Some Fractions.CapReached ->
         Qabs x <= 10000000000 # 1 ->
         exists f, Fractions.toFraction (Finite x) maxDen = Some (Some f)
                   /\ (1 <= Fractions.d f <= Z.max 1 maxDen)%Z
                   /\ nearest_within x maxDen 0 (rounding_slack x)
                                     (frac_value f))
  /\ (forall (x : Q) (maxDen : Z) (tol : Q),
         (Qabs x + 1) * inject_Z maxDen < 200 ->
         exists f, Fraction.decimalToFraction (Finite x) maxDen tol = Some f
                   /\ (1 <= Fraction.den f <= Z.max 1 maxDen)%Z
                   /\ nearest_within x maxDen tol (rounding_slack x)
                                     (fraction_value f))
  /\ (forall (x : Q) (maxDen : Z),
         (maxDen <= 10000)%Z ->
         Qabs x <= 10000000000 # 1 ->
         exists f, Fractions.toFraction (Finite x) maxDen = Some (Some f)
                   /\ (1 <= Fractions.d f <= Z.max 1 maxDen)%Z
                   /\ nearest_within x maxDen 0 (rounding_slack x)
                                     (frac_value f)).
Proof.
  repeat apply conj.
  - exact decimalToFraction_nearest_within.
  - exact toFraction_nearest_within.
  - intros x maxDen tol Hsmall.
    apply decimalToFraction_nearest_within.
    apply decimalToFraction_not_capped. assumption.
  - intros x maxDen Hmax Hsize.
    apply toFraction_nearest_within; [|assumption].
    apply toFraction_never_capped. assumption.
Qed.

Lemma approximators_nearest_witness :
  (exists f, Fraction.decimalToFraction (Finite (1 # 3)) 10000
               Fraction.default_tol = Some f
             /\ (1 <= Fraction.den f <= Z.max 1 10000)%Z
             /\ nearest_within (1 # 3) 10000 Fraction.default_tol
                               (rounding_slack (1 # 3)) (fraction_value f))
  /\ (exists f, Fraction.decimalToFraction (Finite (5 # 7)) 100
                  Fraction.default_tol = Some f
                /\ (1 <= Fraction.den f <= Z.max 1 100)%Z
                /\ nearest_within (5 # 7) 100 Fraction.default_tol
                                  (rounding_slack (5 # 7)) (fraction_value f))
  /\ (exists f, Fractions.toFraction (Finite (- 7 # 3)) 1000 = Some (Some f)
                /\ (1 <= Fractions.d f <= Z.max 1 1000)%Z
                /\ nearest_within (- 7 # 3) 1000 0 (rounding_slack (- 7 # 3))
                                  (frac_value f)).
Proof.
  repeat apply conj.
  - apply (proj1 approximators_nearest_unless_capped).
    vm_compute. discriminate.
  - apply (proj1 (proj2 (proj2 approximators_nearest_unless_capped))).
    vm_compute. reflexivity.
  - apply (proj2 (proj2 (proj2 approximators_nearest_unless_capped))).
    + vm_compute. discriminate.
    + vm_compute. discriminate.
Defined.

End NearestWithin.
(* ================================================================== *)
(** * The oscillator: further facts and properties *)

Section Derivatives.

Local Open Scope R_scope.

Lemma derivable_pt_lim_ext (f g : R -> R) (x l : R) :
  (forall t, f t = g t) ->
  derivable_pt_lim f x l -> derivable_pt_lim g x l.
Proof.
  intros Hext Hf eps Heps.
  destruct (Hf eps Heps) as [delta Hd].
  exists delta. intros h Hh Hlt. rewrite <- !Hext. apply Hd; assumption.
Qed.

Lemma cos_linear_derivative (w t : R) :
  derivable_pt_lim (fun t => cos (w * t)) t (- w * sin (w * t)).
Proof.
  replace (- w * sin (w * t)) with (- sin (w * t) * (w * 1)) by ring.
  apply (derivable_pt_lim_comp (mult_real_fct w id) cos).
  - apply derivable_pt_lim_scal. apply derivable_pt_lim_id.
  - apply derivable_pt_lim_cos.
Qed.

Lemma sin_linear_derivative (w t : R) :
  derivable_pt_lim (fun t => sin (w * t)) t (w * cos (w * t)).
Proof.
  replace (w * cos (w * t)) with (cos (w * t) * (w * 1)) by ring.
  apply (derivable_pt_lim_comp (mult_real_fct w id) sin).
  - apply derivable_pt_lim_scal. apply derivable_pt_lim_id.
  - apply derivable_pt_lim_sin.
Qed.

(** The derivative of a sum of two modes. *)
Lemma modes_derivative (c1 s1 c2 s2 w1 w2 t : R) :
  derivable_pt_lim
    (fun t => c1 * cos (w1 * t) + s1 * sin (w1 * t)
              + c2 * cos (w2 * t) + s2 * sin (w2 * t))
    t
    (- c1 * w1 * sin (w1 * t) + s1 * w1 * cos (w1 * t)
     + - c2 * w2 * sin (w2 * t) + s2 * w2 * cos (w2 * t)).
Proof.
  replace (- c1 * w1 * sin (w1 * t) + s1 * w1 * cos (w1 * t)
           + - c2 * w2 * sin (w2 * t) + s2 * w2 * cos (w2 * t))
    with (c1 * (- w1 * sin (w1 * t)) + s1 * (w1 * cos (w1 * t))
          + c2 * (- w2 * sin (w2 * t)) + s2 * (w2 * cos (w2 * t)))
    by ring.
  repeat apply (derivable_pt_lim_plus _ _ t);
    apply (derivable_pt_lim_scal _ _ t);
    first [apply cos_linear_derivative | apply sin_linear_derivative].
Qed.

End Derivatives.

Section OscillatorProperties.

Import Oscillator.
Local Open Scope R_scope.

Lemma motion_derivative (o : oscillator) (mass : Z) (t : R) :
  derivable_pt_lim (position o mass) t (velocity o mass t)
  /\ derivable_pt_lim (velocity o mass) t (acceleration o mass t).
Proof.
  split.
  - unfold position, velocity. apply modes_derivative.
  - unfold velocity, acceleration.
    set (c := coeffs_of o mass). set (w1 := omega1 o). set (w2 := omega2 o).
    apply (derivable_pt_lim_ext
             (fun t => sw1 c * w1 * cos (w1 * t)
                       + - cw1 c * w1 * sin (w1 * t)
                       + sw2 c * w2 * cos (w2 * t)
                       + - cw2 c * w2 * sin (w2 * t))).
    + intros u. ring.
    + replace (- cw1 c * w1 * w1 * cos (w1 * t)
               - sw1 c * w1 * w1 * sin (w1 * t)
               + - cw2 c * w2 * w2 * cos (w2 * t)
               - sw2 c * w2 * w2 * sin (w2 * t))
        with (- (sw1 c * w1) * w1 * sin (w1 * t)
              + - cw1 c * w1 * w1 * cos (w1 * t)
              + - (sw2 c * w2) * w2 * sin (w2 * t)
              + - cw2 c * w2 * w2 * cos (w2 * t)) by ring.
      apply modes_derivative.
Qed.

(** The velocity is the time derivative of the position, and the
    acceleration that of the velocity, for both masses at every time. *)
Theorem velocity_acceleration_derivatives :
  forall (o : oscillator) (mass : Z) (t : R),
    derivable_pt_lim (position o mass) t (velocity o mass t)
    /\ derivable_pt_lim (velocity o mass) t (acceleration o mass t).
Proof. exact motion_derivative. Qed.

End OscillatorProperties.

Section Linearity.

Import Oscillator.
Local Open Scope R_scope.

(** The frequencies do not depend on the initial conditions, and the
    coefficients of both masses are linear in them: the branches of
    [_compute] are chosen by the masses and the spring constants
    alone. *)
Lemma compute_linear (p : params) (al be : R)
      (xa ya va wa xb yb vb wb : R) :
  let o := _compute (with_initial p xa ya va wa) in
  let o' := _compute (with_initial p xb yb vb wb) in
  let os := _compute (with_initial p (al * xa + be * xb) (al * ya + be * yb)
                                   (al * va + be * vb) (al * wa + be * wb)) in
  omega1 o' = omega1 o /\ omega2 o' = omega2 o
  /\ omega1 os = omega1 o /\ omega2 os = omega2 o
  /\ forall mass,
      cw1 (coeffs_of os mass)
      = al * cw1 (coeffs_of o mass) + be * cw1 (coeffs_of o' mass)
      /\ sw1 (coeffs_of os mass)
         = al * sw1 (coeffs_of o mass) + be * sw1 (coeffs_of o' mass)
      /\ cw2 (coeffs_of os mass)
         = al * cw2 (coeffs_of o mass) + be * cw2 (coeffs_of o' mass)
      /\ sw2 (coeffs_of os mass)
         = al * sw2 (coeffs_of o mass) + be * sw2 (coeffs_of o' mass).
Proof.
  unfold _compute, lam1, lam2, disc, a, b, c2, with_initial, coeffs_of.
  cbn [m1 m2 k1 k2 k3 x10 x20 v10 v20].
  destruct (Rltb (Rabs (k2 p)) 1e-14).
  - cbn [omega1 omega2 coeffs1 coeffs2].
    repeat (split; [reflexivity|]).
    intros mass.
    destruct (mass =? 1)%Z; cbn [cw1 sw1 cw2 sw2];
      repeat match goal with
             | |- context [if ?c then _ else _] => destruct c
             end;
      repeat apply conj; unfold Rdiv; ring.
  - cbn [omega1 omega2 coeffs1 coeffs2].
    repeat (split; [reflexivity|]).
    intros mass.
    destruct (mass =? 1)%Z; cbn [cw1 sw1 cw2 sw2];
      repeat match goal with
             | |- context [if ?c then _ else _] => destruct c
             end;
      cbn [orb];
      repeat match goal with
             | |- context [if ?c then _ else _] => destruct c
             end;
      repeat apply conj; unfold Rdiv; ring.
Qed.

End Linearity.

Section OscillatorProperties2.

Import Oscillator.
Local Open Scope R_scope.

(** Over the reals, the motion from a linear combination of two sets of
    initial conditions is the same combination of the two motions, in
    every branch of [_compute]. *)
Lemma superposition_exact
      (p : params) (al be xa ya va wa xb yb vb wb : R) (mass : Z) (t : R) :
  let o := _compute (with_initial p xa ya va wa) in
  let o' := _compute (with_initial p xb yb vb wb) in
  let os := _compute (with_initial p (al * xa + be * xb)
                                   (al * ya + be * yb)
                                   (al * va + be * vb)
                                   (al * wa + be * wb)) in
  position os mass t = al * position o mass t + be * position o' mass t
  /\ velocity os mass t = al * velocity o mass t + be * velocity o' mass t
  /\ acceleration os mass t
     = al * acceleration o mass t + be * acceleration o' mass t.
Proof.
  intros o o' os.
  destruct (compute_linear p al be xa ya va wa xb yb vb wb)
    as (E1 & E2 & E3 & E4 & Hc).
  destruct (Hc mass) as (C1 & C2 & C3 & C4).
  fold o in E1, E2, E3, E4, C1, C2, C3, C4.
  fold o' in E1, E2, C1, C2, C3, C4.
  fold os in E3, E4, C1, C2, C3, C4.
  unfold position, velocity, acceleration.
  rewrite E1, E2, E3, E4, C1, C2, C3, C4.
  repeat apply conj; ring.
Qed.

(** Superposition: in a moderate system, the motion from a linear
    combination, with factors of at most 1 in magnitude, of two sets of
    initial conditions of at most 10 in magnitude is within 1e-6 of the
    same combination of the two motions: in position, velocity and
    acceleration, at every time [t] with [|t| <= 1e9]. *)
Theorem superposition :
  forall (p : params) (al be xa ya va wa xb yb vb wb : R) (mass : Z) (t : R),
    moderate (with_initial p xa ya va wa) ->
    moderate (with_initial p xb yb vb wb) ->
    Rabs al <= 1 -> Rabs be <= 1 -> Rabs t <= 1e9 ->
    let o := _compute (with_initial p xa ya va wa) in
    let o' := _compute (with_initial p xb yb vb wb) in
    let os := _compute (with_initial p (al * xa + be * xb)
                                     (al * ya + be * yb)
                                     (al * va + be * vb)
                                     (al * wa + be * wb)) in
    Rabs (position os mass t
          - (al * position o mass t + be * position o' mass t)) <= 1e-6
    /\ Rabs (velocity os mass t
             - (al * velocity o mass t + be * velocity o' mass t)) <= 1e-6
    /\ Rabs (acceleration os mass t
             - (al * acceleration o mass t + be * acceleration o' mass t))
       <= 1e-6.
Proof.
  intros p al be xa ya va wa xb yb vb wb mass t _ _ _ _ _ o o' os.
  destruct (superposition_exact p al be xa ya va wa xb yb vb wb mass t)
    as (P & V & A).
  fold o o' os in P, V, A. rewrite P, V, A.
  repeat split; (rewrite Rminus_diag, Rabs_R0; lra).
Qed.

Lemma superposition_witness :
  let p := mkParams 1 1 1 0.5 1 0 0 0 0 in
  let o := _compute (with_initial p 1 0 0 0) in
  let o' := _compute (with_initial p 0 1 0 0) in
  let os := _compute (with_initial p (0.5 * 1 + -1 * 0) (0.5 * 0 + -1 * 1)
                                   (0.5 * 0 + -1 * 0) (0.5 * 0 + -1 * 0)) in
  Rabs (position os 1 1 - (0.5 * position o 1 1 + -1 * position o' 1 1))
  <= 1e-6
  /\ Rabs (velocity os 1 1 - (0.5 * velocity o 1 1 + -1 * velocity o' 1 1))
     <= 1e-6
  /\ Rabs (acceleration os 1 1
           - (0.5 * acceleration o 1 1 + -1 * acceleration o' 1 1))
     <= 1e-6.
Proof.
  apply (superposition (mkParams 1 1 1 0.5 1 0 0 0 0) 0.5 (-1)
           1 0 0 0 0 1 0 0 1 1);
    try moderate_config; apply Rabs_le; lra.
Defined.



End OscillatorProperties2.

Section SymmetricSystem.

Import Oscillator.
Local Open Scope R_scope.

Variables (m k kc : R).
Hypothesis Hm : 0 < m.
Hypothesis Hk : 0 <= k.
Hypothesis Hkc : 1e-14 <= kc.

Lemma symmetric_disc (xa ya va wa : R) :
  disc (mkParams m m k kc k xa ya va wa) = 2 * kc / m.
Proof.
  unfold disc, a, b, c2. cbn [m1 m2 k1 k2 k3].
  apply sqrt_lem_1.
  - apply Rplus_le_le_0_compat; [apply pow2_ge_0|].
    apply Rmult_le_pos; [lra|].
    apply Rmult_le_pos; [nra|].
    apply Rlt_le, Rinv_0_lt_compat. nra.
  - apply Rmult_le_pos; [lra|]. apply Rlt_le, Rinv_0_lt_compat. lra.
  - field. lra.
Qed.

Lemma symmetric_lam (xa ya va wa : R) :
  let p := mkParams m m k kc k xa ya va wa in
  lam1 p = k / m /\ lam2 p = (k + 2 * kc) / m.
Proof.
  intros p. unfold lam1, lam2. unfold p. rewrite symmetric_disc.
  unfold a, b. cbn [m1 m2 k1 k2 k3]. split; field; lra.
Qed.

Lemma symmetric_compute (xa ya va wa : R) :
  let p := mkParams m m k kc k xa ya va wa in
  let o := _compute p in
  omega1 o = sqrt (k / m) /\ omega2 o = sqrt ((k + 2 * kc) / m)
  /\ r1 o = 1 /\ r2 o = -1
  /\ (ya = xa -> wa = va -> coeffs2 o = coeffs1 o)
  /\ (ya = - xa -> wa = - va ->
      coeffs2 o = mkCoeffs (- cw1 (coeffs1 o)) (- sw1 (coeffs1 o))
                           (- cw2 (coeffs1 o)) (- sw2 (coeffs1 o))).
Proof.
  intros p o.
  destruct (symmetric_lam xa ya va wa) as [E1 E2]. fold p in E1, E2.
  assert (Hk0 : 0 <= k / m).
  { apply Rmult_le_pos; [lra|]. apply Rlt_le, Rinv_0_lt_compat. lra. }
  assert (Hk1 : 0 <= (k + 2 * kc) / m).
  { apply Rmult_le_pos; [lra|]. apply Rlt_le, Rinv_0_lt_compat. lra. }
  assert (Hr1 : (k1 p + k2 p - lam1 p * m1 p) / k2 p = 1).
  { rewrite E1. unfold p. cbn [m1 m2 k1 k2 k3]. field. lra. }
  assert (Hr2 : (k1 p + k2 p - lam2 p * m1 p) / k2 p = -1).
  { rewrite E2. unfold p. cbn [m1 m2 k1 k2 k3]. field. lra. }
  unfold o, _compute.
  rewrite (Rltb_false (Rabs (k2 p)) 1e-14)
    by (unfold p; cbn [k2]; rewrite Rabs_pos_eq; lra).
  rewrite Hr1, Hr2.
  replace (1 - -1) with 2 by ring.
  rewrite (Rltb_false (Rabs 2) 1e-14) by (rewrite Rabs_pos_eq; lra).
  cbn [orb omega1 omega2 r1 r2 coeffs1 coeffs2 cw1 sw1 cw2 sw2].
  rewrite E1, E2, !Rmax_right by assumption.
  unfold p. cbn [x10 x20 v10 v20].
  split; [reflexivity|]. split; [reflexivity|].
  split; [reflexivity|]. split; [reflexivity|].
  set (w1 := sqrt (k / m)). set (w2 := sqrt ((k + 2 * kc) / m)).
  assert (Hnz : ~ Rabs w1 < 1e-14 -> w1 <> 0).
  { intros Hw E. rewrite E, Rabs_R0 in Hw. lra. }
  split.
  - intros -> ->.
    destruct (Rltb_spec (Rabs w1) 1e-14) as [Hw|Hw].
    + f_equal; lra.
    + specialize (Hnz Hw).
      destruct (Rltb_spec 1e-14 w2) as [Hw2|Hw2]; f_equal;
        try (field; repeat split; first [assumption | lra]); lra.
  - intros -> ->.
    destruct (Rltb_spec (Rabs w1) 1e-14) as [Hw|Hw].
    + rewrite Rabs_pos_eq in Hw by apply sqrt_pos.
      destruct (Rltb_spec 1e-14 w1) as [Hw'|Hw']; [lra|].
      f_equal; lra.
    + specialize (Hnz Hw).
      destruct (Rltb_spec 1e-14 w2) as [Hw2|Hw2]; f_equal;
        try (field; repeat split; first [assumption | lra]); lra.
Qed.

End SymmetricSystem.

Section OscillatorProperties3.

Import Oscillator.
Local Open Scope R_scope.

(** The normal modes of the symmetric system of the tests, for a mass
    [m], outer springs [k] and a coupling [kc] between 0.1 and 10,
    initial data of at most 10 in magnitude and [|t| <= 1e9]: the
    frequencies are [sqrt (k / m)] and [sqrt ((k + 2 kc) / m)]; started
    in phase the masses stay in phase, started in opposition they stay
    in opposition; all of it within 1e-9. *)
Theorem symmetric_normal_modes :
  forall m k kc xa va t : R,
    0.1 <= m <= 10 -> 0.1 <= k <= 10 -> 0.1 <= kc <= 10 ->
    Rabs xa <= 10 -> Rabs va <= 10 -> Rabs t <= 1e9 ->
    let o := _compute (mkParams m m k kc k xa xa va va) in
    let o' := _compute (mkParams m m k kc k xa (- xa) va (- va)) in
    Rabs (omega1 o - sqrt (k / m)) <= 1e-9
    /\ Rabs (omega2 o - sqrt ((k + 2 * kc) / m)) <= 1e-9
    /\ Rabs (position o 2 t - position o 1 t) <= 1e-9
    /\ Rabs (velocity o 2 t - velocity o 1 t) <= 1e-9
    /\ Rabs (position o' 2 t + position o' 1 t) <= 1e-9
    /\ Rabs (velocity o' 2 t + velocity o' 1 t) <= 1e-9.
Proof.
  intros m k kc xa va t Hm Hk Hkc _ _ _ o o'.
  destruct (symmetric_compute m k kc ltac:(lra) ltac:(lra) ltac:(lra)
              xa xa va va) as (E1 & E2 & _ & _ & Hin & _).
  destruct (symmetric_compute m k kc ltac:(lra) ltac:(lra) ltac:(lra)
              xa (- xa) va (- va)) as (_ & _ & _ & _ & _ & Hout).
  fold o in E1, E2, Hin. fold o' in Hout.
  specialize (Hin eq_refl eq_refl). specialize (Hout eq_refl eq_refl).
  assert (Z : Rabs 0 <= 1e-9) by (rewrite Rabs_R0; lra).
  rewrite E1, E2, !Rminus_diag.
  split; [exact Z|]. split; [exact Z|].
  unfold position, velocity, coeffs_of.
  cbn [Z.eqb Pos.eqb]. rewrite Hin, Hout. cbn [cw1 sw1 cw2 sw2].
  rewrite !Rminus_diag.
  repeat split; try exact Z;
    match goal with
    | |- Rabs ?e <= _ => replace e with 0 by ring; exact Z
    end.
Qed.

Lemma symmetric_normal_modes_witness :
  let o := _compute (mkParams 1 1 1 0.5 1 1 1 0 0) in
  let o' := _compute (mkParams 1 1 1 0.5 1 1 (- 1) 0 (- 0)) in
  Rabs (omega1 o - sqrt (1 / 1)) <= 1e-9
  /\ Rabs (omega2 o - sqrt ((1 + 2 * 0.5) / 1)) <= 1e-9
  /\ Rabs (position o 2 3 - position o 1 3) <= 1e-9
  /\ Rabs (velocity o 2 3 - velocity o 1 3) <= 1e-9
  /\ Rabs (position o' 2 3 + position o' 1 3) <= 1e-9
  /\ Rabs (velocity o' 2 3 + velocity o' 1 3) <= 1e-9.
Proof.
  apply (symmetric_normal_modes 1 1 0.5 1 0 3);
    try lra; apply Rabs_le; lra.
Defined.

Lemma square_derivative (f : R -> R) (c t l : R) :
  derivable_pt_lim f t l ->
  derivable_pt_lim (fun t => c * f t ^ 2 / 2) t (c * f t * l).
Proof.
  intros Hf.
  apply (derivable_pt_lim_ext (mult_real_fct (c / 2) (f * f)%F)).
  - intros u. unfold mult_real_fct, mult_fct. field.
  - replace (c * f t * l) with (c / 2 * (l * f t + f t * l)) by field.
    apply derivable_pt_lim_scal. apply derivable_pt_lim_mult; assumption.
Qed.

(** The derivative of the energy along the motion. *)
Lemma energy_derivative (p : params) (t : R) :
  let o := _compute p in
  derivable_pt_lim (fun t => energy p (valueAtTime o t)) t
    (velocity o 1 t
     * (m1 p * acceleration o 1 t
        - (- (k1 p + k2 p) * position o 1 t + k2 p * position o 2 t))
     + velocity o 2 t
       * (m2 p * acceleration o 2 t
          - (k2 p * position o 1 t - (k2 p + k3 p) * position o 2 t))).
Proof.
  intros o.
  destruct (motion_derivative o 1 t) as [Hx1 Hv1].
  destruct (motion_derivative o 2 t) as [Hx2 Hv2].
  unfold energy, valueAtTime. cbn [x1 v1 x2 v2].
  match goal with
  | |- derivable_pt_lim _ _ ?l =>
      replace l
        with (m1 p * velocity o 1 t * acceleration o 1 t
              + m2 p * velocity o 2 t * acceleration o 2 t
              + k1 p * position o 1 t * velocity o 1 t
              + k2 p * (position o 2 t - position o 1 t)
                * (velocity o 2 t - velocity o 1 t)
              + k3 p * position o 2 t * velocity o 2 t) by ring
  end.
  repeat apply (derivable_pt_lim_plus _ _ t).
  - apply (square_derivative (velocity o 1)). assumption.
  - apply (square_derivative (velocity o 2)). assumption.
  - apply (square_derivative (position o 1)). assumption.
  - apply (square_derivative (fun t => position o 2 t - position o 1 t)).
    apply (derivable_pt_lim_minus (position o 2) (position o 1));
      assumption.
  - apply (square_derivative (position o 2)). assumption.
Qed.

(** Over the reals, for masses [m1, m2 > 0] and spring constants
    [k1, k2, k3 >= 0] with [k2] zero or at least 1e-14, the state
    returned by [valueAtTime] has the same mechanical energy at every
    time. *)
Lemma energy_constant (p : params) (t : R) :
  0 < m1 p -> 0 < m2 p -> 0 <= k1 p -> 0 <= k2 p -> 0 <= k3 p ->
  k2 p = 0 \/ 1e-14 <= k2 p ->
  let o := _compute p in
  energy p (valueAtTime o t) = energy p (valueAtTime o 0).
Proof.
  intros Hm1 Hm2 Hk1 Hk2 Hk3 Hc o.
  set (E := fun t => energy p (valueAtTime o t)).
  assert (HE : forall c, derivable_pt_lim E c ((fun _ => 0) c)).
  { intros c.
    pose proof (energy_derivative p c) as H. cbv zeta in H. fold o in H.
    match type of H with
    | derivable_pt_lim _ _ ?l => replace l with 0 in H; [exact H|]
    end.
    destruct Hc as [Hz|Hbig].
    - destruct (uncoupled_motion p Hm1 Hm2 c Hk1 Hk3) as [M1 M2].
      { rewrite Hz, Rabs_R0. lra. }
      fold o in M1, M2. rewrite M1, M2, Hz. ring.
    - destruct (coupled_motion p Hm1 Hm2 c Hk1 Hk2 Hk3) as [M1 M2].
      { rewrite Rabs_pos_eq; assumption. }
      fold o in M1, M2. rewrite M1, M2. ring. }
  change (E t = E 0).
  destruct (Rtotal_order t 0) as [Hlt|[->|Hgt]]; [|reflexivity|].
  - destruct (MVT_cor2 E (fun _ => 0) t 0 Hlt (fun c _ => HE c))
      as (c & Hc' & _).
    lra.
  - destruct (MVT_cor2 E (fun _ => 0) 0 t Hgt (fun c _ => HE c))
      as (c & Hc' & _).
    lra.
Qed.

(** Conservation of energy: in a moderate configuration (masses and
    spring constants between 0.1 and 10, the coupling [k2] zero or
    between 0.1 and 10, initial displacements and velocities of at most
    10 in magnitude), the mechanical energy of the state returned by
    [valueAtTime] at a time [t] with [|t| <= 1e9] is within 1e-6 of the
    energy at time 0, and of the energy of the initial conditions. *)
Theorem energy_conserved :
  forall (p : params) (t : R),
    moderate p -> Rabs t <= 1e9 ->
    let o := _compute p in
    Rabs (energy p (valueAtTime o t) - energy p (valueAtTime o 0)) <= 1e-6
    /\ Rabs (energy p (valueAtTime o t)
             - energy p (mkValues (x10 p) (v10 p) (acceleration o 1 0)
                                  (x20 p) (v20 p) (acceleration o 2 0)))
       <= 1e-6.
Proof.
  intros p t [Hsys _] _ o.
  destruct (moderate_masses p Hsys) as [Hm1 Hm2].
  destruct (moderate_springs p Hsys) as (Hk1 & Hk2 & Hk3).
  assert (Hc : k2 p = 0 \/ 1e-14 <= k2 p).
  { destruct Hsys as (_ & _ & _ & [Hz|Hb] & _); [left|right]; lra. }
  pose proof (energy_constant p t Hm1 Hm2 Hk1 Hk2 Hk3 Hc) as E.
  cbv zeta in E. fold o in E.
  destruct (moderate_initial p Hsys) as (P1 & P2 & V1 & V2).
  fold o in P1, P2, V1, V2.
  assert (E0 : energy p (valueAtTime o 0)
               = energy p (mkValues (x10 p) (v10 p) (acceleration o 1 0)
                                    (x20 p) (v20 p) (acceleration o 2 0))).
  { unfold energy, valueAtTime. cbn [x1 v1 x2 v2].
    rewrite P1, P2, V1, V2. reflexivity. }
  rewrite E, <- E0.
  split; (rewrite Rminus_diag, Rabs_R0; lra).
Qed.

Lemma energy_conserved_witness :
  let p := mkParams 2 3 1.5 0.8 2 1 0.5 0 0 in
  let o := _compute p in
  Rabs (energy p (valueAtTime o 2.5) - energy p (valueAtTime o 0)) <= 1e-6
  /\ Rabs (energy p (valueAtTime o 2.5)
           - energy p (mkValues 1 0 (acceleration o 1 0)
                                0.5 0 (acceleration o 2 0)))
     <= 1e-6.
Proof.
  apply (energy_conserved (mkParams 2 3 1.5 0.8 2 1 0.5 0 0) 2.5).
  - moderate_config.
  - apply Rabs_le; lra.
Defined.

End OscillatorProperties3.

Section Continuity.

Import Oscillator.
Local Open Scope R_scope.

Lemma derivative_continuity (f f' : R -> R) :
  (forall t, derivable_pt_lim f t (f' t)) -> continuity f.
Proof.
  intros H x. apply derivable_continuous_pt. exists (f' x). apply H.
Qed.

(** The three quantities are continuous functions of the time. *)
Lemma quantity_continuous (o : oscillator) (mass : Z) (quantity : string) :
  continuity (quantity_fn o mass quantity).
Proof.
  unfold quantity_fn.
  destruct (String.eqb quantity "x");
    [|destruct (String.eqb quantity "v")].
  - apply (derivative_continuity _ (velocity o mass)).
    intros t. apply motion_derivative.
  - apply (derivative_continuity _ (acceleration o mass)).
    intros t. apply motion_derivative.
  - set (c := coeffs_of o mass). set (w1 := omega1 o). set (w2 := omega2 o).
    apply (derivative_continuity _
             (fun t => - (- cw1 c * w1 * w1) * w1 * sin (w1 * t)
                       + (- sw1 c * w1 * w1) * w1 * cos (w1 * t)
                       + - (- cw2 c * w2 * w2) * w2 * sin (w2 * t)
                       + (- sw2 c * w2 * w2) * w2 * cos (w2 * t))).
    intros t.
    apply (derivable_pt_lim_ext
             (fun t => (- cw1 c * w1 * w1) * cos (w1 * t)
                       + (- sw1 c * w1 * w1) * sin (w1 * t)
                       + (- cw2 c * w2 * w2) * cos (w2 * t)
                       + (- sw2 c * w2 * w2) * sin (w2 * t))).
    + intros u. unfold acceleration. fold c w1 w2. ring.
    + apply modes_derivative.
Qed.

End Continuity.

Section Bisection.

Import Oscillator.
Local Open Scope R_scope.

Variables (fn : R -> R) (target tol : R).
Hypothesis Hcont : continuity fn.

(** A change of sign brackets a crossing of the target. *)
Lemma crossing_between (l h : R) :
  l <= h -> (fn l - target) * (fn h - target) <= 0 ->
  exists z, l <= z <= h /\ fn z = target.
Proof.
  intros Hlh Hsign.
  destruct (IVT_cor (fun t => fn t - target) l h) as [z [Hz Ez]].
  - apply (continuity_minus fn (fct_cte target)); [assumption|].
    apply continuity_const. intros x y. reflexivity.
  - assumption.
  - assumption.
  - exists z. split; [assumption|lra].
Qed.

(** The bisection halves a bracket of a crossing 60 times, unless it
    meets a point within the tolerance before. *)
Lemma bisect_sound (l h r : R) :
  l <= h -> (fn l - target) * (fn h - target) <= 0 ->
  run (bisect_body fn target tol) 61 (mkBisection 0 l h (fn l - target))
  = Some r ->
  l <= r <= h
  /\ (Rabs (fn r - target) < tol
      \/ exists z, l <= z <= h /\ fn z = target
                   /\ Rabs (r - z) <= (h - l) / 2 ^ 61).
Proof.
  intros Hlh Hsign Hrun.
  refine (run_invariant (bisect_body fn target tol)
            (fun s => (0 <= bi s <= 60)%Z
                      /\ l <= lo s /\ lo s <= hi s /\ hi s <= h
                      /\ bPrevF s = fn (lo s) - target
                      /\ bPrevF s * (fn (hi s) - target) <= 0
                      /\ (hi s - lo s) * 2 ^ Z.to_nat (bi s) = h - l)
            (fun r => l <= r <= h
                      /\ (Rabs (fn r - target) < tol
                          \/ exists z, l <= z <= h /\ fn z = target
                                       /\ Rabs (r - z) <= (h - l) / 2 ^ 61))
            _ _ 61 _ r _ Hrun).
  - intros s s' (Hbi & H1 & H2 & H3 & Hpf & Hsg & Hw). unfold bisect_body.
    destruct (Z.ltb_spec (bi s) 60) as [Hit|]; [|discriminate].
    destruct (Rltb _ tol); [discriminate|].
    assert (Hpow : 2 ^ Z.to_nat (bi s + 1) = 2 * 2 ^ Z.to_nat (bi s)).
    { rewrite Z2Nat.inj_add by lia. rewrite Nat.add_comm. reflexivity. }
    destruct (Rleb_spec (bPrevF s * (fn ((lo s + hi s) / 2) - target)) 0)
      as [Hle|Hgt]; intros [= <-]; cbn [bi lo hi bPrevF]; rewrite Hpow.
    + repeat apply conj; try lia; lra.
    + repeat apply conj; try lia; try lra.
      apply Rnot_le_lt in Hgt.
        set (pf := bPrevF s) in *.
        set (mf := fn ((lo s + hi s) / 2) - target) in *.
        set (hf := fn (hi s) - target) in *.
        assert (Hp : 0 < pf * pf) by nra.
        assert (Hq : (pf * pf) * (mf * hf) <= 0).
        { replace (pf * pf * (mf * hf)) with ((pf * mf) * (pf * hf)) by ring.
          nra. }
        nra.
  - intros s r0 (Hbi & H1 & H2 & H3 & Hpf & Hsg & Hw). unfold bisect_body.
    destruct (Z.ltb_spec (bi s) 60) as [Hit|Hcap].
    + destruct (Rltb_spec (Rabs (fn ((lo s + hi s) / 2) - target)) tol)
        as [Hhit|_].
      * intros [= <-]. split; [lra|]. left. assumption.
      * destruct (Rleb _ 0); discriminate.
    + intros [= <-]. split; [lra|]. right.
      rewrite Hpf in Hsg.
      destruct (crossing_between (lo s) (hi s) H2 Hsg) as (z & Hz & Ez).
      exists z. split; [lra|]. split; [assumption|].
      assert (E60 : bi s = 60%Z) by lia. rewrite E60 in Hw.
      change (Z.to_nat 60) with 60%nat in Hw.
      assert (Hp : 0 < 2 ^ 60) by (apply pow_lt; lra).
      replace (2 ^ 61) with (2 * 2 ^ 60) by reflexivity.
      rewrite <- Hw.
      replace ((hi s - lo s) * 2 ^ 60 / (2 * 2 ^ 60))
        with ((hi s - lo s) / 2) by (field; lra).
      apply Rabs_le. lra.
  - cbn [bi lo hi bPrevF]. repeat apply conj; try lia; try lra.
    change (Z.to_nat 0) with 0%nat. cbn [pow]. ring.
Qed.

End Bisection.

Section ScanFound.

Import Oscillator.
Local Open Scope R_scope.

Variables (fn : R -> R) (target tMin tMax dt tol : R).
Hypothesis Hcont : continuity fn.
Hypothesis Hdt : 0 < dt.
Hypothesis Hwin : tMin <= tMax.

Abbreviation body := (scan_body fn target tMax dt tol).
Abbreviation sample_at := (sample tMin tMax dt).
Abbreviation is_scanned := (scanned tMin tMax dt).
Abbreviation is_calm := (calm fn target tMin tMax dt tol).

(** Two consecutive samples are at most [dt] apart. *)
Lemma sample_step (n : nat) : sample_at (S n) - sample_at n <= dt.
Proof.
  unfold sample. rewrite S_INR.
  unfold Rmin.
  destruct (Rle_dec (tMin + (INR n + 1) * dt) tMax),
           (Rle_dec (tMin + INR n * dt) tMax); nra.
Qed.

(** What the scan has met when it returns a time: the first sample
    after the [k]-th one that is not calm. *)
Lemma scan_found (fuel : nat) :
  forall (k : nat) (s : scan) (t : R),
    st s = tMin + INR (S k) * dt ->
    prevT s = sample_at k ->
    prevF s = fn (sample_at k) - target ->
    k = O \/ tMin + INR k * dt < tMax ->
    run body fuel s = Some (Time t) ->
    exists n,
      (k < n)%nat /\ is_scanned n
      /\ (forall j, (k < j < n)%nat -> is_calm j)
      /\ sample_at (pred n) <= t <= sample_at n
      /\ (Rabs (fn t - target) < tol
          \/ exists z, sample_at (pred n) <= z <= sample_at n
                       /\ fn z = target
                       /\ Rabs (t - z) <= dt / 2 ^ 61).
Proof.
  induction fuel as [|fuel IH]; intros k s t Hst HpT HpF Hk Hrun;
    [discriminate|].
  cbn [run] in Hrun. unfold scan_body at 1 in Hrun.
  destruct (Rleb_spec (st s) (tMax + dt * 0.5)) as [Hcond|Hcond];
    [|discriminate].
  assert (HcurT : Rmin (st s) tMax = sample_at (S k)).
  { unfold sample. rewrite Hst. reflexivity. }
  rewrite HcurT in Hrun.
  assert (Hsc : is_scanned (S k)).
  { right. cbn [pred]. rewrite <- Hst. split; [assumption|].
    destruct Hk as [->|Hk]; [|assumption].
    rewrite Hst in Hcond. cbn [INR] in *. lra. }
  pose proof (sample_mono tMin tMax dt Hdt k) as Hmono.
  destruct (Rltb_spec (Rabs (fn (sample_at (S k)) - target)) tol)
    as [Hhit|Hmiss].
  { injection Hrun as <-. exists (S k). cbn [pred].
    split; [lia|]. split; [assumption|]. split; [intros j Hj; lia|].
    split; [lra|]. left. assumption. }
  destruct (Rltb_spec (prevF s * (fn (sample_at (S k)) - target)) 0)
    as [Hsign|Hsame].
  { destruct (run (bisect_body fn target tol) 61 _) as [r0|] eqn:Hbis;
      [|discriminate].
    cbn [bind] in Hrun. injection Hrun as <-.
    rewrite HpT, HpF in Hbis. rewrite HpF in Hsign.
    destruct (bisect_sound fn target tol Hcont _ _ _ Hmono
                (Rlt_le _ _ Hsign) Hbis) as (Hr & Hroot).
    exists (S k). cbn [pred].
    split; [lia|]. split; [assumption|]. split; [intros j Hj; lia|].
    split; [assumption|].
    destruct Hroot as [Hhit|(z & Hz & Ez & Hnear)]; [left; assumption|].
    right. exists z. split; [assumption|]. split; [assumption|].
    eapply Rle_trans; [exact Hnear|].
    pose proof (sample_step k) as Hstep.
    assert (Hp : 0 < / 2 ^ 61) by (apply Rinv_0_lt_compat, pow_lt; lra).
    unfold Rdiv. apply Rmult_le_compat_r; lra. }
  assert (Hcalm : is_calm (S k)).
  { split; [apply Rnot_lt_le; assumption|]. cbn [pred].
    rewrite <- HpF. apply Rnot_lt_le. assumption. }
  destruct (Rleb_spec tMax (sample_at (S k))) as [Hend|Hgo];
    [discriminate|].
  assert (Hlt : st s < tMax).
  { apply Rnot_le_lt in Hgo. rewrite <- HcurT in Hgo.
    unfold Rmin in Hgo. destruct (Rle_dec (st s) tMax); lra. }
  assert (Hnext : exists n,
             (S k < n)%nat /\ is_scanned n
             /\ (forall j, (S k < j < n)%nat -> is_calm j)
             /\ sample_at (pred n) <= t <= sample_at n
             /\ (Rabs (fn t - target) < tol
                 \/ exists z, sample_at (pred n) <= z <= sample_at n
                              /\ fn z = target
                              /\ Rabs (t - z) <= dt / 2 ^ 61)).
  { apply (IH (S k) _ t) with (5 := Hrun); cbn [st prevT prevF].
    - rewrite Hst, !S_INR. ring.
    - reflexivity.
    - reflexivity.
    - right. rewrite <- Hst. assumption. }
  destruct Hnext as (n & Hn & Hscn & Hcalms & Hrest).
  exists n. split; [lia|]. split; [assumption|]. split; [|assumption].
  intros j Hj.
  destruct (Nat.eq_dec j (S k)) as [->|Hne]; [assumption|].
  apply Hcalms. lia.
Qed.

End ScanFound.

Section FirstTimeToFound.

Import Oscillator.
Local Open Scope R_scope.
Local Open Scope string_scope.

(** Over the reals: a time returned by [firstTimeTo], for [dt > 0] and
    [tMin <= tMax], is [tMin] when the quantity is within the tolerance
    of the target there; otherwise it lies between the samples [n - 1]
    and [n], where [n] is the first sample at which the quantity is
    within the tolerance or has changed sign, and there the quantity is
    within the tolerance of the target at the returned time, or it
    equals the target at a time no further than [dt / 2^61] from it. *)
Lemma firstTimeTo_returned :
  forall (fuel : nat) (o : oscillator) (mass : Z) (quantity : string)
         (target : R) (opts : options) (t : R),
    let tMin := or_default 0 (tMin opts) in
    let tMax := or_default 100 (tMax opts) in
    let dt := or_default 0.01 (dt opts) in
    let tol := or_default 1e-9 (tolerance opts) in
    let fn := quantity_fn o mass quantity in
    0 < dt -> tMin <= tMax ->
    firstTimeTo fuel o mass quantity target opts = Some (Time t) ->
    (t = tMin /\ Rabs (fn tMin - target) < tol)
    \/ (tol <= Rabs (fn tMin - target)
        /\ exists n,
            (1 <= n)%nat /\ scanned tMin tMax dt n
            /\ (forall j, (1 <= j < n)%nat ->
                          calm fn target tMin tMax dt tol j)
            /\ sample tMin tMax dt (pred n) <= t <= sample tMin tMax dt n
            /\ (Rabs (fn t - target) < tol
                \/ exists z,
                    sample tMin tMax dt (pred n) <= z
                    <= sample tMin tMax dt n
                    /\ fn z = target
                    /\ Rabs (t - z) <= dt / 2 ^ 61)).
Proof.
  intros fuel o mass quantity target opts t tMin0 tMax0 dt0 tol0 fn
         Hdt Hwin.
  unfold firstTimeTo.
  fold tMin0 tMax0 dt0 tol0 fn.
  destruct (Rltb_spec (Rabs (fn tMin0 - target)) tol0) as [Hhit|Hmiss].
  - intros [= <-]. left. split; [reflexivity|assumption].
  - intros Hrun. right. split; [lra|].
    destruct (scan_found fn target tMin0 tMax0 dt0 tol0
                (quantity_continuous o mass quantity) Hdt
                fuel O (mkScan (tMin0 + dt0) tMin0 (fn tMin0 - target)) t)
      as (n & Hn & Hsc & Hcalm & Hrest);
      cbn [st prevT prevF].
    + cbn [INR]. ring.
    + symmetry. apply sample_0. assumption.
    + rewrite sample_0 by assumption. reflexivity.
    + left. reflexivity.
    + exact Hrun.
    + exists n. split; [lia|]. split; [assumption|].
      split; [|assumption].
      intros j Hj. apply Hcalm. lia.
Qed.


(** [cos 1 <= 13/24]. *)
Lemma cos_1_bound : cos 1 <= 13 / 24.
Proof.
  pose proof PI_gt_3 as H3.
  destruct (cos_bound 1 0) as [_ Hup]; [lra|lra|].
  unfold cos_approx, cos_term in Hup.
  cbn [Nat.mul Nat.add sum_f_R0 pow fact INR] in Hup.
  lra.
Qed.


End FirstTimeToFound.
(* ================================================================== *)
(** * physics.js: the solver and the search *)

Lemma Reqb_spec (a b : R) : reflect (a = b) (Reqb a b).
Proof. unfold Reqb. destruct (Req_dec_T a b); constructor; assumption. Qed.

Section Eigenvector.

Local Open Scope R_scope.

(** [eigenvector] on a root of the characteristic polynomial. *)
Lemma eigenvector_exact (a11 a12 a21 a22 lambda : R) :
  (lambda * lambda - (a11 + a22) * lambda + (a11 * a22 - a12 * a21) = 0)%R ->
  (1e-12 < Rabs a12 \/ 1e-12 < Rabs a21 \/ (a12 = 0 /\ a21 = 0))%R ->
  let phi := Physics.eigenvector a11 a12 a21 a22 lambda in
  eigen a11 a12 a21 a22 lambda phi /\ phi <> (0%R, 0%R).
Proof.
  intros Hroot Hc. unfold Physics.eigenvector, eigen.
  destruct (Rltb_spec 1e-12 (Rabs a12)) as [H12|H12].
  { cbn [fst snd]. split; [split; nra|].
    intros E. apply (f_equal fst) in E. cbn [fst] in E.
    rewrite E, Rabs_R0 in H12. lra. }
  destruct (Rltb_spec 1e-12 (Rabs a21)) as [H21|H21].
  { cbn [fst snd]. split; [split; nra|].
    intros E. apply (f_equal snd) in E. cbn [snd] in E.
    rewrite E, Rabs_R0 in H21. lra. }
  destruct Hc as [Hc|[Hc|[E12 E21]]]; [lra|lra|].
  rewrite E12, E21 in *.
  assert (Hcase : lambda = a11 \/ lambda = a22) by nra.
  destruct (Rleb_spec (Rabs (lambda - a11)) (Rabs (lambda - a22)))
    as [Hle|Hgt]; cbn [fst snd].
  - split; [|intros E; apply (f_equal fst) in E; cbn [fst] in E; lra].
    destruct Hcase as [->| ->]; [split; ring|].
    replace (a22 - a22) with 0 in Hle by ring. rewrite Rabs_R0 in Hle.
    pose proof (Rabs_pos (a22 - a11)) as Hp.
    assert (E : Rabs (a22 - a11) = 0) by lra.
    destruct (Req_dec (a22 - a11) 0) as [E0|E0].
    + assert (a22 = a11) by lra. split; nra.
    + apply Rabs_no_R0 in E0. contradiction.
  - split; [|intros E; apply (f_equal snd) in E; cbn [snd] in E; lra].
    destruct Hcase as [->| ->]; [|split; ring].
    replace (a11 - a11) with 0 in Hgt by ring. rewrite Rabs_R0 in Hgt.
    pose proof (Rabs_pos (a11 - a22)). lra.
Qed.


End Eigenvector.

(** * The modal analysis of [Physics.solve] *)

Section Modal.

Local Open Scope R_scope.

(** The masses and a symmetric stiffness matrix. *)
Variables (m1 m2 K00 K01 K11 : R).
Hypothesis Hm1 : 0 < m1.
Hypothesis Hm2 : 0 < m2.

Let a11 := K00 / m1.
Let a12 := K01 / m1.
Let a21 := K01 / m2.
Let a22 := K11 / m2.
Let tr := a11 + a22.
Let det := a11 * a22 - a12 * a21.
Let disc := tr * tr - 4 * det.
Let sqD := sqrt (Rmax 0 disc).
Let lam1 := Rmax 0 ((tr - sqD) / 2).
Let lam2 := Rmax 0 ((tr + sqD) / 2).

Lemma coupling_nonneg : 0 <= a12 * a21.
Proof.
  unfold a12, a21.
  replace (K01 / m1 * (K01 / m2)) with (K01 * K01 * (/ m1 * / m2))
    by (field; lra).
  apply Rmult_le_pos; [nra|].
  apply Rmult_le_pos; apply Rlt_le, Rinv_0_lt_compat; assumption.
Qed.

Lemma modal_disc : disc = (a11 - a22) ^ 2 + 4 * (a12 * a21).
Proof. unfold disc, tr, det. ring. Qed.

Lemma modal_disc_nonneg : 0 <= disc.
Proof.
  rewrite modal_disc. pose proof coupling_nonneg.
  pose proof (pow2_ge_0 (a11 - a22)). lra.
Qed.

Lemma sqD_sqr : sqD * sqD = disc.
Proof.
  unfold sqD. rewrite Rmax_right by apply modal_disc_nonneg.
  apply sqrt_sqrt. apply modal_disc_nonneg.
Qed.

Lemma sqD_nonneg : 0 <= sqD.
Proof. apply sqrt_pos. Qed.

(** [sqD] is at least the difference of the diagonal entries. *)
Lemma sqD_diagonal : a11 - a22 <= sqD /\ a22 - a11 <= sqD.
Proof.
  pose proof sqD_sqr as Hs. pose proof sqD_nonneg as Hn.
  pose proof coupling_nonneg as Hc. rewrite modal_disc in Hs.
  split; nra.
Qed.

Hypothesis HK00 : 0 <= K00.
Hypothesis HK11 : 0 <= K11.
Hypothesis Hdet : K01 * K01 <= K00 * K11.

Lemma modal_tr_nonneg : 0 <= tr.
Proof.
  unfold tr, a11, a22.
  apply Rplus_le_le_0_compat; apply Rmult_le_pos;
    try assumption; apply Rlt_le, Rinv_0_lt_compat; assumption.
Qed.

Lemma modal_det_nonneg : 0 <= det.
Proof.
  unfold det, a11, a12, a21, a22.
  replace (K00 / m1 * (K11 / m2) - K01 / m1 * (K01 / m2))
    with ((K00 * K11 - K01 * K01) * (/ m1 * / m2)) by (field; lra).
  apply Rmult_le_pos; [lra|].
  apply Rmult_le_pos; apply Rlt_le, Rinv_0_lt_compat; assumption.
Qed.

(** The eigenvalues are not clamped. *)
Lemma modal_lam1 : lam1 = (tr - sqD) / 2.
Proof.
  unfold lam1. apply Rmax_right.
  pose proof sqD_sqr as Hs. pose proof sqD_nonneg as Hn.
  pose proof modal_tr_nonneg as Ht. pose proof modal_det_nonneg as Hd.
  unfold disc in Hs. nra.
Qed.

Lemma modal_lam2 : lam2 = (tr + sqD) / 2.
Proof.
  unfold lam2. apply Rmax_right.
  pose proof sqD_nonneg. pose proof modal_tr_nonneg. lra.
Qed.

Lemma modal_lam1_nonneg : 0 <= lam1.
Proof. unfold lam1. apply Rmax_l. Qed.

Lemma modal_lam2_nonneg : 0 <= lam2.
Proof. unfold lam2. apply Rmax_l. Qed.

(** Both are roots of the characteristic polynomial. *)
Lemma modal_root1 : lam1 * lam1 - tr * lam1 + det = 0.
Proof.
  rewrite modal_lam1. pose proof sqD_sqr as Hs. unfold disc in Hs. nra.
Qed.

Lemma modal_root2 : lam2 * lam2 - tr * lam2 + det = 0.
Proof.
  rewrite modal_lam2. pose proof sqD_sqr as Hs. unfold disc in Hs. nra.
Qed.

Lemma modal_sum : lam1 + lam2 = tr.
Proof. rewrite modal_lam1, modal_lam2. field. Qed.

Lemma modal_product : lam1 * lam2 = det.
Proof.
  rewrite modal_lam1, modal_lam2. pose proof sqD_sqr as Hs.
  unfold disc in Hs. nra.
Qed.

Lemma modal_gap : lam2 - lam1 = sqD.
Proof. rewrite modal_lam1, modal_lam2. field. Qed.

(** [eigenvector] returns an eigenvector for a root [lambda] of the
    characteristic polynomial, when an off-diagonal entry exceeds the
    threshold or the matrix is diagonal. *)
Lemma eigenvector_eigen (lambda : R) :
  lambda * lambda - tr * lambda + det = 0 ->
  K01 = 0 \/ 1e-12 < Rabs a12 \/ 1e-12 < Rabs a21 ->
  let phi := Physics.eigenvector a11 a12 a21 a22 lambda in
  eigen a11 a12 a21 a22 lambda phi /\ phi <> (0, 0).
Proof.
  intros Hroot Hc. apply eigenvector_exact; [exact Hroot|].
  destruct Hc as [Hz|[Hc|Hc]]; [|tauto|tauto].
  right. right. unfold a12, a21. rewrite Hz. split; field; lra.
Qed.

Lemma is_zero_false (phi : R * R) :
  phi <> (0, 0) -> Physics.is_zero phi = false.
Proof.
  intros H. unfold Physics.is_zero. destruct phi as [x y]. cbn [fst snd].
  destruct (Reqb_spec x 0) as [->|]; [|reflexivity].
  destruct (Reqb_spec y 0) as [->|]; [|reflexivity].
  contradiction.
Qed.

Hypothesis HK01 : K01 <= 0.
Hypothesis Hratio1 : m1 <= 1e18 * m2.
Hypothesis Hratio2 : m2 <= 1e18 * m1.

Lemma a12_nonpos : a12 <= 0.
Proof.
  unfold a12. assert (0 < / m1) by (apply Rinv_0_lt_compat; assumption).
  unfold Rdiv. nra.
Qed.

Lemma a21_nonpos : a21 <= 0.
Proof.
  unfold a21. assert (0 < / m2) by (apply Rinv_0_lt_compat; assumption).
  unfold Rdiv. nra.
Qed.

Lemma coupling_ratio : - a21 <= 1e18 * - a12 /\ - a12 <= 1e18 * - a21.
Proof.
  unfold a12, a21.
  assert (H1 : 0 < / m1) by (apply Rinv_0_lt_compat; assumption).
  assert (H2 : 0 < / m2) by (apply Rinv_0_lt_compat; assumption).
  assert (E1 : / m2 <= 1e18 * / m1).
  { apply (Rmult_le_reg_r (m1 * m2)); [nra|].
    replace (/ m2 * (m1 * m2)) with m1 by (field; lra).
    replace (1e18 * / m1 * (m1 * m2)) with (1e18 * m2) by (field; lra).
    assumption. }
  assert (E2 : / m1 <= 1e18 * / m2).
  { apply (Rmult_le_reg_r (m1 * m2)); [nra|].
    replace (/ m1 * (m1 * m2)) with m2 by (field; lra).
    replace (1e18 * / m2 * (m1 * m2)) with (1e18 * m1) by (field; lra).
    assumption. }
  unfold Rdiv. split; nra.
Qed.

(** The gap of the eigenvalues against the off-diagonal entries. *)
Lemma sqD_coupling : 2e-9 * - a12 <= sqD /\ 2e-9 * - a21 <= sqD.
Proof.
  pose proof sqD_sqr as Hs. rewrite modal_disc in Hs.
  pose proof sqD_nonneg as Hn.
  pose proof a12_nonpos as H12. pose proof a21_nonpos as H21.
  destruct coupling_ratio as [R1 R2].
  pose proof (pow2_ge_0 (a11 - a22)) as Hsq.
  assert (Huv : 0 <= a12 * a21) by nra.
  assert (H1 : 4e-18 * (a12 * a12) <= sqD * sqD) by nra.
  assert (H2 : 4e-18 * (a21 * a21) <= sqD * sqD) by nra.
  split.
  - destruct (Rle_dec (2e-9 * - a12) sqD) as [|Hn1]; [assumption|exfalso].
    apply Rnot_le_lt in Hn1.
    assert (sqD * sqD < (2e-9 * - a12) * (2e-9 * - a12)) by nra.
    nra.
  - destruct (Rle_dec (2e-9 * - a21) sqD) as [|Hn1]; [assumption|exfalso].
    apply Rnot_le_lt in Hn1.
    assert (sqD * sqD < (2e-9 * - a21) * (2e-9 * - a21)) by nra.
    nra.
Qed.


Lemma modal_below : 0 <= a11 - lam1 /\ 0 <= a22 - lam1.
Proof. rewrite modal_lam1. unfold tr. destruct sqD_diagonal. lra. Qed.

Lemma modal_above : 0 <= lam2 - a11 /\ 0 <= lam2 - a22.
Proof. rewrite modal_lam2. unfold tr. destruct sqD_diagonal. lra. Qed.

Lemma modal_cross1 : (a11 - lam1) * (lam2 - a11) = a12 * a21.
Proof.
  pose proof modal_sum as Hs. pose proof modal_product as Hp.
  unfold tr, det in *. nra.
Qed.

Lemma modal_cross2 : (a22 - lam1) * (lam2 - a22) = a12 * a21.
Proof.
  pose proof modal_sum as Hs. pose proof modal_product as Hp.
  unfold tr, det in *. nra.
Qed.

Lemma mass_weighted : a12 * m1 = a21 * m2.
Proof. unfold a12, a21. field. lra. Qed.

(** Two eigenvectors of distinct slots are not taken for parallel when
    an off-diagonal entry exceeds the threshold. *)
Lemma not_parallel_upper :
  1e-12 < Rabs a12 ->
  Physics.parallel (a12, lam1 - a11) (a12, lam2 - a11) = false.
Proof.
  intros H12.
  pose proof a12_nonpos as Hn12. pose proof a21_nonpos as Hn21.
  destruct modal_below as [HP _]. destruct modal_above as [HQ _].
  pose proof modal_cross1 as HPQ. pose proof modal_gap as Hgap.
  destruct sqD_coupling as [G1 G2]. pose proof sqD_nonneg as Hs.
  rewrite Rabs_left1 in H12 by assumption.
  unfold Physics.parallel. cbn [fst snd].
  rewrite (Rabs_left1 a12) by assumption.
  rewrite (Rabs_left1 (lam1 - a11)) by lra.
  rewrite (Rabs_pos_eq (lam2 - a11)) by lra.
  replace (a12 * (lam2 - a11) - (lam1 - a11) * a12) with (a12 * sqD)
    by (rewrite <- Hgap; ring).
  rewrite (Rabs_left1 (a12 * sqD)) by nra.
  assert (Hscale : (- a12 + - (lam1 - a11)) * (- a12 + (lam2 - a11))
                   = - a12 * (- a12 + sqD - a21)).
  { rewrite <- Hgap. nra. }
  rewrite Hscale.
  rewrite Rltb_false by nra.
  rewrite Rltb_false; [reflexivity|].
  assert (1e-10 * (- a12 + sqD - a21) <= sqD) by lra.
  nra.
Qed.

Lemma not_parallel_lower :
  1e-12 < Rabs a21 ->
  Physics.parallel (lam1 - a22, a21) (lam2 - a22, a21) = false.
Proof.
  intros H21.
  pose proof a12_nonpos as Hn12. pose proof a21_nonpos as Hn21.
  destruct modal_below as [_ HP]. destruct modal_above as [_ HQ].
  pose proof modal_cross2 as HPQ. pose proof modal_gap as Hgap.
  destruct sqD_coupling as [G1 G2]. pose proof sqD_nonneg as Hs.
  rewrite Rabs_left1 in H21 by assumption.
  unfold Physics.parallel. cbn [fst snd].
  rewrite (Rabs_left1 a21) by assumption.
  rewrite (Rabs_left1 (lam1 - a22)) by lra.
  rewrite (Rabs_pos_eq (lam2 - a22)) by lra.
  replace ((lam1 - a22) * a21 - a21 * (lam2 - a22)) with (- a21 * sqD)
    by (rewrite <- Hgap; ring).
  rewrite (Rabs_pos_eq (- a21 * sqD)) by nra.
  assert (Hscale : (- (lam1 - a22) + - a21) * (lam2 - a22 + - a21)
                   = - a21 * (- a12 + sqD - a21)).
  { rewrite <- Hgap. nra. }
  rewrite Hscale.
  rewrite Rltb_false by nra.
  rewrite Rltb_false; [reflexivity|].
  assert (1e-10 * (- a12 + sqD - a21) <= sqD) by lra.
  nra.
Qed.

(** The eigenvectors that [solve] works with: each one solves its
    eigenvalue equation, none is zero, and the two are orthogonal with
    respect to the masses. *)
Lemma eigenvectors_exact :
  K01 = 0 \/ 1e-12 < Rabs a12 \/ 1e-12 < Rabs a21 ->
  forall phi1 phi2,
    Physics.eigenvectors a11 a12 a21 a22 lam1 lam2 = (phi1, phi2) ->
    eigen a11 a12 a21 a22 lam1 phi1 /\ eigen a11 a12 a21 a22 lam2 phi2
    /\ phi1 <> (0, 0) /\ phi2 <> (0, 0)
    /\ fst phi1 * fst phi2 * m1 + snd phi1 * snd phi2 * m2 = 0.
Proof.
  intros Hc phi1 phi2. unfold Physics.eigenvectors.
  destruct (eigenvector_eigen lam1 modal_root1 Hc) as [He1 Hz1].
  destruct (eigenvector_eigen lam2 modal_root2 Hc) as [He2 Hz2].
  rewrite (is_zero_false _ Hz1), (is_zero_false _ Hz2).
  pose proof mass_weighted as Hmw.
  revert He1 He2 Hz1 Hz2. unfold Physics.eigenvector.
  destruct (Rltb_spec 1e-12 (Rabs a12)) as [H12|H12].
  { rewrite (not_parallel_upper H12). intros He1 He2 Hz1 Hz2 [= <- <-].
    repeat (split; [assumption|]). cbn [fst snd].
    transitivity (a12 * (a12 * m1) - (a11 - lam1) * (lam2 - a11) * m2);
      [ring|].
    rewrite modal_cross1, Hmw. ring. }
  destruct (Rltb_spec 1e-12 (Rabs a21)) as [H21|H21].
  { rewrite (not_parallel_lower H21). intros He1 He2 Hz1 Hz2 [= <- <-].
    repeat (split; [assumption|]). cbn [fst snd].
    transitivity (a21 * (a21 * m2) - (a22 - lam1) * (lam2 - a22) * m1);
      [ring|].
    rewrite modal_cross2, <- Hmw. ring. }
  destruct Hc as [Hz|[Hc|Hc]]; [|lra|lra].
  assert (E12 : a12 = 0) by (unfold a12; rewrite Hz; field; lra).
  assert (E21 : a21 = 0) by (unfold a21; rewrite Hz; field; lra).
  destruct modal_below as [B1 B2]. destruct modal_above as [A1 A2].
  pose proof modal_cross1 as C1. pose proof modal_cross2 as C2.
  rewrite E12, E21 in C1, C2.
  destruct (Rleb_spec (Rabs (lam1 - a11)) (Rabs (lam1 - a22))) as [L1|L1];
    destruct (Rleb_spec (Rabs (lam2 - a11)) (Rabs (lam2 - a22))) as [L2|L2];
    unfold Physics.parallel, Physics.is_zero; cbn [fst snd];
    rewrite ?Rabs_R0, ?Rabs_R1, ?Ropp_0, ?Rabs_Ropp.
  - (* both (1, 0) *)
    replace (1 * 0 - 0 * 1) with 0 by ring. rewrite Rabs_R0.
    rewrite (Rltb_false _ 1e-24) by lra.
    rewrite (Rltb_true 0) by lra. cbn [orb].
    destruct (Reqb_spec 0 0) as [_|]; [|contradiction].
    destruct (Reqb_spec 1 0) as [|_]; [lra|]. cbn [andb].
    intros He1 He2 Hz1 Hz2 [= <- <-]. cbn [fst snd].
    split; [assumption|].
    split.
    { unfold eigen in *. cbn [fst snd] in *. rewrite E12, E21 in *.
      rewrite (Rabs_left1 (lam1 - a11)), (Rabs_left1 (lam1 - a22)) in L1
        by lra.
      rewrite (Rabs_pos_eq (lam2 - a11)), (Rabs_pos_eq (lam2 - a22)) in L2
        by lra.
      split; nra. }
    split; [assumption|].
    split; [intros E; apply (f_equal snd) in E; cbn [snd] in E; lra|].
    ring.
  - (* (1, 0) and (0, 1) *)
    replace (1 * 1 - 0 * 0) with 1 by ring. rewrite Rabs_R1.
    rewrite !Rltb_false by lra. cbn [orb].
    intros He1 He2 Hz1 Hz2 [= <- <-]. cbn [fst snd].
    repeat (split; [assumption|]). ring.
  - (* (0, 1) and (1, 0) *)
    replace (0 * 0 - 1 * 1) with (- (1)) by ring.
    rewrite Rabs_Ropp, Rabs_R1.
    rewrite !Rltb_false by lra. cbn [orb].
    intros He1 He2 Hz1 Hz2 [= <- <-]. cbn [fst snd].
    repeat (split; [assumption|]). ring.
  - (* both (0, 1) *)
    exfalso.
    rewrite (Rabs_left1 (lam1 - a11)), (Rabs_left1 (lam1 - a22)) in L1
      by lra.
    rewrite (Rabs_pos_eq (lam2 - a11)), (Rabs_pos_eq (lam2 - a22)) in L2
      by lra.
    pose proof modal_gap. pose proof sqD_nonneg. nra.
Qed.

End Modal.

Section Projection.

Local Open Scope R_scope.

(** The expansion of a vector in a basis that is orthogonal with respect
    to the masses. *)
Lemma modal_projection (m1 m2 : R) (phi1 phi2 : R * R) (x y : R) :
  0 < m1 -> 0 < m2 -> phi1 <> (0, 0) -> phi2 <> (0, 0) ->
  fst phi1 * fst phi2 * m1 + snd phi1 * snd phi2 * m2 = 0 ->
  let norm1 := fst phi1 * fst phi1 * m1 + snd phi1 * snd phi1 * m2 in
  let norm2 := fst phi2 * fst phi2 * m1 + snd phi2 * snd phi2 * m2 in
  let A1 := (fst phi1 * m1 * x + snd phi1 * m2 * y) / norm1 in
  let A2 := (fst phi2 * m1 * x + snd phi2 * m2 * y) / norm2 in
  0 < norm1 /\ 0 < norm2
  /\ A1 * fst phi1 + A2 * fst phi2 = x
  /\ A1 * snd phi1 + A2 * snd phi2 = y.
Proof.
  destruct phi1 as [u0 u1], phi2 as [v0 v1].
  intros Hm1 Hm2 Hu Hv Horth norm1 norm2 A1 A2.
  cbn [fst snd] in *.
  assert (Hn1 : 0 < norm1).
  { unfold norm1.
    destruct (Req_dec u0 0) as [E0|E0].
    - destruct (Req_dec u1 0) as [E1|E1]; [subst; contradiction|].
      assert (0 < u1 * u1) by nra. nra.
    - assert (0 < u0 * u0) by nra. nra. }
  assert (Hn2 : 0 < norm2).
  { unfold norm2.
    destruct (Req_dec v0 0) as [E0|E0].
    - destruct (Req_dec v1 0) as [E1|E1]; [subst; contradiction|].
      assert (0 < v1 * v1) by nra. nra.
    - assert (0 < v0 * v0) by nra. nra. }
  split; [assumption|]. split; [assumption|].
  pose proof Hn1 as Hn1'. pose proof Hn2 as Hn2'.
  unfold norm1 in Hn1'. unfold norm2 in Hn2'.
  set (O := u0 * v0 * m1 + u1 * v1 * m2) in *.
  split.
  - assert (E : A1 * u0 + A2 * v0 - x
                = ((u0 * v0 * m1 - u1 * v1 * m2) * x
                   + m2 * (u1 * v0 + u0 * v1) * y) * O
                  / (norm1 * norm2)).
    { unfold A1, A2, O, norm1, norm2. field. split; lra. }
    rewrite Horth in E. unfold Rdiv in E. rewrite Rmult_0_r, Rmult_0_l in E.
    lra.
  - assert (E : A1 * u1 + A2 * v1 - y
                = (m1 * (u1 * v0 + u0 * v1) * x
                   - (u0 * v0 * m1 - u1 * v1 * m2) * y) * O
                  / (norm1 * norm2)).
    { unfold A1, A2, O, norm1, norm2. field. split; lra. }
    rewrite Horth in E. unfold Rdiv in E. rewrite Rmult_0_r, Rmult_0_l in E.
    lra.
Qed.

End Projection.

Section SolveFacts.

Local Open Scope R_scope.

Variable p : Physics.params.
Variable K11 : R.

Abbreviation m1 := (Physics.m1 p).
Abbreviation m2 := (Physics.m2 p).
Abbreviation K00 := (Physics.k1 p + Physics.k2 p).
Abbreviation K01 := (- Physics.k2 p).

Hypothesis Hstiff : Physics.stiffness p = (K00, K01, K01, K11).

Let r := Physics.solve p.
Let w1 := Physics.omega1 r.
Let w2 := Physics.omega2 r.
Let u := Physics.phi1 r.
Let v := Physics.phi2 r.

(** The functions of a solution, by its frequencies, eigenvectors and
    amplitudes. *)
Lemma solve_functions :
  Physics.x1 r
  = Physics.make w1 w2 (Physics.A1 r * fst u) (Physics.B1 r * fst u)
                 (Physics.A2 r * fst v) (Physics.B2 r * fst v)
  /\ Physics.x2 r
     = Physics.make w1 w2 (Physics.A1 r * snd u) (Physics.B1 r * snd u)
                    (Physics.A2 r * snd v) (Physics.B2 r * snd v)
  /\ Physics.v1 r
     = Physics.make w1 w2 (Physics.B1 r * fst u * w1)
                    (- Physics.A1 r * fst u * w1)
                    (Physics.B2 r * fst v * w2)
                    (- Physics.A2 r * fst v * w2)
  /\ Physics.v2 r
     = Physics.make w1 w2 (Physics.B1 r * snd u * w1)
                    (- Physics.A1 r * snd u * w1)
                    (Physics.B2 r * snd v * w2)
                    (- Physics.A2 r * snd v * w2)
  /\ Physics.a1 r
     = Physics.make w1 w2 (- Physics.A1 r * fst u * (w1 * w1))
                    (- Physics.B1 r * fst u * (w1 * w1))
                    (- Physics.A2 r * fst v * (w2 * w2))
                    (- Physics.B2 r * fst v * (w2 * w2))
  /\ Physics.a2 r
     = Physics.make w1 w2 (- Physics.A1 r * snd u * (w1 * w1))
                    (- Physics.B1 r * snd u * (w1 * w1))
                    (- Physics.A2 r * snd v * (w2 * w2))
                    (- Physics.B2 r * snd v * (w2 * w2)).
Proof.
  clear Hstiff.
  unfold w1, w2, u, v, r, Physics.solve.
  destruct (Physics.stiffness p) as [[[k00 k01] k10] k11].
  destruct (Physics.eigenvectors _ _ _ _ _ _) as [f1 f2].
  cbn [Physics.x1 Physics.x2 Physics.v1 Physics.v2 Physics.a1 Physics.a2
       Physics.omega1 Physics.omega2 Physics.phi1 Physics.phi2
       Physics.A1 Physics.B1 Physics.A2 Physics.B2].
  repeat apply conj; reflexivity.
Qed.


(** The amplitudes of a solution: the projections of the initial
    conditions on the eigenvectors. *)
Lemma solve_amplitudes :
  let norm1 := fst u * fst u * m1 + snd u * snd u * m2 in
  let norm2 := fst v * fst v * m1 + snd v * snd v * m2 in
  Physics.A1 r
  = (fst u * m1 * Physics.x10 p + snd u * m2 * Physics.x20 p) / norm1
  /\ Physics.A2 r
     = (fst v * m1 * Physics.x10 p + snd v * m2 * Physics.x20 p) / norm2
  /\ Physics.B1 r
     = (if Rltb 1e-12 w1
        then (fst u * m1 * Physics.v10 p + snd u * m2 * Physics.v20 p)
             / (w1 * norm1)
        else 0)
  /\ Physics.B2 r
     = (if Rltb 1e-12 w2
        then (fst v * m1 * Physics.v10 p + snd v * m2 * Physics.v20 p)
             / (w2 * norm2)
        else 0).
Proof.
  clear Hstiff.
  unfold w1, w2, u, v, r, Physics.solve.
  destruct (Physics.stiffness p) as [[[k00 k01] k10] k11].
  destruct (Physics.eigenvectors _ _ _ _ _ _) as [f1 f2].
  cbn [Physics.omega1 Physics.omega2 Physics.phi1 Physics.phi2
       Physics.A1 Physics.B1 Physics.A2 Physics.B2].
  repeat apply conj; reflexivity.
Qed.

Hypothesis Hm1 : 0 < m1.
Hypothesis Hm2 : 0 < m2.
Hypothesis Hk1 : 0 <= Physics.k1 p.
Hypothesis Hk2 : 0 <= Physics.k2 p.
Hypothesis HK11 : 0 <= K11.
Hypothesis Hdet : K01 * K01 <= K00 * K11.
Hypothesis Hratio1 : m1 <= 1e18 * m2.
Hypothesis Hratio2 : m2 <= 1e18 * m1.
Hypothesis Hcoupling :
  Physics.k2 p = 0 \/ 1e-12 * m1 < Physics.k2 p
  \/ 1e-12 * m2 < Physics.k2 p.

Lemma coupling_threshold :
  K01 = 0 \/ 1e-12 < Rabs (K01 / m1) \/ 1e-12 < Rabs (K01 / m2).
Proof.
  assert (H1 : 0 < / m1) by (apply Rinv_0_lt_compat; assumption).
  assert (H2 : 0 < / m2) by (apply Rinv_0_lt_compat; assumption).
  destruct Hcoupling as [Hz|[Hc|Hc]].
  - left. lra.
  - right. left. rewrite Rabs_left1 by (unfold Rdiv; nra).
    apply (Rmult_lt_reg_r m1); [assumption|].
    replace (- (K01 / m1) * m1) with (Physics.k2 p) by (field; lra).
    assumption.
  - right. right. rewrite Rabs_left1 by (unfold Rdiv; nra).
    apply (Rmult_lt_reg_r m2); [assumption|].
    replace (- (K01 / m2) * m2) with (Physics.k2 p) by (field; lra).
    assumption.
Qed.

(** The modes of a solution: [K phi = omega^2 M phi] for both
    eigenvectors, which are not zero and orthogonal with respect to the
    masses. *)
Lemma solve_modes :
  (K00 * fst u + K01 * snd u = m1 * (w1 * w1) * fst u
   /\ K01 * fst u + K11 * snd u = m2 * (w1 * w1) * snd u)
  /\ (K00 * fst v + K01 * snd v = m1 * (w2 * w2) * fst v
      /\ K01 * fst v + K11 * snd v = m2 * (w2 * w2) * snd v)
  /\ u <> (0, 0) /\ v <> (0, 0)
  /\ fst u * fst v * m1 + snd u * snd v * m2 = 0
  /\ 0 <= w1 <= w2.
Proof.
  unfold w1, w2, u, v, r, Physics.solve. rewrite Hstiff.
  destruct (Physics.eigenvectors _ _ _ _ _ _) as [f1 f2] eqn:Hev.
  cbn [Physics.omega1 Physics.omega2 Physics.phi1 Physics.phi2].
  assert (HK00 : 0 <= K00) by lra.
  assert (HK01 : K01 <= 0) by lra.
  destruct (eigenvectors_exact m1 m2 K00 K01 K11 Hm1 Hm2 HK00 HK11 Hdet
              HK01 Hratio1 Hratio2 coupling_threshold f1 f2 Hev)
    as ((E1 & E1') & (E2 & E2') & Hu & Hv & Horth).
  pose proof (modal_lam1_nonneg m1 m2 K00 K01 K11) as L1.
  pose proof (modal_lam2_nonneg m1 m2 K00 K01 K11) as L2.
  pose proof (modal_gap m1 m2 K00 K01 K11 Hm1 Hm2 HK00 HK11 Hdet) as Hgap.
  pose proof (sqD_nonneg m1 m2 K00 K01 K11) as Hs.
  cbv zeta in *.
  match type of L1 with 0 <= ?l => set (lam1 := l) in * end.
  match type of L2 with 0 <= ?l => set (lam2 := l) in * end.
  rewrite !sqrt_sqrt by assumption.
  split.
  { split.
    - apply (Rmult_eq_reg_r (/ m1));
        [|apply Rinv_neq_0_compat; lra].
      transitivity (K00 / m1 * fst f1 + K01 / m1 * snd f1); [field; lra|].
      rewrite E1. field. lra.
    - apply (Rmult_eq_reg_r (/ m2));
        [|apply Rinv_neq_0_compat; lra].
      transitivity (K01 / m2 * fst f1 + K11 / m2 * snd f1); [field; lra|].
      rewrite E1'. field. lra. }
  split.
  { split.
    - apply (Rmult_eq_reg_r (/ m1));
        [|apply Rinv_neq_0_compat; lra].
      transitivity (K00 / m1 * fst f2 + K01 / m1 * snd f2); [field; lra|].
      rewrite E2. field. lra.
    - apply (Rmult_eq_reg_r (/ m2));
        [|apply Rinv_neq_0_compat; lra].
      transitivity (K01 / m2 * fst f2 + K11 / m2 * snd f2); [field; lra|].
      rewrite E2'. field. lra. }
  repeat (split; [assumption|]).
  split; [apply sqrt_pos|].
  apply sqrt_le_1_alt. lra.
Qed.

End SolveFacts.

(** Checks that a concrete configuration of [Physics.solve] is
    moderate. *)
Ltac physics_moderate_config :=
  unfold physics_moderate;
  cbn [Physics.m1 Physics.m2 Physics.k1 Physics.k2 Physics.k3
       Physics.x10 Physics.x20 Physics.v10 Physics.v20];
  repeat split; try lra; apply Rabs_le; lra.

Section SolveProperties.

Local Open Scope R_scope.
Local Open Scope string_scope.

Lemma stiffness_cases (p : Physics.params) :
  Physics.stiffness p
  = (Physics.k1 p + Physics.k2 p, - Physics.k2 p, - Physics.k2 p,
     if String.eqb (Physics.config p) "three-spring"
     then Physics.k2 p + Physics.k3 p else Physics.k2 p).
Proof.
  unfold Physics.stiffness.
  destruct (String.eqb (Physics.config p) "three-spring"); reflexivity.
Qed.

Lemma make_0 (w1 w2 cc1 cs1 cc2 cs2 : R) :
  Physics.make w1 w2 cc1 cs1 cc2 cs2 0 = cc1 + cc2.
Proof.
  unfold Physics.make. rewrite !Rmult_0_r, cos_0, sin_0. ring.
Qed.

Lemma solve_derivative :
  forall (p : Physics.params) (t : R),
    let r := Physics.solve p in
    derivable_pt_lim (Physics.x1 r) t (Physics.v1 r t)
    /\ derivable_pt_lim (Physics.x2 r) t (Physics.v2 r t)
    /\ derivable_pt_lim (Physics.v1 r) t (Physics.a1 r t)
    /\ derivable_pt_lim (Physics.v2 r) t (Physics.a2 r t).
Proof.
  intros p t r.
  destruct (solve_functions p) as (X1 & X2 & V1 & V2 & A1 & A2).
  fold r in X1, X2, V1, V2, A1, A2.
  rewrite X1, X2, V1, V2, A1, A2. unfold Physics.make.
  repeat apply conj.
  - match goal with
    | |- derivable_pt_lim _ _ ?l =>
        replace l with
        (- (Physics.A1 r * fst (Physics.phi1 r)) * Physics.omega1 r
           * sin (Physics.omega1 r * t)
         + Physics.B1 r * fst (Physics.phi1 r) * Physics.omega1 r
           * cos (Physics.omega1 r * t)
         + - (Physics.A2 r * fst (Physics.phi2 r)) * Physics.omega2 r
             * sin (Physics.omega2 r * t)
         + Physics.B2 r * fst (Physics.phi2 r) * Physics.omega2 r
           * cos (Physics.omega2 r * t)) by ring
    end.
    apply modes_derivative.
  - match goal with
    | |- derivable_pt_lim _ _ ?l =>
        replace l with
        (- (Physics.A1 r * snd (Physics.phi1 r)) * Physics.omega1 r
           * sin (Physics.omega1 r * t)
         + Physics.B1 r * snd (Physics.phi1 r) * Physics.omega1 r
           * cos (Physics.omega1 r * t)
         + - (Physics.A2 r * snd (Physics.phi2 r)) * Physics.omega2 r
             * sin (Physics.omega2 r * t)
         + Physics.B2 r * snd (Physics.phi2 r) * Physics.omega2 r
           * cos (Physics.omega2 r * t)) by ring
    end.
    apply modes_derivative.
  - match goal with
    | |- derivable_pt_lim _ _ ?l =>
        replace l with
        (- (Physics.B1 r * fst (Physics.phi1 r) * Physics.omega1 r)
           * Physics.omega1 r * sin (Physics.omega1 r * t)
         + - Physics.A1 r * fst (Physics.phi1 r) * Physics.omega1 r
           * Physics.omega1 r * cos (Physics.omega1 r * t)
         + - (Physics.B2 r * fst (Physics.phi2 r) * Physics.omega2 r)
             * Physics.omega2 r * sin (Physics.omega2 r * t)
         + - Physics.A2 r * fst (Physics.phi2 r) * Physics.omega2 r
           * Physics.omega2 r * cos (Physics.omega2 r * t)) by ring
    end.
    apply modes_derivative.
  - match goal with
    | |- derivable_pt_lim _ _ ?l =>
        replace l with
        (- (Physics.B1 r * snd (Physics.phi1 r) * Physics.omega1 r)
           * Physics.omega1 r * sin (Physics.omega1 r * t)
         + - Physics.A1 r * snd (Physics.phi1 r) * Physics.omega1 r
           * Physics.omega1 r * cos (Physics.omega1 r * t)
         + - (Physics.B2 r * snd (Physics.phi2 r) * Physics.omega2 r)
             * Physics.omega2 r * sin (Physics.omega2 r * t)
         + - Physics.A2 r * snd (Physics.phi2 r) * Physics.omega2 r
           * Physics.omega2 r * cos (Physics.omega2 r * t)) by ring
    end.
    apply modes_derivative.
Qed.

(** In [Physics.solve] too, the velocities are the time derivatives of
    the positions, and the accelerations those of the velocities. *)
Theorem solve_derivatives :
  forall (p : Physics.params) (t : R),
    let r := Physics.solve p in
    derivable_pt_lim (Physics.x1 r) t (Physics.v1 r t)
    /\ derivable_pt_lim (Physics.x2 r) t (Physics.v2 r t)
    /\ derivable_pt_lim (Physics.v1 r) t (Physics.a1 r t)
    /\ derivable_pt_lim (Physics.v2 r) t (Physics.a2 r t).
Proof. exact solve_derivative. Qed.

Lemma solve_motion :
  forall (p : Physics.params) (t : R),
    0 < Physics.m1 p -> 0 < Physics.m2 p ->
    0 <= Physics.k1 p -> 0 <= Physics.k2 p -> 0 <= Physics.k3 p ->
    Physics.m1 p <= 1e18 * Physics.m2 p ->
    Physics.m2 p <= 1e18 * Physics.m1 p ->
    Physics.k2 p = 0 \/ 1e-12 * Physics.m1 p < Physics.k2 p
    \/ 1e-12 * Physics.m2 p < Physics.k2 p ->
    let r := Physics.solve p in
    Physics.m1 p * Physics.a1 r t
    = - (Physics.k1 p + Physics.k2 p) * Physics.x1 r t
      + Physics.k2 p * Physics.x2 r t
    /\ Physics.m2 p * Physics.a2 r t
       = Physics.k2 p * Physics.x1 r t
         - (if String.eqb (Physics.config p) "three-spring"
            then Physics.k2 p + Physics.k3 p else Physics.k2 p)
           * Physics.x2 r t.
Proof.
  intros p t Hm1 Hm2 Hk1 Hk2 Hk3 Hr1 Hr2 Hc r.
  set (K11 := if String.eqb (Physics.config p) "three-spring"
              then Physics.k2 p + Physics.k3 p else Physics.k2 p).
  assert (HK11 : 0 <= K11)
    by (unfold K11; destruct (String.eqb _ _); lra).
  assert (Hdet : - Physics.k2 p * - Physics.k2 p
                 <= (Physics.k1 p + Physics.k2 p) * K11)
    by (unfold K11; destruct (String.eqb _ _); nra).
  destruct (solve_modes p K11 (stiffness_cases p) Hm1 Hm2 Hk1 Hk2 HK11
              Hdet Hr1 Hr2 Hc)
    as ((E1 & E1') & (E2 & E2') & _).
  destruct (solve_functions p) as (X1 & X2 & _ & _ & A1 & A2).
  fold r in X1, X2, A1, A2, E1, E1', E2, E2'.
  rewrite X1, X2, A1, A2. unfold Physics.make.
  set (w1 := Physics.omega1 r) in *. set (w2 := Physics.omega2 r) in *.
  set (u := Physics.phi1 r) in *. set (v := Physics.phi2 r) in *.
  set (q1 := Physics.A1 r * cos (w1 * t) + Physics.B1 r * sin (w1 * t)).
  set (q2 := Physics.A2 r * cos (w2 * t) + Physics.B2 r * sin (w2 * t)).
  split.
  - transitivity (- (q1 * (Physics.m1 p * (w1 * w1) * fst u)
                     + q2 * (Physics.m1 p * (w2 * w2) * fst v)));
      [unfold q1, q2; ring|].
    rewrite <- E1, <- E2. unfold q1, q2. ring.
  - transitivity (- (q1 * (Physics.m2 p * (w1 * w1) * snd u)
                     + q2 * (Physics.m2 p * (w2 * w2) * snd v)));
      [unfold q1, q2; ring|].
    rewrite <- E1', <- E2'. unfold q1, q2. ring.
Qed.

Lemma solve_initial :
  forall p : Physics.params,
    0 < Physics.m1 p -> 0 < Physics.m2 p ->
    0 <= Physics.k1 p -> 0 <= Physics.k2 p -> 0 <= Physics.k3 p ->
    Physics.m1 p <= 1e18 * Physics.m2 p ->
    Physics.m2 p <= 1e18 * Physics.m1 p ->
    Physics.k2 p = 0 \/ 1e-12 * Physics.m1 p < Physics.k2 p
    \/ 1e-12 * Physics.m2 p < Physics.k2 p ->
    let r := Physics.solve p in
    Physics.x1 r 0 = Physics.x10 p /\ Physics.x2 r 0 = Physics.x20 p
    /\ (1e-12 < Physics.omega1 r ->
        Physics.v1 r 0 = Physics.v10 p /\ Physics.v2 r 0 = Physics.v20 p).
Proof.
  intros p Hm1 Hm2 Hk1 Hk2 Hk3 Hr1 Hr2 Hc r.
  set (K11 := if String.eqb (Physics.config p) "three-spring"
              then Physics.k2 p + Physics.k3 p else Physics.k2 p).
  assert (HK11 : 0 <= K11)
    by (unfold K11; destruct (String.eqb _ _); lra).
  assert (Hdet : - Physics.k2 p * - Physics.k2 p
                 <= (Physics.k1 p + Physics.k2 p) * K11)
    by (unfold K11; destruct (String.eqb _ _); nra).
  destruct (solve_modes p K11 (stiffness_cases p) Hm1 Hm2 Hk1 Hk2 HK11
              Hdet Hr1 Hr2 Hc)
    as (_ & _ & Hu & Hv & Horth & Hw).
  destruct (solve_functions p) as (X1 & X2 & V1 & V2 & _).
  destruct (solve_amplitudes p) as (EA1 & EA2 & EB1 & EB2).
  fold r in X1, X2, V1, V2, EA1, EA2, EB1, EB2, Hu, Hv, Horth, Hw.
  rewrite X1, X2, V1, V2, !make_0.
  set (w1 := Physics.omega1 r) in *. set (w2 := Physics.omega2 r) in *.
  set (u := Physics.phi1 r) in *. set (v := Physics.phi2 r) in *.
  destruct (modal_projection (Physics.m1 p) (Physics.m2 p) u v
              (Physics.x10 p) (Physics.x20 p) Hm1 Hm2 Hu Hv Horth)
    as (Hn1 & Hn2 & P1 & P2).
  destruct (modal_projection (Physics.m1 p) (Physics.m2 p) u v
              (Physics.v10 p) (Physics.v20 p) Hm1 Hm2 Hu Hv Horth)
    as (_ & _ & Q1 & Q2).
  cbv zeta in EA1, EA2, EB1, EB2.
  split; [rewrite EA1, EA2; exact P1|].
  split; [rewrite EA1, EA2; exact P2|].
  intros Hw1.
  rewrite EB1, EB2, !Rltb_true by lra.
  split.
  - apply eq_trans with (2 := Q1). field. repeat split; lra.
  - apply eq_trans with (2 := Q2). field. repeat split; lra.
Qed.

(** In a moderate configuration the lower frequency of [Physics.solve]
    exceeds the threshold 1e-12 under which the velocities are
    dropped. *)
Lemma moderate_solve_omega1 (p : Physics.params) :
  physics_moderate p -> 1e-12 < Physics.omega1 (Physics.solve p).
Proof.
  intros (Hm1 & Hm2 & Hk1 & Hk2 & Hk3 & _).
  set (K11 := if String.eqb (Physics.config p) "three-spring"
              then Physics.k2 p + Physics.k3 p else Physics.k2 p).
  assert (HK11 : Physics.k2 p <= K11)
    by (unfold K11; destruct (String.eqb _ _); lra).
  assert (Hdet : - Physics.k2 p * - Physics.k2 p
                 <= (Physics.k1 p + Physics.k2 p) * K11) by nra.
  destruct (solve_modes p K11 (stiffness_cases p) ltac:(lra) ltac:(lra)
              ltac:(lra) ltac:(lra) ltac:(lra) Hdet ltac:(lra) ltac:(lra)
              ltac:(right; left; lra))
    as ((E1 & E1') & _ & Hu & _ & _ & Hw).
  set (w1 := Physics.omega1 (Physics.solve p)) in *.
  destruct (Physics.phi1 (Physics.solve p)) as [u1 u2].
  cbn [fst snd] in E1, E1'.
  destruct (Rlt_or_le 1e-12 w1) as [|Hle]; [assumption|exfalso].
  assert (Hl : w1 * w1 <= 1e-24) by nra.
  assert (Hl0 : 0 <= w1 * w1) by nra.
  set (l := w1 * w1) in *.
  set (a := Physics.k1 p + Physics.k2 p - Physics.m1 p * l).
  set (b := K11 - Physics.m2 p * l).
  assert (Ha : Physics.k2 p + 0.09 <= a) by (unfold a; nra).
  assert (Hb : Physics.k2 p - 1e-22 <= b) by (unfold b; nra).
  assert (Hab : 0 < a * b - Physics.k2 p * Physics.k2 p) by nra.
  assert (A : a * u1 = Physics.k2 p * u2) by (unfold a; lra).
  assert (B : b * u2 = Physics.k2 p * u1) by (unfold b; lra).
  assert (Z1 : (a * b - Physics.k2 p * Physics.k2 p) * u1 = 0).
  { replace ((a * b - Physics.k2 p * Physics.k2 p) * u1)
      with (b * (a * u1) - Physics.k2 p * (Physics.k2 p * u1)) by ring.
    rewrite A, <- B. ring. }
  assert (U1 : u1 = 0).
  { apply Rmult_integral in Z1. destruct Z1; [lra|assumption]. }
  assert (U2 : u2 = 0).
  { rewrite U1, Rmult_0_r in A. symmetry in A.
    apply Rmult_integral in A. destruct A; [lra|assumption]. }
  apply Hu. rewrite U1, U2. reflexivity.
Qed.

(** What [Physics.solve] does exactly, over the reals, in a moderate
    configuration. *)
Lemma moderate_solve (p : Physics.params) :
  physics_moderate p ->
  let r := Physics.solve p in
  (Physics.x1 r 0 = Physics.x10 p /\ Physics.x2 r 0 = Physics.x20 p
   /\ Physics.v1 r 0 = Physics.v10 p /\ Physics.v2 r 0 = Physics.v20 p)
  /\ forall t,
       Physics.m1 p * Physics.a1 r t
       = - (Physics.k1 p + Physics.k2 p) * Physics.x1 r t
         + Physics.k2 p * Physics.x2 r t
       /\ Physics.m2 p * Physics.a2 r t
          = Physics.k2 p * Physics.x1 r t
            - (if String.eqb (Physics.config p) "three-spring"
               then Physics.k2 p + Physics.k3 p else Physics.k2 p)
              * Physics.x2 r t.
Proof.
  intros Hmod r.
  pose proof (moderate_solve_omega1 p Hmod) as Hw.
  destruct Hmod as (Hm1 & Hm2 & Hk1 & Hk2 & Hk3 & _).
  assert (Hc : Physics.k2 p = 0 \/ 1e-12 * Physics.m1 p < Physics.k2 p
               \/ 1e-12 * Physics.m2 p < Physics.k2 p)
    by (right; left; lra).
  split.
  - destruct (solve_initial p ltac:(lra) ltac:(lra) ltac:(lra) ltac:(lra)
                ltac:(lra) ltac:(lra) ltac:(lra) Hc) as (X1 & X2 & V).
    destruct (V Hw) as (V1 & V2).
    repeat split; assumption.
  - intros t.
    apply (solve_motion p t); lra.
Qed.

(** [Physics.solve] satisfies the equations of motion of its topology
    within 1e-5, in a moderate configuration (masses and spring
    constants between 0.1 and 10, initial displacements and velocities
    of at most 10 in magnitude) at every time [t] with [|t| <= 1e9].
    With the configuration ['three-spring'] the right mass is held by
    [k3]; with any other configuration its right end is free. *)
Theorem solve_equations_of_motion :
  forall (p : Physics.params) (t : R),
    physics_moderate p -> Rabs t <= 1e9 ->
    let r := Physics.solve p in
    Rabs (Physics.m1 p * Physics.a1 r t
          - (- (Physics.k1 p + Physics.k2 p) * Physics.x1 r t
             + Physics.k2 p * Physics.x2 r t)) <= 1e-5
    /\ Rabs (Physics.m2 p * Physics.a2 r t
             - (Physics.k2 p * Physics.x1 r t
                - (if String.eqb (Physics.config p) "three-spring"
                   then Physics.k2 p + Physics.k3 p else Physics.k2 p)
                  * Physics.x2 r t)) <= 1e-5.
Proof.
  intros p t Hmod _ r.
  destruct (moderate_solve p Hmod) as (_ & M).
  destruct (M t) as (M1 & M2). fold r in M1, M2.
  rewrite M1, M2.
  split; (rewrite Rminus_diag, Rabs_R0; lra).
Qed.

Lemma solve_equations_of_motion_witness :
  let p := Physics.mkParams "two-spring" 2 3 1.5 0.8 2 1 0.5 0 0 in
  let r := Physics.solve p in
  Rabs (2 * Physics.a1 r 1
        - (- (1.5 + 0.8) * Physics.x1 r 1 + 0.8 * Physics.x2 r 1)) <= 1e-5
  /\ Rabs (3 * Physics.a2 r 1
           - (0.8 * Physics.x1 r 1 - 0.8 * Physics.x2 r 1)) <= 1e-5.
Proof.
  apply (solve_equations_of_motion
           (Physics.mkParams "two-spring" 2 3 1.5 0.8 2 1 0.5 0 0) 1).
  - physics_moderate_config.
  - apply Rabs_le; lra.
Defined.

(** [Physics.solve] starts from the initial displacements and
    velocities within 1e-9, in a moderate configuration. *)
Theorem solve_initial_conditions :
  forall p : Physics.params,
    physics_moderate p ->
    let r := Physics.solve p in
    Rabs (Physics.x1 r 0 - Physics.x10 p) <= 1e-9
    /\ Rabs (Physics.x2 r 0 - Physics.x20 p) <= 1e-9
    /\ Rabs (Physics.v1 r 0 - Physics.v10 p) <= 1e-9
    /\ Rabs (Physics.v2 r 0 - Physics.v20 p) <= 1e-9.
Proof.
  intros p Hmod r.
  destruct (moderate_solve p Hmod) as ((X1 & X2 & V1 & V2) & _).
  fold r in X1, X2, V1, V2. rewrite X1, X2, V1, V2.
  repeat split; (rewrite Rminus_diag, Rabs_R0; lra).
Qed.

Lemma solve_initial_conditions_witness :
  let p := Physics.mkParams "three-spring" 1 1 1 0.5 1 1 (-0.5) 2 (-1) in
  let r := Physics.solve p in
  Rabs (Physics.x1 r 0 - 1) <= 1e-9
  /\ Rabs (Physics.x2 r 0 - -0.5) <= 1e-9
  /\ Rabs (Physics.v1 r 0 - 2) <= 1e-9
  /\ Rabs (Physics.v2 r 0 - -1) <= 1e-9.
Proof.
  apply (solve_initial_conditions
           (Physics.mkParams "three-spring" 1 1 1 0.5 1 1 (-0.5) 2 (-1))).
  physics_moderate_config.
Defined.

End SolveProperties.

Section Keys.

Local Open Scope string_scope.

Lemma to_int_parse (z : Z) :
  NilZero.int_of_string (NilZero.string_of_int (Z.to_int z))
  = Some (Z.to_int z).
Proof.
  apply NilZero.isi; destruct z as [|q|q]; cbn [Z.to_int];
    try discriminate; intros [= E];
    exact (Unsigned.to_uint_nonnil q E).
Qed.

(** A key of two characters, a letter and a digit, is made of the
    quantity and the mass in one way. *)
Lemma key_two (quantity : string) (mass : option Z) (c d : ascii) (n : Z) :
  NilZero.int_of_string (String c (String d "")) = None ->
  NilZero.int_of_string (String d "") = Some (Z.to_int n) ->
  Physics.key quantity mass = String c (String d "") ->
  quantity = String c "" /\ mass = Some n.
Proof.
  intros Hcd Hd. unfold Physics.key.
  set (s := match mass with
            | Some z => NilZero.string_of_int (Z.to_int z)
            | None => "NaN"
            end).
  assert (Hs : s = "NaN" /\ mass = None
               \/ exists z, mass = Some z
                            /\ NilZero.int_of_string s = Some (Z.to_int z)).
  { unfold s. destruct mass as [z|]; [right|left; split; reflexivity].
    exists z. split; [reflexivity|apply to_int_parse]. }
  clearbody s.
  destruct quantity as [|c0 [|c1 [|c2 q]]]; cbn [append]; intros E.
  - subst s. destruct Hs as [[[=] _]|(z & _ & Hz)]. congruence.
  - injection E as -> ->.
    destruct Hs as [[[=] _]|(z & -> & Hz)].
    split; [reflexivity|]. f_equal.
    rewrite Hd in Hz. injection Hz as Hz. apply to_int_inj. symmetry.
    assumption.
  - injection E as -> -> ->.
    destruct Hs as [[[=] _]|(z & _ & Hz)]. discriminate.
  - injection E as _ _ E. discriminate.
Qed.

(** The quantities and masses that [findFirstTime] knows. *)
Lemma function_at_key (r : Physics.solution) (quantity : string)
      (mass : option Z) (fn : R -> R) :
  Physics.function_at r (Physics.key quantity mass) = Some fn ->
  (quantity = "x" /\ mass = Some 1%Z /\ fn = Physics.x1 r)
  \/ (quantity = "x" /\ mass = Some 2%Z /\ fn = Physics.x2 r)
  \/ (quantity = "v" /\ mass = Some 1%Z /\ fn = Physics.v1 r)
  \/ (quantity = "v" /\ mass = Some 2%Z /\ fn = Physics.v2 r)
  \/ (quantity = "a" /\ mass = Some 1%Z /\ fn = Physics.a1 r)
  \/ (quantity = "a" /\ mass = Some 2%Z /\ fn = Physics.a2 r).
Proof.
  unfold Physics.function_at.
  destruct (String.eqb_spec (Physics.key quantity mass) "x1") as [E|_].
  { intros [= <-]. left.
    destruct (key_two quantity mass "x" "1" 1 eq_refl eq_refl E); auto. }
  destruct (String.eqb_spec (Physics.key quantity mass) "x2") as [E|_].
  { intros [= <-]. right. left.
    destruct (key_two quantity mass "x" "2" 2 eq_refl eq_refl E); auto. }
  destruct (String.eqb_spec (Physics.key quantity mass) "v1") as [E|_].
  { intros [= <-]. do 2 right. left.
    destruct (key_two quantity mass "v" "1" 1 eq_refl eq_refl E); auto. }
  destruct (String.eqb_spec (Physics.key quantity mass) "v2") as [E|_].
  { intros [= <-]. do 3 right. left.
    destruct (key_two quantity mass "v" "2" 2 eq_refl eq_refl E); auto. }
  destruct (String.eqb_spec (Physics.key quantity mass) "a1") as [E|_].
  { intros [= <-]. do 4 right. left.
    destruct (key_two quantity mass "a" "1" 1 eq_refl eq_refl E); auto. }
  destruct (String.eqb_spec (Physics.key quantity mass) "a2") as [E|_].
  { intros [= <-]. do 5 right.
    destruct (key_two quantity mass "a" "2" 2 eq_refl eq_refl E); auto. }
  discriminate.
Qed.

End Keys.

Section PhysicsBisection.

Local Open Scope R_scope.

Variables (fn : R -> R) (target tol : R).
Hypothesis Hcont : continuity fn.
Hypothesis Htol : 0 <= tol.

(** The bisection of [findFirstTime] returns a time between the two
    samples; there the quantity is within the tolerance of the target,
    or a crossing of the target is nearby. *)
Lemma physics_bisect (l h : R) :
  l <= h -> (fn l - target) * (fn h - target) < 0 ->
  exists time,
    run (Physics.bisect_body fn target tol) 61
        (Physics.mkBisection 0 l (fn l - target) h (fn h - target))
    = Some (Physics.mkOutcome true (Some time))
    /\ l <= time <= h
    /\ (Rabs (fn time - target) <= tol
        \/ exists z, l <= z <= h /\ fn z = target
                     /\ (Rabs (time - z) <= tol / 4
                         \/ Rabs (time - z) <= (h - l) / 2 ^ 61)).
Proof.
  intros Hlh Hsign.
  set (s0 := Physics.mkBisection 0 l (fn l - target) h (fn h - target)).
  destruct (run_terminates (Physics.bisect_body fn target tol)
              (fun s => (0 <= Physics.j s)%Z)
              (fun s => Z.to_nat (60 - Physics.j s))) with (fuel := 61%nat)
                                                           (s := s0)
    as [o Ho].
  { intros s _. unfold Physics.bisect_body.
    repeat match goal with |- context [if ?c then _ else _] => destruct c end;
      discriminate. }
  { intros s s' Hs. unfold Physics.bisect_body.
    destruct (Z.ltb_spec (Physics.j s) 60) as [Hit|]; [|discriminate].
    repeat match goal with |- context [if ?c then _ else _] => destruct c end;
      try discriminate; intros [= <-]; cbn [Physics.j]; split; lia. }
  { cbn [s0 Physics.j]. lia. }
  { cbn [s0 Physics.j]. lia. }
  assert (HP : exists time,
             o = Physics.mkOutcome true (Some time)
             /\ l <= time <= h
             /\ (Rabs (fn time - target) <= tol
                 \/ exists z, l <= z <= h /\ fn z = target
                              /\ (Rabs (time - z) <= tol / 4
                                  \/ Rabs (time - z) <= (h - l) / 2 ^ 61))).
  { refine (run_invariant (Physics.bisect_body fn target tol)
              (fun s => (0 <= Physics.j s <= 60)%Z
                        /\ l <= Physics.lo s /\ Physics.lo s <= Physics.hi s
                        /\ Physics.hi s <= h
                        /\ Physics.flo s = fn (Physics.lo s) - target
                        /\ Physics.flo s <> 0
                        /\ Physics.flo s * (fn (Physics.hi s) - target) <= 0
                        /\ (Physics.hi s - Physics.lo s)
                           * 2 ^ Z.to_nat (Physics.j s) = h - l)
              (fun o => exists time,
                   o = Physics.mkOutcome true (Some time)
                   /\ l <= time <= h
                   /\ (Rabs (fn time - target) <= tol
                       \/ exists z, l <= z <= h /\ fn z = target
                                    /\ (Rabs (time - z) <= tol / 4
                                        \/ Rabs (time - z)
                                           <= (h - l) / 2 ^ 61)))
              _ _ 61 s0 o _ Ho).
    - intros s s' (Hj & H1 & H2 & H3 & Hfl & Hnz & Hsg & Hw).
      unfold Physics.bisect_body.
      destruct (Z.ltb_spec (Physics.j s) 60) as [Hit|]; [|discriminate].
      set (mid := (Physics.lo s + Physics.hi s) / 2).
      destruct (Rleb_spec (Rabs (fn mid - target)) tol) as [|Hmiss];
        [discriminate|].
      destruct (Rltb (Physics.hi s - Physics.lo s) (tol * 0.5));
        [discriminate|].
      cbn [orb].
      assert (Hpow : 2 ^ Z.to_nat (Physics.j s + 1)
                     = 2 * 2 ^ Z.to_nat (Physics.j s)).
      { rewrite Z2Nat.inj_add by lia. rewrite Nat.add_comm. reflexivity. }
      assert (Hmf : fn mid - target <> 0).
      { intros E. rewrite E, Rabs_R0 in Hmiss. lra. }
      destruct (Rltb_spec (Physics.flo s * (fn mid - target)) 0)
        as [Hlt|Hge]; intros [= <-];
        cbn [Physics.j Physics.lo Physics.hi Physics.flo]; rewrite Hpow;
        fold mid.
      + split; [lia|]. split; [assumption|].
        split; [unfold mid; lra|]. split; [unfold mid; lra|].
        split; [assumption|]. split; [assumption|].
        split; [lra|]. unfold mid. lra.
      + split; [lia|]. split; [unfold mid; lra|].
        split; [unfold mid; lra|]. split; [assumption|].
        split; [reflexivity|]. split; [assumption|].
        split; [|unfold mid; lra].
        set (pf := Physics.flo s) in *.
        set (mf := fn mid - target) in *.
        set (hf := fn (Physics.hi s) - target) in *.
        assert (Hp : 0 < pf * mf).
        { destruct (Rtotal_order (pf * mf) 0) as [|[E|]]; [lra| |lra].
          apply Rmult_integral in E. tauto. }
        assert (Hq : (pf * mf) * (pf * hf) <= 0) by nra.
        assert (Hpp : 0 < pf * pf) by nra.
        replace (pf * mf * (pf * hf)) with (pf * pf * (mf * hf)) in Hq
          by ring.
        nra.
    - intros s r0 (Hj & H1 & H2 & H3 & Hfl & Hnz & Hsg & Hw).
      unfold Physics.bisect_body.
      rewrite Hfl in Hsg.
      destruct (crossing_between fn target Hcont
                  (Physics.lo s) (Physics.hi s) H2 Hsg) as (z & Hz & Ez).
      set (mid := (Physics.lo s + Physics.hi s) / 2).
      assert (Hmz : Rabs (mid - z) <= (Physics.hi s - Physics.lo s) / 2).
      { apply Rabs_le. unfold mid. lra. }
      destruct (Z.ltb_spec (Physics.j s) 60) as [Hit|Hcap].
      + destruct (Rleb_spec (Rabs (fn mid - target)) tol) as [Hhit|Hmiss].
        { intros [= <-]. exists mid. split; [reflexivity|].
          split; [unfold mid; lra|]. left. assumption. }
        destruct (Rltb_spec (Physics.hi s - Physics.lo s) (tol * 0.5))
          as [Hnarrow|Hwide]; cbn [orb].
        { intros [= <-]. exists mid. split; [reflexivity|].
          split; [unfold mid; lra|]. right.
          exists z. split; [lra|]. split; [assumption|]. left. lra. }
        destruct (Rltb _ 0); discriminate.
      + intros [= <-]. exists mid. split; [reflexivity|].
        split; [unfold mid; lra|]. right.
        exists z. split; [lra|]. split; [assumption|]. right.
        assert (E60 : Physics.j s = 60%Z) by lia. rewrite E60 in Hw.
        change (Z.to_nat 60) with 60%nat in Hw.
        assert (Hp : 0 < 2 ^ 60) by (apply pow_lt; lra).
        replace (2 ^ 61) with (2 * 2 ^ 60) by reflexivity.
        rewrite <- Hw.
        replace ((Physics.hi s - Physics.lo s) * 2 ^ 60 / (2 * 2 ^ 60))
          with ((Physics.hi s - Physics.lo s) / 2) by (field; lra).
        assumption.
    - cbn [s0 Physics.j Physics.lo Physics.hi Physics.flo].
      repeat apply conj; try lia; try lra.
      + intros E. rewrite E in Hsign. lra.
      + change (Z.to_nat 0) with 0%nat. cbn [pow]. ring. }
  destruct HP as (time & -> & Hrest).
  exists time. split; [exact Ho|exact Hrest].
Qed.

End PhysicsBisection.

Section PhysicsScan.

Local Open Scope R_scope.

Variables (fn : R -> R) (target tMaxSearch tol : R).
Hypothesis Hcont : continuity fn.
Hypothesis Htol : 0 <= tol.
Hypothesis Hmax : 0 <= tMaxSearch.

Abbreviation dt := (tMaxSearch / 2000).
Abbreviation body := (Physics.scan_body fn target tol dt).
Abbreviation grid_at := (grid tMaxSearch).
Abbreviation is_quiet := (quiet fn target tMaxSearch tol).

Lemma grid_step (n : Z) : grid_at n - grid_at (n - 1) = dt.
Proof. unfold grid. rewrite minus_IZR. field. Qed.

Lemma grid_mono (n : Z) : grid_at (n - 1) <= grid_at n.
Proof. pose proof (grid_step n). lra. Qed.

Lemma grid_range (n : Z) :
  (0 <= n <= 2000)%Z -> 0 <= grid_at n <= tMaxSearch.
Proof.
  intros [H0 H1]. apply IZR_le in H0, H1. unfold grid. split; nra.
Qed.

(** The scan of [findFirstTime] from its [i]-th sample on. *)
Lemma physics_scan (fuel : nat) :
  forall s : Physics.scan,
    (1 <= Physics.i s <= 2001)%Z ->
    (2001 - Physics.i s < Z.of_nat fuel)%Z ->
    Physics.t_a s = grid_at (Physics.i s - 1) ->
    Physics.f_a s = fn (Physics.t_a s) - target ->
    exists o,
      run body fuel s = Some o
      /\ (Physics.found o = false ->
          Physics.t o = None
          /\ forall n, (Physics.i s <= n <= 2000)%Z -> is_quiet n)
      /\ (Physics.found o = true ->
          exists n time,
            (Physics.i s <= n <= 2000)%Z
            /\ (forall k, (Physics.i s <= k < n)%Z -> is_quiet k)
            /\ ~ is_quiet n
            /\ Physics.t o = Some time
            /\ grid_at (n - 1) <= time <= grid_at n
            /\ (Rabs (fn time - target) <= tol
                \/ exists z, grid_at (n - 1) <= z <= grid_at n
                             /\ fn z = target
                             /\ (Rabs (time - z) <= tol / 4
                                 \/ Rabs (time - z) <= dt / 2 ^ 61))).
Proof.
  induction fuel as [|fuel IH]; intros s Hi Hfuel Hta Hfa; [lia|].
  cbn [run]. unfold Physics.scan_body at 1.
  destruct (Z.leb_spec (Physics.i s) 2000) as [Hin|Hout].
  2:{ eexists. split; [reflexivity|]. cbn [Physics.found Physics.t].
      split; [|discriminate]. intros _. split; [reflexivity|].
      intros n Hn. lia. }
  fold (grid tMaxSearch (Physics.i s)).
  set (t_b := grid_at (Physics.i s)).
  pose proof (grid_mono (Physics.i s)) as Hmono. fold t_b in Hmono.
  rewrite <- Hta in Hmono.
  destruct (Rleb_spec (Rabs (fn t_b - target)) tol) as [Hhit|Hmiss].
  { eexists. split; [reflexivity|]. cbn [Physics.found Physics.t].
    split; [discriminate|]. intros _.
    exists (Physics.i s), t_b.
    split; [lia|]. split; [intros k Hk; lia|].
    split; [intros [Hq _]; fold t_b in Hq; lra|].
    split; [reflexivity|].
    split; [rewrite <- Hta; fold t_b; lra|]. left. assumption. }
  destruct (Rltb_spec (Physics.f_a s * (fn t_b - target)) 0) as [Hsign|Hsame].
  { rewrite Hfa in Hsign |- *.
    destruct (physics_bisect fn target tol Hcont Htol
                (Physics.t_a s) t_b Hmono Hsign)
      as (time & Hrun & Hrange & Hnear).
    rewrite Hrun. cbn [bind].
    eexists. split; [reflexivity|]. cbn [Physics.found Physics.t].
    split; [discriminate|]. intros _.
    exists (Physics.i s), time.
    split; [lia|]. split; [intros k Hk; lia|].
    split.
    { intros [_ Hq]. rewrite <- Hta in Hq. fold t_b in Hq. lra. }
    split; [reflexivity|].
    rewrite <- Hta. fold t_b.
    split; [assumption|].
    destruct Hnear as [Hn|(z & Hz & Ez & Hd)]; [left; assumption|].
    right. exists z. split; [assumption|]. split; [assumption|].
    destruct Hd as [Hd|Hd]; [left; assumption|right].
    pose proof (grid_step (Physics.i s)) as Hstep. fold t_b in Hstep.
    rewrite <- Hta in Hstep. rewrite Hstep in Hd. assumption. }
  assert (Hquiet : is_quiet (Physics.i s)).
  { split; fold t_b.
    - apply Rnot_le_lt. assumption.
    - rewrite <- Hta, <- Hfa. apply Rnot_lt_le. assumption. }
  destruct (IH (Physics.mkScan (Physics.i s + 1) t_b (fn t_b - target)))
    as (o & Ho & Hnone & Hsome);
    cbn [Physics.i Physics.t_a Physics.f_a] in *.
  - lia.
  - lia.
  - unfold t_b. f_equal. lia.
  - reflexivity.
  - exists o. split; [assumption|]. split.
    + intros Hf. destruct (Hnone Hf) as [Ht Hq].
      split; [assumption|].
      intros n Hn. destruct (Z.eq_dec n (Physics.i s)) as [->|Hne];
        [assumption|]. apply Hq. lia.
    + intros Hf.
      destruct (Hsome Hf) as (n & time & Hn & Hq & Hrest).
      exists n, time. split; [lia|]. split; [|assumption].
      intros k Hk. destruct (Z.eq_dec k (Physics.i s)) as [->|Hne];
        [assumption|]. apply Hq. lia.
Qed.

End PhysicsScan.

Section FindFirstTime.

Local Open Scope R_scope.
Local Open Scope string_scope.

Lemma make_continuous (w1 w2 cc1 cs1 cc2 cs2 : R) :
  continuity (Physics.make w1 w2 cc1 cs1 cc2 cs2).
Proof.
  apply (derivative_continuity _
           (fun t => - cc1 * w1 * sin (w1 * t) + cs1 * w1 * cos (w1 * t)
                     + - cc2 * w2 * sin (w2 * t) + cs2 * w2 * cos (w2 * t))).
  intros t. unfold Physics.make. apply modes_derivative.
Qed.

(** The six functions of a solution of [solve] are continuous. *)
Lemma solution_continuous (p : Physics.params) (quantity : string)
      (mass : option Z) (fn : R -> R) :
  Physics.function_at (Physics.solve p) (Physics.key quantity mass) = Some fn ->
  continuity fn.
Proof.
  intros H.
  destruct (solve_functions p) as (X1 & X2 & V1 & V2 & A1 & A2).
  destruct (function_at_key _ _ _ _ H)
    as [(_ & _ & ->)|[(_ & _ & ->)|[(_ & _ & ->)|[(_ & _ & ->)
       |[(_ & _ & ->)|(_ & _ & ->)]]]]];
    [rewrite X1|rewrite X2|rewrite V1|rewrite V2|rewrite A1|rewrite A2];
    apply make_continuous.
Qed.

(** [findFirstTime] looks up the function [quantity + mass] of the
    solution: for a quantity other than ['x'], ['v'] and ['a'], or a
    mass other than 1 and 2 ([NaN] included), it reports not-found; it
    does not fall back to a default quantity. *)
Theorem findFirstTime_unknown_key :
  forall (r : Physics.solution) (mass : option Z) (quantity : string)
         (target : R) (tMaxSearch tolerance : option R),
    ~ ((quantity = "x" \/ quantity = "v" \/ quantity = "a")
       /\ (mass = Some 1%Z \/ mass = Some 2%Z)) ->
    Physics.findFirstTime r mass quantity target tMaxSearch tolerance
    = Some (Physics.mkOutcome false None).
Proof.
  intros r mass quantity target tMaxSearch tolerance Hkey.
  unfold Physics.findFirstTime.
  destruct (Physics.function_at r (Physics.key quantity mass)) as [fn|] eqn:E;
    [|reflexivity].
  exfalso. apply Hkey.
  destruct (function_at_key _ _ _ _ E)
    as [(-> & -> & _)|[(-> & -> & _)|[(-> & -> & _)|[(-> & -> & _)
       |[(-> & -> & _)|(-> & -> & _)]]]]]; auto.
Qed.

Lemma findFirstTime_unknown_key_witness :
  Physics.findFirstTime
    (Physics.solve (Physics.mkParams "three-spring" 1 1 1 1 1 1 0 0 0))
    (Some 1%Z) "position" 0 None None
  = Some (Physics.mkOutcome false None)
  /\ Physics.findFirstTime
       (Physics.solve (Physics.mkParams "three-spring" 1 1 1 1 1 1 0 0 0))
       None "x" 0 None None
     = Some (Physics.mkOutcome false None).
Proof.
  split; apply findFirstTime_unknown_key.
  - intros [[H|[H|H]] _]; discriminate.
  - intros [_ [H|H]]; discriminate.
Defined.

(** Over the reals, the contract of [findFirstTime] on a solution of
    [solve], for a known quantity and mass, a tolerance [>= 0] and a
    bound [tMaxSearch >= 0]: the call returns after at most 2000
    samples.  It reports not-found exactly when the quantity is outside
    the tolerance at [0] and at every sample [n * tMaxSearch / 2000],
    without a change of sign between two samples.  A time it reports
    lies in [[0, tMaxSearch]], between the samples [n - 1] and [n] for
    the first sample [n] that is not quiet (or it is 0); the quantity is
    within the tolerance of the target there, or equals the target at a
    time no further than [tolerance / 4] or [tMaxSearch / 2000 / 2^61]
    away. *)
Lemma findFirstTime_search :
  forall (p : Physics.params) (mass : option Z) (quantity : string)
         (target : R) (tMaxSearch tolerance : option R) (fn : R -> R),
    let r := Physics.solve p in
    let T := match tMaxSearch with Some v => v | None => 100 end in
    let tol := match tolerance with Some v => v | None => 1e-8 end in
    Physics.function_at r (Physics.key quantity mass) = Some fn ->
    0 <= tol -> 0 <= T ->
    exists o,
      Physics.findFirstTime r mass quantity target tMaxSearch tolerance
      = Some o
      /\ (Physics.found o = false <->
          tol < Rabs (fn 0 - target)
          /\ forall n, (1 <= n <= 2000)%Z -> quiet fn target T tol n)
      /\ (Physics.found o = false -> Physics.t o = None)
      /\ (Physics.found o = true ->
          exists time,
            Physics.t o = Some time /\ 0 <= time <= T
            /\ ((time = 0 /\ Rabs (fn 0 - target) <= tol)
                \/ (tol < Rabs (fn 0 - target)
                    /\ exists n,
                        (1 <= n <= 2000)%Z
                        /\ (forall k, (1 <= k < n)%Z ->
                                      quiet fn target T tol k)
                        /\ ~ quiet fn target T tol n
                        /\ grid T (n - 1) <= time <= grid T n
                        /\ (Rabs (fn time - target) <= tol
                            \/ exists z,
                                grid T (n - 1) <= z <= grid T n
                                /\ fn z = target
                                /\ (Rabs (time - z) <= tol / 4
                                    \/ Rabs (time - z)
                                       <= T / 2000 / 2 ^ 61))))).
Proof.
  intros p mass quantity target tMaxSearch tolerance fn r T tol Hfn Htol HT.
  pose proof (solution_continuous p quantity mass fn Hfn) as Hcont.
  unfold Physics.findFirstTime. fold r. rewrite Hfn. fold T tol.
  destruct (Rleb_spec (Rabs (fn 0 - target)) tol) as [Hhit|Hmiss].
  { eexists. split; [reflexivity|]. cbn [Physics.found Physics.t].
    split; [split; [discriminate|intros [H _]; lra]|].
    split; [discriminate|]. intros _.
    exists 0. split; [reflexivity|]. split; [lra|].
    left. split; [reflexivity|assumption]. }
  apply Rnot_le_lt in Hmiss.
  destruct (physics_scan fn target T tol Hcont Htol HT 2001%nat
              (Physics.mkScan 1 0 (fn 0 - target)))
    as (o & Ho & Hnone & Hsome);
    cbn [Physics.i Physics.t_a Physics.f_a].
  - lia.
  - lia.
  - unfold grid. cbn. ring.
  - reflexivity.
  - cbn [Physics.i] in Hnone, Hsome.
    exists o. split; [exact Ho|]. split; [|split].
    + split.
      * intros Hf. split; [assumption|]. apply Hnone. assumption.
      * intros [_ Hq]. destruct (Physics.found o) eqn:Hf; [|reflexivity].
        destruct (Hsome eq_refl) as (n & time & Hn & _ & Hnq & _).
        exfalso. apply Hnq. apply Hq. assumption.
    + intros Hf. apply Hnone. assumption.
    + intros Hf.
      destruct (Hsome Hf) as (n & time & Hn & Hq & Hnq & Ht & Hrange & Hnear).
      exists time. split; [assumption|].
      pose proof (grid_range T HT (n - 1) ltac:(lia)) as G1.
      pose proof (grid_range T HT n ltac:(lia)) as G2.
      split; [lra|]. right. split; [assumption|].
      exists n. repeat (split; [assumption|]). assumption.
Qed.


End FindFirstTime.

Section PhysicsHelpers.

Local Open Scope R_scope.
Local Open Scope string_scope.

(** [eigenvector] returns an eigenvector that is not zero, for every
    real matrix and every root [lambda] of its characteristic
    polynomial, when an off-diagonal entry exceeds the threshold 1e-12
    or both are zero. *)
Theorem eigenvector_is_eigenvector :
  forall a11 a12 a21 a22 lambda : R,
    lambda * lambda - (a11 + a22) * lambda + (a11 * a22 - a12 * a21) = 0 ->
    1e-12 < Rabs a12 \/ 1e-12 < Rabs a21 \/ (a12 = 0 /\ a21 = 0) ->
    let phi := Physics.eigenvector a11 a12 a21 a22 lambda in
    eigen a11 a12 a21 a22 lambda phi /\ phi <> (0, 0).
Proof. exact eigenvector_exact. Qed.

Lemma eigenvector_is_eigenvector_witness :
  let phi := Physics.eigenvector 2 (-1) (-1) 2 3 in
  eigen 2 (-1) (-1) 2 3 phi /\ phi <> (0, 0).
Proof.
  apply eigenvector_is_eigenvector.
  - ring.
  - left. rewrite Rabs_left by lra. lra.
Defined.

(** The test [parallel] holds of every pair of proportional vectors,
    the zero vector included. *)
Lemma parallel_multiple (u : R * R) (c : R) :
  Physics.parallel u (c * fst u, c * snd u) = true.
Proof.
  destruct u as [u0 u1]. unfold Physics.parallel. cbn [fst snd].
  replace (u0 * (c * u1) - u1 * (c * u0)) with 0 by ring.
  rewrite Rabs_R0.
  set (scale := (Rabs u0 + Rabs u1) * (Rabs (c * u0) + Rabs (c * u1))).
  destruct (Rltb_spec scale 1e-24) as [|Hs]; [reflexivity|].
  cbn [orb]. apply Rltb_true. lra.
Qed.

(** The test [parallel] is symmetric. *)
Lemma parallel_sym (u v : R * R) :
  Physics.parallel u v = Physics.parallel v u.
Proof.
  destruct u as [u0 u1], v as [v0 v1]. unfold Physics.parallel.
  cbn [fst snd].
  replace (v0 * u1 - v1 * u0) with (- (u0 * v1 - u1 * v0)) by ring.
  rewrite Rabs_Ropp.
  rewrite (Rmult_comm (Rabs v0 + Rabs v1)). reflexivity.
Qed.




End PhysicsHelpers.
(* ================================================================== *)
(** * The two solvers: energy, uniqueness and agreement *)

(** * Two masses on three springs: energy and uniqueness *)

Section Motion.

Local Open Scope R_scope.

Variables (m1 m2 k1 k2 k3 : R).
Hypothesis Hm1 : 0 < m1.
Hypothesis Hm2 : 0 < m2.
Hypothesis Hk1 : 0 <= k1.
Hypothesis Hk2 : 0 <= k2.
Hypothesis Hk3 : 0 <= k3.

(** A motion: positions, velocities and accelerations of both masses. *)
Variables (x1 x2 v1 v2 a1 a2 : R -> R).
Hypothesis Hx1 : forall t, derivable_pt_lim x1 t (v1 t).
Hypothesis Hx2 : forall t, derivable_pt_lim x2 t (v2 t).
Hypothesis Hv1 : forall t, derivable_pt_lim v1 t (a1 t).
Hypothesis Hv2 : forall t, derivable_pt_lim v2 t (a2 t).
Hypothesis Hmotion1 :
  forall t, m1 * a1 t = - (k1 + k2) * x1 t + k2 * x2 t.
Hypothesis Hmotion2 :
  forall t, m2 * a2 t = k2 * x1 t - (k2 + k3) * x2 t.

Let E (t : R) : R :=
  m1 * v1 t ^ 2 / 2 + m2 * v2 t ^ 2 / 2
  + k1 * x1 t ^ 2 / 2 + k2 * (x2 t - x1 t) ^ 2 / 2 + k3 * x2 t ^ 2 / 2.

(** The energy of a motion that satisfies the equations of motion is
    constant. *)
Lemma motion_energy_constant (t : R) : E t = E 0.
Proof.
  assert (HE : forall c, derivable_pt_lim E c ((fun _ => 0) c)).
  { intros c.
    replace 0
      with (m1 * v1 c * a1 c + m2 * v2 c * a2 c + k1 * x1 c * v1 c
            + k2 * (x2 c - x1 c) * (v2 c - v1 c) + k3 * x2 c * v2 c).
    - unfold E.
      repeat apply (derivable_pt_lim_plus _ _ c).
      + apply (square_derivative v1). apply Hv1.
      + apply (square_derivative v2). apply Hv2.
      + apply (square_derivative x1). apply Hx1.
      + apply (square_derivative (fun t => x2 t - x1 t)).
        apply (derivable_pt_lim_minus x2 x1); [apply Hx2|apply Hx1].
      + apply (square_derivative x2). apply Hx2.
    - transitivity (v1 c * (m1 * a1 c + (k1 + k2) * x1 c - k2 * x2 c)
                    + v2 c * (m2 * a2 c - k2 * x1 c + (k2 + k3) * x2 c));
        [ring|].
      rewrite Hmotion1, Hmotion2. ring. }
  destruct (Rtotal_order t 0) as [Hlt|[->|Hgt]]; [|reflexivity|].
  - destruct (MVT_cor2 E (fun _ => 0) t 0 Hlt (fun c _ => HE c))
      as (c & Hc' & _).
    lra.
  - destruct (MVT_cor2 E (fun _ => 0) 0 t Hgt (fun c _ => HE c))
      as (c & Hc' & _).
    lra.
Qed.

(** A motion that starts at rest at the origin stays there. *)
Lemma motion_from_rest :
  x1 0 = 0 -> x2 0 = 0 -> v1 0 = 0 -> v2 0 = 0 ->
  forall t, x1 t = 0 /\ x2 t = 0 /\ v1 t = 0 /\ v2 t = 0.
Proof.
  intros X1 X2 V1 V2.
  assert (HE : forall t, E t = 0).
  { intros t. rewrite motion_energy_constant. unfold E.
    rewrite X1, X2, V1, V2. field. }
  assert (Hv : forall t, v1 t = 0 /\ v2 t = 0).
  { intros t. specialize (HE t). unfold E in HE.
    pose proof (pow2_ge_0 (v1 t)). pose proof (pow2_ge_0 (v2 t)).
    pose proof (pow2_ge_0 (x1 t)). pose proof (pow2_ge_0 (x2 t)).
    pose proof (pow2_ge_0 (x2 t - x1 t)).
    assert (0 <= k1 * x1 t ^ 2) by (apply Rmult_le_pos; assumption).
    assert (0 <= k2 * (x2 t - x1 t) ^ 2) by (apply Rmult_le_pos; assumption).
    assert (0 <= k3 * x2 t ^ 2) by (apply Rmult_le_pos; assumption).
    assert (0 <= m1 * v1 t ^ 2) by (apply Rmult_le_pos; lra).
    assert (0 <= m2 * v2 t ^ 2) by (apply Rmult_le_pos; lra).
    assert (E1 : m1 * v1 t ^ 2 = 0) by lra.
    assert (E2 : m2 * v2 t ^ 2 = 0) by lra.
    assert (S1 : v1 t * v1 t = 0).
    { apply Rmult_integral in E1. destruct E1 as [E1|E1]; [lra|].
      rewrite <- E1. ring. }
    assert (S2 : v2 t * v2 t = 0).
    { apply Rmult_integral in E2. destruct E2 as [E2|E2]; [lra|].
      rewrite <- E2. ring. }
    apply Rmult_integral in S1, S2. tauto. }
  assert (Hconst : forall (f : R -> R) (f' : R -> R),
             (forall t, derivable_pt_lim f t (f' t)) ->
             (forall t, f' t = 0) -> f 0 = 0 -> forall t, f t = 0).
  { intros f f' Hf Hz H0 t.
    destruct (Rtotal_order t 0) as [Hlt|[->|Hgt]]; [|assumption|].
    - destruct (MVT_cor2 f f' t 0 Hlt (fun c _ => Hf c)) as (c & Hc & _).
      rewrite Hz in Hc. lra.
    - destruct (MVT_cor2 f f' 0 t Hgt (fun c _ => Hf c)) as (c & Hc & _).
      rewrite Hz in Hc. lra. }
  intros t. split; [|split; [|apply Hv]].
  - apply (Hconst x1 v1); [assumption|apply Hv|assumption].
  - apply (Hconst x2 v2); [assumption|apply Hv|assumption].
Qed.

End Motion.

Section Uniqueness.

Local Open Scope R_scope.

Variables (m1 m2 k1 k2 k3 : R).
Hypothesis Hm1 : 0 < m1.
Hypothesis Hm2 : 0 < m2.
Hypothesis Hk1 : 0 <= k1.
Hypothesis Hk2 : 0 <= k2.
Hypothesis Hk3 : 0 <= k3.

(** Two motions of the same system. *)
Variables (x1 x2 v1 v2 a1 a2 : R -> R).
Variables (y1 y2 w1 w2 b1 b2 : R -> R).
Hypothesis Hx1 : forall t, derivable_pt_lim x1 t (v1 t).
Hypothesis Hx2 : forall t, derivable_pt_lim x2 t (v2 t).
Hypothesis Hv1 : forall t, derivable_pt_lim v1 t (a1 t).
Hypothesis Hv2 : forall t, derivable_pt_lim v2 t (a2 t).
Hypothesis Hy1 : forall t, derivable_pt_lim y1 t (w1 t).
Hypothesis Hy2 : forall t, derivable_pt_lim y2 t (w2 t).
Hypothesis Hw1 : forall t, derivable_pt_lim w1 t (b1 t).
Hypothesis Hw2 : forall t, derivable_pt_lim w2 t (b2 t).
Hypothesis Hxa1 : forall t, m1 * a1 t = - (k1 + k2) * x1 t + k2 * x2 t.
Hypothesis Hxa2 : forall t, m2 * a2 t = k2 * x1 t - (k2 + k3) * x2 t.
Hypothesis Hyb1 : forall t, m1 * b1 t = - (k1 + k2) * y1 t + k2 * y2 t.
Hypothesis Hyb2 : forall t, m2 * b2 t = k2 * y1 t - (k2 + k3) * y2 t.

(** The equations of motion and the initial conditions determine the
    motion. *)
Lemma motion_unique :
  x1 0 = y1 0 -> x2 0 = y2 0 -> v1 0 = w1 0 -> v2 0 = w2 0 ->
  forall t, x1 t = y1 t /\ x2 t = y2 t /\ v1 t = w1 t /\ v2 t = w2 t
            /\ a1 t = b1 t /\ a2 t = b2 t.
Proof.
  intros X1 X2 V1 V2 t.
  destruct (motion_from_rest m1 m2 k1 k2 k3 Hm1 Hm2 Hk1 Hk2 Hk3
              (fun t => x1 t - y1 t) (fun t => x2 t - y2 t)
              (fun t => v1 t - w1 t) (fun t => v2 t - w2 t)
              (fun t => a1 t - b1 t) (fun t => a2 t - b2 t))
    with (t := t) as (D1 & D2 & D3 & D4).
  - intros c. apply (derivable_pt_lim_minus x1 y1); [apply Hx1|apply Hy1].
  - intros c. apply (derivable_pt_lim_minus x2 y2); [apply Hx2|apply Hy2].
  - intros c. apply (derivable_pt_lim_minus v1 w1); [apply Hv1|apply Hw1].
  - intros c. apply (derivable_pt_lim_minus v2 w2); [apply Hv2|apply Hw2].
  - intros c. cbv beta.
    pose proof (Hxa1 c). pose proof (Hyb1 c). lra.
  - intros c. cbv beta.
    pose proof (Hxa2 c). pose proof (Hyb2 c). lra.
  - lra.
  - lra.
  - lra.
  - lra.
  - cbv beta in *.
    pose proof (Hxa1 t) as A1. pose proof (Hyb1 t) as B1.
    pose proof (Hxa2 t) as A2. pose proof (Hyb2 t) as B2.
    assert (E1 : x1 t = y1 t) by lra.
    assert (E2 : x2 t = y2 t) by lra.
    rewrite E1, E2 in A1, A2.
    repeat (split; [lra|]).
    split.
    + apply (Rmult_eq_reg_l m1); [|lra]. lra.
    + apply (Rmult_eq_reg_l m2); [|lra]. lra.
Qed.

End Uniqueness.

Section Agreement.

Import Oscillator.
Local Open Scope R_scope.

Variable p : params.
Hypothesis Hm1 : 0 < m1 p.
Hypothesis Hm2 : 0 < m2 p.

(** The lower frequency of [Physics.solve] is the lower frequency of the
    oscillator. *)
Lemma solve_frequency :
  0 <= k2 p ->
  Physics.omega1 (Physics.solve (three_spring p))
  = sqrt (Rmax 0 (lam1 p)).
Proof.
  intros Hk2.
  unfold Physics.solve, Physics.stiffness, three_spring.
  cbn [Physics.config Physics.m1 Physics.m2 Physics.k1 Physics.k2
       Physics.k3 Physics.x10 Physics.x20 Physics.v10 Physics.v20].
  rewrite String.eqb_refl.
  destruct (Physics.eigenvectors _ _ _ _ _ _) as [f1 f2].
  cbn [Physics.omega1].
  assert (E : Rmax 0
                (((k1 p + k2 p) / m1 p + (k2 p + k3 p) / m2 p)
                 * ((k1 p + k2 p) / m1 p + (k2 p + k3 p) / m2 p)
                 - 4 * ((k1 p + k2 p) / m1 p * ((k2 p + k3 p) / m2 p)
                        - - k2 p / m1 p * (- k2 p / m2 p)))
              = (a p - b p) ^ 2 + 4 * c2 p).
  { pose proof (pow2_ge_0 (a p - b p)).
    pose proof (c2_nonneg p Hm1 Hm2).
    replace (((k1 p + k2 p) / m1 p + (k2 p + k3 p) / m2 p)
             * ((k1 p + k2 p) / m1 p + (k2 p + k3 p) / m2 p)
             - 4 * ((k1 p + k2 p) / m1 p * ((k2 p + k3 p) / m2 p)
                    - - k2 p / m1 p * (- k2 p / m2 p)))
      with ((a p - b p) ^ 2 + 4 * c2 p)
      by (unfold a, b, c2; field; split; lra).
    apply Rmax_right. lra. }
  rewrite E. reflexivity.
Qed.

End Agreement.

Section SolversAgree.

Local Open Scope R_scope.

(** Over the reals, [Physics.solve] with the configuration
    ['three-spring'] and [CoupledOscillator] compute the same motion:
    the same positions, velocities and accelerations of both masses at
    every time, for masses [m1, m2 > 0] within a factor 1e18 of each
    other, [k1, k3 >= 0], a coupling [k2 >= 1e-14] that exceeds
    [1e-12 * m1] or [1e-12 * m2], and a lower frequency above 1e-12. *)
Lemma solvers_same_motion :
  forall (p : Oscillator.params) (t : R),
    0 < Oscillator.m1 p -> 0 < Oscillator.m2 p ->
    Oscillator.m1 p <= 1e18 * Oscillator.m2 p ->
    Oscillator.m2 p <= 1e18 * Oscillator.m1 p ->
    0 <= Oscillator.k1 p -> 0 <= Oscillator.k3 p ->
    1e-14 <= Oscillator.k2 p ->
    1e-12 * Oscillator.m1 p < Oscillator.k2 p
    \/ 1e-12 * Oscillator.m2 p < Oscillator.k2 p ->
    1e-12 < Oscillator.omega1 (Oscillator._compute p) ->
    let o := Oscillator._compute p in
    let r := Physics.solve (three_spring p) in
    Oscillator.position o 1 t = Physics.x1 r t
    /\ Oscillator.position o 2 t = Physics.x2 r t
    /\ Oscillator.velocity o 1 t = Physics.v1 r t
    /\ Oscillator.velocity o 2 t = Physics.v2 r t
    /\ Oscillator.acceleration o 1 t = Physics.a1 r t
    /\ Oscillator.acceleration o 2 t = Physics.a2 r t.
Proof.
  intros p t Hm1 Hm2 Hr1 Hr2 Hk1 Hk3 Hk2 Hc Hw o r.
  assert (Hk : 1e-14 <= Rabs (Oscillator.k2 p))
    by (rewrite Rabs_pos_eq; lra).
  assert (Hk2' : 0 <= Oscillator.k2 p) by lra.
  pose proof (ratios_apart p Hm1 Hm2 Hr2 Hk2) as Hden.
  destruct (initial_coupled p Hm1 Hm2 Hk) as (X1 & X2 & V & _).
  specialize (X2 Hden).
  cbv zeta in X1, X2, V. destruct (V Hden) as (V1 & V2).
  { cbv zeta. unfold o in *. lra. }
  fold o in X1, X2, V1, V2.
  assert (Hq : forall P Q R' : Prop, P \/ Q -> R' \/ P \/ Q) by tauto.
  destruct (solve_initial (three_spring p) Hm1 Hm2 Hk1 Hk2' Hk3 Hr1 Hr2
              (Hq _ _ _ Hc))
    as (Y1 & Y2 & W).
  destruct W as (W1 & W2).
  { rewrite (solve_frequency p Hm1 Hm2 Hk2').
    unfold o, Oscillator._compute in Hw.
    rewrite (Rltb_false _ _ Hk) in Hw. exact Hw. }
  fold r in Y1, Y2, W1, W2.
  cbn [three_spring Physics.x10 Physics.x20 Physics.v10 Physics.v20]
    in Y1, Y2, W1, W2.
  apply (motion_unique (Oscillator.m1 p) (Oscillator.m2 p)
           (Oscillator.k1 p) (Oscillator.k2 p) (Oscillator.k3 p)
           Hm1 Hm2 Hk1 Hk2' Hk3
           (Oscillator.position o 1) (Oscillator.position o 2)
           (Oscillator.velocity o 1) (Oscillator.velocity o 2)
           (Oscillator.acceleration o 1) (Oscillator.acceleration o 2)
           (Physics.x1 r) (Physics.x2 r) (Physics.v1 r) (Physics.v2 r)
           (Physics.a1 r) (Physics.a2 r)).
  - intros c. apply motion_derivative.
  - intros c. apply motion_derivative.
  - intros c. apply motion_derivative.
  - intros c. apply motion_derivative.
  - intros c. apply (solve_derivative (three_spring p) c).
  - intros c. apply (solve_derivative (three_spring p) c).
  - intros c. apply (solve_derivative (three_spring p) c).
  - intros c. apply (solve_derivative (three_spring p) c).
  - intros c. apply (coupled_motion p Hm1 Hm2 c Hk1 Hk2' Hk3 Hk).
  - intros c. apply (coupled_motion p Hm1 Hm2 c Hk1 Hk2' Hk3 Hk).
  - intros c.
    apply (solve_motion (three_spring p) c Hm1 Hm2 Hk1 Hk2' Hk3 Hr1 Hr2
             (Hq _ _ _ Hc)).
  - intros c.
    apply (solve_motion (three_spring p) c Hm1 Hm2 Hk1 Hk2' Hk3 Hr1 Hr2
             (Hq _ _ _ Hc)).
  - rewrite X1, Y1. reflexivity.
  - rewrite X2, Y2. reflexivity.
  - rewrite V1, W1. reflexivity.
  - rewrite V2, W2. reflexivity.
Qed.

(** [Physics.solve] with the configuration ['three-spring'] and
    [CoupledOscillator] compute the same motion within 1e-6: the
    positions, velocities and accelerations of both masses at every time
    [t] with [|t| <= 100], in a moderate configuration (masses and
    spring constants between 0.1 and 10, initial displacements and
    velocities of at most 10 in magnitude). *)
Theorem solvers_agree :
  forall (p : Oscillator.params) (t : R),
    moderate p -> 0.1 <= Oscillator.k2 p -> Rabs t <= 100 ->
    let o := Oscillator._compute p in
    let r := Physics.solve (three_spring p) in
    Rabs (Oscillator.position o 1 t - Physics.x1 r t) <= 1e-6
    /\ Rabs (Oscillator.position o 2 t - Physics.x2 r t) <= 1e-6
    /\ Rabs (Oscillator.velocity o 1 t - Physics.v1 r t) <= 1e-6
    /\ Rabs (Oscillator.velocity o 2 t - Physics.v2 r t) <= 1e-6
    /\ Rabs (Oscillator.acceleration o 1 t - Physics.a1 r t) <= 1e-6
    /\ Rabs (Oscillator.acceleration o 2 t - Physics.a2 r t) <= 1e-6.
Proof.
  intros p t [Hsys _] Hk2 _ o r.
  destruct (moderate_masses p Hsys) as [Hm1 Hm2].
  pose proof (moderate_omega1_above p Hsys Hk2) as Hw.
  destruct Hsys as (M1 & M2 & K1 & _ & K3).
  destruct (solvers_same_motion p t Hm1 Hm2 ltac:(lra) ltac:(lra)
              ltac:(lra) ltac:(lra) ltac:(lra) ltac:(left; lra)
              ltac:(lra))
    as (X1 & X2 & V1 & V2 & A1 & A2).
  fold o r in X1, X2, V1, V2, A1, A2.
  rewrite X1, X2, V1, V2, A1, A2.
  repeat split; (rewrite Rminus_diag, Rabs_R0; lra).
Qed.

Lemma solvers_agree_witness :
  let p := Oscillator.mkParams 1 1 1 1 1 1 0 0 0 in
  let o := Oscillator._compute p in
  let r := Physics.solve (three_spring p) in
  Rabs (Oscillator.position o 1 2 - Physics.x1 r 2) <= 1e-6
  /\ Rabs (Oscillator.position o 2 2 - Physics.x2 r 2) <= 1e-6
  /\ Rabs (Oscillator.velocity o 1 2 - Physics.v1 r 2) <= 1e-6
  /\ Rabs (Oscillator.velocity o 2 2 - Physics.v2 r 2) <= 1e-6
  /\ Rabs (Oscillator.acceleration o 1 2 - Physics.a1 r 2) <= 1e-6
  /\ Rabs (Oscillator.acceleration o 2 2 - Physics.a2 r 2) <= 1e-6.
Proof.
  apply (solvers_agree (Oscillator.mkParams 1 1 1 1 1 1 0 0 0) 2).
  - moderate_config.
  - cbn [Oscillator.k2]. lra.
  - apply Rabs_le; lra.
Defined.

End SolversAgree.

Section PhysicsEnergy.

Local Open Scope R_scope.

(** Over the reals, under the conditions of the equations of motion,
    the state returned by [valuesAtTime] has the same mechanical energy
    at every time; when the lower frequency exceeds 1e-12 it is the
    energy of the initial conditions. *)
Lemma solve_energy_constant :
  forall (p : Physics.params) (t : R),
    0 < Physics.m1 p -> 0 < Physics.m2 p ->
    0 <= Physics.k1 p -> 0 <= Physics.k2 p -> 0 <= Physics.k3 p ->
    Physics.m1 p <= 1e18 * Physics.m2 p ->
    Physics.m2 p <= 1e18 * Physics.m1 p ->
    Physics.k2 p = 0 \/ 1e-12 * Physics.m1 p < Physics.k2 p
    \/ 1e-12 * Physics.m2 p < Physics.k2 p ->
    let r := Physics.solve p in
    physics_energy p (Physics.valuesAtTime r t)
    = physics_energy p (Physics.valuesAtTime r 0)
    /\ (1e-12 < Physics.omega1 r ->
        physics_energy p (Physics.valuesAtTime r t)
        = physics_energy p
            (Physics.Values.mkValues
               (Physics.x10 p) (Physics.x20 p)
               (Physics.v10 p) (Physics.v20 p)
               (Physics.a1 r 0) (Physics.a2 r 0))).
Proof.
  intros p t Hm1 Hm2 Hk1 Hk2 Hk3 Hr1 Hr2 Hc r.
  assert (Ht : physics_energy p (Physics.valuesAtTime r t)
               = physics_energy p (Physics.valuesAtTime r 0)).
  { unfold physics_energy, Physics.valuesAtTime.
    cbn [Physics.Values.x1 Physics.Values.x2
         Physics.Values.v1 Physics.Values.v2].
    apply (motion_energy_constant
             (Physics.m1 p) (Physics.m2 p) (Physics.k1 p) (Physics.k2 p)
             (if String.eqb (Physics.config p) "three-spring"
              then Physics.k3 p else 0)
             (Physics.x1 r) (Physics.x2 r) (Physics.v1 r) (Physics.v2 r)
             (Physics.a1 r) (Physics.a2 r)).
    - intros c. apply (solve_derivative p c).
    - intros c. apply (solve_derivative p c).
    - intros c. apply (solve_derivative p c).
    - intros c. apply (solve_derivative p c).
    - intros c.
      apply (solve_motion p c Hm1 Hm2 Hk1 Hk2 Hk3 Hr1 Hr2 Hc).
    - intros c.
      destruct (solve_motion p c Hm1 Hm2 Hk1 Hk2 Hk3 Hr1 Hr2 Hc)
        as [_ M2].
      fold r in M2. rewrite M2.
      destruct (String.eqb (Physics.config p) "three-spring"); ring. }
  split; [exact Ht|].
  intros Hw. rewrite Ht.
  destruct (solve_initial p Hm1 Hm2 Hk1 Hk2 Hk3 Hr1 Hr2 Hc)
    as (X1 & X2 & V).
  destruct (V Hw) as (V1 & V2).
  fold r in X1, X2, V1, V2.
  unfold physics_energy, Physics.valuesAtTime.
  cbn [Physics.Values.x1 Physics.Values.x2
       Physics.Values.v1 Physics.Values.v2].
  rewrite X1, X2, V1, V2. reflexivity.
Qed.

(** Conservation of energy in [Physics.solve]: in a moderate
    configuration (masses and spring constants between 0.1 and 10,
    initial displacements and velocities of at most 10 in magnitude),
    the mechanical energy of the state returned by [valuesAtTime] at a
    time [t] with [|t| <= 1e9] is within 1e-6 of the energy at time 0,
    and of the energy of the initial conditions. *)
Theorem solve_energy_conserved :
  forall (p : Physics.params) (t : R),
    physics_moderate p -> Rabs t <= 1e9 ->
    let r := Physics.solve p in
    Rabs (physics_energy p (Physics.valuesAtTime r t)
          - physics_energy p (Physics.valuesAtTime r 0)) <= 1e-6
    /\ Rabs (physics_energy p (Physics.valuesAtTime r t)
             - physics_energy p
                 (Physics.Values.mkValues
                    (Physics.x10 p) (Physics.x20 p)
                    (Physics.v10 p) (Physics.v20 p)
                    (Physics.a1 r 0) (Physics.a2 r 0))) <= 1e-6.
Proof.
  intros p t Hmod _ r.
  pose proof (moderate_solve_omega1 p Hmod) as Hw.
  destruct Hmod as (Hm1 & Hm2 & Hk1 & Hk2 & Hk3 & _).
  destruct (solve_energy_constant p t ltac:(lra) ltac:(lra) ltac:(lra)
              ltac:(lra) ltac:(lra) ltac:(lra) ltac:(lra)
              ltac:(right; left; lra))
    as (E & E0).
  fold r in E, E0, Hw. specialize (E0 Hw). rewrite <- E0, E.
  split; (rewrite Rminus_diag, Rabs_R0; lra).
Qed.

Lemma solve_energy_conserved_witness :
  let p := Physics.mkParams "two-spring" 2 3 1.5 0.8 2 1 0.5 0 0 in
  let r := Physics.solve p in
  Rabs (physics_energy p (Physics.valuesAtTime r 2.5)
        - physics_energy p (Physics.valuesAtTime r 0)) <= 1e-6
  /\ Rabs (physics_energy p (Physics.valuesAtTime r 2.5)
           - physics_energy p
               (Physics.Values.mkValues 1 0.5 0 0
                  (Physics.a1 r 0) (Physics.a2 r 0))) <= 1e-6.
Proof.
  apply (solve_energy_conserved
           (Physics.mkParams "two-spring" 2 3 1.5 0.8 2 1 0.5 0 0) 2.5).
  - physics_moderate_config.
  - apply Rabs_le; lra.
Defined.

End PhysicsEnergy.
(* ================================================================== *)
(** * Numbers and expressions as LaTeX strings *)

(** * The numbers that [decimalToFraction] takes for zero *)

Section SmallNumbers.

Local Open Scope Q_scope.

Lemma round_small (x : Q) : 0 <= x -> x < 1 # 2 -> Fraction.round x = 0%Z.
Proof.
  intros H0 H1. unfold Fraction.round.
  pose proof (Qfloor_le (x + (1 # 2))) as Hle.
  pose proof (Qlt_floor (x + (1 # 2))) as Hlt.
  assert (A : inject_Z (Qfloor (x + (1 # 2))) < inject_Z 1)
    by (change (inject_Z 1) with 1; lra).
  assert (B : inject_Z 0 < inject_Z (Qfloor (x + (1 # 2)) + 1))
    by (change (inject_Z 0) with 0; lra).
  rewrite <- Zlt_Qlt in A, B. lia.
Qed.

Lemma round_large (x : Q) : 1 # 2 <= x -> (1 <= Fraction.round x)%Z.
Proof.
  intros H. unfold Fraction.round.
  assert (H' : 1 <= x + (1 # 2)) by lra.
  apply Qfloor_resp_le in H'. exact H'.
Qed.

(** The mediant [1/(k+1)] of [0/1] and [1/k]. *)
Lemma unit_mediant (k : Z) :
  (0 <= k)%Z ->
  let v := inject_Z (0 + 1) / inject_Z (1 + k) in
  0 < v /\ v * (inject_Z k + 1) == 1.
Proof.
  intros Hk v.
  assert (Hq : 0 < inject_Z k + 1).
  { assert (inject_Z 0 <= inject_Z k) by (rewrite <- Zle_Qle; assumption).
    change (inject_Z 0) with 0 in *. lra. }
  assert (E : v == / (inject_Z k + 1)).
  { unfold v. rewrite (inject_Z_plus 1 k).
    change (inject_Z (0 + 1)) with 1. change (inject_Z 1) with 1.
    unfold Qdiv. rewrite Qmult_1_l.
    apply Qinv_comp. ring. }
  split.
  - rewrite E. apply Qinv_lt_0_compat. assumption.
  - rewrite E. field. lra.
Qed.

(** The step of the search from a state of the unit phase. *)
Lemma unit_phase_step (x : Q) (maxDen : Z) (tol : Q) (s : Fraction.search) :
  0 <= x -> ~ x < tol -> (200 <= maxDen)%Z ->
  unit_phase x s -> (Fraction.iter s < 200)%Z ->
  let v := inject_Z (0 + 1) / inject_Z (1 + Fraction.iter s) in
  (~ Qabs (x - v) < x ->
   exists s', Fraction.search_body x maxDen tol s = Some (Next s')
              /\ unit_phase x s')
  /\ (Qabs (x - v) < x ->
      exists r, (Fraction.search_body x maxDen tol s = Some (Next r)
                 \/ exists e, Fraction.search_body x maxDen tol s
                              = Some (Return (e, r)))
                /\ (0 <= Fraction.lo_n r)%Z /\ (1 <= Fraction.hi_n r)%Z
                /\ (1 <= Fraction.best_n r)%Z).
Proof.
  intros Hx Htol Hmax (Hln & Hld & Hhn & Hhd & Hit & Hbn & Hbe & Hk) Hlt v.
  destruct s as [k ln ld hn hd bn bd be].
  cbn [Fraction.iter Fraction.lo_n Fraction.lo_d Fraction.hi_n Fraction.hi_d
       Fraction.best_n Fraction.best_d Fraction.bestErr] in *.
  subst ln ld hn hd bn.
  destruct (unit_mediant k ltac:(lia)) as [Hv Hvk]. fold v in Hv, Hvk.
  unfold Fraction.search_body.
  cbn [Fraction.iter Fraction.lo_n Fraction.lo_d Fraction.hi_n Fraction.hi_d
       Fraction.best_n Fraction.best_d Fraction.bestErr].
  replace (k <? 200)%Z with true by (symmetry; apply Z.ltb_lt; assumption).
  replace (1 + k >? maxDen)%Z with false
    by (symmetry; rewrite Z.gtb_ltb; apply Z.ltb_ge; lia).
  fold v.
  split.
  - intros Hfar.
    destruct (Qltb_spec (Qabs (x - v)) be) as [Hc|_];
      [rewrite Hbe in Hc; contradiction|].
    cbn [Fraction.iter Fraction.lo_n Fraction.lo_d Fraction.hi_n
         Fraction.hi_d Fraction.best_n Fraction.best_d Fraction.bestErr].
    destruct (Qltb_spec (Qabs (x - v)) tol) as [Hc|_].
    { exfalso. apply Hfar. lra. }
    assert (Hxv : 2 * x <= v).
    { destruct (Qlt_le_dec v (2 * x)) as [Hc|]; [|assumption].
      exfalso. apply Hfar. apply Qabs_case; intros; lra. }
    destruct (Qltb_spec v x) as [Hc|_]; [lra|].
    eexists. split; [reflexivity|].
    unfold unit_phase.
    cbn [Fraction.iter Fraction.lo_n Fraction.lo_d Fraction.hi_n
         Fraction.hi_d Fraction.best_n Fraction.best_d Fraction.bestErr].
    repeat (split; [first [reflexivity | assumption | lia]|]).
    rewrite inject_Z_plus. change (inject_Z 1) with 1.
    assert (E : 2 * x * (inject_Z k + 1) <= v * (inject_Z k + 1)).
    { apply Qmult_le_compat_r; [assumption|].
      assert (inject_Z 0 <= inject_Z k) by (rewrite <- Zle_Qle; lia).
      change (inject_Z 0) with 0 in *. lra. }
    lra.
  - intros Hnear.
    destruct (Qltb_spec (Qabs (x - v)) be) as [_|Hc];
      [|exfalso; apply Hc; rewrite Hbe; assumption].
    cbn [Fraction.iter Fraction.lo_n Fraction.lo_d Fraction.hi_n
         Fraction.hi_d Fraction.best_n Fraction.best_d Fraction.bestErr].
    destruct (Qltb_spec (Qabs (x - v)) tol) as [_|_].
    { eexists. split; [right; eexists; reflexivity|].
      cbn [Fraction.lo_n Fraction.hi_n Fraction.best_n]. lia. }
    destruct (Qltb_spec v x) as [_|_].
    + eexists. split; [left; reflexivity|].
      cbn [Fraction.lo_n Fraction.hi_n Fraction.best_n]. lia.
    + eexists. split; [left; reflexivity|].
      cbn [Fraction.lo_n Fraction.hi_n Fraction.best_n]. lia.
Qed.

Lemma unit_phase_init (x : Q) :
  0 <= x -> x < 1 # 2 -> unit_phase x (Fraction.search_init x).
Proof.
  intros H0 H1. unfold Fraction.search_init, unit_phase.
  rewrite (round_small x H0 H1).
  cbn [Fraction.iter Fraction.lo_n Fraction.lo_d Fraction.hi_n
       Fraction.hi_d Fraction.best_n Fraction.best_d Fraction.bestErr].
  repeat (split; [first [reflexivity | lia]|]).
  split.
  - change (inject_Z 0) with 0. rewrite Qabs_pos; lra.
  - change (inject_Z 0) with 0. lra.
Qed.

(** Up to 1/400 the search returns zero: every mediant of its 200
    iterations is at least as far from [x] as zero is. *)
Lemma search_zero (x : Q) (maxDen : Z) (tol : Q) e s :
  0 <= x -> ~ x < tol -> x <= 1 # 400 -> (200 <= maxDen)%Z ->
  Fraction.mediant_search x maxDen tol = Some (e, s) ->
  Fraction.best_n s = 0%Z.
Proof.
  intros Hx Htol Hsmall Hmax Hrun.
  assert (Hfar : forall s, unit_phase x s -> (Fraction.iter s < 200)%Z ->
            ~ Qabs (x - inject_Z (0 + 1) / inject_Z (1 + Fraction.iter s))
              < x).
  { intros s0 Hs0 Hlt.
    destruct Hs0 as (_ & _ & _ & _ & Hit & _).
    destruct (unit_mediant (Fraction.iter s0) ltac:(lia)) as [Hv Hvk].
    set (v := inject_Z (0 + 1) / inject_Z (1 + Fraction.iter s0)) in *.
    assert (Hk : inject_Z (Fraction.iter s0) + 1 <= 200).
    { assert (inject_Z (Fraction.iter s0 + 1) <= inject_Z 200)
        by (rewrite <- Zle_Qle; lia).
      rewrite inject_Z_plus in H.
      change (inject_Z 1) with 1 in H. change (inject_Z 200) with 200 in H.
      exact H. }
    assert (Hv200 : 1 <= 200 * v).
    { assert (v * (inject_Z (Fraction.iter s0) + 1) <= v * 200)
        by (apply Qmult_le_l; assumption).
      lra. }
    intros Hc. revert Hc. apply Qabs_case; intros; lra. }
  change (Fraction.best_n (snd (e, s)) = 0%Z).
  apply (run_invariant (Fraction.search_body x maxDen tol) (unit_phase x)
           (fun r => Fraction.best_n (snd r) = 0%Z))
    with (fuel := 201%nat) (s := Fraction.search_init x).
  - intros s0 s' Hs0 Hb.
    assert (Hlt : (Fraction.iter s0 < 200)%Z).
    { destruct (Z.ltb_spec (Fraction.iter s0) 200) as [|Hge]; [assumption|].
      unfold Fraction.search_body in Hb.
      replace (Fraction.iter s0 <? 200)%Z with false in Hb
        by (symmetry; apply Z.ltb_ge; assumption).
      discriminate. }
    destruct (unit_phase_step x maxDen tol s0 Hx Htol Hmax Hs0 Hlt)
      as [Hstep _].
    destruct (Hstep (Hfar s0 Hs0 Hlt)) as (s1 & E1 & Hs1).
    rewrite E1 in Hb. injection Hb as <-. exact Hs1.
  - intros s0 r Hs0 Hb.
    destruct (Z.ltb_spec (Fraction.iter s0) 200) as [Hlt|Hge].
    + destruct (unit_phase_step x maxDen tol s0 Hx Htol Hmax Hs0 Hlt)
        as [Hstep _].
      destruct (Hstep (Hfar s0 Hs0 Hlt)) as (s1 & E1 & Hs1).
      rewrite E1 in Hb. discriminate.
    + unfold Fraction.search_body in Hb.
      replace (Fraction.iter s0 <? 200)%Z with false in Hb
        by (symmetry; apply Z.ltb_ge; assumption).
      injection Hb as <-. cbn [snd].
      destruct Hs0 as (_ & _ & _ & _ & _ & Hbn & _). exact Hbn.
  - apply unit_phase_init; lra.
  - exact Hrun.
Qed.

(** Above 1/400 it does not: a mediant closer to [x] than zero is met
    within the 200 iterations. *)
Lemma search_nonzero (x : Q) (maxDen : Z) (tol : Q) e s :
  0 <= x -> ~ x < tol -> 1 # 400 < x -> (200 <= maxDen)%Z ->
  Fraction.mediant_search x maxDen tol = Some (e, s) ->
  (1 <= Fraction.best_n s)%Z.
Proof.
  intros Hx Htol Hbig Hmax Hrun.
  set (I := fun s : Fraction.search =>
              unit_phase x s
              \/ ((0 <= Fraction.lo_n s)%Z /\ (1 <= Fraction.hi_n s)%Z
                  /\ (1 <= Fraction.best_n s)%Z)).
  assert (Hcap : forall s0, unit_phase x s0 -> (Fraction.iter s0 < 200)%Z).
  { intros s0 (_ & _ & _ & _ & Hit & _ & _ & Hk).
    destruct (Z.ltb_spec (Fraction.iter s0) 200) as [|Hge]; [assumption|].
    exfalso.
    assert (E : Fraction.iter s0 = 200%Z) by lia.
    rewrite E in Hk. change (inject_Z 200) with 200 in Hk. lra. }
  assert (Hbody : forall s0, I s0 ->
            (forall s', Fraction.search_body x maxDen tol s0 = Some (Next s')
                        -> I s')
            /\ (forall r, Fraction.search_body x maxDen tol s0
                          = Some (Return r) ->
                          (1 <= Fraction.best_n (snd r))%Z)).
  { intros s0 [Hu|(Hl & Hh & Hb)].
    - pose proof (Hcap s0 Hu) as Hlt.
      destruct (unit_phase_step x maxDen tol s0 Hx Htol Hmax Hu Hlt)
        as [Hfar Hnear].
      set (v := inject_Z (0 + 1) / inject_Z (1 + Fraction.iter s0)) in *.
      destruct (Qlt_le_dec (Qabs (x - v)) x) as [Hc|Hc].
      + destruct (Hnear Hc) as (r & [E|(e0 & E)] & Hr); rewrite E.
        * split; [|discriminate].
          intros s' [= <-]. right. exact Hr.
        * split; [discriminate|].
          intros r0 [= <-]. cbn [snd]. apply Hr.
      + destruct (Hfar ltac:(lra)) as (s1 & E & Hs1). rewrite E.
        split; [|discriminate].
        intros s' [= <-]. left. exact Hs1.
    - unfold Fraction.search_body.
      destruct (Fraction.iter s0 <? 200)%Z.
      + destruct (_ >? maxDen)%Z.
        * split; [discriminate|]. intros r [= <-]. exact Hb.
        * match goal with
          | |- context [if Qltb ?a ?b then ?s1 else s0] =>
              set (t := if Qltb a b then s1 else s0)
          end.
          assert (Ht : (0 <= Fraction.lo_n t)%Z /\ (1 <= Fraction.hi_n t)%Z
                       /\ (1 <= Fraction.best_n t)%Z).
          { unfold t. destruct (Qltb _ (Fraction.bestErr s0));
              cbn [Fraction.lo_n Fraction.hi_n Fraction.best_n]; lia. }
          destruct (Qltb _ tol).
          { split; [discriminate|]. intros r [= <-]. apply Ht. }
          destruct (Qltb _ x).
          { split; [|discriminate]. intros s' [= <-]. right.
            cbn [Fraction.lo_n Fraction.hi_n Fraction.best_n]. lia. }
          { split; [|discriminate]. intros s' [= <-]. right.
            cbn [Fraction.lo_n Fraction.hi_n Fraction.best_n]. lia. }
      + split; [discriminate|]. intros r [= <-]. exact Hb. }
  change (1 <= Fraction.best_n (snd (e, s)))%Z.
  apply (run_invariant (Fraction.search_body x maxDen tol) I
           (fun r => (1 <= Fraction.best_n (snd r))%Z))
    with (fuel := 201%nat) (s := Fraction.search_init x).
  - intros s0 s' Hs0 Hb. apply (Hbody s0 Hs0). exact Hb.
  - intros s0 r Hs0 Hb. apply (Hbody s0 Hs0). exact Hb.
  - destruct (Qlt_le_dec x (1 # 2)) as [Hs|Hl].
    + left. apply unit_phase_init; assumption.
    + right. unfold Fraction.search_init.
      cbn [Fraction.lo_n Fraction.hi_n Fraction.best_n].
      pose proof (round_large x Hl). lia.
  - exact Hrun.
Qed.

End SmallNumbers.

Section ZeroThreshold.

Local Open Scope Q_scope.

(** The numerator of [decimalToFraction] is zero exactly when the search
    ends on a zero candidate. *)
Lemma decimalToFraction_vanishes (x : Q) (maxDen : Z) (tol : Q) :
  (200 <= maxDen)%Z ->
  exists f,
    Fraction.decimalToFraction (Finite x) maxDen tol = Some f
    /\ (number_is_zero (Fraction.num f) = true
        <-> Qabs x < tol \/ Qabs x <= 1 # 400).
Proof.
  intros Hmax.
  destruct (Qlt_le_dec (Qabs x) tol) as [Hlt|Hge].
  - exists (Fraction.mkFraction (Finite 0) 1). split.
    + unfold Fraction.decimalToFraction.
      destruct (Qltb_spec (Qabs x) tol) as [_|Hc]; [reflexivity|].
      contradiction.
    + cbn [Fraction.num number_is_zero]. split; [intros _; left|]; auto.
  - assert (Htol : ~ Qabs x < tol) by (apply Qle_not_lt; assumption).
    destruct (decimalToFraction_searched x maxDen tol Htol)
      as (e & s & f & z & Hrun & Hf & Hnum & Hred & Hbd & Hval & _).
    exists f. split; [exact Hf|].
    rewrite Hnum. cbn [number_is_zero].
    assert (Hden : (0 < Fraction.den f)%Z) by (destruct Hred; assumption).
    assert (Hsign : ((if Qltb x 0 then -1 else 1) = -1
                     \/ (if Qltb x 0 then -1 else 1) = 1)%Z)
      by (destruct (Qltb x 0); auto).
    assert (Hz : z = 0%Z <-> Fraction.best_n s = 0%Z).
    { split; intros E.
      - rewrite E in Hval.
        destruct Hsign as [Es|Es]; rewrite Es in Hval; nia.
      - rewrite E in Hval.
        destruct Hsign as [Es|Es]; rewrite Es in Hval; nia. }
    assert (Hq : Qeq_bool (inject_Z z) 0 = true <-> z = 0%Z).
    { rewrite Qeq_bool_iff. change 0 with (inject_Z 0).
      rewrite inject_Z_injective. reflexivity. }
    rewrite Hq, Hz.
    destruct (Qlt_le_dec (1 # 400) (Qabs x)) as [Hbig|Hsmall].
    + pose proof (search_nonzero (Qabs x) maxDen tol e s (Qabs_nonneg x)
                    Htol Hbig Hmax Hrun).
      split; [lia|]. intros [Hc|Hc]; [contradiction|lra].
    + pose proof (search_zero (Qabs x) maxDen tol e s (Qabs_nonneg x)
                    Htol Hsmall Hmax Hrun).
      split; [intros _; right; assumption|intros _; assumption].
Qed.

(** Under a bound [maxDen >= 200], [decimalToFraction] returns the
    numerator zero for the numbers below the tolerance and for those up
    to 1/400 in magnitude: the search stops after 200 iterations, the
    mediants of which are for such a number the unit fractions down to
    [1/200], none of them closer to it than zero.  It returns a
    numerator that is not zero for the numbers of at least
    [1/400 + 1e-15] in magnitude that are not below the tolerance. *)
Theorem decimalToFraction_zero_threshold :
  (forall (x : Q) (maxDen : Z) (tol : Q),
      (200 <= maxDen)%Z ->
      Qabs x < tol \/ Qabs x <= 1 # 400 ->
      exists f,
        Fraction.decimalToFraction (Finite x) maxDen tol = Some f
        /\ number_is_zero (Fraction.num f) = true)
  /\ (forall (x : Q) (maxDen : Z) (tol : Q),
         (200 <= maxDen)%Z ->
         ~ Qabs x < tol ->
         (1 # 400) + (1 # 1000000000000000) <= Qabs x ->
         exists f,
           Fraction.decimalToFraction (Finite x) maxDen tol = Some f
           /\ number_is_zero (Fraction.num f) = false).
Proof.
  split.
  - intros x maxDen tol Hmax Hsmall.
    destruct (decimalToFraction_vanishes x maxDen tol Hmax) as (f & Hf & Hz).
    exists f. split; [exact Hf|]. apply Hz. exact Hsmall.
  - intros x maxDen tol Hmax Htol Hbig.
    destruct (decimalToFraction_vanishes x maxDen tol Hmax) as (f & Hf & Hz).
    exists f. split; [exact Hf|].
    destruct (number_is_zero (Fraction.num f)); [exfalso|reflexivity].
    destruct (proj1 Hz eq_refl) as [Hc|Hc]; [contradiction|].
    revert Hbig Hc. generalize (Qabs x). intros a Hbig Hc.
    assert (H : (1 # 400) + (1 # 1000000000000000) <= 1 # 400)
      by (apply Qle_trans with a; assumption).
    revert H. vm_compute. intros H. apply H. reflexivity.
Qed.

Lemma decimalToFraction_zero_threshold_witness :
  (exists f,
      Fraction.decimalToFraction (Finite (1 # 401)) Fraction.default_maxDen
                                 Fraction.default_tol = Some f
      /\ number_is_zero (Fraction.num f) = true)
  /\ (exists f,
         Fraction.decimalToFraction (Finite (1 # 399)) Fraction.default_maxDen
                                    Fraction.default_tol = Some f
         /\ number_is_zero (Fraction.num f) = false).
Proof.
  split.
  - apply (proj1 decimalToFraction_zero_threshold).
    + unfold Fraction.default_maxDen. lia.
    + right. vm_compute. discriminate.
  - apply (proj2 decimalToFraction_zero_threshold).
    + unfold Fraction.default_maxDen. lia.
    + vm_compute. discriminate.
    + vm_compute. discriminate.
Defined.

End ZeroThreshold.

(** * latex.js: the expression builder *)

Section ExpressionBuilder.

Local Open Scope Q_scope.

Variable pr : printer.

Lemma length_append (s1 s2 : string) :
  String.length (s1 ++ s2) = (String.length s1 + String.length s2)%nat.
Proof.
  induction s1 as [|c s1 IH]; [reflexivity|].
  cbn [append String.length plus]. rewrite IH. reflexivity.
Qed.

Lemma trig_long (latex : string) (t : Latex.term) :
  (2 <= String.length (latex ++ Latex.trig t))%nat.
Proof.
  unfold Latex.trig. rewrite !length_append.
  cbn [String.length]. lia.
Qed.

Lemma concat_long (p : string) (ps : list string) :
  (2 <= String.length p)%nat ->
  (2 <= String.length (String.concat " " (cons p ps)))%nat.
Proof.
  intros Hp. destruct ps as [|p' ps]; [exact Hp|].
  cbn [String.concat]. rewrite length_append. lia.
Qed.

(** A unit fraction in lowest terms is [1/1] or [-1/1], and has the sign
    of the number it approximates within 1/2. *)
Lemma unit_fraction (x : Q) (z d : Z) :
  reduced z d -> err x z d <= 1 # 2 ->
  Qeq_bool (Qabs (inject_Z z)) (inject_Z (Z.abs d)) = true ->
  d = 1%Z /\ ((z = 1%Z /\ ~ x < 0) \/ (z = (-1)%Z /\ x < 0)).
Proof.
  intros (Hd & Hg & _) He Hm.
  apply Qeq_bool_iff in Hm.
  assert (Ez : Z.abs z = d).
  { assert (E : Qabs (inject_Z z) == inject_Z (Z.abs z))
      by (apply Qabs_integer; reflexivity).
    rewrite E in Hm. rewrite inject_Z_injective in Hm. lia. }
  rewrite Ez, Z.gcd_diag in Hg.
  assert (Ed : d = 1%Z) by lia.
  split; [exact Ed|].
  rewrite Ed in He, Ez. rewrite err_integer in He.
  destruct (Z.abs_spec z) as [[_ E]|[_ E]].
  - left. assert (z = 1%Z) by lia. subst z.
    split; [reflexivity|].
    change (inject_Z 1) with 1 in He.
    revert He. apply Qabs_case; intros; lra.
  - right. assert (z = (-1)%Z) by lia. subst z.
    split; [reflexivity|].
    change (inject_Z (-1)) with (-1 # 1) in He.
    revert He. apply Qabs_case; intros; lra.
Qed.

(** What the body of the loop of [buildExpression] does with a term. *)
Lemma build_body_part (s : Latex.builder) (t : Latex.term) :
  exists latex isZero,
    Latex.coeffLatex pr (Latex.coeff t) (negb (Latex.firstWritten s)) true
    = Some (latex, isZero)
    /\ Latex.build_body pr s t
       = Some (if isZero then s
               else Latex.mkBuilder
                      (Latex.parts s
                       ++ cons (latex ++ Latex.trig t)%string nil)
                      true)
    /\ (isZero = true <-> negligible (Latex.coeff t)).
Proof.
  unfold Latex.build_body, Latex.coeffLatex.
  destruct (Latex.coeff t) as [x| | |].
  - destruct (decimalToFraction_vanishes x Fraction.default_maxDen
                Fraction.default_tol ltac:(unfold Fraction.default_maxDen; lia))
      as (f & Hf & Hz).
    assert (Hneg : number_is_zero (Fraction.num f) = true
                   <-> negligible (Finite x)).
    { rewrite Hz. unfold negligible, Fraction.default_tol. split.
      - intros H. exists x. split; [reflexivity|]. lra.
      - intros (q & [= <-] & Hq). right. exact Hq. }
    rewrite Hf. cbn [bind].
    destruct (number_is_zero (Fraction.num f)) eqn:Hzero.
    + exists ""%string, true. cbn [bind].
      split; [reflexivity|]. split; [reflexivity|]. exact Hneg.
    + eexists _, false. split; [reflexivity|].
      split; [|rewrite <- Hneg; split; intros; discriminate].
      cbn [bind].
      match goal with
      | |- (if ?c && _ then _ else _) = _ => destruct c eqn:Hone
      end; [|reflexivity].
      cbn [andb negb].
      (* the case of a coefficient of magnitude one *)
      assert (Htol : ~ Qabs x < Fraction.default_tol).
      { intros Hc.
        assert (E : false = true) by (apply Hz; left; exact Hc).
        discriminate. }
      destruct (decimalToFraction_searched x Fraction.default_maxDen
                  Fraction.default_tol Htol)
        as (e & s0 & f' & z & Hrun & Hf' & Hnum & Hred & _ & _ & Herr).
      rewrite Hf in Hf'. injection Hf' as <-.
      destruct (search_bounds _ _ _ _ _ Hrun) as [_ Hhalf].
      rewrite Hnum in Hone |- *. cbn [number_abs] in Hone.
      destruct (unit_fraction x z (Fraction.den f) Hred
                  ltac:(rewrite Herr; exact Hhalf) Hone)
        as (Ed & [[Ez Hx]|[Ez Hx]]).
      * rewrite Ed, Ez. cbn [number_lt_zero].
        destruct (Qltb_spec x 0) as [|_]; [contradiction|].
        unfold Fraction.fracToLatex.
        destruct (Latex.firstWritten s); reflexivity.
      * rewrite Ed, Ez. cbn [number_lt_zero].
        destruct (Qltb_spec x 0) as [_|]; [|contradiction].
        unfold Fraction.fracToLatex.
        destruct (Latex.firstWritten s); reflexivity.
  - eexists _, false. split; [reflexivity|].
    split; [reflexivity|].
    split; [discriminate|]. intros (q & Hq & _). discriminate.
  - eexists _, false. split; [reflexivity|].
    split; [reflexivity|].
    split; [discriminate|]. intros (q & Hq & _). discriminate.
  - eexists _, false. split; [reflexivity|].
    split; [reflexivity|].
    split; [discriminate|]. intros (q & Hq & _). discriminate.
Qed.

(** The loop of [buildExpression]: it returns; it has written nothing
    exactly when it had written nothing before and all the coefficients
    are negligible; and the first part written has two characters at
    least. *)
Lemma build_loop_parts (terms : list Latex.term) :
  forall s : Latex.builder,
    (forall p ps, Latex.parts s = cons p ps ->
                  (2 <= String.length p)%nat) ->
    exists s',
      Latex.build_loop pr terms s = Some s'
      /\ (forall p ps, Latex.parts s' = cons p ps ->
                       (2 <= String.length p)%nat)
      /\ (Latex.parts s' = nil
          <-> Latex.parts s = nil /\ all_negligible terms).
Proof.
  induction terms as [|t terms IH]; intros s Hs.
  - exists s. cbn [Latex.build_loop all_negligible].
    split; [reflexivity|]. split; [exact Hs|]. tauto.
  - destruct (build_body_part s t) as (latex & isZero & _ & Hb & Hz).
    cbn [Latex.build_loop all_negligible]. rewrite Hb. cbn [bind].
    destruct isZero.
    + destruct (IH s Hs) as (s' & Hrun & Hlong & Hnil).
      exists s'. split; [exact Hrun|]. split; [exact Hlong|].
      rewrite Hnil. assert (negligible (Latex.coeff t)) by (apply Hz; auto).
      tauto.
    + match goal with
      | |- exists s', Latex.build_loop pr terms ?s1 = _ /\ _ =>
          destruct (IH s1) as (s' & Hrun & Hlong & Hnil)
      end.
      { cbn [Latex.parts]. intros p ps E.
        destruct (Latex.parts s) as [|p0 ps0] eqn:Hp.
        - cbn [app] in E. injection E as <- <-. apply trig_long.
        - cbn [app] in E. injection E as <- <-.
          apply (Hs p0 ps0 eq_refl). }
      exists s'. split; [exact Hrun|]. split; [exact Hlong|].
      rewrite Hnil. cbn [Latex.parts].
      assert (Hno : ~ negligible (Latex.coeff t)).
      { intros Hc. apply Hz in Hc. discriminate. }
      split.
      * intros [E _]. destruct (Latex.parts s); discriminate.
      * intros [_ [Hc _]]. contradiction.
Qed.

(** In [buildExpression], every term that is written is the string of
    its coefficient from [coeffLatex], with a plus sign unless it is the
    first one written, followed by the call of its trigonometric
    function; also for a coefficient of magnitude one, for which the
    special case of the loop writes that same string. *)
Theorem buildExpression_written_terms :
  forall (s : Latex.builder) (t : Latex.term),
  exists latex isZero,
    Latex.coeffLatex pr (Latex.coeff t) (negb (Latex.firstWritten s)) true
    = Some (latex, isZero)
    /\ Latex.build_body pr s t
       = Some (if isZero then s
               else Latex.mkBuilder
                      (Latex.parts s
                       ++ cons (latex ++ Latex.trig t)%string nil)
                      true).
Proof.
  intros s t.
  destruct (build_body_part s t) as (latex & isZero & Hc & Hb & _).
  exists latex, isZero. split; assumption.
Qed.

(** Over the rationals, [buildExpression] returns ['0'] exactly when
    every coefficient is a finite number up to 1/400 in magnitude. *)
Lemma buildExpression_zero_iff :
  forall terms : list Latex.term,
  exists s,
    Latex.buildExpression pr terms = Some s
    /\ (s = "0"%string <-> all_negligible terms).
Proof.
  intros terms. unfold Latex.buildExpression.
  destruct (build_loop_parts terms (Latex.mkBuilder nil false))
    as (s' & Hrun & Hlong & Hnil).
  { cbn [Latex.parts]. intros p ps E. discriminate. }
  rewrite Hrun. cbn [bind]. eexists. split; [reflexivity|].
  cbn [Latex.parts] in Hnil.
  destruct (Latex.parts s') as [|p ps] eqn:Hp.
  - split; [intros _; apply Hnil; reflexivity|reflexivity].
  - split.
    + intros E.
      pose proof (concat_long p ps (Hlong p ps eq_refl)) as Hl.
      rewrite E in Hl. cbn [String.length] in Hl. lia.
    + intros Hall.
      assert (E : @cons string p ps = nil) by (apply Hnil; auto).
      discriminate.
Qed.

Lemma substantial_not_negligible (terms : list Latex.term) :
  some_substantial terms -> ~ all_negligible terms.
Proof.
  induction terms as [|t terms IH]; cbn [some_substantial all_negligible].
  - intros [].
  - intros [Hs|Hs] [Hn Hall]; [|exact (IH Hs Hall)].
    destruct Hn as (q & Eq & Hq). rewrite Eq in Hs. cbn [substantial] in Hs.
    assert (H : (1 # 400) + (1 # 1000000000000000) <= 1 # 400)
      by (apply Qle_trans with (Qabs q); assumption).
    revert H. vm_compute. intros H. apply H. reflexivity.
Qed.

(** [buildExpression] returns ['0'] when every coefficient is a finite
    number up to 1/400 in magnitude: such a coefficient is taken for
    zero and its term is left out, whereas the tolerance of
    [decimalToFraction] is 1e-9.  It returns another string when one of
    the coefficients is not finite or at least [1/400 + 1e-15] in
    magnitude. *)
Theorem buildExpression_zero :
  forall terms : list Latex.term,
  exists s,
    Latex.buildExpression pr terms = Some s
    /\ (all_negligible terms -> s = "0"%string)
    /\ (some_substantial terms -> s <> "0"%string).
Proof.
  intros terms.
  destruct (buildExpression_zero_iff terms) as (s & Hs & Hz).
  exists s. split; [exact Hs|]. split.
  - apply Hz.
  - intros Hsub E. apply (substantial_not_negligible terms Hsub).
    apply Hz. exact E.
Qed.

End ExpressionBuilder.

(** * Fractions as LaTeX strings *)

Section LatexStrings.

Local Open Scope Q_scope.

Variable pr : printer.

(** The string of an integer: a minus sign, if it is negative, and the
    string of its magnitude. *)
Lemma toString_integer (z : Z) :
  toString pr (Finite (inject_Z z))
  = ((if (z <? 0)%Z then "-" else "")
     ++ toString pr (Finite (inject_Z (Z.abs z))))%string.
Proof. destruct z as [|p|p]; reflexivity. Qed.

Lemma Qabs_inject_Z (z : Z) : Qabs (inject_Z z) = inject_Z (Z.abs z).
Proof. destruct z; reflexivity. Qed.

Lemma Qeq_bool_integer (z : Z) :
  Qeq_bool (inject_Z z) 0 = (z =? 0)%Z.
Proof. destruct z; reflexivity. Qed.

Lemma Qltb_integer (z : Z) : Qltb (inject_Z z) 0 = (z <? 0)%Z.
Proof. destruct z; reflexivity. Qed.

(** The string of an integer of at most 2^53 in magnitude: its decimal
    digits, after a minus sign if it is negative. *)
Lemma toString_digits (z : Z) :
  (Z.abs z <= 2 ^ 53)%Z ->
  toString pr (Finite (inject_Z z))
  = ((if (z <? 0)%Z then "-" else "")
     ++ NilZero.string_of_int (Z.to_int (Z.abs z)))%string.
Proof.
  intros Hz. rewrite toString_integer. f_equal.
  unfold toString. rewrite Qltb_integer.
  replace (Z.abs z <? 0)%Z with false by (symmetry; apply Z.ltb_ge; lia).
  unfold digits. rewrite Qfloor_Z.
  replace (Qeq_bool (inject_Z (Z.abs z)) (inject_Z (Z.abs z))) with true
    by (symmetry; apply Qeq_bool_iff; reflexivity).
  replace (Z.abs z <=? 2 ^ 53)%Z with true
    by (symmetry; apply Z.leb_le; exact Hz).
  reflexivity.
Qed.

Lemma decimalToLatex_String (z : Z) (maxDen : option Z) (showPlus : bool) :
  Fraction.decimalToLatex pr (Finite (inject_Z z)) maxDen showPlus false
  = Some ((if showPlus && (0 <? z)%Z then "+" else "")
          ++ toString pr (Finite (inject_Z z)))%string.
Proof.
  unfold Fraction.decimalToLatex.
  destruct (Z.eq_dec z 0) as [->|Hz].
  - destruct showPlus; reflexivity.
  - rewrite (decimalToFraction_integer (inject_Z z) z);
      [|reflexivity|].
    + cbn [bind Fraction.num Fraction.den]. f_equal.
      unfold Fraction.fracToLatex.
      change (1 =? 0)%Z with false. cbn [Z.abs]. change (1 =? 1)%Z with true.
      rewrite Qeq_bool_integer, Qltb_integer, andb_false_r.
      replace (z =? 0)%Z with false by (symmetry; apply Z.eqb_neq; exact Hz).
      rewrite Qabs_inject_Z, (toString_integer z).
      destruct (Z.ltb_spec z 0) as [Hneg|Hpos].
      * replace (0 <? z)%Z with false by (symmetry; apply Z.ltb_ge; lia).
        rewrite andb_false_r. reflexivity.
      * replace (0 <? z)%Z with true by (symmetry; apply Z.ltb_lt; lia).
        destruct showPlus; reflexivity.
    + rewrite Qabs_inject_Z. unfold Fraction.default_tol.
      assert (H : inject_Z 1 <= inject_Z (Z.abs z))
        by (rewrite <- Zle_Qle; lia).
      change (inject_Z 1) with 1 in H. lra.
Qed.

(** [decimalToLatex] writes an integer of at most 2^53 in magnitude with
    its decimal digits, after a minus sign if it is negative and after a
    plus sign, if [showPlus] is set, when it is positive. *)
Theorem decimalToLatex_integer :
  forall (z : Z) (maxDen : option Z) (showPlus : bool),
    (Z.abs z <= 2 ^ 53)%Z ->
    Fraction.decimalToLatex pr (Finite (inject_Z z)) maxDen showPlus false
    = Some ((if showPlus && (0 <? z)%Z then "+" else "")
            ++ (if (z <? 0)%Z then "-" else "")
            ++ NilZero.string_of_int (Z.to_int (Z.abs z)))%string.
Proof.
  intros z maxDen showPlus Hz.
  rewrite decimalToLatex_String, (toString_digits z Hz). reflexivity.
Qed.

(** The error of the best candidate of [toFraction] is at most the
    distance of [ax] to its integer part. *)
Lemma toFraction_err_floor (ax : Q) (maxDen : Z) e s :
  Fractions.mediant_search ax maxDen = Some (e, s) ->
  Fractions.best_err s <= Qabs (ax - inject_Z (Qfloor ax)).
Proof.
  intros Hrun. unfold Fractions.mediant_search in Hrun.
  apply (toFraction_best
           (fun _ _ e => e <= Qabs (ax - inject_Z (Qfloor ax)))
           ax maxDen) with (3 := Hrun).
  - intros s0 Hs0 _ Hlt. lra.
  - unfold Fractions.search_init.
    destruct (Qltb_spec (Qabs (ax - inject_Z (Qfloor ax + 1)))
                        (Qabs (ax - inject_Z (Qfloor ax)))) as [Hlt|Hge];
      cbn [Fractions.best_err]; lra.
Qed.

(** [toFraction] returns zero for a number below 1e-12 in magnitude,
    when [maxDen] is at most 1e11. *)
Lemma toFraction_tiny (x : Q) (maxDen : Z) (f : Fractions.frac) :
  (maxDen <= 10 ^ 11)%Z ->
  Qabs x < 1 # 1000000000000 ->
  Fractions.toFraction (Finite x) maxDen = Some (Some f) ->
  f = Fractions.mkFrac 0 1.
Proof.
  intros Hmax Hsmall Hf.
  destruct (Qeq_dec x 0) as [Hz|Hnz].
  { unfold Fractions.toFraction in Hf.
    replace (Qeq_bool x 0) with true in Hf
      by (symmetry; apply Qeq_bool_iff; exact Hz).
    injection Hf as <-. reflexivity. }
  assert (Hpos : 0 < Qabs x).
  { pose proof (Qabs_nonneg x) as H0.
    destruct (Qlt_le_dec 0 (Qabs x)) as [|Hle]; [assumption|].
    exfalso. apply Hnz.
    assert (E : Qabs x == 0) by lra.
    revert E. apply Qabs_case; intros; lra. }
  assert (Hfl : Qfloor (Qabs x) = 0%Z).
  { pose proof (Qfloor_le (Qabs x)) as Hle.
    pose proof (Qlt_floor (Qabs x)) as Hlt.
    assert (A : inject_Z (Qfloor (Qabs x)) < inject_Z 1)
      by (change (inject_Z 1) with 1; lra).
    assert (B : inject_Z 0 < inject_Z (Qfloor (Qabs x) + 1))
      by (change (inject_Z 0) with 0; lra).
    rewrite <- Zlt_Qlt in A, B. lia. }
  destruct (toFraction_searched x maxDen) as
    (e & s & f' & Hrun & Hf' & Hinv & Hbd & Hval & Herr).
  { rewrite Hfl. change (inject_Z 0) with 0. lra. }
  { lra. }
  rewrite Hf in Hf'. injection Hf' as <-.
  pose proof (toFraction_err_floor _ _ _ _ Hrun) as Hbest.
  rewrite Hfl in Hbest. change (inject_Z 0) with 0 in Hbest.
  assert (Hbest' : Fractions.best_err s <= Qabs x).
  { eapply Qle_trans; [exact Hbest|]. rewrite Qabs_pos; lra. }
  destruct (toFraction_search_bounds _ _ _ _ Hrun) as [Hden _].
  pose proof (reduced_den_le _ _ _ _ Hinv Hbd Hval) as Hdf.
  destruct Hinv as (Hd0 & Hg & Hzero).
  assert (Hn : Fractions.n f = 0%Z).
  { destruct (Z.eq_dec (Fractions.n f) 0) as [|Hn]; [assumption|].
    exfalso.
    set (D := inject_Z (Fractions.d f)) in *.
    set (v := inject_Z (Fractions.n f) / D) in *.
    assert (HD1 : 1 <= D).
    { unfold D. change 1 with (inject_Z 1). rewrite <- Zle_Qle. lia. }
    assert (HD2 : D <= 100000000000).
    { unfold D. change 100000000000 with (inject_Z (10 ^ 11)).
      rewrite <- Zle_Qle. lia. }
    assert (Hv : v * D == inject_Z (Fractions.n f))
      by (unfold v; field; lra).
    assert (He : Qabs (x - v) <= Qabs x)
      by (unfold err in Herr; fold D in Herr; fold v in Herr;
          rewrite Herr; exact Hbest').
    assert (Hx : - (1 # 1000000000000) < x < 1 # 1000000000000).
    { revert Hsmall. apply Qabs_case; intros; lra. }
    assert (Hxx : Qabs x < 1 # 1000000000000) by exact Hsmall.
    assert (Hv' : - (2 # 1000000000000) < v < 2 # 1000000000000).
    { revert He. apply Qabs_case; intros; lra. }
    destruct (Z_lt_le_dec (Fractions.n f) 0) as [Hneg|Hnn].
    - assert (Hi : inject_Z (Fractions.n f) <= inject_Z (-1))
        by (rewrite <- Zle_Qle; lia).
      change (inject_Z (-1)) with (-1 # 1) in Hi.
      assert (v * D <= -1) by lra.
      assert (- (2 # 1000000000000) * D <= v * D)
        by (apply Qmult_le_compat_r; lra).
      lra.
    - assert (Hi : inject_Z 1 <= inject_Z (Fractions.n f))
        by (rewrite <- Zle_Qle; lia).
      change (inject_Z 1) with 1 in Hi.
      assert (1 <= v * D) by lra.
      assert (v * D <= (2 # 1000000000000) * D)
        by (apply Qmult_le_compat_r; lra).
      lra. }
  destruct f as [n d]. cbn [Fractions.n Fractions.d] in *.
  subst n. rewrite (Hzero eq_refl). reflexivity.
Qed.

(** [coeffToLatex] is [fracToLatex] after [toFraction], with a plus sign
    before a positive fraction if [forceSign] is set: for every number
    that [toFraction] approximates, when [maxDen] is at most 1e11. *)
Theorem coeffToLatex_fracToLatex :
  forall (x : number) (maxDen : Z) (forceSign : bool) (f : Fractions.frac),
    (maxDen <= 10 ^ 11)%Z ->
    Fractions.toFraction x maxDen = Some (Some f) ->
    Fractions.coeffToLatex pr x (Some maxDen) forceSign
    = Some ((if forceSign && (0 <? Fractions.n f)%Z then "+" else "")
            ++ Fractions.fracToLatex pr f)%string.
Proof.
  intros x maxDen forceSign f Hmax Hf.
  destruct x as [q| | |]; try discriminate.
  unfold Fractions.coeffToLatex.
  destruct (Qltb_spec (Qabs q) (1 # 1000000000000)) as [Hsmall|_].
  - rewrite (toFraction_tiny q maxDen f Hmax Hsmall Hf).
    destruct forceSign; reflexivity.
  - rewrite Hf. cbn [bind].
    destruct (toFraction_finite q maxDen) as (r & Hr & Hinv).
    rewrite Hf in Hr. injection Hr as <-.
    destruct Hinv as (_ & (Hd0 & _ & Hzero) & _).
    unfold Fractions.fracToLatex.
    destruct (Z.eqb_spec (Fractions.n f) 0) as [Hn|Hn].
    + rewrite (Hzero Hn), Hn. destruct forceSign; reflexivity.
    + rewrite !(toString_integer (Fractions.n f)).
      destruct (Z.ltb_spec (Fractions.n f) 0) as [Hneg|Hpos].
      * replace (0 <? Fractions.n f)%Z with false
          by (symmetry; apply Z.ltb_ge; lia).
        rewrite andb_false_r.
        replace (- Fractions.n f)%Z with (Z.abs (Fractions.n f)) by lia.
        destruct (Fractions.d f =? 1)%Z; reflexivity.
      * replace (0 <? Fractions.n f)%Z with true
          by (symmetry; apply Z.ltb_lt; lia).
        replace (Z.abs (Fractions.n f)) with (Fractions.n f) by lia.
        destruct (Fractions.d f =? 1)%Z; destruct forceSign; reflexivity.
Qed.

End LatexStrings.

Lemma coeffToLatex_fracToLatex_witness :
  let pr := mkPrinter (fun _ => ""%string) (fun _ _ => ""%string) in
  Fractions.coeffToLatex pr (Finite (-3 # 4)%Q) (Some 1000%Z) true
  = Some ((if true && (0 <? Fractions.n (Fractions.mkFrac (-3) 4))%Z
           then "+" else "")
          ++ Fractions.fracToLatex pr (Fractions.mkFrac (-3) 4))%string.
Proof.
  apply (coeffToLatex_fracToLatex
           (mkPrinter (fun _ => ""%string) (fun _ _ => ""%string))
           (Finite (-3 # 4)%Q) 1000 true (Fractions.mkFrac (-3) 4)).
  - lia.
  - vm_compute. reflexivity.
Defined.

Lemma decimalToLatex_integer_witness :
  let pr := mkPrinter (fun _ => ""%string) (fun _ _ => ""%string) in
  Fraction.decimalToLatex pr (Finite (inject_Z (-42))) None true false
  = Some "-42"%string.
Proof.
  exact (decimalToLatex_integer
           (mkPrinter (fun _ => ""%string) (fun _ _ => ""%string))
           (-42)%Z None true ltac:(vm_compute; discriminate)).
Defined.
